(** * EtherGuard-VPN: routing plane of the supernode and of the edge

    A shallow embedding of the Go sources

      - package [conn]: [ValidIP], [LookupIP], [PrettyName]
      - the graph of package [path]: [NewGraph], [UpdateLatency], [Weight],
        [OldWeight], [GetWeightType], [ShouldUpdate], [CheckAnyShouldUpdate],
        [ShouldCalculate], [SetWeight], [SetOldWeight],
        [RemoveAllNegativeValue], [FloydWarshall], [RecalculateNhTable],
        [RemoveVirt], [Path], [Next], [SetNHTable], [GetNHTable], [GetEdges],
        [GetBoardcastList], [GetBoardcastThroughList]
      - the supernode of package [main]: [checkNhTable], the register and
        the pong branch of [Event_server_event_hendler],
        [RoutinePushSettings], [PushNhTable], [PushPeerinfo]

    into Rocq, followed by the properties proved about them.

    Conventions of the embedding.

    - A Go [float64] is modelled by an exact rational ([Q]): the graph only
      adds, multiplies and compares latencies, so rounding is the one thing
      this model leaves out.  [math.Pow] is not rational; it is a parameter
      of the section that needs it.
    - Where the answer of the code depends on the rounding, the code is
      modelled with it.  Module [Float64] is IEEE 754 binary64, operation
      by operation, and holds the threshold test of [ShouldUpdate];
      [FloydWarshall_fl] is [FloydWarshall] with the rounded addition as a
      parameter, and its theorems assume of that addition only that it
      keeps the order of the exact sums and adds zero exactly, which is
      proved of the sum rounded to 53 bits ([fadd53]).
    - A [config.Vertex] (a [uint16]) is an [N]; a [time.Time] and a
      [time.Duration] are integers ([Z], nanoseconds).
    - A Go map is a [gmap]; reading an absent key yields the zero value of the
      element type, which the accessors below write out.
    - Go leaves the order of [range] over a map unspecified.  Where the result
      can depend on it the order is an explicit argument (a list of the keys),
      and the theorems quantify over every such list.
    - [time.Now()] is an argument [now]; one call of a modelled function sees
      one instant.
    - A [*config.Vertex] is an [option Vertex] where the code only reads the
      vertex behind the pointer.  Where it compares the pointers themselves
      the table holds a [Ptr], an address with the vertex stored there, and
      the next free address is part of the state.
    - A loop without a bound of its own takes [fuel]; a call that can panic
      or run out of fuel returns an [outcome].
    - A Go string that is cut by index is the list of its bytes.
    - What the network, the packet encoder and the runtime answer
      ([net.Dial], [GetByte], the name of a function) is an argument or a
      parameter of the section that needs it. *)

From Stdlib Require Import ZArith QArith Qabs Qminmax Qround Lqa Lia List Bool.
From Stdlib Require Import Strings.String Strings.Ascii Strings.Byte.
From Stdlib Require Import Floats.SpecFloat Qpower.
From stdpp Require Import base option gmap list fin_maps strings pretty sorting.

Local Open Scope Q_scope.

(* ===================================================================== *)
(** * Part I.  The embedding                                              *)
(* ===================================================================== *)

#[global] Instance byte_eq_decision : EqDecision byte := Byte.byte_eq_dec.

(** ** Package conn *)

(** [func ValidIP(ip net.IP) bool]: the loop is [for b := range ip], so [b]
    is the index of the element, not the element. *)
Fixpoint ValidIP_from (b : nat) (ip : list byte) : bool :=
  match ip with
  | [] => false
  | _ :: rest => if negb (Nat.eqb b 0) then true else ValidIP_from (S b) rest
  end.

Definition ValidIP (ip : list byte) : bool := ValidIP_from 0 ip.

(** ** Package path: data *)

Definition Vertex : Type := N.
Definition Time : Type := Z.
Definition Duration : Type := Z.

(** [const Infinity = float64(99999)] *)
Definition Infinity : Q := 99999.

(** [type Latency struct { ping, ping_old float64; time time.Time }] *)
Record Latency : Type := mkLatency {
  ping : Q;
  ping_old : Q;
  time : Time
}.

(** [config.DistTable] and [config.NextHopTable]; a [*Vertex] may be nil. *)
Abbreviation DistTable := (gmap Vertex (gmap Vertex Q)).
Abbreviation NextHopTable := (gmap Vertex (gmap Vertex (option Vertex))).
Abbreviation EdgeMap := (gmap Vertex (gmap Vertex Latency)).

(** The fields of [type IG struct] that the modelled functions read or
    write. *)
Record IG : Type := mkIG {
  Vert : gmap Vertex bool;
  edges : EdgeMap;
  StaticMode : bool;
  JitterTolerance : Q;
  JitterToleranceMultiplier : Q;
  NodeReportTimeout : Duration;
  RecalculateCoolDown : Duration;
  recalculateTime : Time;
  dlTable : DistTable;
  nhTable : NextHopTable;
  NhTableHash : list byte;
  NhTableExpire : Time;
  SuperNodeInfoTimeout : Duration;
  IsSuperMode : bool
}.

Definition set_edges (g : IG) (e : EdgeMap) : IG :=
  mkIG (Vert g) e (StaticMode g) (JitterTolerance g)
       (JitterToleranceMultiplier g) (NodeReportTimeout g)
       (RecalculateCoolDown g) (recalculateTime g) (dlTable g) (nhTable g)
       (NhTableHash g) (NhTableExpire g) (SuperNodeInfoTimeout g)
       (IsSuperMode g).

(** Reading a two-level Go map: [m[u][v]], with the presence bit of the
    inner lookup. *)
Definition lookup2 {A : Type} (m : gmap Vertex (gmap Vertex A)) (u v : Vertex)
  : option A :=
  match m !! u with
  | Some row => row !! v
  | None => None
  end.

(** [m[u][v] = x] where the row [m[u]] has been made before. *)
Definition insert2 {A : Type} (u v : Vertex) (x : A)
    (m : gmap Vertex (gmap Vertex A)) : gmap Vertex (gmap Vertex A) :=
  <[u := <[v := x]> (default ∅ (m !! u))]> m.

(** [dist[u][v]] as a float: 0 when the key is absent. *)
Definition dist_at (dist : DistTable) (u v : Vertex) : Q :=
  default 0 (lookup2 dist u v).

(** [next[u][v]] as a pointer: nil when the key is absent. *)
Definition next_at (next : NextHopTable) (u v : Vertex) : option Vertex :=
  default None (lookup2 next u v).

(** ** Package path: reading and writing weights *)

(** [time.Now().After(l.time.Add(g.NodeReportTimeout))] *)
Definition stale (g : IG) (now : Time) (l : Latency) : bool :=
  (time l + NodeReportTimeout g <? now)%Z.

(** [func (g *IG) Weight(u, v config.Vertex) float64] *)
Definition Weight (g : IG) (now : Time) (u v : Vertex) : Q :=
  if decide (u = v) then 0
  else match edges g !! u with
       | None => Infinity
       | Some row =>
           match row !! v with
           | None => Infinity
           | Some l => if stale g now l then Infinity else ping l
           end
       end.

(** [func (g *IG) OldWeight(u, v config.Vertex) float64] *)
Definition OldWeight (g : IG) (u v : Vertex) : Q :=
  if decide (u = v) then 0
  else match edges g !! u with
       | None => Infinity
       | Some row =>
           match row !! v with
           | None => Infinity
           | Some l => ping_old l
           end
       end.

(** [func (g *IG) SetWeight(u, v config.Vertex, weight float64)] *)
Definition SetWeight (g : IG) (u v : Vertex) (weight : Q) : IG :=
  match edges g !! u with
  | None => g
  | Some row =>
      match row !! v with
      | None => g
      | Some l =>
          set_edges g
            (<[u := <[v := mkLatency weight (ping_old l) (time l)]> row]>
               (edges g))
      end
  end.

(** [func (g *IG) SetOldWeight(u, v config.Vertex, weight float64)] *)
Definition SetOldWeight (g : IG) (u v : Vertex) (weight : Q) : IG :=
  match edges g !! u with
  | None => g
  | Some row =>
      match row !! v with
      | None => g
      | Some l =>
          set_edges g
            (<[u := <[v := mkLatency (ping l) weight (time l)]> row]>
               (edges g))
      end
  end.

(** [func (g IG) Neighbors(v config.Vertex) []config.Vertex]: the keys of
    [g.edges[v]]. *)
Definition Neighbors (g : IG) (v : Vertex) : list Vertex :=
  match edges g !! v with
  | None => []
  | Some row => (map_to_list row).*1
  end.

(** [is_range_order vs m]: [vs] is an order in which [range m] may visit
    the keys of [m]: each key once. *)
Definition is_range_order {A : Type} (vs : list Vertex) (m : gmap Vertex A)
  : Prop :=
  NoDup vs ∧ ∀ v, v ∈ vs ↔ is_Some (m !! v).

(** ** Package path: building a graph *)

(** [config.GraphRecalculateSetting], the fields [NewGraph] reads. *)
Record GraphRecalculateSetting : Type := mkGraphRecalculateSetting {
  cfg_StaticMode : bool;
  cfg_JitterTolerance : Q;
  cfg_JitterToleranceMultiplier : Q;
  cfg_NodeReportTimeout : Q;
  cfg_RecalculateCoolDown : Q
}.

(** [func S2TD(secs float64) time.Duration]; the conversion of a float to an
    integer truncates. *)
Definition S2TD (secs : Q) : Duration :=
  let ns := secs * 1000000000 in
  if Qle_bool 0 ns then Qfloor ns else Qceiling ns.

(** [time.Time{}], the first instant of year 1, in nanoseconds before 1970. *)
Definition zero_time : Time := (-62135596800000000000)%Z.

(** [func NewGraph(num_node int, IsSuperMode bool, theconfig ..., ...) *IG] *)
Definition NewGraph (IsSuperMode : bool) (theconfig : GraphRecalculateSetting)
  : IG :=
  mkIG ∅ ∅ (cfg_StaticMode theconfig) (cfg_JitterTolerance theconfig)
       (cfg_JitterToleranceMultiplier theconfig)
       (S2TD (cfg_NodeReportTimeout theconfig))
       (S2TD (cfg_RecalculateCoolDown theconfig))
       zero_time ∅ ∅ (repeat x00 32) zero_time 0%Z IsSuperMode.

(** [g.UpdateLatency(u, v, dt, false, false)]: with [recalculate] false the
    call only records the measurement. *)
Definition UpdateLatency (g : IG) (now : Time) (u v : Vertex) (dt : Duration)
  : IG :=
  let vert := <[v := true]> (<[u := true]> (Vert g)) in
  let w := inject_Z dt / 1000000000 in
  let '(rt, e) :=
    match edges g !! u with
    | None => (zero_time, <[u := ∅]> (edges g))
    | Some _ => (recalculateTime g, edges g)
    end in
  let row := default ∅ (e !! u) in
  let l :=
    match row !! v with
    | Some l => mkLatency w (ping_old l) now
    | None => mkLatency w Infinity now
    end in
  mkIG vert (<[u := <[v := l]> row]> e) (StaticMode g) (JitterTolerance g)
       (JitterToleranceMultiplier g) (NodeReportTimeout g)
       (RecalculateCoolDown g) rt (dlTable g) (nhTable g) (NhTableHash g)
       (NhTableExpire g) (SuperNodeInfoTimeout g) (IsSuperMode g).

(** ** Package path: the jitter policy *)

Definition Qltb (a b : Q) : bool := negb (Qle_bool b a).

(** [math.Ceil] on a rational. *)
Definition math_Ceil (x : Q) : Q := inject_Z (Qceiling x).

Section Jitter.

(** [math.Pow], of Go's standard library. *)
Variable math_Pow : Q → Q → Q.

(** [func (g *IG) GetWeightType(x float64) (y float64)] *)
Definition GetWeightType (g : IG) (x : Q) : Q :=
  let x := Qabs x in
  if Qltb (1 # 1000) (JitterTolerance g)
     && Qltb 1 (JitterToleranceMultiplier g)
  then
    let t := JitterTolerance g in
    let r := JitterToleranceMultiplier g in
    math_Pow (math_Ceil (math_Pow (x / t) (1 / r))) r * t
  else x.

(** [func (g *IG) ShouldUpdate(u, v config.Vertex, newval float64) bool] *)
Definition ShouldUpdate (g : IG) (u v : Vertex) (newval : Q) : bool :=
  let oldval := Qabs (OldWeight g u v * 1000) in
  let newval := Qabs (newval * 1000) in
  if IsSuperMode g then
    if Qltb (1 # 1000) (JitterTolerance g)
       && Qle_bool 1 (JitterToleranceMultiplier g)
    then
      let diff := Qabs (newval - oldval) in
      let x := Qmax oldval newval in
      let t := JitterTolerance g in
      let r := JitterToleranceMultiplier g in
      Qltb (t + x * (r - 1)) diff
    else Qeq_bool oldval newval
  else negb (Qeq_bool (GetWeightType g oldval) (GetWeightType g newval)).

End Jitter.

(** ** Package path: all-pairs shortest paths *)

(** [func (g *IG) RemoveAllNegativeValue()]; [vs] is the order in which the
    copy of [g.Vert] is ranged. *)
Definition RemoveAllNegativeValue (g : IG) (now : Time) (vs : list Vertex)
  : IG :=
  foldl (fun g u =>
           foldl (fun g v =>
                    if Qltb (Weight g now u v) 0 then SetWeight g u v 0 else g)
                 g vs)
        g vs.

(** The state of one run of [FloydWarshall]: the two tables under
    construction and the graph, whose [ping_old] fields the run writes. *)
Definition fw_state : Type := DistTable * NextHopTable * IG.

(** The body of [for _, v := range g.Neighbors(u)]. *)
Definition fw_init_edge (now : Time) (u : Vertex) (st : fw_state)
    (v : Vertex) : fw_state :=
  let '(dist, next, g) := st in
  let w := Weight g now u v in
  let '(dist, next) :=
    if Qltb w Infinity
    then (insert2 u v w dist, insert2 u v (Some v) next)
    else (dist, next) in
  (dist, next, SetOldWeight g u v w).

(** The body of the first [for u, _ := range vert]. *)
Definition fw_init_row (now : Time) (vs : list Vertex) (st : fw_state)
    (u : Vertex) : fw_state :=
  let '(dist, next, g) := st in
  let dist := <[u := ∅]> dist in
  let next := <[u := ∅]> next in
  let dist := foldl (fun d v => insert2 u v Infinity d) dist vs in
  let dist := insert2 u u 0 dist in
  foldl (fw_init_edge now u) (dist, next, g) (Neighbors g u).

Definition fw_init (g : IG) (now : Time) (vs : list Vertex) : fw_state :=
  foldl (fw_init_row now vs) (∅, ∅, g) vs.

(** The body of the innermost loop of the triple loop. *)
Definition fw_relax (k i : Vertex) (st : DistTable * NextHopTable)
    (j : Vertex) : DistTable * NextHopTable :=
  let '(dist, next) := st in
  if Qltb (dist_at dist i k) Infinity && Qltb (dist_at dist k j) Infinity
  then
    if Qltb (dist_at dist i k + dist_at dist k j) (dist_at dist i j)
    then (insert2 i j (dist_at dist i k + dist_at dist k j) dist,
          insert2 i j (next_at next i k) next)
    else st
  else st.

Definition fw_round (vs : list Vertex) (st : DistTable * NextHopTable)
    (k : Vertex) : DistTable * NextHopTable :=
  foldl (fun st i => foldl (fw_relax k i) st vs) st vs.

Definition fw_loop (vs : list Vertex) (st : DistTable * NextHopTable)
  : DistTable * NextHopTable :=
  foldl (fw_round vs) st vs.

(** [for i := range dist { if dist[i][i] < 0 ... }]: both branches return,
    so only whether some key has a negative diagonal entry matters. *)
Definition negative_cycle (dist : DistTable) : bool :=
  existsb (fun i => Qltb (dist_at dist i i) 0) (map_to_list dist).*1.

(** Initialisation and triple loop of one call. *)
Definition fw_run (g : IG) (now : Time) (vs : list Vertex) : fw_state :=
  let '(dist, next, g) := fw_init g now vs in
  let '(dist, next) := fw_loop vs (dist, next) in
  (dist, next, g).

(** The value of [err] is the message given to [errors.New]. *)
Definition fw_result : Type := DistTable * NextHopTable * option string * IG.

(** [FloydWarshall(true)]: the retry; it does not recurse. *)
Definition FloydWarshall_again (g : IG) (now : Time) (vs : list Vertex)
  : fw_result :=
  let '(dist, next, g) := fw_run g now vs in
  if negative_cycle dist
  then (∅, ∅, Some "negative cycle detected again!"%string, g)
  else (dist, next, None, g).

(** [func (g *IG) FloydWarshall(again bool) (dist, next, err)], returning
    the graph as well.  [vs] is the order of this call's range over the
    vertices, [vr] the one of [RemoveAllNegativeValue] and [va] the one of
    the retry. *)
Definition FloydWarshall (again : bool) (g : IG) (now : Time)
    (vs vr va : list Vertex) : fw_result :=
  if again then FloydWarshall_again g now vs
  else
    let '(dist, next, g) := fw_run g now vs in
    if negative_cycle dist
    then
      let g := RemoveAllNegativeValue g now vr in
      let '(dist, next, _, g) := FloydWarshall_again g now va in
      (dist, next, Some "negative cycle detected"%string, g)
    else (dist, next, None, g).

(** ** Package path: installing a next-hop table *)

(** [func (g *IG) SetNHTable(nh config.NextHopTable, table_hash [32]byte)] *)
Definition SetNHTable (g : IG) (now : Time) (nh : NextHopTable)
    (table_hash : list byte) : IG :=
  mkIG (Vert g) (edges g) (StaticMode g) (JitterTolerance g)
       (JitterToleranceMultiplier g) (NodeReportTimeout g)
       (RecalculateCoolDown g) (recalculateTime g) (dlTable g) nh table_hash
       (now + SuperNodeInfoTimeout g)%Z (SuperNodeInfoTimeout g)
       (IsSuperMode g).

(** ** Package path: following the next-hop table *)

(** How a call that can fail ends: with a value, with Go's panic on a nil
    pointer, or (in the model only) with the loop budget used up. *)
Inductive outcome (A : Type) : Type :=
| Returns (a : A)
| NilDereference
| OutOfFuel.
Arguments Returns {A} a.
Arguments NilDereference {A}.
Arguments OutOfFuel {A}.

Definition obind {A B : Type} (m : outcome A) (f : A → outcome B)
  : outcome B :=
  match m with
  | Returns a => f a
  | NilDereference => NilDereference
  | OutOfFuel => OutOfFuel
  end.

Notation "'let!' x ':=' m 'in' k" := (obind m (fun x => k))
  (at level 10, x name, m at level 200, k at level 200).

(** The loop [for u != v { u = *next[u][v]; path = append(path, u) }];
    [fuel] bounds the number of iterations. *)
Fixpoint Path_loop (fuel : nat) (next : NextHopTable) (u v : Vertex)
    (path : list Vertex) {struct fuel} : outcome (list Vertex) :=
  if decide (u = v) then Returns path
  else
    match fuel with
    | O => OutOfFuel
    | S fuel =>
        match next_at next u v with
        | None => NilDereference
        | Some u' => Path_loop fuel next u' v (path ++ [u'])
        end
    end.

(** [func Path(u, v config.Vertex, next config.NextHopTable) []config.Vertex] *)
Definition Path (fuel : nat) (u v : Vertex) (next : NextHopTable)
  : outcome (list Vertex) :=
  match next_at next u v with
  | None => Returns []
  | Some _ => Path_loop fuel next u v [u]
  end.

(** [func (g *IG) GetBoardcastList(id config.Vertex) map[config.Vertex]bool];
    the result only ever maps keys to [true], so it is a set. *)
Definition GetBoardcastList (g : IG) (id : Vertex) : outcome (gset Vertex) :=
  foldr (fun element acc =>
           let! tosend := acc in
           match element with
           | None => NilDereference
           | Some e => Returns ({[e]} ∪ tosend)
           end)
        (Returns ∅)
        (map_to_list (default ∅ (nhTable g !! id))).*2.

(** [func (g *IG) GetBoardcastThroughList(self_id, in_id, src_id)] *)
Definition GetBoardcastThroughList (fuel : nat) (g : IG)
    (self_id in_id src_id : Vertex) : outcome (gset Vertex) :=
  let! bl := GetBoardcastList g self_id in
  foldr (fun check_id acc =>
           let! tosend := acc in
           let! path := Path fuel src_id check_id (nhTable g) in
           Returns
             (if existsb (fun path_node =>
                            bool_decide (path_node = self_id)
                            && negb (bool_decide (check_id = in_id))) path
              then {[check_id]} ∪ tosend else tosend))
        (Returns ∅) (elements bl).

(** ** Go's standard library: crypto/md5, encoding/hex, encoding/json *)

(** [md5.Sum] (RFC 1321) on bytes; 32-bit words are integers below 2^32. *)
Module MD5.

Definition add32 (a b : Z) : Z := ((a + b) mod 4294967296)%Z.
Definition not32 (a : Z) : Z := (4294967295 - a)%Z.
Definition rotl32 (x c : Z) : Z :=
  Z.lor (Z.shiftl x c mod 4294967296)%Z (Z.shiftr x (32 - c)%Z).

Definition shifts : list Z :=
  [7; 12; 17; 22; 7; 12; 17; 22; 7; 12; 17; 22; 7; 12; 17; 22;
   5; 9; 14; 20; 5; 9; 14; 20; 5; 9; 14; 20; 5; 9; 14; 20;
   4; 11; 16; 23; 4; 11; 16; 23; 4; 11; 16; 23; 4; 11; 16; 23;
   6; 10; 15; 21; 6; 10; 15; 21; 6; 10; 15; 21; 6; 10; 15; 21]%Z.

Definition sines : list Z :=
  [3614090360; 3905402710; 606105819; 3250441966; 4118548399; 1200080426;
   2821735955; 4249261313; 1770035416; 2336552879; 4294925233; 2304563134;
   1804603682; 4254626195; 2792965006; 1236535329; 4129170786; 3225465664;
   643717713; 3921069994; 3593408605; 38016083; 3634488961; 3889429448;
   568446438; 3275163606; 4107603335; 1163531501; 2850285829; 4243563512;
   1735328473; 2368359562; 4294588738; 2272392833; 1839030562; 4259657740;
   2763975236; 1272893353; 4139469664; 3200236656; 681279174; 3936430074;
   3572445317; 76029189; 3654602809; 3873151461; 530742520; 3299628645;
   4096336452; 1126891415; 2878612391; 4237533241; 1700485571; 2399980690;
   4293915773; 2240044497; 1873313359; 4264355552; 2734768916; 1309151649;
   4149444226; 3174756917; 718787259; 3951481745]%Z.

Definition state : Type := Z * Z * Z * Z.

Definition round (M : list Z) (st : state) (i : nat) : state :=
  let '(a, b, c, d) := st in
  let iz := Z.of_nat i in
  let '(f, g) :=
    if (iz <? 16)%Z then (Z.lor (Z.land b c) (Z.land (not32 b) d), iz)
    else if (iz <? 32)%Z
         then (Z.lor (Z.land d b) (Z.land (not32 d) c), ((5 * iz + 1) mod 16)%Z)
    else if (iz <? 48)%Z then (Z.lxor b (Z.lxor c d), ((3 * iz + 5) mod 16)%Z)
    else (Z.lxor c (Z.lor b (not32 d)), ((7 * iz) mod 16)%Z) in
  let f :=
    add32 (add32 (add32 f a) (nth i sines 0%Z)) (nth (Z.to_nat g) M 0%Z) in
  (d, add32 b (rotl32 f (nth i shifts 0%Z)), b, c).

Fixpoint words (bs : list Z) : list Z :=
  match bs with
  | b0 :: b1 :: b2 :: b3 :: rest =>
      (b0 + 256 * b1 + 65536 * b2 + 16777216 * b3)%Z :: words rest
  | _ => []
  end.

Definition block (st : state) (chunk : list Z) : state :=
  let '(a0, b0, c0, d0) := st in
  let '(a, b, c, d) := fold_left (round (words chunk)) (seq 0 64) st in
  (add32 a0 a, add32 b0 b, add32 c0 c, add32 d0 d).

Fixpoint blocks (n : nat) (st : state) (bs : list Z) : state :=
  match n with
  | O => st
  | S n => blocks n (block st (firstn 64 bs)) (skipn 64 bs)
  end.

Definition le_bytes (k : nat) (x : Z) : list Z :=
  List.map (fun i => (Z.shiftr x (8 * Z.of_nat i) mod 256)%Z) (seq 0 k).

Definition pad (msg : list Z) : list Z :=
  let len := Z.of_nat (List.length msg) in
  let zeros := Z.to_nat ((55 - len) mod 64)%Z in
  msg ++ [128%Z] ++ repeat 0%Z zeros ++ le_bytes 8 (8 * len)%Z.

Definition sum (msg : list byte) : list byte :=
  let bs := pad (List.map (fun b => Z.of_N (Byte.to_N b)) msg) in
  let '(a, b, c, d) :=
    blocks (List.length bs / 64)
           (1732584193, 4023233417, 2562383102, 271733878)%Z bs in
  List.map
    (fun z => match Byte.of_N (Z.to_N z) with Some b => b | None => x00 end)
    (le_bytes 4 a ++ le_bytes 4 b ++ le_bytes 4 c ++ le_bytes 4 d).

End MD5.

Definition hex_digit (n : N) : byte :=
  match Byte.of_N (if (n <? 10)%N then 48 + n else 87 + n)%N with
  | Some b => b
  | None => x00
  end.

(** [hex.EncodeToString], as bytes. *)
Definition hex_EncodeToString (bs : list byte) : list byte :=
  List.flat_map
    (fun b => [hex_digit (Byte.to_N b / 16)%N; hex_digit (Byte.to_N b mod 16)%N])
    bs.

Definition json_quote : string := String (ascii_of_nat 34) EmptyString.

(** The order in which [encoding/json] writes the members of a map: by
    key, as strings. *)
Definition member_le (a b : string * string) : Prop :=
  String.leb a.1 b.1 = true.

#[global] Instance member_le_dec : RelDecision member_le :=
  fun a b => decide (String.leb a.1 b.1 = true).

(** A JSON object with its members in the order of their keys, as
    [encoding/json] writes a map. *)
Definition json_object (members : list (string * string)) : string :=
  ("{"
   ++ String.concat ","
        (List.map (fun kv => json_quote ++ kv.1 ++ json_quote ++ ":" ++ kv.2)
           (merge_sort member_le members))
   ++ "}")%string.

(** [json.Marshal] of a (non-nil) [config.NextHopTable]: the vertices that
    are keys are written as decimal strings, a nil pointer as [null]. *)
Definition json_Marshal_NextHopTable (t : NextHopTable) : list byte :=
  list_byte_of_string
    (json_object
       (List.map
          (fun row : Vertex * gmap Vertex (option Vertex) =>
             (pretty row.1,
              json_object
                (List.map
                   (fun cell : Vertex * option Vertex =>
                      (pretty cell.1,
                       match cell.2 with
                       | None => "null"%string
                       | Some v => pretty v
                       end))
                   (map_to_list row.2))))
          (map_to_list t))).

(** [copy(dst, src)] on byte slices: the first [min(len dst, len src)]
    bytes of [dst] are overwritten. *)
Definition go_copy (dst src : list byte) : list byte :=
  take (length dst) src ++ drop (length src) dst.

(** ** Package main: the supernode *)

(** [type PeerState struct] *)
Record PeerState : Type := mkPeerState {
  NhTableState : list byte;
  PeerInfoState : list byte;
  LastSeen : Time
}.

(** What [PushNhTable] reads of a [*device.Peer]: [GetEndpointDstStr()]. *)
Record Peer : Type := mkPeer {
  GetEndpointDstStr : string
}.

(** A [*device.Device] as [LookupPeerByStr] sees it: the peers by public
    key. *)
Abbreviation Device := (gmap string Peer).

(** [path.Usage]: the tag of a packet. *)
Inductive Usage : Type :=
| Normal | Register | UpdateNhTable | UpdatePeer | UpdateError
| PingPacket | PongPacket | BroadcastPeer.

Inductive Family : Type := V4 | V6.

(** One call of [SendPacket]: the device, the peer (by public key), the
    usage and the buffer. *)
Record Sent : Type := mkSent {
  sent_via : Family;
  sent_to : string;
  sent_usage : Usage;
  sent_buf : list byte
}.

(** The package-level variables of the supernode that the modelled
    functions read or write. *)
Record Super : Type := mkSuper {
  http_PeerState : gmap string PeerState;
  http_NhTable_Hash : list byte;
  http_NhTableStr : list byte;
  http_HashSalt : list byte;
  http_NodeReportTimeout : Q;
  http_device4 : Device;
  http_device6 : Device;
  http_graph : IG
}.

Definition device_of (st : Super) (f : Family) : Device :=
  match f with
  | V4 => http_device4 st
  | V6 => http_device6 st
  end.

Section Supernode.

(** [path.GetByte] on an [UpdateNhTableMsg{State_hash: h}], given [h];
    [None] stands for a non-nil [err]. *)
Variable GetByte : list byte → option (list byte).

(** The buffer of lines 464-470: the EG header written by
    [path.NewEgHeader] and its setters, followed by the body. *)
Variable eg_packet : list byte → list byte.

(** [md5.Sum] and [json.Marshal]. *)
Variable md5_Sum : list byte → list byte.
Variable json_Marshal : NextHopTable → list byte.

(** The body of the loop of [PushNhTable] for one entry of
    [http_PeerState]. *)
Definition push_to_peer (force : bool) (st : Super) (now : Time)
    (buf : list byte) (entry : string * PeerState) : list Sent :=
  let '(pkstr, peerstate) := entry in
  let isAlive :=
    (now <? LastSeen peerstate + S2TD (http_NodeReportTimeout st))%Z in
  if negb isAlive then []
  else if force
          || negb (bool_decide (NhTableState peerstate = http_NhTable_Hash st))
  then
    (match http_device4 st !! pkstr with
     | Some peer =>
         if negb (bool_decide (GetEndpointDstStr peer = EmptyString))
         then [mkSent V4 pkstr UpdateNhTable buf] else []
     | None => []
     end)
    ++
    (match http_device6 st !! pkstr with
     | Some peer =>
         if negb (bool_decide (GetEndpointDstStr peer = EmptyString))
         then [mkSent V6 pkstr UpdateNhTable buf] else []
     | None => []
     end)
  else [].

(** [func PushNhTable(force bool)]: the packets it sends, in order. *)
Definition PushNhTable (force : bool) (st : Super) (now : Time) : list Sent :=
  match GetByte (http_NhTable_Hash st) with
  | None => []
  | Some body =>
      List.flat_map (push_to_peer force st now (eg_packet body))
        (map_to_list (http_PeerState st))
  end.

(** The block [if changed { ... }] of the pong branch of
    [Event_server_event_hendler]; [NhTable] is what [graph.GetNHTable(true)]
    returned. *)
Definition publish_NhTable (st : Super) (now : Time) (NhTable : NextHopTable)
  : Super * list Sent :=
  let NhTablestr := json_Marshal NhTable in
  let md5_hash_raw := md5_Sum (http_NhTableStr st ++ http_HashSalt st) in
  let new_hash_str_byte := hex_EncodeToString md5_hash_raw in
  let g := http_graph st in
  let st' :=
    mkSuper (http_PeerState st)
            (go_copy (http_NhTable_Hash st) new_hash_str_byte)
            NhTablestr
            (http_HashSalt st)
            (http_NodeReportTimeout st)
            (http_device4 st) (http_device6 st)
            (mkIG (Vert g) (edges g) (StaticMode g) (JitterTolerance g)
                  (JitterToleranceMultiplier g) (NodeReportTimeout g)
                  (RecalculateCoolDown g) (recalculateTime g) (dlTable g)
                  (nhTable g)
                  (go_copy (NhTableHash g) new_hash_str_byte)
                  (NhTableExpire g) (SuperNodeInfoTimeout g)
                  (IsSuperMode g)) in
  (st', PushNhTable false st' now).

End Supernode.

(** ** Package path: keeping the tables up to date *)

(** The assignments [g.dlTable, g.nhTable = dist, next] and
    [g.recalculateTime = t]. *)
Definition set_tables (g : IG) (dist : DistTable) (next : NextHopTable)
    (t : Time) : IG :=
  mkIG (Vert g) (edges g) (StaticMode g) (JitterTolerance g)
       (JitterToleranceMultiplier g) (NodeReportTimeout g)
       (RecalculateCoolDown g) t dist next (NhTableHash g) (NhTableExpire g)
       (SuperNodeInfoTimeout g) (IsSuperMode g).

(** Lines 715-722 of [RemoveVirt]: the vertex, its row and its column are
    deleted and the hash of the table is zeroed. *)
Definition remove_vertex (g : IG) (v : Vertex) : IG :=
  mkIG (delete v (Vert g)) (delete v <$> delete v (edges g)) (StaticMode g)
       (JitterTolerance g) (JitterToleranceMultiplier g)
       (NodeReportTimeout g) (RecalculateCoolDown g) (recalculateTime g)
       (dlTable g) (nhTable g) (repeat x00 32) (NhTableExpire g)
       (SuperNodeInfoTimeout g) (IsSuperMode g).

Section Recalculate.

Variable math_Pow : Q → Q → Q.

(** [func (g *IG) CheckAnyShouldUpdate() bool]; [vs] is the order in which
    the copy of [g.Vert] is ranged. *)
Definition CheckAnyShouldUpdate (g : IG) (now : Time) (vs : list Vertex)
  : bool :=
  existsb (fun u =>
             existsb (fun v => ShouldUpdate math_Pow g u v (Weight g now u v))
               vs)
          vs.

(** [func (g *IG) ShouldCalculate() bool] *)
Definition ShouldCalculate (g : IG) (now : Time) (vs : list Vertex) : bool :=
  existsb (fun u =>
             existsb (fun v =>
                        negb (bool_decide (u = v))
                        && ShouldUpdate math_Pow g u v (Weight g now u v))
               vs)
          vs.

(** [g.RecalculateNhTable(false)]: with [checkchange] false the result
    [changed] is false on every path, and the call only updates the graph.
    [vc] is the order of the range of [ShouldCalculate]; [vs], [vr] and [va]
    are those of [FloydWarshall]. *)
Definition RecalculateNhTable (g : IG) (now : Time) (vc vs vr va : list Vertex)
  : IG :=
  if StaticMode g then g
  else if negb (ShouldCalculate g now vc) then g
  else if (recalculateTime g + RecalculateCoolDown g <? now)%Z
  then
    let '(dist, next, _, g) := FloydWarshall false g now vs vr va in
    set_tables g dist next now
  else g.

(** [func (g *IG) GetNHTable(recalculate bool) config.NextHopTable],
    returning the graph as well. *)
Definition GetNHTable (recalculate : bool) (g : IG) (now : Time)
    (vc vs vr va : list Vertex) : NextHopTable * IG :=
  let g :=
    if recalculate && (NhTableExpire g <? now)%Z
    then RecalculateNhTable g now vc vs vr va
    else g in
  (nhTable g, g).

(** [g.RemoveVirt(v, recalculate, false)], of which [remove_vertex] is the
    part before the recalculation. *)
Definition RemoveVirt (g : IG) (v : Vertex) (recalculate : bool) (now : Time)
    (vc vs vr va : list Vertex) : IG :=
  let g := remove_vertex g v in
  if recalculate then RecalculateNhTable g now vc vs vr va else g.

End Recalculate.

(** ** Package main: the check of a static table *)

(** [config.SuperPeerInfo] *)
Record SuperPeerInfo : Type := mkSuperPeerInfo {
  NodeID : Vertex;
  Name : string;
  PubKey : string;
  PSKey : string;
  AdditionalCost : Q
}.

(** The errors of [checkNhTable], by the format of their message:
    "NextHopTable[%v][%v]=%v which is not in the peer list",
    "NextHopTable[%v][%v] not found" and "NextHopTable[%v] not found". *)
Inductive NhTableError : Type :=
| NotInPeerList (id1 id2 : Vertex)
| EntryNotFound (id1 id2 : Vertex)
| RowNotFound (id1 : Vertex).

(** A loop whose body may return an error: the first error ends it. *)
Fixpoint first_error {A E : Type} (body : A → outcome (option E))
    (l : list A) : outcome (option E) :=
  match l with
  | [] => Returns None
  | x :: l =>
      let! r := body x in
      match r with
      | None => first_error body l
      | Some e => Returns (Some e)
      end
  end.

(** The body of the inner loop of [checkNhTable]. *)
Definition checkNhTable_pair (NhTable : NextHopTable)
    (allpeer : gmap Vertex bool) (peer1 peer2 : SuperPeerInfo)
  : outcome (option NhTableError) :=
  if decide (NodeID peer1 = NodeID peer2) then Returns None
  else
    let id1 := NodeID peer1 in
    let id2 := NodeID peer2 in
    match NhTable !! id1 with
    | Some dst =>
        match dst !! id2 with
        | Some next =>
            match next with
            | None => NilDereference
            | Some n =>
                match allpeer !! n with
                | Some _ => Returns None
                | None => Returns (Some (NotInPeerList id1 id2))
                end
            end
        | None => Returns (Some (EntryNotFound id1 id2))
        end
    | None => Returns (Some (RowNotFound id1))
    end.

(** [func checkNhTable(NhTable config.NextHopTable,
    peers []config.SuperPeerInfo) error] *)
Definition checkNhTable (NhTable : NextHopTable) (peers : list SuperPeerInfo)
  : outcome (option NhTableError) :=
  let allpeer :=
    foldl (fun m peer1 => <[NodeID peer1 := true]> m) (∅ : gmap Vertex bool)
      peers in
  first_error
    (fun peer1 => first_error (checkNhTable_pair NhTable allpeer peer1) peers)
    peers.

(** ** Package main: the peers of the supernode *)

(** [type HttpPeerLocalIP struct]: the addresses a peer reports, as text. *)
Record HttpPeerLocalIP : Type := mkHttpPeerLocalIP {
  IPv4 : string;
  IPv6 : string
}.

(** What the supernode reads of a [path.RegisterMsg]. *)
Record RegisterMsg : Type := mkRegisterMsg {
  Node_id : Vertex;
  NhStateHash : list byte;
  PeerStateHash : list byte;
  LocalV4 : string;
  LocalV6 : string
}.

Definition set_PeerState (st : Super) (m : gmap string PeerState) : Super :=
  mkSuper m (http_NhTable_Hash st) (http_NhTableStr st) (http_HashSalt st)
          (http_NodeReportTimeout st) (http_device4 st) (http_device6 st)
          (http_graph st).

Section SupernodePeers.

(** [path.GetByte] on an [UpdatePeerMsg{State_hash: h}], given [h]. *)
Variable GetByte_UpdatePeerMsg : list byte → option (list byte).
Variable eg_packet : list byte → list byte.

(** [config.Special_NodeID] *)
Variable Special_NodeID : Vertex.

(** The body of the loop of [PushPeerinfo] for one entry of
    [http_PeerState]. *)
Definition push_info_to_peer (force : bool) (http_PeerInfo_hash : list byte)
    (st : Super) (now : Time) (buf : list byte) (entry : string * PeerState)
  : list Sent :=
  let '(pkstr, peerstate) := entry in
  let isAlive :=
    (now <? LastSeen peerstate + S2TD (http_NodeReportTimeout st))%Z in
  if negb isAlive then []
  else if force
          || negb (bool_decide (PeerInfoState peerstate = http_PeerInfo_hash))
  then
    (match http_device4 st !! pkstr with
     | Some peer => [mkSent V4 pkstr UpdatePeer buf]
     | None => []
     end)
    ++
    (match http_device6 st !! pkstr with
     | Some peer => [mkSent V6 pkstr UpdatePeer buf]
     | None => []
     end)
  else [].

(** [func PushPeerinfo(force bool)]: the packets it sends, in order;
    [http_PeerInfo_hash] is the package-level variable of that name. *)
Definition PushPeerinfo (force : bool) (http_PeerInfo_hash : list byte)
    (st : Super) (now : Time) : list Sent :=
  match GetByte_UpdatePeerMsg http_PeerInfo_hash with
  | None => []
  | Some body =>
      List.flat_map
        (push_info_to_peer force http_PeerInfo_hash st now (eg_packet body))
        (map_to_list (http_PeerState st))
  end.

(** The block [if reg_msg.Node_id < config.Special_NodeID { ... }] of the
    register branch of [Event_server_event_hendler]: the state it leaves,
    [should_push_peer] and [should_push_nh].  [http_PeerID2Info] and
    [http_PeerIPs] are the package-level variables of these names. *)
Definition register_peer (http_PeerID2Info : gmap Vertex SuperPeerInfo)
    (http_PeerIPs : gmap string HttpPeerLocalIP) (st : Super)
    (reg_msg : RegisterMsg) (now : Time)
  : outcome (Super * gmap string HttpPeerLocalIP * bool * bool) :=
  if (Node_id reg_msg <? Special_NodeID)%N then
    let pk :=
      match http_PeerID2Info !! Node_id reg_msg with
      | Some info => PubKey info
      | None => EmptyString
      end in
    match http_PeerState st !! pk with
    | None => NilDereference
    | Some peerstate =>
        let should_push_nh :=
          negb (bool_decide (NhTableState peerstate = NhStateHash reg_msg)) in
        let nh :=
          if should_push_nh
          then go_copy (NhTableState peerstate) (NhStateHash reg_msg)
          else NhTableState peerstate in
        let should_push_peer :=
          negb (bool_decide
                  (PeerInfoState peerstate = PeerStateHash reg_msg)) in
        let info :=
          if should_push_peer
          then go_copy (PeerInfoState peerstate) (PeerStateHash reg_msg)
          else PeerInfoState peerstate in
        match http_PeerIPs !! pk with
        | None => NilDereference
        | Some _ =>
            Returns
              (set_PeerState st
                 (<[pk := mkPeerState nh info now]> (http_PeerState st)),
               <[pk := mkHttpPeerLocalIP (LocalV4 reg_msg) (LocalV6 reg_msg)]>
                 http_PeerIPs,
               should_push_peer, should_push_nh)
        end
    end
  else Returns (st, http_PeerIPs, false, false).

End SupernodePeers.

(** ** Package conn: looking up an address *)

Section LookupIP.

(** [net.Dial(network, address)]: the remote address of the connection, as
    [conn.RemoteAddr().String()] gives it, or the error. *)
Variable net_Dial : string → string → string + string.

(** The loop [for _, af := range af_try_order]: the values of [NetStr],
    of the remote address of [conn] and of [err] after it. *)
Fixpoint LookupIP_dial (af_try_order : list string) (host_port : string)
    (st : string * option string * option string)
  : string * option string * option string :=
  match af_try_order with
  | [] => st
  | af :: rest =>
      match net_Dial af host_port with
      | inl addr => (af, Some addr, None)
      | inr err => LookupIP_dial rest host_port (st.1.1, None, Some err)
      end
  end.

(** The two [switch] statements of [LookupIP]: the networks to try, in
    order, or the message of the error. *)
Definition af_try_order (Af AfPrefer : Z) : list string + string :=
  if decide (Af = 4%Z) then inl ["udp4"%string]
  else if decide (Af = 6%Z) then inl ["udp6"%string]
  else if decide (Af = 0%Z) then
    if decide (AfPrefer = 0%Z) then inl ["udp"%string]
    else if decide (AfPrefer = 4%Z) then inl ["udp4"; "udp6"; "udp"]%string
    else if decide (AfPrefer = 6%Z) then inl ["udp6"; "udp4"; "udp"]%string
    else inr ("unknown address family:" +:+ pretty AfPrefer)
  else inr ("unknown address family:" +:+ pretty Af).

(** [func LookupIP(host_port string, Af int, AfPrefer int)
    (string, string, error)] *)
Definition LookupIP (host_port : string) (Af AfPrefer : Z)
  : outcome (string * string * option string) :=
  if decide (host_port = EmptyString)
  then Returns (EmptyString, EmptyString,
                Some "error lookup ip from empty string"%string)
  else
    match af_try_order Af AfPrefer with
    | inr err => Returns (EmptyString, EmptyString, Some err)
    | inl order =>
        match LookupIP_dial order host_port (EmptyString, None, None) with
        | (_, _, Some err) => Returns (EmptyString, EmptyString, Some err)
        | (NetStr, Some addr, None) => Returns (NetStr, addr, None)
        | (_, None, None) => NilDereference
        end
    end.

End LookupIP.

(** ** Package main: the periodic push *)

(** One iteration of the loop of [RoutinePushSettings]: the new value of
    [lastforce] and the value of [force] with which [PushNhTable] and
    [PushPeerinfo] are called. *)
Definition RoutinePushSettings_iter (interval : Duration) (lastforce now : Time)
  : Time * bool :=
  if (lastforce + interval <? now)%Z then (now, true) else (lastforce, false).

(** [func RoutinePushSettings(interval time.Duration)], run for the
    iterations that start at the instants [nows]: the value of [force] of
    each. *)
Fixpoint RoutinePushSettings_from (interval : Duration) (lastforce : Time)
    (nows : list Time) : list bool :=
  match nows with
  | [] => []
  | now :: nows =>
      let '(lastforce, force) := RoutinePushSettings_iter interval lastforce now in
      force :: RoutinePushSettings_from interval lastforce nows
  end.

Definition RoutinePushSettings (interval : Duration) (nows : list Time)
  : list bool :=
  RoutinePushSettings_from interval zero_time nows.

(** ** Package path: the pointers of a next-hop table *)

(** The entries of a [config.NextHopTable] are pointers, and
    [RecalculateNhTable] compares them as such.  A non-nil [*config.Vertex]
    is modelled by the address of the variable together with the vertex
    stored in it: the code never assigns through such a pointer, so the
    vertex found at an address does not change.  [next_addr] is the next
    address that an allocation ([v := v; &v]) returns. *)
Record Ptr : Type := mkPtr {
  ptr_addr : positive;
  ptr_val : Vertex
}.

Abbreviation PtrTable := (gmap Vertex (gmap Vertex (option Ptr))).

(** [p == q] on two pointers. *)
Definition ptr_eqb (p q : option Ptr) : bool :=
  bool_decide (ptr_addr <$> p = ptr_addr <$> q).

(** The vertex a pointer points to, and the table of these vertices. *)
Definition value (p : option Ptr) : option Vertex :=
  match p with
  | Some p => Some (ptr_val p)
  | None => None
  end.

Definition values (t : PtrTable) : NextHopTable :=
  fmap (M := gmap Vertex) (fmap (M := gmap Vertex) value) t.

(** [next[u][v]] as a pointer: nil when the key is absent. *)
Definition ptr_at (next : PtrTable) (u v : Vertex) : option Ptr :=
  default None (lookup2 next u v).

(** [FloydWarshall] with the pointers of [next]: the same code as above,
    with the allocation of line 894 written out. *)
Definition fw_state_ptr : Type := DistTable * PtrTable * IG * positive.

Definition fw_init_edge_ptr (now : Time) (u : Vertex) (st : fw_state_ptr)
    (v : Vertex) : fw_state_ptr :=
  let '(dist, next, g, fresh) := st in
  let w := Weight g now u v in
  let '(dist, next, fresh) :=
    if Qltb w Infinity
    then (insert2 u v w dist, insert2 u v (Some (mkPtr fresh v)) next,
          Pos.succ fresh)
    else (dist, next, fresh) in
  (dist, next, SetOldWeight g u v w, fresh).

Definition fw_init_row_ptr (now : Time) (vs : list Vertex) (st : fw_state_ptr)
    (u : Vertex) : fw_state_ptr :=
  let '(dist, next, g, fresh) := st in
  let dist := <[u := ∅]> dist in
  let next := <[u := ∅]> next in
  let dist := foldl (fun d v => insert2 u v Infinity d) dist vs in
  let dist := insert2 u u 0 dist in
  foldl (fw_init_edge_ptr now u) (dist, next, g, fresh) (Neighbors g u).

Definition fw_init_ptr (g : IG) (now : Time) (vs : list Vertex)
    (fresh : positive) : fw_state_ptr :=
  foldl (fw_init_row_ptr now vs) (∅, ∅, g, fresh) vs.

Definition fw_relax_ptr (k i : Vertex) (st : DistTable * PtrTable)
    (j : Vertex) : DistTable * PtrTable :=
  let '(dist, next) := st in
  if Qltb (dist_at dist i k) Infinity && Qltb (dist_at dist k j) Infinity
  then
    if Qltb (dist_at dist i k + dist_at dist k j) (dist_at dist i j)
    then (insert2 i j (dist_at dist i k + dist_at dist k j) dist,
          insert2 i j (ptr_at next i k) next)
    else st
  else st.

Definition fw_round_ptr (vs : list Vertex) (st : DistTable * PtrTable)
    (k : Vertex) : DistTable * PtrTable :=
  foldl (fun st i => foldl (fw_relax_ptr k i) st vs) st vs.

Definition fw_loop_ptr (vs : list Vertex) (st : DistTable * PtrTable)
  : DistTable * PtrTable :=
  foldl (fw_round_ptr vs) st vs.

Definition fw_run_ptr (g : IG) (now : Time) (vs : list Vertex)
    (fresh : positive) : fw_state_ptr :=
  let '(dist, next, g, fresh) := fw_init_ptr g now vs fresh in
  let '(dist, next) := fw_loop_ptr vs (dist, next) in
  (dist, next, g, fresh).

Definition fw_result_ptr : Type :=
  DistTable * PtrTable * option string * IG * positive.

Definition FloydWarshall_again_ptr (g : IG) (now : Time) (vs : list Vertex)
    (fresh : positive) : fw_result_ptr :=
  let '(dist, next, g, fresh) := fw_run_ptr g now vs fresh in
  if negative_cycle dist
  then (∅, ∅, Some "negative cycle detected again!"%string, g, fresh)
  else (dist, next, None, g, fresh).

Definition FloydWarshall_ptr (again : bool) (g : IG) (now : Time)
    (vs vr va : list Vertex) (fresh : positive) : fw_result_ptr :=
  if again then FloydWarshall_again_ptr g now vs fresh
  else
    let '(dist, next, g, fresh) := fw_run_ptr g now vs fresh in
    if negative_cycle dist
    then
      let g := RemoveAllNegativeValue g now vr in
      let '(dist, next, _, g, fresh) :=
        FloydWarshall_again_ptr g now va fresh in
      (dist, next, Some "negative cycle detected"%string, g, fresh)
    else (dist, next, None, g, fresh).

(** A graph together with the pointers of its [nhTable] and the next free
    address. *)
Record IGp : Type := mkIGp {
  ig : IG;
  nhTable_ptr : PtrTable;
  next_addr : positive
}.

(** [func (g *IG) Next(u, v config.Vertex) *config.Vertex] *)
Definition Next (gp : IGp) (u v : Vertex) : option Ptr :=
  match nhTable_ptr gp !! u with
  | None => None
  | Some row =>
      match row !! v with
      | None => None
      | Some p => p
      end
  end.

Section RecalculatePtr.

Variable math_Pow : Q → Q → Q.

(** [func (g *IG) RecalculateNhTable(checkchange bool) (changed bool)],
    whole. *)
Definition RecalculateNhTable_ptr (checkchange : bool) (gp : IGp) (now : Time)
    (vc vs vr va : list Vertex) : bool * IGp :=
  let g := ig gp in
  if StaticMode g
  then (if bool_decide (NhTableHash g = repeat x00 32) then checkchange
        else false, gp)
  else if negb (ShouldCalculate math_Pow g now vc) then (false, gp)
  else if (recalculateTime g + RecalculateCoolDown g <? now)%Z
  then
    let '(dist, next, _, g', fresh) :=
      FloydWarshall_ptr false g now vs vr va (next_addr gp) in
    let changed :=
      checkchange
      && existsb
           (fun row : Vertex * gmap Vertex (option Ptr) =>
              existsb
                (fun cell : Vertex * option Ptr =>
                   negb (ptr_eqb cell.2 (Next gp row.1 cell.1)))
                (map_to_list row.2))
           (map_to_list next) in
    (changed, mkIGp (set_tables g' dist (values next) now) next fresh)
  else (false, gp).

End RecalculatePtr.

(** ** Package path: the weights as a matrix *)

(** [func (g *IG) GetEdges(isOld bool)
    (edges map[config.Vertex]map[config.Vertex]float64)]; [vs] is the order
    in which the outer loop ranges the copy of [g.Vert], [vd src] the order
    of the inner loop in the iteration for [src]. *)
Definition GetEdges (isOld : bool) (g : IG) (now : Time) (vs : list Vertex)
    (vd : Vertex → list Vertex) : gmap Vertex (gmap Vertex Q) :=
  foldl (fun edges src =>
           foldl (fun edges dst =>
                    if decide (src = dst) then edges
                    else insert2 src dst
                           (if isOld then OldWeight g src dst
                            else Weight g now src dst) edges)
                 (<[src := ∅]> edges) (vd src))
        ∅ vs.

(** ** Package conn: the name of a receive function *)

(** The bytes of a Go string literal. *)
Definition bytes_of (s : string) : list ascii := list_ascii_of_string s.

(** [strings.HasSuffix(s, suffix)]:
    [len(s) >= len(suffix) && s[len(s)-len(suffix):] == suffix] *)
Definition strings_HasSuffix (s suffix : list ascii) : bool :=
  (length suffix <=? length s)%nat
  && bool_decide (drop (length s - length suffix) s = suffix).

(** [strings.TrimSuffix(s, suffix)] *)
Definition strings_TrimSuffix (s suffix : list ascii) : list ascii :=
  if strings_HasSuffix s suffix
  then take (length s - length suffix) s
  else s.

(** [strings.LastIndexByte(s, c)]: the loop
    [for i := len(s) - 1; i >= 0; i-- { if s[i] == c { return i } }],
    started with [i + 1 = n]; [None] is the result [-1]. *)
Fixpoint LastIndexByte_from (s : list ascii) (c : ascii) (n : nat)
  : option nat :=
  match n with
  | O => None
  | S i => if bool_decide (s !! i = Some c) then Some i
           else LastIndexByte_from s c i
  end.

Definition strings_LastIndexByte (s : list ascii) (c : ascii) : option nat :=
  LastIndexByte_from s c (length s).

(** [name[idx] < '0' || name[idx] > '9'] *)
Definition not_digit (c : ascii) : bool :=
  (nat_of_ascii c <? 48)%nat || (57 <? nat_of_ascii c)%nat.

(** The inner loop of [PrettyName],
    [for idx = len(name) - 1; idx >= 0; idx-- { if name[idx] < '0' ||
    name[idx] > '9' { break } }], started with [idx + 1 = n]; the result is
    [idx + 1] at the exit.  The index stays below [len(name)], so the read
    is in range. *)
Fixpoint scan_digits (name : list ascii) (n : nat) : nat :=
  match n with
  | O => O
  | S idx => match name !! idx with
             | Some c => if not_digit c then S idx else scan_digits name idx
             | None => S idx
             end
  end.

Definition dotFunc : list ascii := bytes_of ".func".

(** The outer loop [for { ... }] of [PrettyName]; [fuel] bounds the number
    of times its body runs to the end. *)
Fixpoint PrettyName_loop (fuel : nat) (name : list ascii)
  : outcome (list ascii) :=
  let idx1 := scan_digits name (length name) in
  if (idx1 =? length name)%nat then Returns name
  else if negb (strings_HasSuffix (take idx1 name) dotFunc) then Returns name
  else match fuel with
       | O => OutOfFuel
       | S fuel' => PrettyName_loop fuel' (take (idx1 - length dotFunc) name)
       end.

(** [func (fn ReceiveFunc) PrettyName() string].  [name] is what
    [runtime.FuncForPC(reflect.ValueOf(fn).Pointer()).Name()] returns and
    [addr] what [fmt.Sprintf("%p", fn)] returns. *)
Definition PrettyName (fuel : nat) (name addr : list ascii)
  : outcome (list ascii) :=
  let name := strings_TrimSuffix name (bytes_of "-fm") in
  let name := match strings_LastIndexByte name "/"%char with
              | Some idx => drop (S idx) name
              | None => name
              end in
  let! name := PrettyName_loop fuel name in
  let name := match strings_LastIndexByte name "."%char with
              | Some idx => drop (S idx) name
              | None => name
              end in
  if bool_decide (name = []) then Returns addr
  else if strings_HasSuffix name (bytes_of "IPv4") then Returns (bytes_of "v4")
  else if strings_HasSuffix name (bytes_of "IPv6") then Returns (bytes_of "v6")
  else Returns name.

(** ** Package path in binary64: the jitter policy of the supernode

    [ShouldUpdate] compares two sums of rounded terms, so its answer near
    the threshold depends on the rounding.  This module models the
    [float64] of Go as IEEE 754 binary64: every operation rounds its exact
    result to the nearest representable number, ties to even, and is not
    fused with the next one (the compiler fuses none on amd64). *)
Module Float64.

Definition float64 : Type := spec_float.

Definition prec : Z := 53.
Definition emax : Z := 1024.

(** The conversion [float64(n)] of an integer. *)
Definition of_Z (n : Z) : float64 := binary_normalize prec emax n 0 false.

Definition add : float64 → float64 → float64 := SFadd prec emax.
Definition sub : float64 → float64 → float64 := SFsub prec emax.
Definition mul : float64 → float64 → float64 := SFmul prec emax.
Definition div : float64 → float64 → float64 := SFdiv prec emax.

(** [x > y], [x >= y], [x == y]; each is false when an operand is NaN. *)
Definition gt (x y : float64) : bool := SFltb y x.
Definition ge (x y : float64) : bool := SFleb y x.
Definition eq (x y : float64) : bool := SFeqb x y.

(** A decimal constant [n / d] of the source, for integers [n] and [d]
    that binary64 holds exactly: the representable number nearest to it,
    which is what the correctly rounded division returns. *)
Definition const (n d : Z) : float64 := div (of_Z n) (of_Z d).

(** [math.Abs] clears the sign bit. *)
Definition math_Abs (x : float64) : float64 := SFabs x.

(** [math.Max], with its special cases: [Max(x, +Inf) = +Inf],
    [Max(x, NaN) = NaN], [Max(+0, -0) = +0]. *)
Definition math_Max (x y : float64) : float64 :=
  match x, y with
  | S754_infinity false, _ | _, S754_infinity false => S754_infinity false
  | S754_nan, _ | _, S754_nan => S754_nan
  | _, _ =>
      if eq x (S754_zero false) && eq x y
      then match x with
           | S754_zero true => y
           | _ => x
           end
      else if gt x y then x else y
  end.

(** [const Infinity = float64(99999)] *)
Definition Infinity : float64 := of_Z 99999.

(** [type Latency struct { ping, ping_old float64; time time.Time }] *)
Record Latency : Type := mkLatency {
  ping : float64;
  ping_old : float64;
  time : Time
}.

(** The fields of [type IG struct] that [ShouldUpdate] reads. *)
Record IG : Type := mkIG {
  edges : gmap Vertex (gmap Vertex Latency);
  JitterTolerance : float64;
  JitterToleranceMultiplier : float64;
  IsSuperMode : bool
}.

(** [func (g *IG) OldWeight(u, v config.Vertex) float64] *)
Definition OldWeight (g : IG) (u v : Vertex) : float64 :=
  if decide (u = v) then S754_zero false
  else match edges g !! u with
       | None => Infinity
       | Some row =>
           match row !! v with
           | None => Infinity
           | Some l => ping_old l
           end
       end.

Section Jitter.

(** [math.Pow] and [math.Ceil], of Go's standard library. *)
Variable math_Pow : float64 → float64 → float64.
Variable math_Ceil : float64 → float64.

(** [func (g *IG) GetWeightType(x float64) (y float64)] *)
Definition GetWeightType (g : IG) (x : float64) : float64 :=
  let x := math_Abs x in
  if gt (JitterTolerance g) (const 1 1000)
     && gt (JitterToleranceMultiplier g) (of_Z 1)
  then
    let t := JitterTolerance g in
    let r := JitterToleranceMultiplier g in
    mul (math_Pow (math_Ceil (math_Pow (div x t) (div (of_Z 1) r))) r) t
  else x.

(** [func (g *IG) ShouldUpdate(u, v config.Vertex, newval float64) bool] *)
Definition ShouldUpdate (g : IG) (u v : Vertex) (newval : float64) : bool :=
  let oldval := math_Abs (mul (OldWeight g u v) (of_Z 1000)) in
  let newval := math_Abs (mul newval (of_Z 1000)) in
  if IsSuperMode g then
    if gt (JitterTolerance g) (const 1 1000)
       && ge (JitterToleranceMultiplier g) (of_Z 1)
    then
      let diff := math_Abs (sub newval oldval) in
      let x := math_Max oldval newval in
      let t := JitterTolerance g in
      let r := JitterToleranceMultiplier g in
      gt diff (add t (mul x (sub r (of_Z 1))))
    else eq oldval newval
  else negb (eq (GetWeightType g oldval) (GetWeightType g newval)).

End Jitter.

(** A latency as [UpdateLatency] stores it:
    [float64(dt) / float64(time.Second)]. *)
Definition seconds (dt : Duration) : float64 :=
  div (of_Z dt) (of_Z 1000000000).


(** The rational that a finite [float64] stands for, and back: the
    quotient of two integers is rounded once, so a rational that binary64
    holds exactly is returned as it is. *)
Definition to_Q (x : float64) : Q :=
  match x with
  | S754_finite s m e =>
      inject_Z (if s then Zneg m else Zpos m) * Qpower 2 e
  | _ => 0
  end.

Definition of_Q (q : Q) : float64 :=
  div (of_Z (Qnum (Qred q))) (of_Z (Zpos (Qden (Qred q)))).

End Float64.

(** ** Package path: shortest paths with the addition of [float64]

    [dist[i][k] + dist[k][j]] is a sum of two [float64], that is the exact
    sum rounded, and the tables that [FloydWarshall] returns can depend on
    the rounding.  Here the function is modelled with that addition as a
    parameter [fadd]; a finite [float64] is the rational it stands for, and
    the comparisons are the exact ones, as they are on [float64].  With the
    exact sum for [fadd] this is [FloydWarshall] above. *)
Section RoundedSum.

Variable fadd : Q → Q → Q.

(** The body of the innermost loop of the triple loop. *)
Definition fw_relax_fl (k i : Vertex) (st : DistTable * NextHopTable)
    (j : Vertex) : DistTable * NextHopTable :=
  let '(dist, next) := st in
  if Qltb (dist_at dist i k) Infinity && Qltb (dist_at dist k j) Infinity
  then
    if Qltb (fadd (dist_at dist i k) (dist_at dist k j)) (dist_at dist i j)
    then (insert2 i j (fadd (dist_at dist i k) (dist_at dist k j)) dist,
          insert2 i j (next_at next i k) next)
    else st
  else st.

Definition fw_round_fl (vs : list Vertex) (st : DistTable * NextHopTable)
    (k : Vertex) : DistTable * NextHopTable :=
  foldl (fun st i => foldl (fw_relax_fl k i) st vs) st vs.

Definition fw_loop_fl (vs : list Vertex) (st : DistTable * NextHopTable)
  : DistTable * NextHopTable :=
  foldl (fw_round_fl vs) st vs.

(** Initialisation and triple loop of one call. *)
Definition fw_run_fl (g : IG) (now : Time) (vs : list Vertex) : fw_state :=
  let '(dist, next, g) := fw_init g now vs in
  let '(dist, next) := fw_loop_fl vs (dist, next) in
  (dist, next, g).

(** [FloydWarshall(true)]: the retry; it does not recurse. *)
Definition FloydWarshall_again_fl (g : IG) (now : Time) (vs : list Vertex)
  : fw_result :=
  let '(dist, next, g) := fw_run_fl g now vs in
  if negative_cycle dist
  then (∅, ∅, Some "negative cycle detected again!"%string, g)
  else (dist, next, None, g).

(** [func (g *IG) FloydWarshall(again bool) (dist, next, err)]; the range
    orders [vs], [vr] and [va] are those of [FloydWarshall] above. *)
Definition FloydWarshall_fl (again : bool) (g : IG) (now : Time)
    (vs vr va : list Vertex) : fw_result :=
  if again then FloydWarshall_again_fl g now vs
  else
    let '(dist, next, g) := fw_run_fl g now vs in
    if negative_cycle dist
    then
      let g := RemoveAllNegativeValue g now vr in
      let '(dist, next, _, g) := FloydWarshall_again_fl g now va in
      (dist, next, Some "negative cycle detected"%string, g)
    else (dist, next, None, g).

End RoundedSum.

(** The addition of [float64] on the rationals that binary64 holds. *)
Definition fadd64 (a b : Q) : Q :=
  Float64.to_Q (Float64.add (Float64.of_Q a) (Float64.of_Q b)).

(* ===================================================================== *)
(** * Part II.  The vocabulary of the statements                          *)
(* ===================================================================== *)

(** ** The specification's own words *)

(** The weight as the specification words it: the stored ping plus the
    additive cost configured for the head of the edge. *)
Definition Weight_spec (additional_cost : Vertex → Q) (g : IG) (now : Time)
    (u v : Vertex) : Q :=
  if decide (u = v) then 0
  else match lookup2 (edges g) u v with
       | None => Infinity
       | Some l =>
           if (NodeReportTimeout g <? now - time l)%Z then Infinity
           else ping l + additional_cost v
       end.

(** The quantisation of the specification:
    [Q(v) = ceil((v/t)^(1/r))^r * t]. *)
Definition quantize (math_Pow : Q → Q → Q) (t r v : Q) : Q :=
  math_Pow (math_Ceil (math_Pow (v / t) (1 / r))) r * t.

(** [math.Pow(x, 1) = x] for every [x]; the function below is [math.Pow]
    on the inputs whose exponent is 1, the only ones the counterexample
    of C4 evaluates. *)
Definition pow_exponent_one (x y : Q) : Q := x.

(** ** Relations and invariants of the proofs *)

(** [clamped now g g']: every weight of [g'] is the weight of [g], or is 0
    where [g] had a negative weight. *)
Definition clamped (now : Time) (g g' : IG) : Prop :=
  ∀ a b, Weight g' now a b = Weight g now a b
         ∨ (Weight g now a b < 0 ∧ Weight g' now a b = 0).

(** The body of the inner loop of [RemoveAllNegativeValue]. *)
Definition clamp_edge (now : Time) (u : Vertex) (g : IG) (v : Vertex) : IG :=
  if Qltb (Weight g now u v) 0 then SetWeight g u v 0 else g.

(** [same_view now g g']: the two graphs have the same weights at [now] and
    store edges for the same pairs. *)
Definition same_view (now : Time) (g g' : IG) : Prop :=
  (∀ a b, Weight g' now a b = Weight g now a b)
  ∧ (∀ a b, is_Some (lookup2 (edges g') a b)
            ↔ is_Some (lookup2 (edges g) a b)).

(** What one neighbour contributes to the tables. *)
Definition init_cell (W : Vertex → Vertex → Q) (u : Vertex)
    (dn : DistTable * NextHopTable) (v : Vertex) : DistTable * NextHopTable :=
  if Qltb (W u v) Infinity
  then (insert2 u v (W u v) dn.1, insert2 u v (Some v) dn.2)
  else dn.

(** The contents of the tables after the initialisation, for a row [u] of
    the vertex list [vs]. *)
Definition init_dist (g : IG) (now : Time) (vs : list Vertex) (u b : Vertex)
  : Q :=
  if decide (u = b) then 0
  else if Qltb (Weight g now u b) Infinity then Weight g now u b
  else if decide (b ∈ vs) then Infinity else 0.

Definition init_next (g : IG) (now : Time) (u b : Vertex) : option Vertex :=
  if decide (u = b)
  then if decide (is_Some (lookup2 (edges g) u u)) then Some u else None
  else if Qltb (Weight g now u b) Infinity then Some b else None.

(** The diagonal either still holds its initial 0, with the initial next
    hop, or has become negative. *)
Definition diag_inv (n0 : NextHopTable) (st : DistTable * NextHopTable)
  : Prop :=
  ∀ u, (dist_at st.1 u u = 0 ∧ next_at st.2 u u = next_at n0 u u)
       ∨ dist_at st.1 u u < 0.

(** Every stored edge joins two vertices of the graph. *)
Definition graph_wf (g : IG) : Prop :=
  ∀ u v, is_Some (lookup2 (edges g) u v) →
         is_Some (Vert g !! u) ∧ is_Some (Vert g !! v).

(** [reach N b x]: following the pointers [N _ b] from [x] arrives at
    [b]. *)
Inductive reach (N : Vertex → Vertex → option Vertex) (b : Vertex)
  : Vertex → Prop :=
| reach_here : reach N b b
| reach_step (x m : Vertex) :
    x ≠ b → N x b = Some m → reach N b m → reach N b x.

(** Round [k] improves the cell (i,j). *)
Definition improves (D : Vertex → Vertex → Q) (k i j : Vertex) : Prop :=
  D i k < Infinity ∧ D k j < Infinity ∧ D i k + D k j < D i j.

(** The tables [D', N'] are the tables [D, N] after round [k]. *)
Definition round_rel (vs : list Vertex) (k : Vertex) (D : Vertex → Vertex → Q)
    (N : Vertex → Vertex → option Vertex) (D' : Vertex → Vertex → Q)
    (N' : Vertex → Vertex → option Vertex) : Prop :=
  ∀ i j, i ∈ vs → j ∈ vs →
    (improves D k i j ∧ D' i j = D i k + D k j ∧ N' i j = N i k)
    ∨ (¬ improves D k i j ∧ D' i j = D i j ∧ N' i j = N i j).

(** The invariant at the boundary of a round; [K] holds the vertices whose
    round is over. *)
Record fw_inv (vs : list Vertex) (W : Vertex → Vertex → Q) (K : list Vertex)
    (D : Vertex → Vertex → Q) (N : Vertex → Vertex → option Vertex)
  : Prop := mk_fw_inv {
  inv_diag : ∀ a, a ∈ vs → D a a == 0;
  inv_range : ∀ a b, a ∈ vs → b ∈ vs → 0 <= D a b ∧ D a b <= Infinity;
  inv_none : ∀ a b, a ∈ vs → b ∈ vs → a ≠ b → N a b = None →
             Infinity <= D a b;
  inv_some : ∀ a b m, a ∈ vs → b ∈ vs → a ≠ b → N a b = Some m →
             D a b < Infinity ∧ m ∈ vs ∧ m ≠ a ∧ (m = b ∨ m ∈ K)
             ∧ W a m < Infinity ∧ D a b == W a m + D m b;
  inv_tri : ∀ a m b, a ∈ vs → m ∈ vs → b ∈ vs → a ≠ m → (m = b ∨ m ∈ K) →
            W a m < Infinity → D m b < Infinity → D a b <= W a m + D m b;
  inv_reach : ∀ a b, a ∈ vs → b ∈ vs → a ≠ b → N a b ≠ None → reach N b a
}.

(** The two entries of a cell. *)
Definition cell (st : DistTable * NextHopTable) (a b : Vertex)
  : Q * option Vertex :=
  (dist_at st.1 a b, next_at st.2 a b).

(** The test of the innermost loop, on the tables at the start of the
    round. *)
Definition improvesb (d : DistTable) (k i j : Vertex) : bool :=
  Qltb (dist_at d i k) Infinity && Qltb (dist_at d k j) Infinity
  && Qltb (dist_at d i k + dist_at d k j) (dist_at d i j).

(** The cell (a,b) once round [k], started on [st0], has visited it. *)
Definition round_target (st0 : DistTable * NextHopTable) (k a b : Vertex)
  : Q * option Vertex :=
  if improvesb st0.1 k a b
  then (dist_at st0.1 a k + dist_at st0.1 k b, next_at st0.2 a k)
  else cell st0 a b.

(** What holds of the tables inside round [k]; [done] tells the cells that
    have been visited. *)
Definition round_inv (vs : list Vertex) (st0 : DistTable * NextHopTable)
    (k : Vertex) (done : Vertex → Vertex → Prop)
    (cur : DistTable * NextHopTable) : Prop :=
  ∀ a b,
    (cell cur a b = cell st0 a b ∨ cell cur a b = round_target st0 k a b)
    ∧ (done a b → cell cur a b = round_target st0 k a b)
    ∧ (a ∉ vs ∨ b ∉ vs → cell cur a b = cell st0 a b).

(** [follows N b x p]: [p] lists the vertices met from [x] to [b]. *)
Inductive follows (N : Vertex → Vertex → option Vertex) (b : Vertex)
  : Vertex → list Vertex → Prop :=
| follows_here : follows N b b [b]
| follows_step (x m : Vertex) (p : list Vertex) :
    x ≠ b → N x b = Some m → follows N b m p → follows N b x (x :: p).

(** ** Example inputs *)

(** A graph with the one edge 1 -> 2, measured at 0.5 s at instant 0. *)
Definition graph_one_edge : IG :=
  UpdateLatency
    (NewGraph true (mkGraphRecalculateSetting false 5 (101 # 100) 70 5))
    0%Z 1%N 2%N 500000000%Z.

(** An edge (P2P mode) with [t = 5] and [r = 1] that has measured the link
    1 -> 2 at 21 ms and run the shortest-path computation once, so that the
    old weight of the link is 21 ms. *)
Definition graph_edge_r1 : IG :=
  let g :=
    UpdateLatency
      (NewGraph false (mkGraphRecalculateSetting false 5 1 9999 5))
      0%Z 1%N 2%N 21000000%Z in
  let '(_, _, _, g) := FloydWarshall false g 0%Z [1%N; 2%N] [] [] in
  g.

(** The two vertices of scenario 6 of the specification: A -> B costs 1 s
    and B -> A costs -3 s. *)
Definition graph_negative_cycle : IG :=
  UpdateLatency
    (UpdateLatency
       (NewGraph false (mkGraphRecalculateSetting false 5 (101 # 100) 9999 5))
       0%Z 1%N 2%N 1000000000%Z)
    0%Z 2%N 1%N (-3000000000)%Z.

(** A graph whose only measurement is of the link from vertex 1 to
    itself. *)
Definition graph_self_edge : IG :=
  UpdateLatency
    (NewGraph false (mkGraphRecalculateSetting false 5 (101 # 100) 9999 5))
    0%Z 1%N 1%N 1000000000%Z.

(** The measurements of scenario 1 of the specification: the line
    1 - 2 - 3 with every link at 0.5 s. *)
Definition graph_line_links : IG :=
  let g :=
    NewGraph false (mkGraphRecalculateSetting false 5 (101 # 100) 9999 5) in
  let g := UpdateLatency g 0%Z 1%N 2%N 500000000%Z in
  let g := UpdateLatency g 0%Z 2%N 1%N 500000000%Z in
  let g := UpdateLatency g 0%Z 2%N 3%N 500000000%Z in
  UpdateLatency g 0%Z 3%N 2%N 500000000%Z.

(** The same line with the table of one shortest-path run installed. *)
Definition graph_line : IG :=
  let '(_, next, _, g) :=
    FloydWarshall false graph_line_links 0%Z [1%N; 2%N; 3%N] [1%N; 2%N; 3%N]
      [1%N; 2%N; 3%N] in
  SetNHTable g 0%Z next (repeat x00 32).

(** Four vertices in a row: 1 -> 2 measured at -50000 s (the clocks of 1
    and 2 disagree), 2 -> 3 and 3 -> 4 at 60000 s. *)
Definition graph_sentinel : IG :=
  let g :=
    NewGraph false (mkGraphRecalculateSetting false 5 (101 # 100) 9999 5) in
  let g := UpdateLatency g 0%Z 1%N 2%N (-50000000000000)%Z in
  let g := UpdateLatency g 0%Z 2%N 3%N 60000000000000%Z in
  UpdateLatency g 0%Z 3%N 4%N 60000000000000%Z.

(** The four vertices of scenario 4 of the specification, every ordered
    pair measured at 1 s, with the table of one shortest-path run
    installed. *)
Definition graph_clique : IG :=
  let g :=
    foldl (fun g p => UpdateLatency g 0%Z p.1 p.2 1000000000%Z)
      (NewGraph false (mkGraphRecalculateSetting false 5 (101 # 100) 9999 5))
      [(1, 2); (1, 3); (1, 4); (2, 1); (2, 3); (2, 4);
       (3, 1); (3, 2); (3, 4); (4, 1); (4, 2); (4, 3)]%N in
  let '(_, next, _, g) :=
    FloydWarshall false g 0%Z [1%N; 2%N; 3%N; 4%N] [1%N; 2%N; 3%N; 4%N]
      [1%N; 2%N; 3%N; 4%N] in
  SetNHTable g 0%Z next (repeat x00 32).

(** A supernode with two registered peers.  Peer "A" was seen at instant
    95 s and has acknowledged the published hash; peer "B" was seen at
    instant 90 s and has acknowledged nothing; peer "C" was last seen at
    instant 0.  "A" and "B" are known to both devices, "B" without an
    endpoint on the IPv6 one. *)
Definition super_example : Super :=
  mkSuper
    (<["A"%string := mkPeerState (repeat "a"%byte 32) [] 95000000000%Z]>
       (<["B"%string := mkPeerState (repeat x00 32) [] 90000000000%Z]>
          (<["C"%string := mkPeerState (repeat x00 32) [] 0%Z]> ∅)))
    (repeat "a"%byte 32) [] (list_byte_of_string "0123456789abcdefghijklmnopqrstuv")
    70
    (<["A"%string := mkPeer "192.0.2.1:3001"]>
       (<["B"%string := mkPeer "192.0.2.2:3001"]>
          (<["C"%string := mkPeer "192.0.2.3:3001"]> ∅)))
    (<["A"%string := mkPeer "[2001:db8::1]:3001"]>
       (<["B"%string := mkPeer EmptyString]> ∅))
    (NewGraph true (mkGraphRecalculateSetting false 5 (101 # 100) 70 5)).

(** The next-hop table of the example configuration:
    [{1: {2: 2}, 2: {1: 1}}]. *)
Definition NhTable_example : NextHopTable :=
  <[1%N := {[2%N := Some 2%N]}]> (<[2%N := {[1%N := Some 1%N]}]> ∅).

(** The same table after vertex 3 joined behind vertex 2. *)
Definition NhTable_example' : NextHopTable :=
  <[1%N := {[2%N := Some 2%N; 3%N := Some 2%N]}]>
    (<[2%N := {[1%N := Some 1%N; 3%N := Some 3%N]}]>
       (<[3%N := {[1%N := Some 2%N; 2%N := Some 2%N]}]> ∅)).

(** The test of the supernode branch of [ShouldUpdate]. *)
Definition tolerant (g : IG) : bool :=
  Qltb (1 # 1000) (JitterTolerance g)
  && Qle_bool 1 (JitterToleranceMultiplier g).

(** An edge node with [r = 1] that has measured the link 1 -> 2 at 21 ms
    and has not computed its routes yet. *)
Definition graph_edge_fresh : IG :=
  UpdateLatency (NewGraph false (mkGraphRecalculateSetting false 5 1 9999 5))
    0%Z 1%N 2%N 21000000%Z.

(** No entry of the table holds a nil pointer. *)
Definition no_nil (n : NextHopTable) : Prop :=
  ∀ a b, lookup2 n a b ≠ Some None.

(** The IDs of the peers of a list. *)
Definition peer_ids (peers : list SuperPeerInfo) : list Vertex :=
  NodeID <$> peers.

(** A table with the loop 1 -> 2 -> 1 on the way to 3. *)
Definition NhTable_loop : NextHopTable :=
  <[1%N := {[2%N := Some 2%N; 3%N := Some 2%N]}]>
    (<[2%N := {[1%N := Some 1%N; 3%N := Some 1%N]}]>
       (<[3%N := {[1%N := Some 1%N; 2%N := Some 2%N]}]> ∅)).

Definition peers_example : list SuperPeerInfo :=
  [mkSuperPeerInfo 1%N "Node_01" "ZqzLVSbXzjppERslwbf2QziWruW3V/UIx9oqwU8Fn3I="
     "iPM8FXfnHVzwjguZHRW9bLNY+h7+B1O2oTJtktptQkI=" 0;
   mkSuperPeerInfo 2%N "Node_02" "dHeWQtlTPQGy87WdbUARS4CtwVaR2y7IQ1qcX4GKSXk="
     "juJMQaGAaeSy8aDsXSKNsPZv/nFiPj4h/1G70tGYygs=" 0;
   mkSuperPeerInfo 3%N "Node_03" "cGVlcjM=" "cHNrMw==" 0].

(** The peers "A" and "B" of [super_example] as nodes 1 and 2, with the
    addresses they have reported. *)
Definition PeerID2Info_example : gmap Vertex SuperPeerInfo :=
  <[1%N := mkSuperPeerInfo 1%N "Node_01" "A" EmptyString 0]>
    (<[2%N := mkSuperPeerInfo 2%N "Node_02" "B" EmptyString 0]> ∅).

Definition PeerIPs_example : gmap string HttpPeerLocalIP :=
  <["A"%string := mkHttpPeerLocalIP "192.0.2.1:3001" EmptyString]>
    (<["B"%string := mkHttpPeerLocalIP EmptyString EmptyString]> ∅).

(** Node 2 registers at instant 100 s and reports a hash of its own. *)
Definition reg_example : RegisterMsg :=
  mkRegisterMsg 2%N (repeat "c"%byte 32) [] "192.0.2.2:3001" EmptyString.

(** A host that can be reached over IPv6 only. *)
Definition dial_v6_only (network address : string) : string + string :=
  if String.eqb network "udp6" then inl "[2001:db8::1]:3000"%string
  else inr "network is unreachable"%string.

(** The pointers of the table of a graph are those of [nhTable_ptr], and
    their addresses have been allocated. *)
Definition IGp_wf (gp : IGp) : Prop :=
  nhTable (ig gp) = values (nhTable_ptr gp)
  ∧ ∀ u v p, lookup2 (nhTable_ptr gp) u v = Some (Some p) →
             (ptr_addr p < next_addr gp)%positive.

(** Every pointer of the table has an address from [lo] on and below
    [hi]. *)
Definition addrs_within (lo hi : positive) (t : PtrTable) : Prop :=
  ∀ u v p, lookup2 t u v = Some (Some p) →
           (lo <= ptr_addr p)%positive ∧ (ptr_addr p < hi)%positive.

(** The tables, the state and the result of a run, with the pointers
    replaced by the vertices they point to. *)
Definition values_tables (st : DistTable * PtrTable)
  : DistTable * NextHopTable :=
  (st.1, values st.2).

Definition values_state (st : fw_state_ptr) : fw_state :=
  (st.1.1.1, values st.1.1.2, st.1.2).

Definition values_result (r : fw_result_ptr) : fw_result :=
  (r.1.1.1.1, values r.1.1.1.2, r.1.1.2, r.1.2).

(** The cells of a two-level map, as a list. *)
Definition cells {A : Type} (m : gmap Vertex (gmap Vertex A))
  : list (Vertex * Vertex * A) :=
  List.flat_map
    (fun row : Vertex * gmap Vertex A =>
       List.map (fun cell : Vertex * A => (row.1, cell.1, cell.2))
         (map_to_list row.2))
    (map_to_list m).

(** Checks, by computation, of the hypotheses of the theorems on a given
    graph. *)
Definition graph_wfb (g : IG) : bool :=
  forallb
    (fun c : Vertex * Vertex * Latency =>
       bool_decide (is_Some (Vert g !! c.1.1))
       && bool_decide (is_Some (Vert g !! c.1.2)))
    (cells (edges g)).

Definition weights_nonnegb (g : IG) (now : Time) : bool :=
  forallb
    (fun c : Vertex * Vertex * Latency =>
       Qle_bool 0 (Weight g now c.1.1 c.1.2))
    (cells (edges g)).

Definition IGp_wfb (gp : IGp) : bool :=
  bool_decide (nhTable (ig gp) = values (nhTable_ptr gp))
  && forallb
       (fun c : Vertex * Vertex * option Ptr =>
          match c.2 with
          | Some p => bool_decide (ptr_addr p < next_addr gp)%positive
          | None => true
          end)
       (cells (nhTable_ptr gp)).

(** An edge node that has computed its routes at instant 0 and measures
    the link 1 -> 2 again, at 30 ms, ten seconds later. *)
Definition gp_measured_again : IGp :=
  let gp1 :=
    (RecalculateNhTable_ptr pow_exponent_one true
       (mkIGp graph_edge_fresh ∅ 1) 0%Z [1%N; 2%N] [1%N; 2%N] [1%N; 2%N]
       [1%N; 2%N]).2 in
  mkIGp (UpdateLatency (ig gp1) 10000000000%Z 1%N 2%N 30000000%Z)
        (nhTable_ptr gp1) (next_addr gp1).

(** The supernode of [super_example] in static mode. *)
Definition super_static : Super :=
  mkSuper (http_PeerState super_example) (http_NhTable_Hash super_example)
          (http_NhTableStr super_example) (http_HashSalt super_example)
          (http_NodeReportTimeout super_example) (http_device4 super_example)
          (http_device6 super_example)
          (NewGraph true (mkGraphRecalculateSetting true 5 (101 # 100) 70 5)).

(** ** Names of closures *)

(** The suffix that the Go compiler appends for a chain of closures:
    [.func] and a number for each. *)
Definition closures (ds : list (list ascii)) : list ascii :=
  concat (map (fun d => dotFunc ++ d) ds).

(** A non-empty string of decimal digits. *)
Definition number (d : list ascii) : Prop :=
  d ≠ [] ∧ Forall (fun c => not_digit c = false) d.

(** Cutting a string behind the last occurrence of a byte. *)
Definition cut_after (c : ascii) (s : list ascii) : list ascii :=
  match strings_LastIndexByte s c with
  | Some idx => drop (S idx) s
  | None => s
  end.

(** A supernode with tolerance [t = 5] and multiplier [r = 1.01] whose edge
    1 -> 2 has the old weight 5050800 ns. *)
Definition graph64_threshold : Float64.IG :=
  Float64.mkIG
    {[ 1%N := {[ 2%N := Float64.mkLatency (Float64.seconds 5050800%Z)
                          (Float64.seconds 5050800%Z) 0%Z ]} ]}
    (Float64.of_Z 5) (Float64.const 101 100) true.

(** ** Rounded sums *)

(** The line 1 -> 2 -> 3 -> 4 whose links hold the [float64] of the three
    measurements, given in nanoseconds. *)
Definition graph64_line (d12 d23 d34 : Duration) : IG :=
  let g :=
    NewGraph true (mkGraphRecalculateSetting false 5 (101 # 100) 9999999 5) in
  let g := UpdateLatency g 0%Z 1%N 2%N d12 in
  let g := UpdateLatency g 0%Z 2%N 3%N d23 in
  let g := UpdateLatency g 0%Z 3%N 4%N d34 in
  let g := SetWeight g 1%N 2%N (Float64.to_Q (Float64.seconds d12)) in
  let g := SetWeight g 2%N 3%N (Float64.to_Q (Float64.seconds d23)) in
  SetWeight g 3%N 4%N (Float64.to_Q (Float64.seconds d34)).

(** What the proofs below use of the addition of [float64].  [is_float]
    holds of the rationals that are finite [float64].  On those from 0 to
    below [Infinity], where the loop adds, the sum is again one (it cannot
    overflow) and rounding to nearest keeps the order of the exact sums;
    and adding zero is exact. *)
Record float_addition (is_float : Q → Prop) (fadd : Q → Q → Q) : Prop := {
  fa_zero : is_float 0;
  fa_Infinity : is_float Infinity;
  fa_closed : ∀ a b, is_float a → is_float b →
                     0 <= a < Infinity → 0 <= b < Infinity →
                     is_float (fadd a b);
  fa_mono : ∀ a a' b b', is_float a → is_float a' → is_float b → is_float b' →
                         0 <= a → a <= a' → a' < Infinity →
                         0 <= b → b <= b' → b' < Infinity →
                         fadd a b <= fadd a' b';
  fa_zero_r : ∀ a, is_float a → fadd a 0 == a;
  fa_zero_l : ∀ b, is_float b → fadd 0 b == b
}.

(** Vertices joined by a chain of links whose weight is below [Infinity]:
    links that are stored and have not timed out. *)
Definition connected (g : IG) (now : Time) : Vertex → Vertex → Prop :=
  rtc (fun a b => Weight g now a b < Infinity).

(** What holds of the cells of the two tables, between vertices, from the
    initialisation to the end of the triple loop. *)
Definition cell_ok (is_float : Q → Prop) (g : IG) (now : Time)
    (vs : list Vertex) (st : DistTable * NextHopTable) (i j : Vertex)
  : Prop :=
  is_float (dist_at st.1 i j)
  ∧ 0 <= dist_at st.1 i j
  ∧ dist_at st.1 i j <= Infinity
  ∧ dist_at st.1 i j <= Weight g now i j
  ∧ (i = j → dist_at st.1 i j == 0)
  ∧ (dist_at st.1 i j < Infinity → connected g now i j)
  ∧ match next_at st.2 i j with
    | None => i ≠ j → dist_at st.1 i j == Infinity
    | Some m => m ∈ vs
                ∧ Weight g now i m < Infinity
                ∧ Weight g now i m <= dist_at st.1 i j
                ∧ dist_at st.1 i j < Infinity
    end.

Definition cells_ok (is_float : Q → Prop) (g : IG) (now : Time)
    (vs : list Vertex) (st : DistTable * NextHopTable) : Prop :=
  (∀ a, is_Some (st.1 !! a) → a ∈ vs)
  ∧ ∀ i j, i ∈ vs → j ∈ vs → cell_ok is_float g now vs st i j.

(** ** The rounding of binary64 on the rationals *)

(** The integer nearest to [m]; of two that are as near, the even one. *)
Definition rne (m : Q) : Z :=
  let f := Qfloor m in
  match Qcompare (m - inject_Z f) (1 # 2) with
  | Lt => f
  | Eq => if Z.even f then f else (f + 1)%Z
  | Gt => (f + 1)%Z
  end.

(** For [q > 0], the exponent [e] with [2^e <= q < 2^(e+1)]. *)
Definition ilog2 (q : Q) : Z :=
  let c := (Z.log2 (Qnum q) - Z.log2 (Zpos (Qden q)))%Z in
  if Qle_bool (2 ^ c) q then c else (c - 1)%Z.

(** A positive rational rounded to 53 significant bits, the precision of
    binary64, to nearest and ties to even. *)
Definition round53_pos (q : Q) : Q :=
  let s := (ilog2 q - 52)%Z in
  inject_Z (rne (q * 2 ^ (- s))) * 2 ^ s.

Definition round53 (q : Q) : Q :=
  match Qcompare q 0 with
  | Eq => 0
  | Gt => round53_pos q
  | Lt => - round53_pos (- q)
  end.

(** The sum of two [float64], on the rationals: the exact sum rounded.
    The exponent is not bounded here; binary64 returns the same as long as
    the sum does not overflow (a sum too small for 53 bits in binary64 is
    exact there and here). *)
Definition fadd53 (a b : Q) : Q := round53 (a + b).

(** The rationals of 53 significant bits that are not negative. *)
Definition is_float53 (q : Q) : Prop := 0 <= q ∧ round53 q == q.

Definition is_float53b (q : Q) : bool :=
  Qle_bool 0 q && Qeq_bool (round53 q) q.

(** All weights of a graph are such rationals: a check by computation. *)
Definition weights_float53b (g : IG) (now : Time) : bool :=
  forallb
    (fun c : Vertex * Vertex * Latency =>
       is_float53b (Weight g now c.1.1 c.1.2))
    (cells (edges g)).

(* ===================================================================== *)
(** * Part III.  Properties                                               *)
(* ===================================================================== *)

(** ** conn.ValidIP *)

Lemma ValidIP_from_S (b : nat) (ip : list byte) :
  ValidIP_from (S b) ip = match ip with [] => false | _ => true end.
Proof. destruct ip; reflexivity. Qed.

(** C10. [ValidIP ip] is true exactly when [ip] has at least two bytes,
    whatever the bytes are: the loop variable is the index, so the test
    [b != 0] first succeeds at index 1. *)
Theorem C10_ValidIP_iff_length (ip : list byte) :
  ValidIP ip = true ↔ (2 <= length ip)%nat.
Proof.
  unfold ValidIP. destruct ip as [|x [|y rest]]; simpl.
  - split; [discriminate | lia].
  - split; [discriminate | lia].
  - split; [lia | reflexivity].
Qed.

(** ** Comparisons on rationals *)

Lemma Qltb_lt (a b : Q) : Qltb a b = true ↔ a < b.
Proof.
  unfold Qltb. rewrite negb_true_iff. split.
  - intros H. apply Qnot_le_lt. intros Hle.
    apply Qle_bool_iff in Hle. congruence.
  - intros H. destruct (Qle_bool b a) eqn:E; [|reflexivity].
    apply Qle_bool_iff in E. exfalso. apply (Qlt_not_le _ _ H E).
Qed.

Lemma Qltb_ge (a b : Q) : Qltb a b = false ↔ b <= a.
Proof.
  unfold Qltb. rewrite negb_false_iff. apply Qle_bool_iff.
Qed.

Lemma Qabs_idem (x : Q) : Qabs (Qabs x) = Qabs x.
Proof. destruct x as [n d]. simpl. now rewrite Z.abs_idemp. Qed.

(** ** path.Weight *)

(** C2, counterexample.  Vertex 2 is configured with an additional cost of
    0.25 s; one second after the measurement [Weight 1 2] is the stored
    0.5 s, not the 0.75 s of the claim. *)
Lemma C2_counterexample :
  Weight graph_one_edge 1000000000%Z 1%N 2%N == 1 # 2
  ∧ Weight_spec (fun v => if decide (v = 2%N) then 1 # 4 else 0)
      graph_one_edge 1000000000%Z 1%N 2%N == 3 # 4
  ∧ ¬ Weight graph_one_edge 1000000000%Z 1%N 2%N
      == Weight_spec (fun v => if decide (v = 2%N) then 1 # 4 else 0)
           graph_one_edge 1000000000%Z 1%N 2%N.
Proof. vm_compute. repeat split; discriminate. Qed.

(** C2, as the code has it.  [Weight u v] is 0 when [u = v]; [Infinity]
    (the constant 99999) when no edge is stored for the pair or the stored
    edge is older than [NodeReportTimeout]; and otherwise the stored ping
    itself: no additional cost is added. *)
Theorem C2_Weight_cases (g : IG) (now : Time) (u v : Vertex) :
  (u = v → Weight g now u v = 0)
  ∧ (u ≠ v → lookup2 (edges g) u v = None → Weight g now u v = Infinity)
  ∧ (∀ l, u ≠ v → lookup2 (edges g) u v = Some l →
          (NodeReportTimeout g < now - time l)%Z →
          Weight g now u v = Infinity)
  ∧ (∀ l, u ≠ v → lookup2 (edges g) u v = Some l →
          (now - time l <= NodeReportTimeout g)%Z →
          Weight g now u v = ping l).
Proof.
  unfold Weight, lookup2, stale. repeat split.
  - intros ->. now rewrite decide_True.
  - intros Hne H. rewrite decide_False by assumption.
    destruct (edges g !! u) as [row|]; [now rewrite H | reflexivity].
  - intros l Hne H Hold. rewrite decide_False by assumption.
    destruct (edges g !! u) as [row|]; [|discriminate]. rewrite H.
    destruct (Z.ltb_spec (time l + NodeReportTimeout g) now); [reflexivity|lia].
  - intros l Hne H Hfresh. rewrite decide_False by assumption.
    destruct (edges g !! u) as [row|]; [|discriminate]. rewrite H.
    destruct (Z.ltb_spec (time l + NodeReportTimeout g) now); [lia|reflexivity].
Qed.

(** ** path.ShouldUpdate *)

(** C4, counterexample.  With [r = 1] (allowed by [r >= 1]) the old weight
    21 ms and the new measurement 22 ms fall in the same bucket, 25 ms, yet
    [ShouldUpdate] answers true: the code quantises only when [r > 1]. *)
Lemma C4_counterexample :
  IsSuperMode graph_edge_r1 = false
  ∧ 1 <= JitterToleranceMultiplier graph_edge_r1
  ∧ Qabs (OldWeight graph_edge_r1 1%N 2%N * 1000) == 21
  ∧ quantize pow_exponent_one (JitterTolerance graph_edge_r1)
      (JitterToleranceMultiplier graph_edge_r1)
      (Qabs (OldWeight graph_edge_r1 1%N 2%N * 1000)) == 25
  ∧ quantize pow_exponent_one (JitterTolerance graph_edge_r1)
      (JitterToleranceMultiplier graph_edge_r1)
      (Qabs ((22 # 1000) * 1000)) == 25
  ∧ ShouldUpdate pow_exponent_one graph_edge_r1 1%N 2%N (22 # 1000) = true.
Proof. vm_compute. repeat split; discriminate. Qed.

(** C4, as the code has it.  In edge mode a new measurement replaces the old
    weight exactly when the two values, in milliseconds and in absolute
    value, differ after [GetWeightType]: that is the quantisation [Q] when
    [t > 0.001] and [r > 1], and the value itself otherwise. *)
Theorem C4_ShouldUpdate_edge (math_Pow : Q → Q → Q) (g : IG) (u v : Vertex)
    (newval : Q) :
  IsSuperMode g = false →
  (1 # 1000 < JitterTolerance g → 1 < JitterToleranceMultiplier g →
   ShouldUpdate math_Pow g u v newval = true
   ↔ ¬ quantize math_Pow (JitterTolerance g) (JitterToleranceMultiplier g)
         (Qabs (OldWeight g u v * 1000))
       == quantize math_Pow (JitterTolerance g) (JitterToleranceMultiplier g)
            (Qabs (newval * 1000)))
  ∧ (JitterTolerance g <= 1 # 1000 ∨ JitterToleranceMultiplier g <= 1 →
     ShouldUpdate math_Pow g u v newval = true
     ↔ ¬ Qabs (OldWeight g u v * 1000) == Qabs (newval * 1000)).
Proof.
  intros Hs. unfold ShouldUpdate, GetWeightType, quantize. rewrite Hs.
  rewrite !Qabs_idem. rewrite negb_true_iff. split.
  - intros Ht Hr. apply Qltb_lt in Ht, Hr. rewrite Ht, Hr. simpl.
    rewrite <- Qeq_bool_iff. now destruct (Qeq_bool _ _).
  - intros Hor.
    assert (Qltb (1 # 1000) (JitterTolerance g)
            && Qltb 1 (JitterToleranceMultiplier g) = false) as ->.
    { apply andb_false_iff. destruct Hor as [H|H]; [left|right];
        now apply Qltb_ge. }
    rewrite <- Qeq_bool_iff. now destruct (Qeq_bool _ _).
Qed.

Lemma C4_witness :
  (1 # 1000 < JitterTolerance graph_edge_r1 →
   1 < JitterToleranceMultiplier graph_edge_r1 →
   ShouldUpdate pow_exponent_one graph_edge_r1 1%N 2%N (22 # 1000) = true
   ↔ ¬ quantize pow_exponent_one (JitterTolerance graph_edge_r1)
         (JitterToleranceMultiplier graph_edge_r1)
         (Qabs (OldWeight graph_edge_r1 1%N 2%N * 1000))
       == quantize pow_exponent_one (JitterTolerance graph_edge_r1)
            (JitterToleranceMultiplier graph_edge_r1)
            (Qabs ((22 # 1000) * 1000)))
  ∧ (JitterTolerance graph_edge_r1 <= 1 # 1000
     ∨ JitterToleranceMultiplier graph_edge_r1 <= 1 →
     ShouldUpdate pow_exponent_one graph_edge_r1 1%N 2%N (22 # 1000) = true
     ↔ ¬ Qabs (OldWeight graph_edge_r1 1%N 2%N * 1000)
         == Qabs ((22 # 1000) * 1000)).
Proof.
  apply (C4_ShouldUpdate_edge pow_exponent_one graph_edge_r1 1%N 2%N
           (22 # 1000)).
  reflexivity.
Defined.

(** ** Two-level maps *)

Lemma lookup2_insert2 {A : Type} (m : gmap Vertex (gmap Vertex A))
    (u v a b : Vertex) (x : A) :
  lookup2 (insert2 u v x m) a b
  = if decide (a = u ∧ b = v) then Some x else lookup2 m a b.
Proof.
  unfold lookup2, insert2. destruct (decide (a = u)) as [->|Hau].
  - rewrite lookup_insert_eq. destruct (decide (b = v)) as [->|Hbv].
    + rewrite lookup_insert_eq. now rewrite decide_True.
    + rewrite lookup_insert_ne by congruence.
      rewrite decide_False by (intros [_ ?]; congruence).
      destruct (m !! u); [reflexivity | apply lookup_empty].
  - rewrite lookup_insert_ne by congruence.
    now rewrite decide_False by (intros [? _]; congruence).
Qed.

Lemma lookup2_insert_empty {A : Type} (m : gmap Vertex (gmap Vertex A))
    (u a b : Vertex) :
  lookup2 (<[u := ∅]> m) a b = if decide (a = u) then None else lookup2 m a b.
Proof.
  unfold lookup2. destruct (decide (a = u)) as [->|Hau].
  - rewrite lookup_insert_eq. apply lookup_empty.
  - now rewrite lookup_insert_ne by congruence.
Qed.

Lemma dist_at_insert2 (d : DistTable) (u v a b : Vertex) (x : Q) :
  dist_at (insert2 u v x d) a b
  = if decide (a = u ∧ b = v) then x else dist_at d a b.
Proof.
  unfold dist_at. rewrite lookup2_insert2. now destruct (decide _).
Qed.

Lemma next_at_insert2 (n : NextHopTable) (u v a b : Vertex)
    (x : option Vertex) :
  next_at (insert2 u v x n) a b
  = if decide (a = u ∧ b = v) then x else next_at n a b.
Proof.
  unfold next_at. rewrite lookup2_insert2. now destruct (decide _).
Qed.

Lemma insert2_row_is_Some {A : Type} (m : gmap Vertex (gmap Vertex A))
    (u v a : Vertex) (x : A) :
  is_Some (m !! a) → is_Some (insert2 u v x m !! a).
Proof.
  intros H. unfold insert2. destruct (decide (a = u)) as [->|Hne].
  - rewrite lookup_insert_eq. eauto.
  - now rewrite lookup_insert_ne by congruence.
Qed.

(** ** Weights are blind to [ping_old] *)

Lemma lookup2_SetOldWeight (g : IG) (u v a b : Vertex) (w : Q) :
  lookup2 (edges (SetOldWeight g u v w)) a b
  = if decide (a = u ∧ b = v)
    then (fun l => mkLatency (ping l) w (time l)) <$> lookup2 (edges g) a b
    else lookup2 (edges g) a b.
Proof.
  unfold SetOldWeight, lookup2.
  destruct (edges g !! u) as [row|] eqn:Er.
  - destruct (row !! v) as [l|] eqn:El.
    + simpl. destruct (decide (a = u)) as [->|Hau].
      * rewrite lookup_insert_eq, Er.
        destruct (decide (b = v)) as [->|Hbv].
        -- rewrite lookup_insert_eq, decide_True by done. now rewrite El.
        -- rewrite lookup_insert_ne by congruence.
           now rewrite decide_False by (intros [_ ?]; congruence).
      * rewrite lookup_insert_ne by congruence.
        now rewrite decide_False by (intros [? _]; congruence).
    + destruct (decide _) as [[-> ->]|]; [|reflexivity].
      now rewrite Er, El.
  - destruct (decide _) as [[-> ->]|]; [|reflexivity]. now rewrite Er.
Qed.

Lemma lookup2_SetWeight (g : IG) (u v a b : Vertex) (w : Q) :
  lookup2 (edges (SetWeight g u v w)) a b
  = if decide (a = u ∧ b = v)
    then (fun l => mkLatency w (ping_old l) (time l)) <$> lookup2 (edges g) a b
    else lookup2 (edges g) a b.
Proof.
  unfold SetWeight, lookup2.
  destruct (edges g !! u) as [row|] eqn:Er.
  - destruct (row !! v) as [l|] eqn:El.
    + simpl. destruct (decide (a = u)) as [->|Hau].
      * rewrite lookup_insert_eq, Er.
        destruct (decide (b = v)) as [->|Hbv].
        -- rewrite lookup_insert_eq, decide_True by done. now rewrite El.
        -- rewrite lookup_insert_ne by congruence.
           now rewrite decide_False by (intros [_ ?]; congruence).
      * rewrite lookup_insert_ne by congruence.
        now rewrite decide_False by (intros [? _]; congruence).
    + destruct (decide _) as [[-> ->]|]; [|reflexivity].
      now rewrite Er, El.
  - destruct (decide _) as [[-> ->]|]; [|reflexivity]. now rewrite Er.
Qed.

(** [Weight] and [OldWeight] through [lookup2]. *)
Lemma Weight_lookup2 (g : IG) (now : Time) (u v : Vertex) :
  Weight g now u v
  = if decide (u = v) then 0
    else match lookup2 (edges g) u v with
         | None => Infinity
         | Some l => if stale g now l then Infinity else ping l
         end.
Proof. unfold Weight, lookup2. now destruct (edges g !! u). Qed.

Lemma OldWeight_lookup2 (g : IG) (u v : Vertex) :
  OldWeight g u v
  = if decide (u = v) then 0
    else match lookup2 (edges g) u v with
         | None => Infinity
         | Some l => ping_old l
         end.
Proof. unfold OldWeight, lookup2. now destruct (edges g !! u). Qed.

Lemma NodeReportTimeout_SetOldWeight (g : IG) (u v : Vertex) (w : Q) :
  NodeReportTimeout (SetOldWeight g u v w) = NodeReportTimeout g.
Proof.
  unfold SetOldWeight. destruct (edges g !! u) as [row|]; [|reflexivity].
  now destruct (row !! v).
Qed.

Lemma NodeReportTimeout_SetWeight (g : IG) (u v : Vertex) (w : Q) :
  NodeReportTimeout (SetWeight g u v w) = NodeReportTimeout g.
Proof.
  unfold SetWeight. destruct (edges g !! u) as [row|]; [|reflexivity].
  now destruct (row !! v).
Qed.

Lemma Weight_SetOldWeight (g : IG) (now : Time) (u v a b : Vertex) (w : Q) :
  Weight (SetOldWeight g u v w) now a b = Weight g now a b.
Proof.
  rewrite !Weight_lookup2, lookup2_SetOldWeight. unfold stale.
  rewrite NodeReportTimeout_SetOldWeight.
  destruct (decide (a = b)); [reflexivity|].
  destruct (decide _); [|reflexivity].
  now destruct (lookup2 (edges g) a b).
Qed.

Lemma Neighbors_lookup2 (g : IG) (u v : Vertex) :
  v ∈ Neighbors g u ↔ is_Some (lookup2 (edges g) u v).
Proof.
  unfold Neighbors, lookup2. destruct (edges g !! u) as [row|].
  - rewrite list_elem_of_fmap. split.
    + intros [[k l] [-> H]]. apply elem_of_map_to_list in H. simpl. eauto.
    + intros [l H]. exists (v, l). split; [reflexivity|].
      now apply elem_of_map_to_list.
  - split; [intros H; inversion H | intros [? ?]; discriminate].
Qed.

(** ** Loops as folds *)

Lemma foldl_invariant {A B : Type} (P : A → Prop) (f : A → B → A)
    (l : list B) (a : A) :
  P a → (∀ a x, x ∈ l → P a → P (f a x)) → P (foldl f a l).
Proof.
  revert a. induction l as [|x l IH]; intros a Ha Hstep; simpl.
  - exact Ha.
  - apply IH.
    + apply Hstep; [left | exact Ha].
    + intros a' y Hy. apply Hstep. now right.
Qed.

(** ** RemoveAllNegativeValue *)

Lemma Weight_negative_edge (g : IG) (now : Time) (u v : Vertex) :
  Weight g now u v < 0 →
  u ≠ v ∧ ∃ l, lookup2 (edges g) u v = Some l ∧ stale g now l = false
               ∧ ping l < 0.
Proof.
  rewrite Weight_lookup2. destruct (decide (u = v)) as [->|Hne].
  - intros H. exfalso. lra.
  - destruct (lookup2 (edges g) u v) as [l|].
    + destruct (stale g now l) eqn:Es.
      * unfold Infinity. intros H. exfalso. lra.
      * intros H. split; [assumption|]. exists l. auto.
    + unfold Infinity. intros H. exfalso. lra.
Qed.

Lemma Weight_SetWeight_negative (g : IG) (now : Time) (u v a b : Vertex) :
  Weight g now u v < 0 →
  Weight (SetWeight g u v 0) now a b
  = if decide (a = u ∧ b = v) then 0 else Weight g now a b.
Proof.
  intros H. destruct (Weight_negative_edge _ _ _ _ H) as (Hne & l & Hl & Hs & _).
  rewrite !Weight_lookup2, lookup2_SetWeight. unfold stale in *.
  rewrite NodeReportTimeout_SetWeight.
  destruct (decide (a = u ∧ b = v)) as [[-> ->]|Hab].
  - rewrite decide_False by assumption. rewrite Hl. simpl. now rewrite Hs.
  - reflexivity.
Qed.

Lemma clamped_refl (now : Time) (g : IG) : clamped now g g.
Proof. intros a b. now left. Qed.

Lemma clamped_trans (now : Time) (g1 g2 g3 : IG) :
  clamped now g1 g2 → clamped now g2 g3 → clamped now g1 g3.
Proof.
  intros H12 H23 a b. destruct (H23 a b) as [E|[Hneg E]].
  - rewrite E. apply H12.
  - right. split; [|exact E].
    destruct (H12 a b) as [E'|[Hneg' E']].
    + now rewrite <- E'.
    + exfalso. rewrite E' in Hneg. lra.
Qed.

Lemma clamped_nonneg (now : Time) (g g' : IG) (a b : Vertex) :
  clamped now g g' → 0 <= Weight g now a b → 0 <= Weight g' now a b.
Proof.
  intros H Hge. destruct (H a b) as [E|[_ E]]; rewrite E; [exact Hge | lra].
Qed.

Lemma clamp_edge_clamped (now : Time) (u v : Vertex) (g : IG) :
  clamped now g (clamp_edge now u g v).
Proof.
  unfold clamp_edge. destruct (Qltb (Weight g now u v) 0) eqn:E.
  - apply Qltb_lt in E. intros a b. rewrite Weight_SetWeight_negative by exact E.
    destruct (decide (a = u ∧ b = v)) as [[-> ->]|]; [right; auto | now left].
  - apply clamped_refl.
Qed.

Lemma clamp_edge_nonneg (now : Time) (u v : Vertex) (g : IG) :
  0 <= Weight (clamp_edge now u g v) now u v.
Proof.
  unfold clamp_edge. destruct (Qltb (Weight g now u v) 0) eqn:E.
  - apply Qltb_lt in E. rewrite Weight_SetWeight_negative by exact E.
    rewrite decide_True by done. lra.
  - now apply Qltb_ge in E.
Qed.

Lemma clamp_row_spec (now : Time) (u : Vertex) (l : list Vertex) (g : IG) :
  clamped now g (foldl (clamp_edge now u) g l)
  ∧ ∀ v, v ∈ l → 0 <= Weight (foldl (clamp_edge now u) g l) now u v.
Proof.
  revert g. induction l as [|x l IH]; intros g; simpl.
  - split; [apply clamped_refl | intros v Hv; inversion Hv].
  - destruct (IH (clamp_edge now u g x)) as [Hc Hn]. split.
    + eapply clamped_trans; [apply clamp_edge_clamped | exact Hc].
    + intros v Hv. apply elem_of_cons in Hv as [->|Hv]; [|now apply Hn].
      eapply clamped_nonneg; [exact Hc | apply clamp_edge_nonneg].
Qed.

Lemma RemoveAllNegativeValue_fold (g : IG) (now : Time) (vs : list Vertex) :
  RemoveAllNegativeValue g now vs
  = foldl (fun g u => foldl (clamp_edge now u) g vs) g vs.
Proof. reflexivity. Qed.

Lemma clamp_rows_spec (now : Time) (us vs : list Vertex) (g : IG) :
  clamped now g (foldl (fun g u => foldl (clamp_edge now u) g vs) g us)
  ∧ ∀ u v, u ∈ us → v ∈ vs →
           0 <= Weight (foldl (fun g u => foldl (clamp_edge now u) g vs) g us)
                  now u v.
Proof.
  revert g. induction us as [|x us IH]; intros g; simpl.
  - split; [apply clamped_refl | intros u v Hu; inversion Hu].
  - destruct (clamp_row_spec now x vs g) as [Hc1 Hn1].
    destruct (IH (foldl (clamp_edge now x) g vs)) as [Hc Hn]. split.
    + eapply clamped_trans; eassumption.
    + intros u v Hu Hv. apply elem_of_cons in Hu as [->|Hu]; [|now apply Hn].
      eapply clamped_nonneg; [exact Hc | now apply Hn1].
Qed.

Lemma RemoveAllNegativeValue_spec (now : Time) (vs : list Vertex) (g : IG) :
  clamped now g (RemoveAllNegativeValue g now vs)
  ∧ ∀ u v, u ∈ vs → v ∈ vs →
           0 <= Weight (RemoveAllNegativeValue g now vs) now u v.
Proof. rewrite RemoveAllNegativeValue_fold. apply clamp_rows_spec. Qed.

(** ** The initialisation of FloydWarshall *)

Lemma same_view_refl (now : Time) (g : IG) : same_view now g g.
Proof. split; intros; reflexivity. Qed.

Lemma same_view_SetOldWeight (now : Time) (g g' : IG) (u v : Vertex) (w : Q) :
  same_view now g g' → same_view now g (SetOldWeight g' u v w).
Proof.
  intros [HW HE]. split; intros a b.
  - rewrite Weight_SetOldWeight. apply HW.
  - rewrite lookup2_SetOldWeight, <- HE.
    destruct (decide _); [|reflexivity]. apply fmap_is_Some.
Qed.

Lemma fw_init_edge_fold (now : Time) (g : IG) (u : Vertex) (l : list Vertex) :
  ∀ (d : DistTable) (n : NextHopTable) (g' : IG),
    same_view now g g' →
    ∃ g'', foldl (fw_init_edge now u) (d, n, g') l
           = (foldl (init_cell (Weight g now) u) (d, n) l, g'')
           ∧ same_view now g g''.
Proof.
  induction l as [|x l IH]; intros d n g' Hv; simpl.
  - exists g'. auto.
  - destruct Hv as [HW HE]. rewrite HW. unfold init_cell at 2. simpl.
    destruct (Qltb (Weight g now u x) Infinity);
      apply IH, same_view_SetOldWeight; split; assumption.
Qed.

Lemma init_cells_dist (W : Vertex → Vertex → Q) (u : Vertex) (l : list Vertex) :
  ∀ (d : DistTable) (n : NextHopTable) (a b : Vertex),
    dist_at (foldl (init_cell W u) (d, n) l).1 a b
    = if decide (a = u ∧ b ∈ l ∧ Qltb (W u b) Infinity = true)
      then W u b else dist_at d a b.
Proof.
  induction l as [|x l IH]; intros d n a b; simpl.
  - rewrite decide_False; [reflexivity|]. intros (_ & H & _). inversion H.
  - unfold init_cell at 2. simpl.
    destruct (Qltb (W u x) Infinity) eqn:E; rewrite IH.
    + simpl. rewrite dist_at_insert2.
      destruct (decide (a = u ∧ b ∈ l ∧ _)) as [(-> & Hb & Hlt)|H1].
      * rewrite decide_True; [reflexivity|]. repeat split; [now right|exact Hlt].
      * destruct (decide (a = u ∧ b = x)) as [[-> ->]|H2].
        -- rewrite decide_True; [reflexivity|]. repeat split; [left|exact E].
        -- rewrite decide_False; [reflexivity|].
           intros (-> & Hb & Hlt). apply elem_of_cons in Hb as [->|Hb].
           ++ now apply H2.
           ++ now apply H1.
    + simpl.
      destruct (decide (a = u ∧ b ∈ l ∧ _)) as [(-> & Hb & Hlt)|H1].
      * rewrite decide_True; [reflexivity|]. repeat split; [now right|exact Hlt].
      * rewrite decide_False; [reflexivity|].
        intros (-> & Hb & Hlt). apply elem_of_cons in Hb as [->|Hb].
        -- congruence.
        -- now apply H1.
Qed.

Lemma init_cells_next (W : Vertex → Vertex → Q) (u : Vertex) (l : list Vertex) :
  ∀ (d : DistTable) (n : NextHopTable) (a b : Vertex),
    next_at (foldl (init_cell W u) (d, n) l).2 a b
    = if decide (a = u ∧ b ∈ l ∧ Qltb (W u b) Infinity = true)
      then Some b else next_at n a b.
Proof.
  induction l as [|x l IH]; intros d n a b; simpl.
  - rewrite decide_False; [reflexivity|]. intros (_ & H & _). inversion H.
  - unfold init_cell at 2. simpl.
    destruct (Qltb (W u x) Infinity) eqn:E; rewrite IH.
    + simpl. rewrite next_at_insert2.
      destruct (decide (a = u ∧ b ∈ l ∧ _)) as [(-> & Hb & Hlt)|H1].
      * rewrite decide_True; [reflexivity|]. repeat split; [now right|exact Hlt].
      * destruct (decide (a = u ∧ b = x)) as [[-> ->]|H2].
        -- rewrite decide_True; [reflexivity|]. repeat split; [left|exact E].
        -- rewrite decide_False; [reflexivity|].
           intros (-> & Hb & Hlt). apply elem_of_cons in Hb as [->|Hb].
           ++ now apply H2.
           ++ now apply H1.
    + simpl.
      destruct (decide (a = u ∧ b ∈ l ∧ _)) as [(-> & Hb & Hlt)|H1].
      * rewrite decide_True; [reflexivity|]. repeat split; [now right|exact Hlt].
      * rewrite decide_False; [reflexivity|].
        intros (-> & Hb & Hlt). apply elem_of_cons in Hb as [->|Hb].
        -- congruence.
        -- now apply H1.
Qed.

Lemma init_cells_rows (W : Vertex → Vertex → Q) (u : Vertex) (l : list Vertex) :
  ∀ (d : DistTable) (n : NextHopTable) (a : Vertex),
    is_Some (d !! u) →
    (is_Some ((foldl (init_cell W u) (d, n) l).1 !! a) ↔ is_Some (d !! a)).
Proof.
  induction l as [|x l IH]; intros d n a Hu; simpl; [reflexivity|].
  unfold init_cell at 2. simpl. destruct (Qltb (W u x) Infinity).
  - rewrite IH by (now apply insert2_row_is_Some). simpl. unfold insert2.
    destruct (decide (a = u)) as [->|Hne].
    + rewrite lookup_insert_eq. split; eauto.
    + now rewrite lookup_insert_ne by congruence.
  - now apply IH.
Qed.

Lemma fill_row_dist (u : Vertex) (l : list Vertex) :
  ∀ (d : DistTable) (a b : Vertex),
    dist_at (foldl (fun d v => insert2 u v Infinity d) d l) a b
    = if decide (a = u ∧ b ∈ l) then Infinity else dist_at d a b.
Proof.
  induction l as [|x l IH]; intros d a b; simpl.
  - rewrite decide_False; [reflexivity|]. intros [_ H]. inversion H.
  - rewrite IH, dist_at_insert2.
    destruct (decide (a = u ∧ b ∈ l)) as [[-> Hb]|H1].
    + rewrite decide_True; [reflexivity|]. split; [reflexivity|now right].
    + destruct (decide (a = u ∧ b = x)) as [[-> ->]|H2].
      * rewrite decide_True; [reflexivity|]. split; [reflexivity|left].
      * rewrite decide_False; [reflexivity|].
        intros [-> Hb]. apply elem_of_cons in Hb as [->|Hb].
        -- now apply H2.
        -- now apply H1.
Qed.

Lemma fill_row_rows (u : Vertex) (l : list Vertex) :
  ∀ (d : DistTable) (a : Vertex),
    is_Some (d !! u) →
    (is_Some (foldl (fun d v => insert2 u v Infinity d) d l !! a)
     ↔ is_Some (d !! a)).
Proof.
  induction l as [|x l IH]; intros d a Hu; simpl; [reflexivity|].
  rewrite IH by (now apply insert2_row_is_Some). unfold insert2.
  destruct (decide (a = u)) as [->|Hne].
  - rewrite lookup_insert_eq. split; eauto.
  - now rewrite lookup_insert_ne by congruence.
Qed.

Lemma dist_at_insert_empty (d : DistTable) (u a b : Vertex) :
  dist_at (<[u := ∅]> d) a b = if decide (a = u) then 0 else dist_at d a b.
Proof.
  unfold dist_at. rewrite lookup2_insert_empty. now destruct (decide _).
Qed.

Lemma next_at_insert_empty (n : NextHopTable) (u a b : Vertex) :
  next_at (<[u := ∅]> n) a b = if decide (a = u) then None else next_at n a b.
Proof.
  unfold next_at. rewrite lookup2_insert_empty. now destruct (decide _).
Qed.

Lemma Weight_diag (g : IG) (now : Time) (u : Vertex) : Weight g now u u = 0.
Proof. unfold Weight. now rewrite decide_True. Qed.

Lemma Weight_lt_Infinity_edge (g : IG) (now : Time) (u v : Vertex) :
  u ≠ v → Qltb (Weight g now u v) Infinity = true →
  is_Some (lookup2 (edges g) u v).
Proof.
  intros Hne. rewrite Weight_lookup2, decide_False by assumption.
  destruct (lookup2 (edges g) u v); [eauto | discriminate].
Qed.

Lemma fw_init_row_spec (now : Time) (vs : list Vertex) (g : IG)
    (d : DistTable) (n : NextHopTable) (g' : IG) (u : Vertex) :
  same_view now g g' →
  ∃ d' n' g'',
    fw_init_row now vs (d, n, g') u = (d', n', g'')
    ∧ same_view now g g''
    ∧ (∀ a b, dist_at d' a b
              = if decide (a = u) then init_dist g now vs u b
                else dist_at d a b)
    ∧ (∀ a b, next_at n' a b
              = if decide (a = u) then init_next g now u b
                else next_at n a b)
    ∧ (∀ a, is_Some (d' !! a) ↔ a = u ∨ is_Some (d !! a)).
Proof.
  intros Hv. unfold fw_init_row.
  set (d1 := insert2 u u 0
               (foldl (fun d v => insert2 u v Infinity d) (<[u:=∅]> d) vs)).
  set (n1 := <[u:=∅]> n).
  destruct (fw_init_edge_fold now g u (Neighbors g' u) d1 n1 g' Hv)
    as (g'' & Hfold & Hv'').
  rewrite Hfold.
  destruct (foldl (init_cell (Weight g now) u) (d1, n1) (Neighbors g' u))
    as [d' n'] eqn:Ecells.
  exists d', n', g''. split; [reflexivity|]. split; [exact Hv''|].
  assert (Hd' : d' = (foldl (init_cell (Weight g now) u) (d1, n1)
                        (Neighbors g' u)).1) by now rewrite Ecells.
  assert (Hn' : n' = (foldl (init_cell (Weight g now) u) (d1, n1)
                        (Neighbors g' u)).2) by now rewrite Ecells.
  assert (Hnb : ∀ b, b ∈ Neighbors g' u ↔ is_Some (lookup2 (edges g) u b)).
  { intros b. rewrite Neighbors_lookup2. apply Hv. }
  assert (Hd1 : ∀ a b, dist_at d1 a b
                = if decide (a = u)
                  then if decide (b = u) then 0
                       else if decide (b ∈ vs) then Infinity else 0
                  else dist_at d a b).
  { intros a b. unfold d1.
    rewrite dist_at_insert2, fill_row_dist, dist_at_insert_empty.
    destruct (decide (a = u)) as [->|Ha].
    - destruct (decide (b = u)) as [->|Hb].
      + now rewrite decide_True.
      + rewrite decide_False by (intros [_ ?]; congruence).
        destruct (decide (b ∈ vs)).
        * now rewrite decide_True.
        * now rewrite decide_False by (intros [_ ?]; contradiction).
    - rewrite decide_False by (intros [? _]; congruence).
      now rewrite decide_False by (intros [? _]; congruence). }
  split; [|split].
  - intros a b. rewrite Hd', init_cells_dist, Hd1. unfold init_dist.
    destruct (decide (a = u)) as [->|Ha].
    + destruct (decide (u = u ∧ b ∈ Neighbors g' u ∧ _)) as [(_ & Hb & Hlt)|Hno].
      * destruct (decide (u = b)) as [<-|Hub]; [apply Weight_diag|].
        now rewrite Hlt.
      * destruct (decide (u = b)) as [<-|Hub].
        -- now rewrite decide_True.
        -- rewrite decide_False by congruence.
           destruct (Qltb (Weight g now u b) Infinity) eqn:E; [|reflexivity].
           exfalso. apply Hno. split; [reflexivity|]. split; [|reflexivity].
           apply Hnb. apply (Weight_lt_Infinity_edge g now); [assumption|].
           exact E.
    + now rewrite decide_False by (intros [? _]; congruence).
  - intros a b. rewrite Hn', init_cells_next. unfold n1.
    rewrite next_at_insert_empty. unfold init_next.
    destruct (decide (a = u)) as [->|Ha].
    + destruct (decide (u = u ∧ b ∈ Neighbors g' u ∧ _)) as [(_ & Hb & Hlt)|Hno].
      * destruct (decide (u = b)) as [<-|Hub].
        -- rewrite decide_True; [reflexivity|]. now apply Hnb.
        -- now rewrite Hlt.
      * destruct (decide (u = b)) as [<-|Hub].
        -- destruct (decide (is_Some _)) as [Hs|]; [|reflexivity].
           exfalso. apply Hno. repeat split; [now apply Hnb|].
           now rewrite Weight_diag.
        -- destruct (Qltb (Weight g now u b) Infinity) eqn:E; [|reflexivity].
           exfalso. apply Hno. split; [reflexivity|]. split; [|reflexivity].
           apply Hnb. apply (Weight_lt_Infinity_edge g now); [assumption|].
           exact E.
    + now rewrite decide_False by (intros [? _]; congruence).
  - intros a. rewrite Hd'.
    assert (Hu1 : is_Some (d1 !! u)).
    { unfold d1, insert2. rewrite lookup_insert_eq. eauto. }
    rewrite init_cells_rows by exact Hu1. unfold d1.
    destruct (decide (a = u)) as [->|Ha].
    + split; [now left | intros _; exact Hu1].
    + unfold insert2 at 1. rewrite lookup_insert_ne by congruence.
      rewrite fill_row_rows by (rewrite lookup_insert_eq; eauto).
      rewrite lookup_insert_ne by congruence.
      split; [now right | intros [?|?]; [contradiction|assumption]].
Qed.

Lemma fw_init_rows_spec (now : Time) (vs : list Vertex) (g : IG)
    (us : list Vertex) :
  ∃ d n g',
    foldl (fw_init_row now vs) (∅, ∅, g) us = (d, n, g')
    ∧ same_view now g g'
    ∧ (∀ a b, a ∈ us → dist_at d a b = init_dist g now vs a b)
    ∧ (∀ a b, a ∈ us → next_at n a b = init_next g now a b)
    ∧ (∀ a b, a ∉ us → dist_at d a b = 0 ∧ next_at n a b = None)
    ∧ (∀ a, is_Some (d !! a) ↔ a ∈ us).
Proof.
  induction us as [|x us IH] using rev_ind.
  - exists ∅, ∅, g. simpl. split; [reflexivity|]. split; [apply same_view_refl|].
    split; [intros a b Ha; inversion Ha|].
    split; [intros a b Ha; inversion Ha|].
    split; [intros a b _; split; reflexivity|].
    intros a. rewrite lookup_empty. split.
    + intros [? ?]. discriminate.
    + intros Ha. inversion Ha.
  - destruct IH as (d & n & g' & Hfold & Hv & Hd & Hn & Hout & Hrows).
    rewrite foldl_snoc, Hfold.
    destruct (fw_init_row_spec now vs g d n g' x Hv)
      as (d' & n' & g'' & Hrow & Hv' & Hd' & Hn' & Hrows').
    exists d', n', g''. split; [exact Hrow|]. split; [exact Hv'|].
    split; [|split; [|split]].
    + intros a b Ha. rewrite Hd'. destruct (decide (a = x)) as [->|Hax];
        [reflexivity|]. apply Hd.
      apply elem_of_app in Ha as [Ha|Ha]; [exact Ha|].
      apply list_elem_of_singleton in Ha. contradiction.
    + intros a b Ha. rewrite Hn'. destruct (decide (a = x)) as [->|Hax];
        [reflexivity|]. apply Hn.
      apply elem_of_app in Ha as [Ha|Ha]; [exact Ha|].
      apply list_elem_of_singleton in Ha. contradiction.
    + intros a b Ha. apply not_elem_of_app in Ha as [Ha Hax].
      rewrite list_elem_of_singleton in Hax.
      rewrite Hd', Hn'. rewrite !decide_False by exact Hax. now apply Hout.
    + intros a. rewrite Hrows', Hrows, elem_of_app, list_elem_of_singleton.
      tauto.
Qed.

Lemma fw_init_spec (g : IG) (now : Time) (vs : list Vertex) :
  ∃ d n g',
    fw_init g now vs = (d, n, g')
    ∧ same_view now g g'
    ∧ (∀ a b, a ∈ vs → dist_at d a b = init_dist g now vs a b)
    ∧ (∀ a b, a ∈ vs → next_at n a b = init_next g now a b)
    ∧ (∀ a b, a ∉ vs → dist_at d a b = 0 ∧ next_at n a b = None)
    ∧ (∀ a, is_Some (d !! a) ↔ a ∈ vs).
Proof. apply fw_init_rows_spec. Qed.

(** ** The triple loop, step by step *)

Lemma fw_relax_cases (k i j : Vertex) (d : DistTable) (n : NextHopTable) :
  fw_relax k i (d, n) j = (d, n)
  ∨ (dist_at d i k < Infinity ∧ dist_at d k j < Infinity
     ∧ dist_at d i k + dist_at d k j < dist_at d i j
     ∧ fw_relax k i (d, n) j
       = (insert2 i j (dist_at d i k + dist_at d k j) d,
          insert2 i j (next_at n i k) n)).
Proof.
  unfold fw_relax.
  destruct (Qltb (dist_at d i k) Infinity) eqn:E1; [|now left].
  destruct (Qltb (dist_at d k j) Infinity) eqn:E2; [|now left]. simpl.
  destruct (Qltb (dist_at d i k + dist_at d k j) (dist_at d i j)) eqn:E3;
    [|now left].
  right. apply Qltb_lt in E1, E2, E3. auto.
Qed.

Lemma fw_loop_invariant (P : DistTable * NextHopTable → Prop)
    (vs : list Vertex) (st : DistTable * NextHopTable) :
  P st →
  (∀ k i j st, k ∈ vs → i ∈ vs → j ∈ vs → P st → P (fw_relax k i st j)) →
  P (fw_loop vs st).
Proof.
  intros Hst Hstep. unfold fw_loop.
  apply foldl_invariant; [exact Hst|]. intros st1 k Hk H1. unfold fw_round.
  apply foldl_invariant; [exact H1|]. intros st2 i Hi H2.
  apply foldl_invariant; [exact H2|]. intros st3 j Hj H3. now apply Hstep.
Qed.

Lemma fw_relax_diag_inv (n0 : NextHopTable) (k i j : Vertex)
    (st : DistTable * NextHopTable) :
  diag_inv n0 st → diag_inv n0 (fw_relax k i st j).
Proof.
  destruct st as [d n]. intros H u.
  destruct (fw_relax_cases k i j d n) as [->|(_ & _ & Hlt & ->)]; [apply H|].
  simpl. rewrite dist_at_insert2, next_at_insert2.
  destruct (decide (u = i ∧ u = j)) as [[Hui Huj]|]; [|apply H].
  subst i j. right. destruct (H u) as [[E _]|Hneg]; simpl in *.
  - rewrite E in Hlt. exact Hlt.
  - lra.
Qed.

Lemma fw_relax_rows (k i j a : Vertex) (st : DistTable * NextHopTable) :
  is_Some (st.1 !! a) → is_Some ((fw_relax k i st j).1 !! a).
Proof.
  destruct st as [d n]. intros H.
  destruct (fw_relax_cases k i j d n) as [->|(_ & _ & _ & ->)]; [exact H|].
  simpl. now apply insert2_row_is_Some.
Qed.

Lemma negative_cycle_false (d : DistTable) (a : Vertex) :
  negative_cycle d = false → is_Some (d !! a) → 0 <= dist_at d a a.
Proof.
  unfold negative_cycle. intros Hex [row Hrow].
  apply Qnot_lt_le. intros Hlt.
  assert (existsb (fun i => Qltb (dist_at d i i) 0) (map_to_list d).*1 = true)
    as Htrue; [|congruence].
  apply existsb_exists. exists a. split; [|now apply Qltb_lt].
  apply list_elem_of_In, list_elem_of_fmap. exists (a, row).
  split; [reflexivity|]. now apply elem_of_map_to_list.
Qed.

Lemma negative_cycle_true (d : DistTable) :
  negative_cycle d = true → ∃ a, is_Some (d !! a) ∧ dist_at d a a < 0.
Proof.
  unfold negative_cycle. intros H. apply existsb_exists in H as (a & Ha & Hlt).
  exists a. split; [|now apply Qltb_lt].
  apply list_elem_of_In, list_elem_of_fmap in Ha as ([a' row] & -> & Ha).
  apply elem_of_map_to_list in Ha. simpl. eauto.
Qed.

(** One run, described through its initialisation and its loop. *)
Lemma fw_run_unfold (g : IG) (now : Time) (vs : list Vertex) :
  ∃ d0 n0 g',
    fw_init g now vs = (d0, n0, g')
    ∧ fw_run g now vs
      = ((fw_loop vs (d0, n0)).1, (fw_loop vs (d0, n0)).2, g').
Proof.
  unfold fw_run. destruct (fw_init g now vs) as [[d0 n0] g'].
  exists d0, n0, g'. split; [reflexivity|].
  now destruct (fw_loop vs (d0, n0)).
Qed.

Lemma fw_run_same_view (g : IG) (now now' : Time) (vs : list Vertex)
    (d : DistTable) (n : NextHopTable) (g' : IG) :
  fw_run g now vs = (d, n, g') → same_view now' g g'.
Proof.
  unfold fw_run, fw_init. intros H.
  assert (same_view now' g (foldl (fw_init_row now vs) (∅, ∅, g) vs).2) as Hv.
  { apply (foldl_invariant (fun st : fw_state => same_view now' g st.2));
      [apply same_view_refl|].
    intros [[d1 n1] g1] u _ H1. unfold fw_init_row.
    apply (foldl_invariant (fun st : fw_state => same_view now' g st.2));
      [exact H1|].
    intros [[d2 n2] g2] v _ H2. unfold fw_init_edge. simpl in *.
    destruct (Qltb (Weight g2 now u v) Infinity);
      now apply same_view_SetOldWeight. }
  destruct (foldl (fw_init_row now vs) (∅, ∅, g) vs) as [[d0 n0] g0].
  destruct (fw_loop vs (d0, n0)). inversion H; subst. exact Hv.
Qed.

(** What a run leaves on the diagonal when no entry of it is negative. *)
Lemma fw_run_diagonal (g : IG) (now : Time) (vs : list Vertex)
    (d : DistTable) (n : NextHopTable) (g' : IG) (u : Vertex) :
  fw_run g now vs = (d, n, g') → negative_cycle d = false → u ∈ vs →
  dist_at d u u = 0 ∧ next_at n u u = init_next g now u u.
Proof.
  intros Hrun Hneg Hu.
  destruct (fw_run_unfold g now vs) as (d0 & n0 & g0 & Hinit & Hrun').
  rewrite Hrun in Hrun'. inversion Hrun'; subst d n g0. clear Hrun'.
  destruct (fw_init_spec g now vs)
    as (d0' & n0' & g0' & Hinit' & _ & Hd & Hn & Hout & Hrows).
  rewrite Hinit in Hinit'. inversion Hinit'; subst d0' n0' g0'. clear Hinit'.
  assert (Hinv : diag_inv n0 (fw_loop vs (d0, n0))
                 ∧ is_Some ((fw_loop vs (d0, n0)).1 !! u)).
  { apply (fw_loop_invariant
             (fun st => diag_inv n0 st ∧ is_Some (st.1 !! u))).
    - split; [|now apply Hrows]. intros a. left. split; [|reflexivity]. simpl.
      destruct (decide (a ∈ vs)) as [Ha|Ha].
      + rewrite Hd by exact Ha. unfold init_dist. now rewrite decide_True.
      + now apply Hout.
    - intros k i j st _ _ _ [H1 H2]. split.
      + now apply fw_relax_diag_inv.
      + now apply fw_relax_rows. }
  destruct Hinv as [Hdiag Hrow].
  pose proof (negative_cycle_false _ u Hneg Hrow) as Hge.
  destruct (Hdiag u) as [[E1 E2]|Hlt]; [|exfalso; lra].
  split; [exact E1|]. rewrite E2. now apply Hn.
Qed.

(** ** path.FloydWarshall: the negative-cycle repair *)

Lemma FloydWarshall_again_same_view (g : IG) (now now' : Time)
    (vs : list Vertex) (d : DistTable) (n : NextHopTable) (e : option string)
    (g' : IG) :
  FloydWarshall_again g now vs = (d, n, e, g') → same_view now' g g'.
Proof.
  unfold FloydWarshall_again.
  destruct (fw_run g now vs) as [[d1 n1] g1] eqn:Hrun.
  pose proof (fw_run_same_view g now now' vs d1 n1 g1 Hrun) as Hv.
  destruct (negative_cycle d1); intros H; inversion H; subst; exact Hv.
Qed.

(** C5.  When the first run leaves a negative entry on the diagonal,
    [FloydWarshall(false)] repairs once and retries once: it returns the
    tables of [FloydWarshall(true)] on the graph left by
    [RemoveAllNegativeValue], with the error "negative cycle detected".
    The repair sets to 0 every weight that was negative between two
    vertices and changes no other weight; the retry changes no weight at
    all.  A retry whose own run again has a negative diagonal entry returns
    the error "negative cycle detected again!" with empty tables, and then
    so does the outer call, with its own error. *)
Theorem C5_negative_cycle_repair (g : IG) (now : Time) (vs vr va : list Vertex)
    (dist1 : DistTable) (next1 : NextHopTable) (g1 : IG) :
  fw_run g now vs = (dist1, next1, g1) →
  negative_cycle dist1 = true →
  (∃ d n e g3,
      FloydWarshall true (RemoveAllNegativeValue g1 now vr) now va vr va
      = (d, n, e, g3)
      ∧ FloydWarshall false g now vs vr va
        = (d, n, Some "negative cycle detected"%string, g3)
      ∧ (∀ u v, Weight g3 now u v
                = Weight (RemoveAllNegativeValue g1 now vr) now u v))
  ∧ (∀ u v, u ∈ vr → v ∈ vr →
            Weight (RemoveAllNegativeValue g1 now vr) now u v
            = if Qltb (Weight g1 now u v) 0 then 0 else Weight g1 now u v)
  ∧ (∀ u v, Weight (RemoveAllNegativeValue g1 now vr) now u v
            = Weight g1 now u v
            ∨ (Weight g1 now u v < 0
               ∧ Weight (RemoveAllNegativeValue g1 now vr) now u v = 0))
  ∧ (∀ g2 d2 n2 g3,
        fw_run g2 now va = (d2, n2, g3) → negative_cycle d2 = true →
        FloydWarshall true g2 now va vr va
        = (∅, ∅, Some "negative cycle detected again!"%string, g3))
  ∧ (∀ d2 n2 g3,
        fw_run (RemoveAllNegativeValue g1 now vr) now va = (d2, n2, g3) →
        negative_cycle d2 = true →
        FloydWarshall false g now vs vr va
        = (∅, ∅, Some "negative cycle detected"%string, g3)).
Proof.
  intros Hrun Hneg.
  destruct (RemoveAllNegativeValue_spec now vr g1) as [Hc Hnn].
  split; [|split; [|split; [|split]]].
  - destruct (FloydWarshall true (RemoveAllNegativeValue g1 now vr) now va vr va)
      as [[[d n] e] g3] eqn:Hretry.
    exists d, n, e, g3. split; [reflexivity|]. split.
    + unfold FloydWarshall in *. rewrite Hrun, Hneg, Hretry. reflexivity.
    + intros u v.
      apply (FloydWarshall_again_same_view _ now now va d n e g3 Hretry).
  - intros u v Hu Hv. specialize (Hnn u v Hu Hv).
    destruct (Qltb (Weight g1 now u v) 0) eqn:E.
    + apply Qltb_lt in E. destruct (Hc u v) as [Heq|[_ Heq]]; [|exact Heq].
      exfalso. rewrite Heq in Hnn. lra.
    + apply Qltb_ge in E. destruct (Hc u v) as [Heq|[Hlt _]]; [exact Heq|].
      exfalso. lra.
  - exact Hc.
  - intros g2 d2 n2 g3 Hrun2 Hneg2. unfold FloydWarshall, FloydWarshall_again.
    now rewrite Hrun2, Hneg2.
  - intros d2 n2 g3 Hrun2 Hneg2. unfold FloydWarshall, FloydWarshall_again.
    now rewrite Hrun, Hneg, Hrun2, Hneg2.
Qed.

(** ** path.FloydWarshall: the diagonal *)

Lemma FloydWarshall_no_error (again : bool) (g : IG) (now : Time)
    (vs vr va : list Vertex) (dist : DistTable) (next : NextHopTable)
    (g' : IG) :
  FloydWarshall again g now vs vr va = (dist, next, None, g') →
  fw_run g now vs = (dist, next, g') ∧ negative_cycle dist = false.
Proof.
  unfold FloydWarshall, FloydWarshall_again.
  destruct (fw_run g now vs) as [[d1 n1] g1].
  destruct again.
  - destruct (negative_cycle d1) eqn:E; intros H; inversion H; subst; auto.
  - destruct (negative_cycle d1) eqn:E.
    + destruct (fw_run (RemoveAllNegativeValue g1 now vr) now va)
        as [[d2 n2] g2].
      destruct (negative_cycle d2); intros H; inversion H.
    + intros H; inversion H; subst; auto.
Qed.

(** C6, counterexample.  With the self-edge (1,1) stored, the run succeeds
    and [next[1][1]] is vertex 1, not nil. *)
Lemma C6_counterexample :
  is_Some (lookup2 (edges graph_self_edge) 1%N 1%N)
  ∧ ∃ dist next g',
      FloydWarshall false graph_self_edge 0%Z [1%N] [1%N] [1%N]
      = (dist, next, None, g')
      ∧ dist_at dist 1%N 1%N = 0
      ∧ next_at next 1%N 1%N = Some 1%N.
Proof.
  split; [vm_compute; eauto|].
  destruct (FloydWarshall false graph_self_edge 0%Z [1%N] [1%N] [1%N])
    as [[[dist next] e] g'] eqn:E.
  exists dist, next, g'.
  assert (e = None ∧ dist_at dist 1%N 1%N = 0 ∧ next_at next 1%N 1%N = Some 1%N)
    as (-> & H1 & H2).
  { replace e with (FloydWarshall false graph_self_edge 0%Z [1%N] [1%N] [1%N]).1.2
      by now rewrite E.
    replace dist
      with (FloydWarshall false graph_self_edge 0%Z [1%N] [1%N] [1%N]).1.1.1
      by now rewrite E.
    replace next
      with (FloydWarshall false graph_self_edge 0%Z [1%N] [1%N] [1%N]).1.1.2
      by now rewrite E.
    vm_compute. auto. }
  auto.
Qed.

(** C6, as the code has it.  After a call of [FloydWarshall] that returns
    no error, every vertex [u] has [dist[u][u] = 0]; [next[u][u]] is nil
    when no edge (u,u) is stored, and is [u] itself when one is. *)
Theorem C6_diagonal (again : bool) (g : IG) (now : Time)
    (vs vr va : list Vertex) (dist : DistTable) (next : NextHopTable)
    (g' : IG) (u : Vertex) :
  FloydWarshall again g now vs vr va = (dist, next, None, g') →
  u ∈ vs →
  dist_at dist u u = 0
  ∧ (lookup2 (edges g) u u = None → next_at next u u = None)
  ∧ (is_Some (lookup2 (edges g) u u) → next_at next u u = Some u).
Proof.
  intros Hfw Hu. apply FloydWarshall_no_error in Hfw as [Hrun Hneg].
  destruct (fw_run_diagonal g now vs dist next g' u Hrun Hneg Hu) as [Hd Hn].
  split; [exact Hd|]. rewrite Hn. unfold init_next. rewrite decide_True by done.
  split.
  - intros Hnone. rewrite decide_False; [reflexivity|].
    rewrite Hnone. intros [? ?]. discriminate.
  - intros Hsome. now rewrite decide_True.
Qed.

Lemma C5_witness :
  ∃ d n g3,
    FloydWarshall false graph_negative_cycle 0%Z [1%N; 2%N] [1%N; 2%N]
      [1%N; 2%N]
    = (d, n, Some "negative cycle detected"%string, g3).
Proof.
  destruct (C5_negative_cycle_repair graph_negative_cycle 0%Z
              [1%N; 2%N] [1%N; 2%N] [1%N; 2%N]
              (fw_run graph_negative_cycle 0%Z [1%N; 2%N]).1.1
              (fw_run graph_negative_cycle 0%Z [1%N; 2%N]).1.2
              (fw_run graph_negative_cycle 0%Z [1%N; 2%N]).2)
    as [(d & n & e & g3 & _ & H & _) _].
  - now destruct (fw_run graph_negative_cycle 0%Z [1%N; 2%N]) as [[? ?] ?].
  - vm_compute. reflexivity.
  - exists d, n, g3. exact H.
Defined.

Lemma C6_witness :
  dist_at
    (FloydWarshall false graph_one_edge 0%Z [1%N; 2%N] [1%N; 2%N] [1%N; 2%N]).1.1.1
    1%N 1%N = 0.
Proof.
  apply (C6_diagonal false graph_one_edge 0%Z [1%N; 2%N] [1%N; 2%N] [1%N; 2%N]
           _
           (FloydWarshall false graph_one_edge 0%Z [1%N; 2%N] [1%N; 2%N]
              [1%N; 2%N]).1.1.2
           (FloydWarshall false graph_one_edge 0%Z [1%N; 2%N] [1%N; 2%N]
              [1%N; 2%N]).2
           1%N).
  - vm_compute. reflexivity.
  - apply list_elem_of_here.
Defined.

(** ** path.GetBoardcastList and path.GetBoardcastThroughList *)

Lemma broadcast_fold_spec (l : list (option Vertex)) (bl : gset Vertex) :
  foldr (fun element acc =>
           let! tosend := acc in
           match element with
           | None => NilDereference
           | Some e => Returns ({[e]} ∪ tosend)
           end) (Returns ∅) l = Returns bl →
  ∀ e, e ∈ bl ↔ Some e ∈ l.
Proof.
  revert bl. induction l as [|x l IH]; simpl; intros bl H e.
  - inversion H; subst. split; [intros He|intros He]; [|inversion He].
    now apply not_elem_of_empty in He.
  - destruct (foldr _ (Returns ∅) l) as [s| |] eqn:E; simpl in H;
      try discriminate.
    destruct x as [x|]; [|discriminate]. inversion H; subst.
    rewrite elem_of_union, elem_of_singleton, elem_of_cons, (IH s eq_refl).
    split; intros [?|?]; auto; [left; congruence | left; congruence].
Qed.

Lemma GetBoardcastList_spec (g : IG) (id : Vertex) (bl : gset Vertex) :
  GetBoardcastList g id = Returns bl →
  ∀ e, e ∈ bl ↔ ∃ v, lookup2 (nhTable g) id v = Some (Some e).
Proof.
  unfold GetBoardcastList. intros H e.
  rewrite (broadcast_fold_spec _ _ H e), list_elem_of_fmap. unfold lookup2.
  split.
  - intros [[v x] [-> Hin]]. apply elem_of_map_to_list in Hin. exists v.
    destruct (nhTable g !! id); [exact Hin|].
    simpl in Hin. rewrite lookup_empty in Hin. discriminate.
  - intros [v Hv]. exists (v, Some e). split; [reflexivity|].
    apply elem_of_map_to_list. destruct (nhTable g !! id); [exact Hv|].
    discriminate.
Qed.

Lemma through_test (path : list Vertex) (self_id check_id in_id : Vertex) :
  existsb (fun path_node =>
             bool_decide (path_node = self_id)
             && negb (bool_decide (check_id = in_id))) path = true
  ↔ self_id ∈ path ∧ check_id ≠ in_id.
Proof.
  rewrite existsb_exists. split.
  - intros (x & Hx & Ht). apply andb_true_iff in Ht as [H1 H2].
    apply bool_decide_eq_true in H1. subst x.
    apply negb_true_iff, bool_decide_eq_false in H2.
    split; [now apply list_elem_of_In | exact H2].
  - intros [Hin Hne]. exists self_id. split; [now apply list_elem_of_In|].
    apply andb_true_iff. split; [now apply bool_decide_eq_true|].
    now apply negb_true_iff, bool_decide_eq_false.
Qed.

Lemma through_fold_spec (fuel : nat) (next : NextHopTable)
    (self_id in_id src_id : Vertex) (l : list Vertex) :
  (∀ n, n ∈ l → ∃ p, Path fuel src_id n next = Returns p) →
  ∃ s : gset Vertex,
    foldr (fun check_id acc =>
             let! tosend := acc in
             let! path := Path fuel src_id check_id next in
             Returns
               (if existsb (fun path_node =>
                              bool_decide (path_node = self_id)
                              && negb (bool_decide (check_id = in_id))) path
                then {[check_id]} ∪ tosend else tosend))
          (Returns ∅) l = Returns s
    ∧ ∀ n, n ∈ s
           ↔ n ∈ l ∧ n ≠ in_id
             ∧ ∃ p, Path fuel src_id n next = Returns p ∧ self_id ∈ p.
Proof.
  induction l as [|x l IH]; intros Hpaths; simpl.
  - exists ∅. split; [reflexivity|]. intros n. split.
    + intros Hn. now apply not_elem_of_empty in Hn.
    + intros [Hn _]. inversion Hn.
  - destruct IH as (s & -> & Hs).
    { intros n Hn. apply Hpaths. now right. }
    destruct (Hpaths x) as [p Hp]; [left|]. simpl. rewrite Hp. simpl.
    destruct (existsb _ p) eqn:Et.
    + exists ({[x]} ∪ s). split; [reflexivity|]. intros n.
      apply through_test in Et as [Hself Hne].
      rewrite elem_of_union, elem_of_singleton, Hs, elem_of_cons. split.
      * intros [->|(Hn & Hni & Hpn)]; [|tauto].
        split; [now left|]. split; [exact Hne|]. eauto.
      * intros ([->|Hn] & Hni & Hpn); [now left|]. right. tauto.
    + exists s. split; [reflexivity|]. intros n.
      rewrite Hs, elem_of_cons. split; [tauto|].
      intros ([->|Hn] & Hni & q & Hq & Hself); [|eauto 6].
      exfalso. rewrite Hp in Hq. inversion Hq; subst q.
      assert (existsb (fun path_node =>
                         bool_decide (path_node = self_id)
                         && negb (bool_decide (x = in_id))) p = true)
        as Htrue by (apply through_test; auto).
      congruence.
Qed.


(** ** main.PushNhTable *)

Lemma push_to_peer_elem (force : bool) (st : Super) (now : Time)
    (buf : list byte) (pk : string) (ps : PeerState) (m : Sent) :
  m ∈ push_to_peer force st now buf (pk, ps)
  ↔ (now - S2TD (http_NodeReportTimeout st) < LastSeen ps)%Z
    ∧ (force = true ∨ NhTableState ps ≠ http_NhTable_Hash st)
    ∧ ∃ via peer,
        m = mkSent via pk UpdateNhTable buf
        ∧ device_of st via !! pk = Some peer
        ∧ GetEndpointDstStr peer ≠ EmptyString.
Proof.
  unfold push_to_peer.
  destruct (Z.ltb_spec now (LastSeen ps + S2TD (http_NodeReportTimeout st)))
    as [Halive|Hdead]; simpl.
  - assert (force || negb (bool_decide (NhTableState ps = http_NhTable_Hash st))
            = true
            ↔ force = true ∨ NhTableState ps ≠ http_NhTable_Hash st) as Hcond.
    { rewrite orb_true_iff, negb_true_iff, bool_decide_eq_false. reflexivity. }
    destruct (force || negb (bool_decide _)) eqn:Ec.
    + rewrite elem_of_app. split.
      * intros Hm. split; [lia|]. split; [now apply Hcond|].
        destruct Hm as [Hm|Hm].
        -- destruct (http_device4 st !! pk) as [peer|] eqn:Ep;
             [|inversion Hm].
           destruct (bool_decide (GetEndpointDstStr peer = EmptyString)) eqn:Ee;
             simpl in Hm; [inversion Hm|].
           apply list_elem_of_singleton in Hm. exists V4, peer.
           apply bool_decide_eq_false in Ee. auto.
        -- destruct (http_device6 st !! pk) as [peer|] eqn:Ep;
             [|inversion Hm].
           destruct (bool_decide (GetEndpointDstStr peer = EmptyString)) eqn:Ee;
             simpl in Hm; [inversion Hm|].
           apply list_elem_of_singleton in Hm. exists V6, peer.
           apply bool_decide_eq_false in Ee. auto.
      * intros (_ & _ & via & peer & -> & Hp & He).
        apply (bool_decide_eq_false_2 _) in He.
        destruct via; simpl in Hp; [left|right]; rewrite Hp, He; simpl;
          apply list_elem_of_here.
    + split; [intros Hm; inversion Hm|].
      intros (_ & Hc & _). apply Hcond in Hc. discriminate.
  - split; [intros Hm; inversion Hm|]. intros (Hlt & _). lia.
Qed.

Lemma push_to_peer_NoDup (force : bool) (st : Super) (now : Time)
    (buf : list byte) (entry : string * PeerState) :
  NoDup (push_to_peer force st now buf entry).
Proof.
  destruct entry as [pk ps]. unfold push_to_peer.
  destruct (negb _); [constructor|].
  destruct (force || _); [|constructor].
  destruct (http_device4 st !! pk) as [p4|], (http_device6 st !! pk) as [p6|];
    simpl;
    repeat match goal with
           | |- context [negb (bool_decide ?P)] => destruct (bool_decide P)
           end; simpl;
    first [ apply NoDup_nil_2
          | apply NoDup_singleton
          | apply NoDup_cons; split;
            [ intros H; apply list_elem_of_singleton in H; discriminate
            | apply NoDup_singleton ] ].
Qed.

Lemma flat_map_NoDup_by_key (f : string * PeerState → list Sent)
    (l : list (string * PeerState)) :
  NoDup l.*1 →
  (∀ e m, m ∈ f e → sent_to m = e.1) →
  (∀ e, NoDup (f e)) →
  NoDup (List.flat_map f l).
Proof.
  intros Hkeys Hto Hnd. induction l as [|e l IH]; simpl; [constructor|].
  simpl in Hkeys. apply NoDup_cons in Hkeys as [Hfresh Hkeys].
  apply NoDup_app. split; [apply Hnd|]. split; [|now apply IH].
  intros m Hm Hm'. apply Hfresh.
  apply list_elem_of_In, in_flat_map in Hm' as (e' & He' & Hm').
  apply list_elem_of_In in He', Hm'.
  apply list_elem_of_fmap. exists e'. split; [|exact He'].
  rewrite <- (Hto e m Hm). now apply Hto.
Qed.

(** C9.  When the message serialises, [PushNhTable(force)] sends the
    [UpdateNhTableMsg] packet to peer [pk] on device [via] exactly when [pk]
    is registered in [http_PeerState], its [LastSeen] is newer than [now]
    minus [NodeReportTimeout], [force] holds or its [NhTableState] differs
    from the published hash, and [pk] is a peer of that device with a
    non-empty destination endpoint.  Nothing else is sent, and nothing is
    sent twice. *)
Theorem C9_PushNhTable (GetByte : list byte → option (list byte))
    (eg_packet : list byte → list byte) (force : bool) (st : Super)
    (now : Time) (body : list byte) :
  GetByte (http_NhTable_Hash st) = Some body →
  (∀ via pk,
      mkSent via pk UpdateNhTable (eg_packet body)
        ∈ PushNhTable GetByte eg_packet force st now
      ↔ ∃ ps peer,
          http_PeerState st !! pk = Some ps
          ∧ (now - S2TD (http_NodeReportTimeout st) < LastSeen ps)%Z
          ∧ (force = true ∨ NhTableState ps ≠ http_NhTable_Hash st)
          ∧ device_of st via !! pk = Some peer
          ∧ GetEndpointDstStr peer ≠ EmptyString)
  ∧ (∀ m, m ∈ PushNhTable GetByte eg_packet force st now →
          sent_usage m = UpdateNhTable ∧ sent_buf m = eg_packet body)
  ∧ NoDup (PushNhTable GetByte eg_packet force st now).
Proof.
  intros Hbody. unfold PushNhTable. rewrite Hbody.
  split; [|split].
  - intros via pk. rewrite list_elem_of_In, in_flat_map. split.
    + intros ([pk' ps] & Hin & Hm). apply list_elem_of_In in Hin, Hm.
      apply elem_of_map_to_list in Hin.
      apply push_to_peer_elem in Hm
        as (Halive & Hc & via' & peer & Heq & Hp & He).
      inversion Heq; subst. exists ps, peer. auto.
    + intros (ps & peer & Hps & Halive & Hc & Hp & He). exists (pk, ps).
      split; [now apply list_elem_of_In, elem_of_map_to_list|].
      apply list_elem_of_In, push_to_peer_elem. eauto 10.
  - intros m Hm. apply list_elem_of_In, in_flat_map in Hm
      as ([pk ps] & _ & Hm).
    apply list_elem_of_In, push_to_peer_elem in Hm
      as (_ & _ & via & peer & -> & _). auto.
  - apply flat_map_NoDup_by_key.
    + apply NoDup_fst_map_to_list.
    + intros [pk ps] m Hm.
      apply push_to_peer_elem in Hm as (_ & _ & via & peer & -> & _).
      reflexivity.
    + apply push_to_peer_NoDup.
Qed.

Lemma C9_witness :
  mkSent V4 "B"%string UpdateNhTable (x00 :: repeat "a"%byte 32)
    ∈ PushNhTable Some (cons x00) false super_example 100000000000%Z
  ↔ ∃ ps peer,
      http_PeerState super_example !! "B"%string = Some ps
      ∧ (100000000000 - S2TD (http_NodeReportTimeout super_example)
         < LastSeen ps)%Z
      ∧ (false = true ∨ NhTableState ps ≠ http_NhTable_Hash super_example)
      ∧ device_of super_example V4 !! "B"%string = Some peer
      ∧ GetEndpointDstStr peer ≠ EmptyString.
Proof.
  apply (C9_PushNhTable Some (cons x00) false super_example 100000000000%Z
           (repeat "a"%byte 32)).
  reflexivity.
Defined.

(** On the example, a push that is not forced reaches "B" on the IPv4
    device only: "A" is up to date, "C" is not alive, and "B" has no IPv6
    endpoint. *)
Example PushNhTable_example :
  PushNhTable Some (cons x00) false super_example 100000000000%Z
  = [mkSent V4 "B"%string UpdateNhTable (x00 :: repeat "a"%byte 32)].
Proof. vm_compute. reflexivity. Qed.

(** ** main.Event_server_event_hendler: the published hash *)

(** What the block does, for any digest and serialiser: the hash that is
    published is the digest of the string stored before the call, and the
    fresh serialisation is only stored. *)
Lemma publish_NhTable_spec (GetByte : list byte → option (list byte))
    (eg_packet md5_Sum : list byte → list byte)
    (json_Marshal : NextHopTable → list byte) (st : Super) (now : Time)
    (NhTable : NextHopTable) :
  let st' :=
    (publish_NhTable GetByte eg_packet md5_Sum json_Marshal st now NhTable).1 in
  http_NhTable_Hash st'
  = go_copy (http_NhTable_Hash st)
      (hex_EncodeToString (md5_Sum (http_NhTableStr st ++ http_HashSalt st)))
  ∧ NhTableHash (http_graph st')
    = go_copy (NhTableHash (http_graph st))
        (hex_EncodeToString (md5_Sum (http_NhTableStr st ++ http_HashSalt st)))
  ∧ http_NhTableStr st' = json_Marshal NhTable
  ∧ http_HashSalt st' = http_HashSalt st.
Proof. repeat split. Qed.

(** C1, evaluated.  A supernode that has published nothing yet handles a
    pong that changes the table to [NhTable_example]: the hash it publishes
    is the digest of the salt alone (the stored string is still empty), not
    the digest of the serialised table and the salt.  When a second pong
    changes the table to [NhTable_example'], the published hash is the
    digest of the first table. *)
Lemma C1_published_hash_is_stale :
  let salt := http_HashSalt super_example in
  let st1 :=
    (publish_NhTable Some (cons x00) MD5.sum json_Marshal_NextHopTable
       super_example 100000000000%Z NhTable_example).1 in
  let st2 :=
    (publish_NhTable Some (cons x00) MD5.sum json_Marshal_NextHopTable
       st1 101000000000%Z NhTable_example').1 in
  string_of_list_byte (http_NhTable_Hash st1)
  = "aa4bc671b4c1c7a38e29800f50ef6346"%string
  ∧ http_NhTable_Hash st1 = hex_EncodeToString (MD5.sum ([] ++ salt))
  ∧ NhTableHash (http_graph st1) = http_NhTable_Hash st1
  ∧ string_of_list_byte
      (hex_EncodeToString
         (MD5.sum (json_Marshal_NextHopTable NhTable_example ++ salt)))
    = "7fd73479124b4ca11b55919f0ad4fecf"%string
  ∧ http_NhTable_Hash st1
    ≠ hex_EncodeToString
        (MD5.sum (json_Marshal_NextHopTable NhTable_example ++ salt))
  ∧ http_NhTable_Hash st2
    = hex_EncodeToString
        (MD5.sum (json_Marshal_NextHopTable NhTable_example ++ salt))
  ∧ http_NhTable_Hash st2
    ≠ hex_EncodeToString
        (MD5.sum (json_Marshal_NextHopTable NhTable_example' ++ salt)).
Proof. vm_compute. repeat split; discriminate. Qed.

Example graph_line_routes :
  next_at (nhTable graph_line) 1%N 3%N = Some 2%N
  ∧ Path 2 1%N 3%N (nhTable graph_line) = Returns [1%N; 2%N; 3%N]
  ∧ GetBoardcastList graph_line 2%N = Returns {[1%N; 3%N]}
  ∧ GetBoardcastThroughList 2 graph_line 2%N 1%N 1%N = Returns {[3%N]}.
Proof. vm_compute. repeat split. Qed.


(** In the clique every vertex is a direct neighbour of the source, so a
    vertex that receives a broadcast of vertex 1 from vertex 1 forwards it
    to no one: it lies on no shortest path from 1. *)
Example clique_broadcast :
  GetBoardcastList graph_clique 2%N = Returns {[1%N; 3%N; 4%N]}
  ∧ Path 3 1%N 3%N (nhTable graph_clique) = Returns [1%N; 3%N]
  ∧ GetBoardcastThroughList 3 graph_clique 2%N 1%N 1%N = Returns ∅
  ∧ GetBoardcastThroughList 3 graph_clique 3%N 2%N 1%N = Returns ∅.
Proof. vm_compute. repeat split. Qed.

(** ** Shortest paths: the invariant of the rounds *)

Section Rounds.

Variable vs : list Vertex.
Variable W : Vertex → Vertex → Q.
Hypothesis W_nonneg : ∀ a b, 0 <= W a b.

Section OneRound.

Variables (K : list Vertex) (k : Vertex).
Variables (D D' : Vertex → Vertex → Q) (N N' : Vertex → Vertex → option Vertex).
Hypothesis Hinv : fw_inv vs W K D N.
Hypothesis Hk : k ∈ vs.
Hypothesis Hround : round_rel vs k D N D' N'.

Lemma round_le (a b : Vertex) : a ∈ vs → b ∈ vs → D' a b <= D a b.
Proof.
  intros Ha Hb. destruct (Hround a b Ha Hb) as [[(_ & _ & Hlt) [-> _]]|[_ [-> _]]];
    lra.
Qed.

Lemma round_row_k (b : Vertex) : b ∈ vs → D' k b = D k b ∧ N' k b = N k b.
Proof.
  intros Hb. destruct (Hround k b Hk Hb) as [[(_ & _ & Hlt) _]|[_ H]];
    [|exact H].
  pose proof (inv_diag _ _ _ _ _ Hinv k Hk). exfalso. lra.
Qed.

Lemma round_col_k (a : Vertex) : a ∈ vs → D' a k = D a k ∧ N' a k = N a k.
Proof.
  intros Ha. destruct (Hround a k Ha Hk) as [[(_ & _ & Hlt) _]|[_ H]];
    [|exact H].
  pose proof (inv_diag _ _ _ _ _ Hinv k Hk). exfalso. lra.
Qed.

Lemma round_diag (a : Vertex) : a ∈ vs → D' a a == 0.
Proof.
  intros Ha. pose proof (inv_diag _ _ _ _ _ Hinv a Ha) as H0.
  destruct (Hround a a Ha Ha) as [[(_ & _ & Hlt) _]|[_ [-> _]]]; [|exact H0].
  destruct (inv_range _ _ _ _ _ Hinv a k Ha Hk), (inv_range _ _ _ _ _ Hinv k a Hk Ha).
  exfalso. lra.
Qed.

Lemma round_range (a b : Vertex) :
  a ∈ vs → b ∈ vs → 0 <= D' a b ∧ D' a b <= Infinity.
Proof.
  intros Ha Hb. destruct (inv_range _ _ _ _ _ Hinv a b Ha Hb).
  destruct (inv_range _ _ _ _ _ Hinv a k Ha Hk), (inv_range _ _ _ _ _ Hinv k b Hk Hb).
  destruct (Hround a b Ha Hb) as [[(_ & _ & Hlt) [-> _]]|[_ [-> _]]]; lra.
Qed.

(** The pointer that an improved cell copies exists. *)
Lemma round_pointer (a b : Vertex) :
  a ∈ vs → b ∈ vs → improves D k a b →
  a ≠ k ∧ ∃ m, N a k = Some m.
Proof.
  intros Ha Hb (H1 & H2 & H3).
  assert (a ≠ k) as Hak.
  { intros ->. pose proof (inv_diag _ _ _ _ _ Hinv k Hk). lra. }
  split; [exact Hak|]. destruct (N a k) as [m|] eqn:E; [eauto|].
  pose proof (inv_none _ _ _ _ _ Hinv a k Ha Hk Hak E). exfalso. lra.
Qed.

Lemma round_tri (a m b : Vertex) :
  a ∈ vs → m ∈ vs → b ∈ vs → a ≠ m → (m = b ∨ m ∈ k :: K) →
  W a m < Infinity → D' m b < Infinity → D' a b <= W a m + D' m b.
Proof.
  intros Ha Hm Hb Ham Hmem HW Hfin.
  pose proof (round_le a b Ha Hb) as Hle.
  destruct (decide (m = b)) as [->|Hmb].
  { (* the edge itself *)
    pose proof (round_diag b Hb) as Hd'. pose proof (inv_diag _ _ _ _ _ Hinv b Hb) as Hd.
    assert (D b b < Infinity) as Hf by (unfold Infinity in *; lra).
    pose proof (inv_tri _ _ _ _ _ Hinv a b b Ha Hb Hb Ham (or_introl eq_refl) HW Hf).
    lra. }
  destruct (decide (m = k)) as [->|Hmk].
  { (* through the vertex of this round *)
    destruct (round_row_k b Hb) as [Ekb _]. rewrite Ekb in *.
    pose proof (inv_diag _ _ _ _ _ Hinv k Hk) as Hd.
    assert (D k k < Infinity) as Hf by (unfold Infinity in *; lra).
    pose proof (inv_tri _ _ _ _ _ Hinv a k k Ha Hk Hk Ham (or_introl eq_refl) HW Hf)
      as Hak.
    destruct (Hround a b Ha Hb) as [[_ [-> _]]|[Hno [-> _]]]; [lra|].
    destruct (Qlt_le_dec (D a k + D k b) (D a b)) as [Hlt|Hge]; [|lra].
    exfalso. apply Hno. unfold improves, Infinity in *. repeat split; lra. }
  assert (m ∈ K) as HmK.
  { destruct Hmem as [?|Hmem]; [contradiction|].
    apply elem_of_cons in Hmem as [?|?]; [contradiction|assumption]. }
  destruct (Hround m b Hm Hb) as [[(G1 & G2 & G3) [Emb _]]|[_ [Emb _]]];
    rewrite Emb in *.
  - (* the cell (m,b) improved *)
    pose proof (inv_tri _ _ _ _ _ Hinv a m k Ha Hm Hk Ham (or_intror HmK) HW G1)
      as Hak.
    destruct (inv_range _ _ _ _ _ Hinv a b Ha Hb) as [_ Hub].
    destruct (inv_range _ _ _ _ _ Hinv k b Hk Hb) as [Hkb0 _].
    destruct (Qlt_le_dec (D a k) Infinity) as [Hfin'|Hinf]; [|lra].
    destruct (Hround a b Ha Hb) as [[_ [-> _]]|[Hno [-> _]]]; [lra|].
    destruct (Qlt_le_dec (D a k + D k b) (D a b)) as [Hlt|Hge]; [|lra].
    exfalso. apply Hno. unfold improves. repeat split; assumption.
  - pose proof (inv_tri _ _ _ _ _ Hinv a m b Ha Hm Hb Ham (or_intror HmK) HW Hfin).
    lra.
Qed.

(** A cell that keeps its value points to a cell that keeps its value. *)
Lemma round_stable_next (a b m : Vertex) :
  a ∈ vs → b ∈ vs → a ≠ b → ¬ improves D k a b → N a b = Some m →
  D' m b == D m b ∧ (m ≠ b → ¬ improves D k m b).
Proof.
  intros Ha Hb Hab Hno HN.
  destruct (inv_some _ _ _ _ _ Hinv a b m Ha Hb Hab HN)
    as (Hfin & Hm & Hma & HmK & HW & HE).
  assert (D' a b = D a b) as Eab.
  { destruct (Hround a b Ha Hb) as [[? _]|[_ [? _]]]; [contradiction|assumption]. }
  destruct (decide (m = b)) as [->|Hmb].
  { split; [|intros ?; contradiction].
    rewrite (round_diag b Hb), (inv_diag _ _ _ _ _ Hinv b Hb). reflexivity. }
  destruct (Hround m b Hm Hb) as [[Himp [Emb _]]|[Hnimp [Emb _]]].
  - exfalso. destruct Himp as (G1 & G2 & G3).
    assert (D' m b < Infinity) as Hfin'.
    { rewrite Emb. destruct (inv_range _ _ _ _ _ Hinv m b Hm Hb). lra. }
    assert (m = b ∨ m ∈ k :: K) as HmK'.
    { destruct HmK; [now left|right; now right]. }
    pose proof (round_tri a m b Ha Hm Hb (not_eq_sym Hma) HmK' HW Hfin').
    rewrite Emb, Eab in *. lra.
  - rewrite Emb. split; [reflexivity|]. intros _. exact Hnimp.
Qed.

Lemma round_some (a b m : Vertex) :
  a ∈ vs → b ∈ vs → a ≠ b → N' a b = Some m →
  D' a b < Infinity ∧ m ∈ vs ∧ m ≠ a ∧ (m = b ∨ m ∈ k :: K)
  ∧ W a m < Infinity ∧ D' a b == W a m + D' m b.
Proof.
  intros Ha Hb Hab HN'.
  destruct (Hround a b Ha Hb) as [[Himp [Eab ENab]]|[Hnimp [Eab ENab]]].
  - (* improved: the pointer is the one towards k *)
    destruct (round_pointer a b Ha Hb Himp) as [Hak _].
    rewrite ENab in HN'. destruct Himp as (G1 & G2 & G3).
    destruct (inv_some _ _ _ _ _ Hinv a k m Ha Hk Hak HN')
      as (_ & Hm & Hma & HmK & HW & HE).
    destruct (inv_range _ _ _ _ _ Hinv a b Ha Hb) as [_ Hub].
    destruct (inv_range _ _ _ _ _ Hinv m k Hm Hk) as [Hmk0 _].
    destruct (inv_range _ _ _ _ _ Hinv k b Hk Hb) as [Hkb0 _].
    pose proof (W_nonneg a m) as HW0.
    split; [rewrite Eab; lra|]. split; [exact Hm|]. split; [exact Hma|].
    split. { destruct HmK as [->|?]; right; [left|now right]. }
    split; [exact HW|].
    assert (D' m b == D m k + D k b) as Emb; [|rewrite Eab, Emb; lra].
    destruct (decide (m = k)) as [->|Hmk].
    { destruct (round_row_k b Hb) as [-> _].
      pose proof (inv_diag _ _ _ _ _ Hinv k Hk). lra. }
    assert (m ∈ K) as HmK' by (destruct HmK; [contradiction|assumption]).
    destruct (Hround m b Hm Hb) as [[_ [-> _]]|[Hno [-> _]]]; [reflexivity|].
    assert (D m k < Infinity) as G1' by lra.
    destruct (Qlt_le_dec (D m k + D k b) (D m b)) as [Hlt|Hge].
    { exfalso. apply Hno. unfold improves. repeat split; assumption. }
    destruct (Qlt_le_dec (D m b) (D m k + D k b)) as [Hlt|Hge']; [|lra].
    exfalso.
    assert (D m b < Infinity) as Hfin by lra.
    pose proof (inv_tri _ _ _ _ _ Hinv a m b Ha Hm Hb (not_eq_sym Hma)
                  (or_intror HmK') HW Hfin).
    lra.
  - rewrite ENab in HN'.
    destruct (inv_some _ _ _ _ _ Hinv a b m Ha Hb Hab HN')
      as (Hfin & Hm & Hma & HmK & HW & HE).
    destruct (round_stable_next a b m Ha Hb Hab Hnimp HN') as [Emb _].
    split; [rewrite Eab; exact Hfin|]. split; [exact Hm|]. split; [exact Hma|].
    split. { destruct HmK; [now left|right; now right]. }
    split; [exact HW|]. rewrite Eab, Emb. exact HE.
Qed.

Lemma round_none (a b : Vertex) :
  a ∈ vs → b ∈ vs → a ≠ b → N' a b = None → Infinity <= D' a b.
Proof.
  intros Ha Hb Hab HN'.
  destruct (Hround a b Ha Hb) as [[Himp [_ ENab]]|[_ [-> ENab]]].
  - destruct (round_pointer a b Ha Hb Himp) as [_ [m Hm]]. congruence.
  - rewrite ENab in HN'. now apply (inv_none _ _ _ _ _ Hinv).
Qed.

(** Cells that keep their value keep their way to the target. *)
Lemma round_reach_stable (b : Vertex) (x : Vertex) :
  b ∈ vs → reach N b x → x ∈ vs → (x ≠ b → ¬ improves D k x b) →
  reach N' b x.
Proof.
  intros Hb Hr. induction Hr as [|x m Hxb HN Hr IH]; intros Hx Hno.
  - apply reach_here.
  - specialize (Hno Hxb).
    destruct (inv_some _ _ _ _ _ Hinv x b m Hx Hb Hxb HN) as (_ & Hm & _).
    destruct (round_stable_next x b m Hx Hb Hxb Hno HN) as [_ Hm'].
    apply (reach_step N' b x m Hxb).
    + destruct (Hround x b Hx Hb) as [[? _]|[_ [_ ->]]]; [contradiction|exact HN].
    + now apply IH.
Qed.

(** Cells that improve follow their way to [k] while it improves. *)
Lemma round_reach_improved (b : Vertex) (x : Vertex) :
  b ∈ vs → reach N k x → x ∈ vs → improves D k x b → reach N' b x.
Proof.
  intros Hb Hr. induction Hr as [|x m Hxk HN Hr IH]; intros Hx Himp.
  - exfalso. destruct Himp as (_ & _ & H). pose proof (inv_diag _ _ _ _ _ Hinv k Hk).
    lra.
  - destruct (inv_some _ _ _ _ _ Hinv x k m Hx Hk Hxk HN)
      as (_ & Hm & Hmx & HmK & HW & HE).
    assert (x ≠ b) as Hxb.
    { intros ->. destruct Himp as (_ & _ & H).
      pose proof (inv_diag _ _ _ _ _ Hinv b Hb).
      destruct (inv_range _ _ _ _ _ Hinv b k Hb Hk), (inv_range _ _ _ _ _ Hinv k b Hk Hb).
      lra. }
    assert (N' x b = Some m) as HN'.
    { destruct (Hround x b Hx Hb) as [[_ [_ ->]]|[? _]]; [exact HN|contradiction]. }
    apply (reach_step N' b x m Hxb HN').
    destruct (decide (m = b)) as [->|Hmb]; [apply reach_here|].
    destruct (Hround m b Hm Hb) as [[Himp' _]|[Hno [Emb _]]].
    + now apply IH.
    + apply round_reach_stable; [exact Hb| |exact Hm|intros _; exact Hno].
      apply (inv_reach _ _ _ _ _ Hinv m b Hm Hb Hmb).
      destruct (N m b) as [?|] eqn:ENmb; [discriminate|]. exfalso.
      pose proof (inv_none _ _ _ _ _ Hinv m b Hm Hb Hmb ENmb) as Hinf.
      destruct (round_some x b m Hx Hb Hxb HN') as (Hfin & _ & _ & _ & _ & HE').
      pose proof (W_nonneg x m). rewrite Emb in HE'. lra.
Qed.

Lemma round_reach (a b : Vertex) :
  a ∈ vs → b ∈ vs → a ≠ b → N' a b ≠ None → reach N' b a.
Proof.
  intros Ha Hb Hab HN'.
  destruct (Hround a b Ha Hb) as [[Himp _]|[Hno [_ ENab]]].
  - destruct (round_pointer a b Ha Hb Himp) as [Hak [m Hm]].
    apply round_reach_improved; [exact Hb| |exact Ha|exact Himp].
    apply (inv_reach _ _ _ _ _ Hinv a k Ha Hk Hak). congruence.
  - apply round_reach_stable; [exact Hb| |exact Ha|intros _; exact Hno].
    apply (inv_reach _ _ _ _ _ Hinv a b Ha Hb Hab). congruence.
Qed.

Lemma fw_inv_round : fw_inv vs W (k :: K) D' N'.
Proof.
  constructor.
  - exact round_diag.
  - exact round_range.
  - exact round_none.
  - exact round_some.
  - exact round_tri.
  - exact round_reach.
Qed.

End OneRound.

End Rounds.

(** ** Shortest paths: one round of the loop *)

Lemma improvesb_improves (d : DistTable) (k i j : Vertex) :
  improvesb d k i j = true ↔ improves (dist_at d) k i j.
Proof.
  unfold improvesb, improves. rewrite !andb_true_iff, !Qltb_lt. tauto.
Qed.

Lemma cell_fw_relax_other (k i j a b : Vertex) (st : DistTable * NextHopTable) :
  (a, b) ≠ (i, j) → cell (fw_relax k i st j) a b = cell st a b.
Proof.
  intros Hne. destruct st as [d n].
  destruct (fw_relax_cases k i j d n) as [->|(_ & _ & _ & ->)]; [reflexivity|].
  unfold cell. simpl. rewrite dist_at_insert2, next_at_insert2.
  rewrite !decide_False; [reflexivity| |]; intros [-> ->]; now apply Hne.
Qed.

Section SequentialRound.

Variable vs : list Vertex.
Variable st0 : DistTable * NextHopTable.
Variable k : Vertex.
Hypothesis Hkk : dist_at st0.1 k k == 0.

Lemma round_target_row (b : Vertex) : round_target st0 k k b = cell st0 k b.
Proof.
  unfold round_target. destruct (improvesb st0.1 k k b) eqn:E; [|reflexivity].
  apply improvesb_improves in E. destruct E as (_ & _ & E). exfalso. lra.
Qed.

Lemma round_target_col (a : Vertex) : round_target st0 k a k = cell st0 a k.
Proof.
  unfold round_target. destruct (improvesb st0.1 k a k) eqn:E; [|reflexivity].
  apply improvesb_improves in E. destruct E as (_ & _ & E). exfalso. lra.
Qed.

Lemma round_inv_weaken (done done' : Vertex → Vertex → Prop)
    (cur : DistTable * NextHopTable) :
  (∀ a b, done' a b → done a b) → round_inv vs st0 k done cur → round_inv vs st0 k done' cur.
Proof.
  intros Hsub H a b. destruct (H a b) as (H1 & H2 & H3).
  split; [exact H1|]. split; [|exact H3]. intros Hd. apply H2, Hsub, Hd.
Qed.

Lemma round_inv_relax (done : Vertex → Vertex → Prop)
    (cur : DistTable * NextHopTable) (i j : Vertex) :
  i ∈ vs → j ∈ vs → round_inv vs st0 k done cur →
  round_inv vs st0 k (fun a b => done a b ∨ (a = i ∧ b = j)) (fw_relax k i cur j).
Proof.
  intros Hi Hj H.
  assert (Hik : cell cur i k = cell st0 i k).
  { destruct (H i k) as ([E|E] & _); [exact E|].
    now rewrite E, round_target_col. }
  assert (Hkj : cell cur k j = cell st0 k j).
  { destruct (H k j) as ([E|E] & _); [exact E|].
    now rewrite E, round_target_row. }
  assert (Hij : cell (fw_relax k i cur j) i j = round_target st0 k i j).
  { destruct (H i j) as (Hcur & _). destruct cur as [d n], st0 as [d0 n0].
    unfold cell in *. simpl in *.
    injection Hik as Hik1 Hik2. injection Hkj as Hkj1 Hkj2.
    unfold round_target, improvesb, cell, fw_relax. simpl.
    rewrite Hik1, Hkj1, Hik2.
    destruct (Qltb (dist_at d0 i k) Infinity) eqn:G1; simpl;
      [|destruct Hcur as [E|E]; [exact E|];
        rewrite E; unfold round_target, improvesb; simpl; now rewrite G1].
    destruct (Qltb (dist_at d0 k j) Infinity) eqn:G2; simpl;
      [|destruct Hcur as [E|E]; [exact E|];
        rewrite E; unfold round_target, improvesb; simpl; now rewrite G1, G2].
    destruct Hcur as [E|E].
    - injection E as E1 E2. rewrite E1.
      destruct (Qltb (dist_at d0 i k + dist_at d0 k j) (dist_at d0 i j)) eqn:G3.
      + simpl. rewrite dist_at_insert2, next_at_insert2.
        now rewrite !decide_True by done.
      + simpl. now rewrite E1, E2.
    - unfold round_target, improvesb, cell in E. simpl in E.
      rewrite G1, G2 in E. simpl in E.
      destruct (Qltb (dist_at d0 i k + dist_at d0 k j) (dist_at d0 i j)) eqn:G3.
      + injection E as E1 E2. rewrite E1.
        assert (Qltb (dist_at d0 i k + dist_at d0 k j)
                  (dist_at d0 i k + dist_at d0 k j) = false) as ->.
        { apply Qltb_ge. lra. }
        simpl. now rewrite E1, E2.
      + injection E as E1 E2. rewrite E1, G3. simpl. now rewrite E1, E2. }
  intros a b. destruct (decide ((a, b) = (i, j))) as [Eab|Nab].
  - injection Eab as -> ->. split; [now right|]. split; [intros _; exact Hij|].
    intros [?|?]; contradiction.
  - rewrite (cell_fw_relax_other k i j a b cur Nab).
    destruct (H a b) as (H1 & H2 & H3). split; [exact H1|]. split; [|exact H3].
    intros [Hd|[-> ->]]; [now apply H2|]. now exfalso.
Qed.

Lemma round_inv_row (done : Vertex → Vertex → Prop) (i : Vertex)
    (js : list Vertex) :
  i ∈ vs → (∀ j, j ∈ js → j ∈ vs) →
  ∀ cur, round_inv vs st0 k done cur →
         round_inv vs st0 k (fun a b => done a b ∨ (a = i ∧ b ∈ js))
           (foldl (fw_relax k i) cur js).
Proof.
  intros Hi. revert done. induction js as [|j js IH]; intros done Hjs cur H;
    simpl.
  - eapply round_inv_weaken; [|exact H]. intros a b [?|[_ Hb]]; [assumption|].
    inversion Hb.
  - eapply round_inv_weaken;
      [|apply (IH (fun a b => done a b ∨ (a = i ∧ b = j)))].
    + intros a b [Hd|[-> Hb]]; [left; now left|].
      apply elem_of_cons in Hb as [->|Hb]; [left; right; auto|right; auto].
    + intros j' Hj'. apply Hjs. now right.
    + apply round_inv_relax; [exact Hi|apply Hjs; left|exact H].
Qed.

Lemma round_inv_rows (done : Vertex → Vertex → Prop) (us js : list Vertex) :
  (∀ i, i ∈ us → i ∈ vs) → (∀ j, j ∈ js → j ∈ vs) →
  ∀ cur, round_inv vs st0 k done cur →
         round_inv vs st0 k (fun a b => done a b ∨ (a ∈ us ∧ b ∈ js))
           (foldl (fun st i => foldl (fw_relax k i) st js) cur us).
Proof.
  revert done. induction us as [|i us IH]; intros done His Hjs cur H; simpl.
  - eapply round_inv_weaken; [|exact H]. intros a b [?|[Ha _]]; [assumption|].
    inversion Ha.
  - eapply round_inv_weaken;
      [|apply (IH (fun a b => done a b ∨ (a = i ∧ b ∈ js)))].
    + intros a b [Hd|[Ha Hb]]; [left; now left|].
      apply elem_of_cons in Ha as [->|Ha]; [left; right; auto|right; auto].
    + intros i' Hi'. apply His. now right.
    + exact Hjs.
    + apply round_inv_row; [apply His; left|exact Hjs|exact H].
Qed.

Lemma fw_round_spec :
  round_rel vs k (dist_at st0.1) (next_at st0.2)
    (dist_at (fw_round vs st0 k).1) (next_at (fw_round vs st0 k).2)
  ∧ ∀ a b, a ∉ vs ∨ b ∉ vs → cell (fw_round vs st0 k) a b = cell st0 a b.
Proof.
  assert (round_inv vs st0 k (fun a b => False ∨ (a ∈ vs ∧ b ∈ vs)) (fw_round vs st0 k))
    as H.
  { unfold fw_round. apply round_inv_rows; [auto|auto|].
    intros a b. split; [now left|]. split; [intros []|reflexivity]. }
  split.
  - intros i j Hi Hj. destruct (H i j) as (_ & Ht & _).
    specialize (Ht (or_intror (conj Hi Hj))). unfold round_target, cell in Ht.
    destruct (improvesb st0.1 k i j) eqn:E; injection Ht as Ht1 Ht2.
    + left. apply improvesb_improves in E. auto.
    + right. split; [|auto]. intros Himp. apply improvesb_improves in Himp.
      congruence.
  - intros a b Hab. now destruct (H a b) as (_ & _ & H3); apply H3.
Qed.

End SequentialRound.

(** ** Graphs built by UpdateLatency *)

Lemma Vert_UpdateLatency (g : IG) (now : Time) (u v : Vertex) (dt : Duration) :
  Vert (UpdateLatency g now u v dt) = <[v := true]> (<[u := true]> (Vert g)).
Proof. unfold UpdateLatency. now destruct (edges g !! u). Qed.

Lemma NodeReportTimeout_UpdateLatency (g : IG) (now : Time) (u v : Vertex)
    (dt : Duration) :
  NodeReportTimeout (UpdateLatency g now u v dt) = NodeReportTimeout g.
Proof. unfold UpdateLatency. now destruct (edges g !! u). Qed.

Lemma lookup2_UpdateLatency (g : IG) (now : Time) (u v a b : Vertex)
    (dt : Duration) :
  lookup2 (edges (UpdateLatency g now u v dt)) a b
  = if decide (a = u ∧ b = v)
    then Some (mkLatency (inject_Z dt / 1000000000)
                 (match lookup2 (edges g) u v with
                  | Some l => ping_old l
                  | None => Infinity
                  end) now)
    else lookup2 (edges g) a b.
Proof.
  unfold UpdateLatency, lookup2.
  destruct (edges g !! u) as [row|] eqn:Eu; simpl.
  - rewrite Eu. simpl. destruct (decide (a = u)) as [->|Hau].
    + rewrite lookup_insert_eq. destruct (decide (b = v)) as [->|Hbv].
      * rewrite lookup_insert_eq, decide_True by done.
        now destruct (row !! v).
      * rewrite lookup_insert_ne by congruence.
        rewrite decide_False by (intros [_ ?]; congruence). now rewrite Eu.
    + rewrite lookup_insert_ne by congruence.
      now rewrite decide_False by (intros [? _]; congruence).
  - rewrite lookup_insert_eq. simpl. destruct (decide (a = u)) as [->|Hau].
    + rewrite lookup_insert_eq. destruct (decide (b = v)) as [->|Hbv].
      * rewrite lookup_insert_eq, decide_True by done.
        now rewrite lookup_empty.
      * rewrite lookup_insert_ne by congruence.
        rewrite decide_False by (intros [_ ?]; congruence).
        now rewrite lookup_empty, Eu.
    + rewrite !lookup_insert_ne by congruence.
      now rewrite decide_False by (intros [? _]; congruence).
Qed.

(** A measurement that is not negative keeps the weights non-negative. *)
Lemma Weight_UpdateLatency_nonneg (g : IG) (t now : Time) (u v : Vertex)
    (dt : Duration) :
  (0 <= dt)%Z →
  (∀ a b, 0 <= Weight g now a b) →
  ∀ a b, 0 <= Weight (UpdateLatency g t u v dt) now a b.
Proof.
  intros Hdt Hnn a b. specialize (Hnn a b). rewrite !Weight_lookup2 in *.
  rewrite lookup2_UpdateLatency. unfold stale.
  rewrite NodeReportTimeout_UpdateLatency.
  destruct (decide (a = b)); [lra|].
  destruct (decide (a = u ∧ b = v)); [|exact Hnn]. simpl.
  destruct (_ <? _)%Z; [unfold Infinity; lra|].
  unfold Qdiv. apply Qmult_le_0_compat; [|discriminate].
  unfold Qle. simpl. lia.
Qed.

Lemma Weight_NewGraph_nonneg (s : bool) (c : GraphRecalculateSetting)
    (now : Time) (a b : Vertex) :
  0 <= Weight (NewGraph s c) now a b.
Proof.
  rewrite Weight_lookup2. destruct (decide (a = b)); [lra|].
  unfold NewGraph, lookup2. simpl. rewrite lookup_empty. unfold Infinity. lra.
Qed.

(** A list without repetition that holds the keys of a map is a range
    order of it. *)
Lemma is_range_order_dom {A : Type} (vs : list Vertex) (m : gmap Vertex A) :
  NoDup vs → list_to_set vs = dom m → is_range_order vs m.
Proof.
  intros Hnd Hdom. split; [exact Hnd|]. intros v.
  rewrite <- elem_of_dom, <- Hdom. symmetry. apply elem_of_list_to_set.
Qed.

(** ** Shortest paths: the whole computation *)

Lemma graph_wf_NewGraph (s : bool) (c : GraphRecalculateSetting) :
  graph_wf (NewGraph s c).
Proof.
  intros u v [l H]. unfold NewGraph, lookup2 in H. simpl in H.
  rewrite lookup_empty in H. discriminate.
Qed.

Lemma graph_wf_UpdateLatency (g : IG) (now : Time) (u v : Vertex)
    (dt : Duration) :
  graph_wf g → graph_wf (UpdateLatency g now u v dt).
Proof.
  intros Hwf a b. rewrite lookup2_UpdateLatency, Vert_UpdateLatency.
  rewrite !lookup_insert_is_Some.
  destruct (decide (a = u ∧ b = v)) as [[-> ->]|_].
  - intros _. split.
    + destruct (decide (v = u)) as [->|?]; [now left|].
      right. split; [assumption|]. now left.
    + now left.
  - intros H. destruct (Hwf a b H) as [Ha Hb]. split.
    + destruct (decide (v = a)) as [->|?]; [now left|].
      right. split; [assumption|].
      destruct (decide (u = a)) as [->|?]; [now left|]. now right.
    + destruct (decide (v = b)) as [->|?]; [now left|].
      right. split; [assumption|].
      destruct (decide (u = b)) as [->|?]; [now left|]. now right.
Qed.

Section Computation.

Variables (g : IG) (now : Time) (vs : list Vertex).
Hypothesis W_nonneg : ∀ a b, 0 <= Weight g now a b.

Lemma fw_inv_init (d0 : DistTable) (n0 : NextHopTable) :
  (∀ a b, a ∈ vs → dist_at d0 a b = init_dist g now vs a b) →
  (∀ a b, a ∈ vs → next_at n0 a b = init_next g now a b) →
  fw_inv vs (Weight g now) [] (dist_at d0) (next_at n0).
Proof.
  intros Hd Hn.
  assert (Hdiag : ∀ a, a ∈ vs → dist_at d0 a a = 0).
  { intros a Ha. rewrite Hd by exact Ha. unfold init_dist.
    now rewrite decide_True. }
  assert (Hoff : ∀ a b, a ∈ vs → b ∈ vs → a ≠ b →
            (Weight g now a b < Infinity ∧ dist_at d0 a b = Weight g now a b
             ∧ next_at n0 a b = Some b)
            ∨ (Infinity <= Weight g now a b ∧ dist_at d0 a b = Infinity
               ∧ next_at n0 a b = None)).
  { intros a b Ha Hb Hab. rewrite Hd, Hn by exact Ha.
    unfold init_dist, init_next.
    repeat (destruct (decide (a = b)) as [?|_]; [contradiction|]).
    destruct (Qltb (Weight g now a b) Infinity) eqn:E.
    - left. apply Qltb_lt in E. split; [exact E|]. split; reflexivity.
    - right. apply Qltb_ge in E. rewrite decide_True by exact Hb.
      split; [exact E|]. split; reflexivity. }
  constructor.
  - intros a Ha. rewrite Hdiag by exact Ha. reflexivity.
  - intros a b Ha Hb. destruct (decide (a = b)) as [->|Hab].
    + rewrite Hdiag by exact Hb. unfold Infinity. lra.
    + pose proof (W_nonneg a b).
      destruct (Hoff a b Ha Hb Hab) as [(? & -> & _)|(? & -> & _)];
        unfold Infinity in *; lra.
  - intros a b Ha Hb Hab HN.
    destruct (Hoff a b Ha Hb Hab) as [(_ & _ & ?)|(_ & -> & _)];
      [congruence|lra].
  - intros a b m Ha Hb Hab HN.
    destruct (Hoff a b Ha Hb Hab) as [(Hlt & Ed & En)|(_ & _ & ?)];
      [|congruence].
    rewrite En in HN. injection HN as <-. rewrite Ed, (Hdiag b Hb).
    repeat split; auto; lra.
  - intros a m b Ha Hm Hb Ham [->|Hin] HW _; [|inversion Hin].
    destruct (Hoff a b Ha Hb Ham) as [(_ & -> & _)|(? & _)]; [|lra].
    rewrite (Hdiag b Hb). lra.
  - intros a b Ha Hb Hab HN.
    destruct (Hoff a b Ha Hb Hab) as [(_ & _ & En)|(_ & _ & ?)];
      [|congruence].
    apply (reach_step _ b a b Hab En). apply reach_here.
Qed.

Lemma fw_rounds_inv (st0 : DistTable * NextHopTable) (ks : list Vertex) :
  (∀ k, k ∈ ks → k ∈ vs) →
  ∀ K st,
    fw_inv vs (Weight g now) K (dist_at st.1) (next_at st.2) →
    (∀ a b, a ∉ vs ∨ b ∉ vs → cell st a b = cell st0 a b) →
    ∃ K',
      fw_inv vs (Weight g now) K'
        (dist_at (foldl (fw_round vs) st ks).1)
        (next_at (foldl (fw_round vs) st ks).2)
      ∧ ∀ a b, a ∉ vs ∨ b ∉ vs →
               cell (foldl (fw_round vs) st ks) a b = cell st0 a b.
Proof.
  induction ks as [|k ks IH]; intros Hks K st Hinv Hout; simpl.
  - exists K. auto.
  - assert (k ∈ vs) as Hk by (apply Hks; left).
    destruct (fw_round_spec vs st k (inv_diag _ _ _ _ _ Hinv k Hk))
      as [Hrel Hout'].
    apply (IH (fun k' Hk' => Hks k' (list_elem_of_further _ _ _ Hk')) (k :: K)).
    + exact (fw_inv_round vs (Weight g now) W_nonneg K k _ _ _ _ Hinv Hk Hrel).
    + intros a b Hab. now rewrite Hout', Hout.
Qed.

End Computation.

(** ** Following the pointers of a table *)

Lemma follows_head N b x p : follows N b x p → head p = Some x.
Proof. intros H. now destruct H. Qed.

Lemma follows_last N b x p : follows N b x p → last p = Some b.
Proof.
  intros H. induction H as [|x m p Hxb HN H IH]; [reflexivity|].
  destruct p as [|y p]; [discriminate|]. exact IH.
Qed.

Lemma follows_det N b x p q : follows N b x p → follows N b x q → p = q.
Proof.
  intros Hp. revert q. induction Hp as [|x m p Hxb HN Hp IH]; intros q Hq.
  - inversion Hq; subst; [reflexivity|contradiction].
  - inversion Hq; subst; [contradiction|].
    f_equal. apply IH. congruence.
Qed.

Lemma follows_suffix N b x p y :
  follows N b x p → y ∈ p →
  ∃ q, follows N b y q ∧ (length q <= length p)%nat.
Proof.
  intros Hp. induction Hp as [|x m p Hxb HN Hp IH]; intros Hy.
  - apply list_elem_of_singleton in Hy as ->. exists [b].
    split; [apply follows_here|reflexivity].
  - apply elem_of_cons in Hy as [->|Hy].
    + exists (x :: p). split; [now apply (follows_step N b x m)|reflexivity].
    + destruct (IH Hy) as (q & Hq & Hlen). exists q. split; [exact Hq|].
      simpl. lia.
Qed.

Lemma follows_NoDup N b x p : follows N b x p → NoDup p.
Proof.
  intros Hp. induction Hp as [|x m p Hxb HN Hp IH].
  - apply NoDup_singleton.
  - apply NoDup_cons. split; [|exact IH]. intros Hx.
    destruct (follows_suffix N b m p x Hp Hx) as (q & Hq & Hlen).
    pose proof (follows_det N b x q (x :: p) Hq
                  (follows_step N b x m p Hxb HN Hp)) as ->.
    simpl in Hlen. lia.
Qed.

Lemma reach_follows (vs : list Vertex) (W : Vertex → Vertex → Q)
    (K : list Vertex) (D : Vertex → Vertex → Q)
    (N : Vertex → Vertex → option Vertex) (b x : Vertex) :
  fw_inv vs W K D N → b ∈ vs → reach N b x → x ∈ vs →
  ∃ p, follows N b x p ∧ ∀ y, y ∈ p → y ∈ vs.
Proof.
  intros Hinv Hb Hr. induction Hr as [|x m Hxb HN Hr IH]; intros Hx.
  - exists [b]. split; [apply follows_here|].
    intros y Hy. now apply list_elem_of_singleton in Hy as ->.
  - destruct (inv_some _ _ _ _ _ Hinv x b m Hx Hb Hxb HN) as (_ & Hm & _).
    destruct (IH Hm) as (p & Hp & Hin). exists (x :: p).
    split; [now apply (follows_step N b x m)|].
    intros y Hy. apply elem_of_cons in Hy as [->|Hy]; auto.
Qed.

Lemma follows_Path_loop (next : NextHopTable) (b x : Vertex)
    (p : list Vertex) :
  follows (next_at next) b x p →
  ∀ fuel acc, (length p <= S fuel)%nat →
              Path_loop fuel next x b acc = Returns (acc ++ tail p).
Proof.
  intros Hp. induction Hp as [|x m p Hxb HN Hp IH]; intros fuel acc Hlen.
  - destruct fuel; simpl; rewrite decide_True by reflexivity;
      now rewrite app_nil_r.
  - destruct fuel as [|fuel].
    { destruct Hp; simpl in Hlen; lia. }
    simpl. rewrite decide_False by exact Hxb. rewrite HN.
    rewrite IH by (simpl in Hlen; lia).
    rewrite <- app_assoc. simpl.
    pose proof (follows_head _ _ _ _ Hp) as Hh.
    destruct p as [|y p]; [discriminate|]. injection Hh as ->. reflexivity.
Qed.

(** A run on a graph without negative weights: the invariant holds of its
    tables, and nothing outside the vertices is written. *)
Lemma fw_run_nonneg (g : IG) (now : Time) (vs : list Vertex) :
  (∀ a b, 0 <= Weight g now a b) →
  ∃ dist next g' K,
    fw_run g now vs = (dist, next, g')
    ∧ fw_inv vs (Weight g now) K (dist_at dist) (next_at next)
    ∧ (∀ a b, a ∉ vs → dist_at dist a b = 0 ∧ next_at next a b = None)
    ∧ (∀ a b, a ∈ vs → b ∉ vs → next_at next a b = init_next g now a b).
Proof.
  intros Hnn.
  destruct (fw_run_unfold g now vs) as (d0 & n0 & g0 & Hinit & Hrun).
  destruct (fw_init_spec g now vs)
    as (d0' & n0' & g0' & Hinit' & _ & Hd & Hn & Hout & _).
  rewrite Hinit in Hinit'. inversion Hinit'; subst d0' n0' g0'. clear Hinit'.
  destruct (fw_rounds_inv g now vs Hnn (d0, n0) vs (fun k Hk => Hk) [] (d0, n0))
    as (K & Hinv & Hout').
  { now apply fw_inv_init. }
  { reflexivity. }
  exists (fw_loop vs (d0, n0)).1, (fw_loop vs (d0, n0)).2, g0, K.
  split; [exact Hrun|]. split; [exact Hinv|]. split.
  - intros a b Ha. specialize (Hout' a b (or_introl Ha)).
    unfold cell in Hout'. simpl in Hout'. injection Hout' as E1 E2.
    unfold fw_loop. rewrite E1, E2. now apply Hout.
  - intros a b Ha Hb. specialize (Hout' a b (or_intror Hb)).
    unfold cell in Hout'. simpl in Hout'. injection Hout' as _ E2.
    unfold fw_loop. rewrite E2. now apply Hn.
Qed.

(** On a graph without negative weights a run leaves no negative entry on
    the diagonal, and the pointers of its table lead to their target. *)
Lemma fw_run_nonneg_paths (g : IG) (now : Time) (vs : list Vertex) :
  is_range_order vs (Vert g) → graph_wf g →
  (∀ a b, 0 <= Weight g now a b) →
  ∃ dist next g',
    fw_run g now vs = (dist, next, g')
    ∧ negative_cycle dist = false
    ∧ ∀ u v, next_at next u v ≠ None →
        ∃ p, Path (length vs - 1) u v next = Returns p
             ∧ head p = Some u ∧ last p = Some v
             ∧ NoDup p ∧ (length p <= length vs)%nat
             ∧ ∀ x, x ∈ p → x ∈ vs.
Proof.
  intros [Hnd Hvs] Hwf Hnn.
  destruct (fw_run_nonneg g now vs Hnn)
    as (dist & next & g' & K & Hrun & Hinv & Hout & Hcol).
  exists dist, next, g'. split; [exact Hrun|]. split.
  { destruct (negative_cycle dist) eqn:E; [|reflexivity]. exfalso.
    apply negative_cycle_true in E as (a & _ & Hlt).
    destruct (decide (a ∈ vs)) as [Ha|Ha].
    - pose proof (inv_diag _ _ _ _ _ Hinv a Ha). lra.
    - destruct (Hout a a Ha) as [E0 _]. rewrite E0 in Hlt. lra. }
  intros u v Huv.
  assert (u ∈ vs) as Hu.
  { destruct (decide (u ∈ vs)) as [?|Hu]; [assumption|].
    destruct (Hout u v Hu) as [_ E]. congruence. }
  assert (v ∈ vs) as Hv.
  { destruct (decide (v ∈ vs)) as [?|Hv]; [assumption|]. exfalso.
    rewrite (Hcol u v Hu Hv) in Huv. unfold init_next in Huv.
    destruct (decide (u = v)) as [->|Hne]; [contradiction|].
    destruct (Qltb (Weight g now u v) Infinity) eqn:E; [|congruence].
    apply Hv, Hvs, (Hwf u v), (Weight_lt_Infinity_edge g now u v Hne E). }
  assert (1 <= length vs)%nat as Hlen.
  { destruct vs; [inversion Hu|simpl; lia]. }
  unfold Path. destruct (next_at next u v) as [m|] eqn:EN; [|congruence].
  destruct (decide (u = v)) as [->|Hne].
  - exists [v]. split.
    { destruct (length vs - 1)%nat; simpl; now rewrite decide_True. }
    split; [reflexivity|]. split; [reflexivity|].
    split; [apply NoDup_singleton|]. split; [exact Hlen|].
    intros x Hx. now apply list_elem_of_singleton in Hx as ->.
  - assert (reach (next_at next) v u) as Hr.
    { apply (inv_reach _ _ _ _ _ Hinv u v Hu Hv Hne). congruence. }
    destruct (reach_follows vs _ K _ _ v u Hinv Hv Hr Hu) as (p & Hp & Hin).
    pose proof (follows_NoDup _ _ _ _ Hp) as Hnodup.
    pose proof (submseteq_length _ _ (NoDup_submseteq _ _ Hnodup Hin)) as Hle.
    exists p. split.
    { rewrite (follows_Path_loop next v u p Hp) by lia.
      pose proof (follows_head _ _ _ _ Hp) as Hh.
      destruct p as [|y p]; [discriminate|]. injection Hh as ->. reflexivity. }
    split; [exact (follows_head _ _ _ _ Hp)|].
    split; [exact (follows_last _ _ _ _ Hp)|]. auto.
Qed.

(** C7, as the code has it.  On a graph none of whose weights is negative,
    [FloydWarshall] reports no error, and for every pair (u,v) with
    [next[u][v]] not nil, [Path u v] returns within [|V| - 1] iterations of
    its loop a list that starts at [u], ends at [v], repeats no vertex and
    stays inside the vertices of the graph. *)
Theorem C7_paths_are_simple (again : bool) (g : IG) (now : Time)
    (vs vr va : list Vertex) :
  is_range_order vs (Vert g) → graph_wf g →
  (∀ a b, 0 <= Weight g now a b) →
  ∃ dist next g',
    FloydWarshall again g now vs vr va = (dist, next, None, g')
    ∧ ∀ u v, next_at next u v ≠ None →
        ∃ p, Path (length vs - 1) u v next = Returns p
             ∧ head p = Some u ∧ last p = Some v
             ∧ NoDup p ∧ (length p <= length vs)%nat
             ∧ ∀ x, x ∈ p → x ∈ vs.
Proof.
  intros Hvs Hwf Hnn.
  destruct (fw_run_nonneg_paths g now vs Hvs Hwf Hnn)
    as (dist & next & g' & Hrun & Hneg & Hpaths).
  exists dist, next, g'. split; [|exact Hpaths].
  unfold FloydWarshall, FloydWarshall_again. rewrite Hrun, Hneg.
  now destruct again.
Qed.

(** The repair leaves a graph on which the retry cannot fail: with every
    vertex visited, no weight is negative any more. *)
Lemma RemoveAllNegativeValue_nonneg (g : IG) (now : Time) (vr : list Vertex) :
  is_range_order vr (Vert g) → graph_wf g →
  ∀ a b, 0 <= Weight (RemoveAllNegativeValue g now vr) now a b.
Proof.
  intros [_ Hvr] Hwf a b.
  destruct (RemoveAllNegativeValue_spec now vr g) as [Hc Hn].
  destruct (decide (a ∈ vr ∧ b ∈ vr)) as [[Ha Hb]|Hno]; [now apply Hn|].
  eapply clamped_nonneg; [exact Hc|].
  rewrite Weight_lookup2. destruct (decide (a = b)); [lra|].
  destruct (lookup2 (edges g) a b) as [l|] eqn:E; [|unfold Infinity; lra].
  exfalso. apply Hno. destruct (Hwf a b) as [Ha Hb]; [rewrite E; eauto|].
  split; now apply Hvr.
Qed.

Lemma Vert_SetOldWeight (g : IG) (u v : Vertex) (w : Q) :
  Vert (SetOldWeight g u v w) = Vert g.
Proof.
  unfold SetOldWeight. destruct (edges g !! u) as [row|]; [|reflexivity].
  now destruct (row !! v).
Qed.

Lemma Vert_SetWeight (g : IG) (u v : Vertex) (w : Q) :
  Vert (SetWeight g u v w) = Vert g.
Proof.
  unfold SetWeight. destruct (edges g !! u) as [row|]; [|reflexivity].
  now destruct (row !! v).
Qed.

Lemma fw_run_Vert (g : IG) (now : Time) (vs : list Vertex) (d : DistTable)
    (n : NextHopTable) (g' : IG) :
  fw_run g now vs = (d, n, g') → Vert g' = Vert g.
Proof.
  unfold fw_run, fw_init. intros H.
  assert (Vert (foldl (fw_init_row now vs) (∅, ∅, g) vs).2 = Vert g) as Hv.
  { apply (foldl_invariant (fun st : fw_state => Vert st.2 = Vert g));
      [reflexivity|].
    intros [[d1 n1] g1] u _ H1. unfold fw_init_row.
    apply (foldl_invariant (fun st : fw_state => Vert st.2 = Vert g));
      [exact H1|].
    intros [[d2 n2] g2] v _ H2. unfold fw_init_edge. simpl in *.
    destruct (Qltb (Weight g2 now u v) Infinity); simpl;
      now rewrite Vert_SetOldWeight. }
  destruct (foldl (fw_init_row now vs) (∅, ∅, g) vs) as [[d0 n0] g0].
  destruct (fw_loop vs (d0, n0)). inversion H; subst. exact Hv.
Qed.

Lemma RemoveAllNegativeValue_frame (g : IG) (now : Time) (vs : list Vertex) :
  Vert (RemoveAllNegativeValue g now vs) = Vert g
  ∧ ∀ a b, is_Some (lookup2 (edges (RemoveAllNegativeValue g now vs)) a b)
           ↔ is_Some (lookup2 (edges g) a b).
Proof.
  unfold RemoveAllNegativeValue.
  apply (foldl_invariant
           (fun g' => Vert g' = Vert g
                      ∧ ∀ a b, is_Some (lookup2 (edges g') a b)
                               ↔ is_Some (lookup2 (edges g) a b)));
    [split; [reflexivity|intros; reflexivity]|].
  intros g1 u _ H1.
  apply (foldl_invariant
           (fun g' => Vert g' = Vert g
                      ∧ ∀ a b, is_Some (lookup2 (edges g') a b)
                               ↔ is_Some (lookup2 (edges g) a b)));
    [exact H1|].
  intros g2 v _ [HV HE]. destruct (Qltb (Weight g2 now u v) 0); [|auto].
  split; [now rewrite Vert_SetWeight|]. intros a b.
  rewrite lookup2_SetWeight, <- HE.
  destruct (decide _); [|reflexivity]. apply fmap_is_Some.
Qed.

Lemma graph_wf_transfer (g g' : IG) :
  graph_wf g → Vert g' = Vert g →
  (∀ a b, is_Some (lookup2 (edges g') a b) ↔ is_Some (lookup2 (edges g) a b)) →
  graph_wf g'.
Proof.
  intros Hwf HV HE a b H. rewrite HV. apply Hwf, HE, H.
Qed.

(** After the repair the retry cannot fail.  When the first run of
    [FloydWarshall(false)] finds a negative entry on the diagonal, the
    retry runs on a graph without negative weights: it reports no error, so
    the branch "negative cycle detected again!" is not taken and the
    tables returned are not empty; their paths are simple. *)
Theorem FloydWarshall_retry_succeeds (g : IG) (now : Time)
    (vs vr va : list Vertex) (dist1 : DistTable) (next1 : NextHopTable)
    (g1 : IG) :
  graph_wf g → is_range_order vr (Vert g) → is_range_order va (Vert g) →
  fw_run g now vs = (dist1, next1, g1) →
  negative_cycle dist1 = true →
  ∃ d n g3,
    FloydWarshall true (RemoveAllNegativeValue g1 now vr) now va vr va
    = (d, n, None, g3)
    ∧ FloydWarshall false g now vs vr va
      = (d, n, Some "negative cycle detected"%string, g3)
    ∧ ∀ u v, next_at n u v ≠ None →
        ∃ p, Path (length va - 1) u v n = Returns p
             ∧ head p = Some u ∧ last p = Some v
             ∧ NoDup p ∧ (length p <= length va)%nat
             ∧ ∀ x, x ∈ p → x ∈ va.
Proof.
  intros Hwf Hvr Hva Hrun Hneg.
  pose proof (fw_run_Vert g now vs dist1 next1 g1 Hrun) as HV1.
  destruct (fw_run_same_view g now now vs dist1 next1 g1 Hrun) as [_ HE1].
  pose proof (graph_wf_transfer g g1 Hwf HV1 HE1) as Hwf1.
  destruct (RemoveAllNegativeValue_frame g1 now vr) as [HV2 HE2].
  pose proof (graph_wf_transfer g1 _ Hwf1 HV2 HE2) as Hwf2.
  assert (is_range_order va (Vert (RemoveAllNegativeValue g1 now vr))) as Hva2
    by now rewrite HV2, HV1.
  assert (∀ a b, 0 <= Weight (RemoveAllNegativeValue g1 now vr) now a b)
    as Hnn.
  { apply RemoveAllNegativeValue_nonneg; [|exact Hwf1]. now rewrite HV1. }
  destruct (fw_run_nonneg_paths _ now va Hva2 Hwf2 Hnn)
    as (d & n & g3 & Hrun2 & Hneg2 & Hpaths).
  exists d, n, g3. split; [|split; [|exact Hpaths]].
  - unfold FloydWarshall, FloydWarshall_again. now rewrite Hrun2, Hneg2.
  - unfold FloydWarshall, FloydWarshall_again.
    now rewrite Hrun, Hneg, Hrun2, Hneg2.
Qed.

(** C7, counterexample.  Ranging over the vertices in the order 2, 3, 1, 4
    the run succeeds with [next[1][4] = 2]: from 1 the way over 2 and 3
    costs 70000 s, below [Infinity].  From 2 the way to 4 costs 120000 s,
    which is not below [Infinity], so [next[2][4]] stays nil, and [Path 1 4]
    dereferences it: the path never reaches 4. *)
Lemma C7_counterexample :
  is_range_order [2%N; 3%N; 1%N; 4%N] (Vert graph_sentinel)
  ∧ ∃ dist next g',
      FloydWarshall false graph_sentinel 0%Z [2%N; 3%N; 1%N; 4%N]
        [2%N; 3%N; 1%N; 4%N] [2%N; 3%N; 1%N; 4%N]
      = (dist, next, None, g')
      ∧ next_at next 1%N 4%N = Some 2%N
      ∧ next_at next 2%N 4%N = None
      ∧ Path 3 1%N 4%N next = NilDereference
      ∧ ∀ fuel p, Path fuel 1%N 4%N next ≠ Returns p.
Proof.
  split.
  { apply is_range_order_dom.
    - refine (bool_decide_unpack _ _). vm_compute. exact I.
    - vm_compute. reflexivity. }
  exists
    (FloydWarshall false graph_sentinel 0%Z [2%N; 3%N; 1%N; 4%N]
       [2%N; 3%N; 1%N; 4%N] [2%N; 3%N; 1%N; 4%N]).1.1.1,
    (FloydWarshall false graph_sentinel 0%Z [2%N; 3%N; 1%N; 4%N]
       [2%N; 3%N; 1%N; 4%N] [2%N; 3%N; 1%N; 4%N]).1.1.2,
    (FloydWarshall false graph_sentinel 0%Z [2%N; 3%N; 1%N; 4%N]
       [2%N; 3%N; 1%N; 4%N] [2%N; 3%N; 1%N; 4%N]).2.
  split; [vm_compute; reflexivity|].
  set (next := (FloydWarshall false graph_sentinel 0%Z [2%N; 3%N; 1%N; 4%N]
                  [2%N; 3%N; 1%N; 4%N] [2%N; 3%N; 1%N; 4%N]).1.1.2).
  assert (next_at next 1%N 4%N = Some 2%N) as H14 by (vm_compute; reflexivity).
  assert (next_at next 2%N 4%N = None) as H24 by (vm_compute; reflexivity).
  assert (Path 3 1%N 4%N next = NilDereference) as HP
    by (vm_compute; reflexivity).
  clearbody next.
  split; [exact H14|]. split; [exact H24|]. split; [exact HP|].
  intros fuel p. unfold Path. rewrite H14.
  destruct fuel as [|[|fuel]]; simpl;
    rewrite ?decide_False by discriminate; try discriminate;
    rewrite H14; simpl; rewrite ?decide_False by discriminate;
    try discriminate; rewrite H24; discriminate.
Qed.

Lemma C7_witness :
  ∃ dist next g',
    FloydWarshall false graph_line_links 0%Z [1%N; 2%N; 3%N] [1%N; 2%N; 3%N]
      [1%N; 2%N; 3%N]
    = (dist, next, None, g')
    ∧ ∀ u v, next_at next u v ≠ None →
        ∃ p, Path (length [1%N; 2%N; 3%N] - 1) u v next = Returns p
             ∧ head p = Some u ∧ last p = Some v
             ∧ NoDup p ∧ (length p <= length [1%N; 2%N; 3%N])%nat
             ∧ ∀ x, x ∈ p → x ∈ [1%N; 2%N; 3%N].
Proof.
  apply (C7_paths_are_simple false graph_line_links 0%Z [1%N; 2%N; 3%N]
           [1%N; 2%N; 3%N] [1%N; 2%N; 3%N]).
  - apply is_range_order_dom.
    + refine (bool_decide_unpack _ _). vm_compute. exact I.
    + vm_compute. reflexivity.
  - unfold graph_line_links. repeat apply graph_wf_UpdateLatency.
    apply graph_wf_NewGraph.
  - unfold graph_line_links.
    repeat (apply Weight_UpdateLatency_nonneg; [lia|]).
    apply Weight_NewGraph_nonneg.
Defined.

Lemma FloydWarshall_retry_succeeds_witness :
  ∃ d n g3,
    FloydWarshall false graph_negative_cycle 0%Z [1%N; 2%N] [1%N; 2%N]
      [1%N; 2%N]
    = (d, n, Some "negative cycle detected"%string, g3)
    ∧ ∀ u v, next_at n u v ≠ None →
        ∃ p, Path (length [1%N; 2%N] - 1) u v n = Returns p ∧ NoDup p.
Proof.
  destruct (FloydWarshall_retry_succeeds graph_negative_cycle 0%Z
              [1%N; 2%N] [1%N; 2%N] [1%N; 2%N]
              (fw_run graph_negative_cycle 0%Z [1%N; 2%N]).1.1
              (fw_run graph_negative_cycle 0%Z [1%N; 2%N]).1.2
              (fw_run graph_negative_cycle 0%Z [1%N; 2%N]).2)
    as (d & n & g3 & _ & H & Hpaths).
  - unfold graph_negative_cycle. repeat apply graph_wf_UpdateLatency.
    apply graph_wf_NewGraph.
  - apply is_range_order_dom.
    + refine (bool_decide_unpack _ _). vm_compute. exact I.
    + vm_compute. reflexivity.
  - apply is_range_order_dom.
    + refine (bool_decide_unpack _ _). vm_compute. exact I.
    + vm_compute. reflexivity.
  - now destruct (fw_run graph_negative_cycle 0%Z [1%N; 2%N]) as [[? ?] ?].
  - vm_compute. reflexivity.
  - exists d, n, g3. split; [exact H|]. intros u v Huv.
    destruct (Hpaths u v Huv) as (p & Hp & _ & _ & Hnd & _). eauto.
Defined.

(** ** Shortest paths: the tables of a run without negative weights *)

Lemma fw_rounds_inv_all (g : IG) (now : Time) (vs : list Vertex)
    (st0 : DistTable * NextHopTable) (ks : list Vertex) :
  (∀ a b, 0 <= Weight g now a b) →
  (∀ k, k ∈ ks → k ∈ vs) →
  ∀ K st,
    fw_inv vs (Weight g now) K (dist_at st.1) (next_at st.2) →
    fw_inv vs (Weight g now) (rev ks ++ K)
      (dist_at (foldl (fw_round vs) st ks).1)
      (next_at (foldl (fw_round vs) st ks).2).
Proof.
  intros Hnn. induction ks as [|k ks IH]; intros Hks K st Hinv; simpl.
  - exact Hinv.
  - assert (k ∈ vs) as Hk by (apply Hks; left).
    destruct (fw_round_spec vs st k (inv_diag _ _ _ _ _ Hinv k Hk))
      as [Hrel _].
    rewrite <- app_assoc. simpl.
    apply (IH (fun k' Hk' => Hks k' (list_elem_of_further _ _ _ Hk')) (k :: K)).
    exact (fw_inv_round vs (Weight g now) Hnn K k _ _ _ _ Hinv Hk Hrel).
Qed.

(** The invariant at the end of a run on a graph without negative weights:
    every vertex has had its round, and the cells outside the vertices are
    as the initialisation left them. *)
Lemma fw_run_nonneg_all (g : IG) (now : Time) (vs : list Vertex) :
  (∀ a b, 0 <= Weight g now a b) →
  ∃ dist next g',
    fw_run g now vs = (dist, next, g')
    ∧ fw_inv vs (Weight g now) (rev vs) (dist_at dist) (next_at next)
    ∧ (∀ a b, a ∉ vs → dist_at dist a b = 0 ∧ next_at next a b = None)
    ∧ (∀ a b, a ∈ vs → b ∉ vs →
              dist_at dist a b = init_dist g now vs a b
              ∧ next_at next a b = init_next g now a b).
Proof.
  intros Hnn.
  destruct (fw_run_unfold g now vs) as (d0 & n0 & g0 & Hinit & Hrun).
  destruct (fw_init_spec g now vs)
    as (d0' & n0' & g0' & Hinit' & _ & Hd & Hn & Hout & _).
  rewrite Hinit in Hinit'. inversion Hinit'; subst d0' n0' g0'. clear Hinit'.
  pose proof (fw_rounds_inv_all g now vs (d0, n0) vs Hnn (fun k Hk => Hk) []
                (d0, n0) (fw_inv_init g now vs Hnn d0 n0 Hd Hn)) as Hinv.
  rewrite app_nil_r in Hinv.
  destruct (fw_rounds_inv g now vs Hnn (d0, n0) vs (fun k Hk => Hk) [] (d0, n0))
    as (K & _ & Hout').
  { now apply fw_inv_init. }
  { reflexivity. }
  exists (fw_loop vs (d0, n0)).1, (fw_loop vs (d0, n0)).2, g0.
  split; [exact Hrun|]. split; [exact Hinv|]. split.
  - intros a b Ha. specialize (Hout' a b (or_introl Ha)).
    unfold cell in Hout'. simpl in Hout'. injection Hout' as E1 E2.
    unfold fw_loop. rewrite E1, E2. now apply Hout.
  - intros a b Ha Hb. specialize (Hout' a b (or_intror Hb)).
    unfold cell in Hout'. simpl in Hout'. injection Hout' as E1 E2.
    unfold fw_loop. rewrite E1, E2. split; [now apply Hd|now apply Hn].
Qed.

(** What a run on a graph without negative weights returns: tables that
    satisfy the invariant with every round done, hold nothing outside the
    vertices, and whose pointers [Path] follows to their target. *)
Lemma fw_run_nonneg_routes (g : IG) (now : Time) (vs : list Vertex) :
  is_range_order vs (Vert g) → graph_wf g →
  (∀ a b, 0 <= Weight g now a b) →
  ∃ dist next g',
    fw_run g now vs = (dist, next, g')
    ∧ negative_cycle dist = false
    ∧ fw_inv vs (Weight g now) (rev vs) (dist_at dist) (next_at next)
    ∧ (∀ a b, a ∉ vs ∨ b ∉ vs → dist_at dist a b = 0)
    ∧ (∀ a b, a ≠ b → a ∉ vs ∨ b ∉ vs → next_at next a b = None)
    ∧ ∀ u v, next_at next u v ≠ None →
        u ∈ vs ∧ v ∈ vs
        ∧ ∃ p, follows (next_at next) v u p
               ∧ Path (length vs - 1) u v next = Returns p.
Proof.
  intros [Hnd Hvs] Hwf Hnn.
  destruct (fw_run_nonneg_all g now vs Hnn)
    as (dist & next & g' & Hrun & Hinv & Hout & Hcol).
  assert (Hedge : ∀ a b, a ≠ b → b ∉ vs →
                         Qltb (Weight g now a b) Infinity = false).
  { intros a b Hab Hb. destruct (Qltb (Weight g now a b) Infinity) eqn:E;
      [|reflexivity].
    exfalso. apply Hb, Hvs, (Hwf a b), (Weight_lt_Infinity_edge g now a b Hab E). }
  assert (Hnone : ∀ a b, a ≠ b → a ∉ vs ∨ b ∉ vs → next_at next a b = None).
  { intros a b Hab Hno. destruct (decide (a ∈ vs)) as [Ha|Ha];
      [|now apply Hout].
    destruct Hno as [?|Hb]; [contradiction|].
    destruct (Hcol a b Ha Hb) as [_ ->]. unfold init_next.
    rewrite decide_False by exact Hab. now rewrite Hedge. }
  exists dist, next, g'. split; [exact Hrun|]. split; [|split; [exact Hinv|]].
  { destruct (negative_cycle dist) eqn:E; [|reflexivity]. exfalso.
    apply negative_cycle_true in E as (a & _ & Hlt).
    destruct (decide (a ∈ vs)) as [Ha|Ha].
    - pose proof (inv_diag _ _ _ _ _ Hinv a Ha). lra.
    - destruct (Hout a a Ha) as [E0 _]. rewrite E0 in Hlt. lra. }
  split; [|split; [exact Hnone|]].
  { intros a b Hno. destruct (decide (a ∈ vs)) as [Ha|Ha];
      [|now apply Hout].
    destruct Hno as [?|Hb]; [contradiction|].
    destruct (Hcol a b Ha Hb) as [-> _]. unfold init_dist.
    destruct (decide (a = b)) as [->|Hab]; [contradiction|].
    rewrite Hedge by assumption. now rewrite decide_False. }
  intros u v Huv.
  assert (u ∈ vs) as Hu.
  { destruct (decide (u ∈ vs)) as [?|Hu]; [assumption|].
    destruct (Hout u v Hu) as [_ E]. congruence. }
  assert (v ∈ vs) as Hv.
  { destruct (decide (v ∈ vs)) as [?|Hv]; [assumption|]. exfalso.
    destruct (decide (u = v)) as [->|Hne]; [contradiction|].
    apply Huv, Hnone; auto. }
  split; [exact Hu|]. split; [exact Hv|].
  assert (1 <= length vs)%nat as Hlen.
  { destruct vs; [inversion Hu|simpl; lia]. }
  unfold Path. destruct (next_at next u v) as [m|] eqn:EN; [|congruence].
  destruct (decide (u = v)) as [->|Hne].
  - exists [v]. split; [apply follows_here|].
    destruct (length vs - 1)%nat; simpl; now rewrite decide_True.
  - assert (reach (next_at next) v u) as Hr.
    { apply (inv_reach _ _ _ _ _ Hinv u v Hu Hv Hne). congruence. }
    destruct (reach_follows vs _ _ _ _ v u Hinv Hv Hr Hu) as (p & Hp & Hin).
    pose proof (follows_NoDup _ _ _ _ Hp) as Hnodup.
    pose proof (submseteq_length _ _ (NoDup_submseteq _ _ Hnodup Hin)) as Hle.
    exists p. split; [exact Hp|].
    rewrite (follows_Path_loop next v u p Hp) by lia.
    pose proof (follows_head _ _ _ _ Hp) as Hh.
    destruct p as [|y p]; [discriminate|]. injection Hh as ->. reflexivity.
Qed.

Lemma FloydWarshall_of_run (again : bool) (g : IG) (now : Time)
    (vs vr va : list Vertex) (dist : DistTable) (next : NextHopTable)
    (g' : IG) :
  fw_run g now vs = (dist, next, g') → negative_cycle dist = false →
  FloydWarshall again g now vs vr va = (dist, next, None, g').
Proof.
  intros Hrun Hneg. unfold FloydWarshall, FloydWarshall_again.
  rewrite Hrun, Hneg. now destruct again.
Qed.

Lemma graph_line_links_ok :
  is_range_order [1%N; 2%N; 3%N] (Vert graph_line_links)
  ∧ graph_wf graph_line_links
  ∧ ∀ a b, 0 <= Weight graph_line_links 0%Z a b.
Proof.
  split; [|split].
  - apply is_range_order_dom.
    + refine (bool_decide_unpack _ _). vm_compute. exact I.
    + vm_compute. reflexivity.
  - unfold graph_line_links. repeat apply graph_wf_UpdateLatency.
    apply graph_wf_NewGraph.
  - unfold graph_line_links.
    repeat (apply Weight_UpdateLatency_nonneg; [lia|]).
    apply Weight_NewGraph_nonneg.
Qed.

(** ** path.FloydWarshall: the old weights *)

Lemma OldWeight_SetOldWeight_other (g : IG) (u v a b : Vertex) (w : Q) :
  ¬ (a = u ∧ b = v) →
  OldWeight (SetOldWeight g u v w) a b = OldWeight g a b.
Proof.
  intros H. rewrite !OldWeight_lookup2, lookup2_SetOldWeight.
  destruct (decide (a = b)); [reflexivity|].
  destruct (decide (a = u ∧ b = v)); [contradiction|reflexivity].
Qed.

Lemma OldWeight_SetOldWeight_Weight (g : IG) (now : Time) (u v : Vertex) :
  OldWeight (SetOldWeight g u v (Weight g now u v)) u v = Weight g now u v.
Proof.
  rewrite OldWeight_lookup2, lookup2_SetOldWeight.
  destruct (decide (u = v)) as [->|Huv].
  - now rewrite Weight_diag.
  - destruct (decide (u = u ∧ v = v)) as [_|H]; [|exfalso; auto].
    destruct (lookup2 (edges g) u v) as [l|] eqn:E; simpl; [reflexivity|].
    now rewrite Weight_lookup2, E, decide_False.
Qed.

Lemma fw_init_edge_graph (now : Time) (u : Vertex) (st : fw_state) (v : Vertex) :
  (fw_init_edge now u st v).2 = SetOldWeight st.2 u v (Weight st.2 now u v).
Proof.
  destruct st as [[d n] g]. unfold fw_init_edge. simpl.
  now destruct (Qltb (Weight g now u v) Infinity).
Qed.

Lemma fw_init_edges_old (now : Time) (g : IG) (u : Vertex) (l : list Vertex) :
  ∀ st : fw_state,
    same_view now g st.2 →
    same_view now g (foldl (fw_init_edge now u) st l).2
    ∧ (∀ b, b ∈ l →
            OldWeight (foldl (fw_init_edge now u) st l).2 u b
            = Weight g now u b)
    ∧ (∀ a b, ¬ (a = u ∧ b ∈ l) →
              OldWeight (foldl (fw_init_edge now u) st l).2 a b
              = OldWeight st.2 a b).
Proof.
  induction l as [|x l IH]; intros st Hv; simpl.
  - split; [exact Hv|]. split; [intros b Hb; inversion Hb|reflexivity].
  - assert (same_view now g (fw_init_edge now u st x).2) as Hv'.
    { rewrite fw_init_edge_graph. now apply same_view_SetOldWeight. }
    destruct (IH _ Hv') as (Hv2 & Hin & Hout). split; [exact Hv2|]. split.
    + intros b Hb. destruct (decide (b ∈ l)) as [Hbl|Hbl]; [now apply Hin|].
      apply elem_of_cons in Hb as [->|?]; [|contradiction].
      rewrite Hout by (intros [_ ?]; contradiction).
      rewrite fw_init_edge_graph, OldWeight_SetOldWeight_Weight.
      apply Hv.
    + intros a b Hab. rewrite Hout.
      * rewrite fw_init_edge_graph. apply OldWeight_SetOldWeight_other.
        intros [-> ->]. apply Hab. split; [reflexivity|left].
      * intros [-> Hb]. apply Hab. split; [reflexivity|now right].
Qed.

Lemma fw_init_row_graph (now : Time) (vs : list Vertex) (st : fw_state)
    (u : Vertex) :
  ∃ st' : fw_state,
    (fw_init_row now vs st u).2
    = (foldl (fw_init_edge now u) st' (Neighbors st.2 u)).2
    ∧ st'.2 = st.2.
Proof.
  destruct st as [[d n] g]. unfold fw_init_row. simpl.
  eexists (_, _, g). split; reflexivity.
Qed.

Lemma fw_init_row_old (now : Time) (vs : list Vertex) (g : IG) (st : fw_state)
    (u : Vertex) :
  same_view now g st.2 →
  same_view now g (fw_init_row now vs st u).2
  ∧ (∀ b, OldWeight (fw_init_row now vs st u).2 u b = Weight g now u b)
  ∧ (∀ a b, a ≠ u →
            OldWeight (fw_init_row now vs st u).2 a b = OldWeight st.2 a b).
Proof.
  intros Hv. destruct (fw_init_row_graph now vs st u) as (st' & -> & E).
  destruct (fw_init_edges_old now g u (Neighbors st.2 u) st') as (Hv2 & Hin & Hout).
  { now rewrite E. }
  split; [exact Hv2|]. split.
  - intros b. destruct (decide (b ∈ Neighbors st.2 u)) as [Hb|Hb];
      [now apply Hin|].
    rewrite Hout by (intros [_ ?]; contradiction). rewrite E.
    destruct Hv as [HW HE]. rewrite <- HW.
    rewrite OldWeight_lookup2, Weight_lookup2.
    destruct (decide (u = b)); [reflexivity|].
    rewrite Neighbors_lookup2 in Hb.
    destruct (lookup2 (edges st.2) u b); [|reflexivity].
    exfalso. apply Hb. eauto.
  - intros a b Ha. rewrite Hout by (intros [? _]; contradiction).
    now rewrite E.
Qed.

Lemma fw_init_rows_old (now : Time) (vs : list Vertex) (g : IG)
    (us : list Vertex) :
  same_view now g (foldl (fw_init_row now vs) (∅, ∅, g) us).2
  ∧ (∀ a b, a ∈ us →
            OldWeight (foldl (fw_init_row now vs) (∅, ∅, g) us).2 a b
            = Weight g now a b)
  ∧ (∀ a b, a ∉ us →
            OldWeight (foldl (fw_init_row now vs) (∅, ∅, g) us).2 a b
            = OldWeight g a b).
Proof.
  induction us as [|x us IH] using rev_ind.
  - simpl. split; [apply same_view_refl|].
    split; [intros a b Ha; inversion Ha|reflexivity].
  - destruct IH as (Hv & Hin & Hout). rewrite foldl_snoc.
    destruct (fw_init_row_old now vs g _ x Hv) as (Hv' & Hrow & Hother).
    split; [exact Hv'|]. split.
    + intros a b Ha. destruct (decide (a = x)) as [->|Hax]; [apply Hrow|].
      rewrite Hother by exact Hax. apply Hin.
      apply elem_of_app in Ha as [Ha|Ha]; [exact Ha|].
      apply list_elem_of_singleton in Ha. contradiction.
    + intros a b Ha. apply not_elem_of_app in Ha as [Ha Hax].
      rewrite list_elem_of_singleton in Hax.
      rewrite Hother by exact Hax. now apply Hout.
Qed.

(** A run leaves in [ping_old] the weight it has read, for every edge that
    leaves a vertex of [vs]. *)
Lemma fw_run_old (g : IG) (now : Time) (vs : list Vertex) (d : DistTable)
    (n : NextHopTable) (g' : IG) :
  fw_run g now vs = (d, n, g') →
  same_view now g g'
  ∧ (∀ a b, a ∈ vs → OldWeight g' a b = Weight g now a b)
  ∧ (∀ a b, a ∉ vs → OldWeight g' a b = OldWeight g a b).
Proof.
  unfold fw_run, fw_init. intros H.
  pose proof (fw_init_rows_old now vs g vs) as Hold.
  destruct (foldl (fw_init_row now vs) (∅, ∅, g) vs) as [[d0 n0] g0].
  destruct (fw_loop vs (d0, n0)). inversion H; subst. exact Hold.
Qed.

Lemma no_edge_weights (g : IG) (now : Time) (a b : Vertex) :
  lookup2 (edges g) a b = None → OldWeight g a b = Weight g now a b.
Proof.
  intros E. rewrite OldWeight_lookup2, Weight_lookup2, E. reflexivity.
Qed.

Lemma fw_run_old_all (g : IG) (now : Time) (vs : list Vertex) (d : DistTable)
    (n : NextHopTable) (g' : IG) :
  is_range_order vs (Vert g) → graph_wf g →
  fw_run g now vs = (d, n, g') →
  ∀ a b, OldWeight g' a b = Weight g' now a b.
Proof.
  intros [_ Hvs] Hwf Hrun a b.
  destruct (fw_run_old g now vs d n g' Hrun) as ([HW HE] & Hin & Hout).
  rewrite HW. destruct (decide (a ∈ vs)) as [Ha|Ha]; [now apply Hin|].
  rewrite Hout by exact Ha. apply no_edge_weights.
  destruct (lookup2 (edges g) a b) as [l|] eqn:E; [|reflexivity].
  exfalso. apply Ha, Hvs. apply (Hwf a b). rewrite E. eauto.
Qed.

Lemma FloydWarshall_records_weights_aux (again : bool) (g : IG) (now : Time)
    (vs vr va : list Vertex) (dist : DistTable) (next : NextHopTable)
    (err : option string) (g' : IG) :
  is_range_order vs (Vert g) → is_range_order va (Vert g) → graph_wf g →
  FloydWarshall again g now vs vr va = (dist, next, err, g') →
  ∀ a b, OldWeight g' a b = Weight g' now a b.
Proof.
  intros Hvs Hva Hwf. unfold FloydWarshall, FloydWarshall_again.
  destruct (fw_run g now vs) as [[d1 n1] g1] eqn:Hrun.
  pose proof (fw_run_old_all g now vs d1 n1 g1 Hvs Hwf Hrun) as H1.
  destruct again.
  - destruct (negative_cycle d1); intros H; inversion H; subst; exact H1.
  - destruct (negative_cycle d1); [|intros H; inversion H; subst; exact H1].
    pose proof (fw_run_Vert g now vs d1 n1 g1 Hrun) as HV1.
    destruct (fw_run_same_view g now now vs d1 n1 g1 Hrun) as [_ HE1].
    pose proof (graph_wf_transfer g g1 Hwf HV1 HE1) as Hwf1.
    destruct (RemoveAllNegativeValue_frame g1 now vr) as [HV2 HE2].
    pose proof (graph_wf_transfer g1 _ Hwf1 HV2 HE2) as Hwf2.
    destruct (fw_run (RemoveAllNegativeValue g1 now vr) now va)
      as [[d2 n2] g2] eqn:Hrun2.
    assert (∀ a b, OldWeight g2 a b = Weight g2 now a b) as H2.
    { apply (fw_run_old_all (RemoveAllNegativeValue g1 now vr) now va d2 n2
               g2); [|exact Hwf2|exact Hrun2].
      now rewrite HV2, HV1. }
    destruct (negative_cycle d2); intros H; inversion H; subst; exact H2.
Qed.

(** After a call of [FloydWarshall], whatever it returns, the old weight of
    every pair is the weight of the pair at the instant of the call. *)
Theorem FloydWarshall_records_weights (again : bool) (g : IG) (now : Time)
    (vs vr va : list Vertex) (dist : DistTable) (next : NextHopTable)
    (err : option string) (g' : IG) :
  is_range_order vs (Vert g) → is_range_order va (Vert g) → graph_wf g →
  FloydWarshall again g now vs vr va = (dist, next, err, g') →
  ∀ a b, OldWeight g' a b = Weight g' now a b.
Proof. apply FloydWarshall_records_weights_aux. Qed.

(** ** The jitter policy on an unchanged weight *)

Lemma Qeq_bool_refl (x : Q) : Qeq_bool x x = true.
Proof. apply Qeq_bool_iff. reflexivity. Qed.

Lemma ShouldUpdate_unchanged (math_Pow : Q → Q → Q) (g : IG) (u v : Vertex)
    (w : Q) :
  OldWeight g u v = w →
  ShouldUpdate math_Pow g u v w = IsSuperMode g && negb (tolerant g).
Proof.
  intros <-. unfold ShouldUpdate, tolerant.
  destruct (IsSuperMode g); cbn [andb negb].
  - destruct (Qltb (1 # 1000) (JitterTolerance g)) eqn:Et; cbn [andb negb];
      [|apply Qeq_bool_refl].
    destruct (Qle_bool 1 (JitterToleranceMultiplier g)) eqn:Er;
      cbn [andb negb]; [|apply Qeq_bool_refl].
    apply Qltb_ge. apply Qltb_lt in Et. apply Qle_bool_iff in Er.
    set (x := Qabs (OldWeight g u v * 1000)).
    assert (0 <= x) as Hx by apply Qabs_nonneg.
    assert (Qmax x x == x) as E1 by apply Q.max_id.
    assert (Qabs (x - x) == 0) as E2.
    { transitivity (Qabs 0); [apply Qabs_wd; lra|reflexivity]. }
    rewrite E1, E2. nra.
  - now rewrite Qeq_bool_refl.
Qed.

Lemma existsb_false_all {A : Type} (f : A → bool) (l : list A) :
  (∀ x, f x = false) → existsb f l = false.
Proof. intros H. induction l; simpl; [reflexivity|]. now rewrite H. Qed.

Lemma ShouldCalculate_settled (math_Pow : Q → Q → Q) (g : IG) (now : Time)
    (vc : list Vertex) :
  (∀ a b, OldWeight g a b = Weight g now a b) →
  IsSuperMode g && negb (tolerant g) = false →
  ShouldCalculate math_Pow g now vc = false
  ∧ CheckAnyShouldUpdate math_Pow g now vc = false.
Proof.
  intros Hold Hmode. split.
  - apply existsb_false_all. intros u. apply existsb_false_all. intros v.
    rewrite (ShouldUpdate_unchanged math_Pow g u v _ (Hold u v)), Hmode.
    apply andb_false_r.
  - apply existsb_false_all. intros u. apply existsb_false_all. intros v.
    now rewrite (ShouldUpdate_unchanged math_Pow g u v _ (Hold u v)).
Qed.

(** ** What the computation leaves of the graph *)

Lemma set_edges_id (g : IG) : set_edges g (edges g) = g.
Proof. now destruct g. Qed.

Lemma SetOldWeight_set_edges (g : IG) (u v : Vertex) (w : Q) :
  ∃ e, SetOldWeight g u v w = set_edges g e.
Proof.
  unfold SetOldWeight. destruct (edges g !! u) as [row|];
    [|exists (edges g); now rewrite set_edges_id].
  destruct (row !! v); [eauto|exists (edges g); now rewrite set_edges_id].
Qed.

Lemma SetWeight_set_edges (g : IG) (u v : Vertex) (w : Q) :
  ∃ e, SetWeight g u v w = set_edges g e.
Proof.
  unfold SetWeight. destruct (edges g !! u) as [row|];
    [|exists (edges g); now rewrite set_edges_id].
  destruct (row !! v); [eauto|exists (edges g); now rewrite set_edges_id].
Qed.

Lemma fw_run_set_edges (g : IG) (now : Time) (vs : list Vertex)
    (d : DistTable) (n : NextHopTable) (g' : IG) :
  fw_run g now vs = (d, n, g') → ∃ e, g' = set_edges g e.
Proof.
  unfold fw_run, fw_init. intros H.
  assert (∃ e, (foldl (fw_init_row now vs) (∅, ∅, g) vs).2 = set_edges g e)
    as Hv.
  { apply (foldl_invariant (fun st : fw_state => ∃ e, st.2 = set_edges g e)).
    - exists (edges g). simpl. now rewrite set_edges_id.
    - intros st u _ H1. destruct (fw_init_row_graph now vs st u) as (st' & -> & E).
      apply (foldl_invariant (fun st : fw_state => ∃ e, st.2 = set_edges g e)).
      + now rewrite E.
      + intros st2 v _ [e He]. rewrite fw_init_edge_graph.
        destruct (SetOldWeight_set_edges st2.2 u v (Weight st2.2 now u v))
          as [e' ->].
        rewrite He. now exists e'. }
  destruct (foldl (fw_init_row now vs) (∅, ∅, g) vs) as [[d0 n0] g0].
  destruct (fw_loop vs (d0, n0)). inversion H; subst. exact Hv.
Qed.

Lemma RemoveAllNegativeValue_set_edges (g : IG) (now : Time)
    (vs : list Vertex) :
  ∃ e, RemoveAllNegativeValue g now vs = set_edges g e.
Proof.
  unfold RemoveAllNegativeValue.
  apply (foldl_invariant (fun g' => ∃ e, g' = set_edges g e)).
  - exists (edges g). now rewrite set_edges_id.
  - intros g1 u _ H1.
    apply (foldl_invariant (fun g' => ∃ e, g' = set_edges g e)); [exact H1|].
    intros g2 v _ [e ->]. destruct (Qltb _ 0); [|eauto].
    destruct (SetWeight_set_edges (set_edges g e) u v 0) as [e' ->].
    now exists e'.
Qed.

Lemma FloydWarshall_set_edges (again : bool) (g : IG) (now : Time)
    (vs vr va : list Vertex) (dist : DistTable) (next : NextHopTable)
    (err : option string) (g' : IG) :
  FloydWarshall again g now vs vr va = (dist, next, err, g') →
  ∃ e, g' = set_edges g e.
Proof.
  unfold FloydWarshall, FloydWarshall_again.
  destruct (fw_run g now vs) as [[d1 n1] g1] eqn:Hrun.
  destruct (fw_run_set_edges g now vs d1 n1 g1 Hrun) as [e1 E1].
  destruct again.
  - destruct (negative_cycle d1); intros H; inversion H; subst; eauto.
  - destruct (negative_cycle d1); [|intros H; inversion H; subst; eauto].
    destruct (RemoveAllNegativeValue_set_edges g1 now vr) as [e2 E2].
    destruct (fw_run (RemoveAllNegativeValue g1 now vr) now va)
      as [[d2 n2] g2] eqn:Hrun2.
    destruct (fw_run_set_edges _ now va d2 n2 g2 Hrun2) as [e3 E3].
    rewrite E2, E1 in E3.
    destruct (negative_cycle d2); intros H; inversion H; subst; eauto.
Qed.

Lemma Weight_set_tables (g : IG) (d : DistTable) (n : NextHopTable) (t : Time)
    (now : Time) (a b : Vertex) :
  Weight (set_tables g d n t) now a b = Weight g now a b.
Proof. reflexivity. Qed.

Lemma OldWeight_set_tables (g : IG) (d : DistTable) (n : NextHopTable)
    (t : Time) (a b : Vertex) :
  OldWeight (set_tables g d n t) a b = OldWeight g a b.
Proof. reflexivity. Qed.

Lemma tolerant_mode (g : IG) :
  IsSuperMode g = false
  ∨ (1 # 1000 < JitterTolerance g ∧ 1 <= JitterToleranceMultiplier g) →
  IsSuperMode g && negb (tolerant g) = false.
Proof.
  intros [->|[Ht Hr]]; [reflexivity|]. unfold tolerant.
  apply Qltb_lt in Ht. apply Qle_bool_iff in Hr. rewrite Ht, Hr.
  apply andb_false_r.
Qed.

(** ** path.RecalculateNhTable and path.GetNHTable *)

(** A recalculation settles the graph.  Once [RecalculateNhTable] has run
    the shortest-path computation at instant [now], a later call at an
    instant [now'] at which every weight is what it was at [now] changes
    nothing: on an edge node, or on a supernode with a jitter tolerance, no
    pair asks for a recalculation any more. *)
Theorem RecalculateNhTable_settles (math_Pow : Q → Q → Q) (g : IG)
    (now now' : Time) (vc vs vr va vc' vs' vr' va' : list Vertex) :
  is_range_order vs (Vert g) → is_range_order va (Vert g) → graph_wf g →
  StaticMode g = false →
  ShouldCalculate math_Pow g now vc = true →
  (recalculateTime g + RecalculateCoolDown g < now)%Z →
  IsSuperMode g = false
  ∨ (1 # 1000 < JitterTolerance g ∧ 1 <= JitterToleranceMultiplier g) →
  let g1 := RecalculateNhTable math_Pow g now vc vs vr va in
  (∀ a b, Weight g1 now' a b = Weight g1 now a b) →
  recalculateTime g1 = now
  ∧ ShouldCalculate math_Pow g1 now' vc' = false
  ∧ RecalculateNhTable math_Pow g1 now' vc' vs' vr' va' = g1.
Proof.
  intros Hvs Hva Hwf Hstatic Hcalc Hcool Hmode g1.
  assert (∃ dist next err g',
            FloydWarshall false g now vs vr va = (dist, next, err, g')
            ∧ g1 = set_tables g' dist next now) as (dist & next & err & g' & HFW & E).
  { unfold g1, RecalculateNhTable. rewrite Hstatic, Hcalc. cbn [negb].
    apply Z.ltb_lt in Hcool. rewrite Hcool.
    destruct (FloydWarshall false g now vs vr va) as [[[dist next] err] g'].
    now exists dist, next, err, g'. }
  pose proof (FloydWarshall_records_weights_aux false g now vs vr va dist next err
                g' Hvs Hva Hwf HFW) as Hold.
  destruct (FloydWarshall_set_edges false g now vs vr va dist next err g' HFW)
    as [e Eg'].
  intros Hsame.
  assert (g1 = set_tables (set_edges g e) dist next now) as E1
    by now rewrite E, Eg'.
  assert (ShouldCalculate math_Pow g1 now' vc' = false) as Hsettled.
  { apply ShouldCalculate_settled.
    - intros a b. rewrite Hsame, E, Weight_set_tables, OldWeight_set_tables.
      apply Hold.
    - rewrite E1. apply (tolerant_mode g Hmode). }
  split; [now rewrite E|]. split; [exact Hsettled|].
  unfold RecalculateNhTable at 1. rewrite Hsettled.
  now destruct (StaticMode g1).
Qed.

(** The table installed by [SetNHTable] is served as it is until it
    expires: up to [SuperNodeInfoTimeout] after the installation (and, in
    static mode or without [recalculate], at any time) [GetNHTable] returns
    it and leaves the graph alone. *)
Theorem GetNHTable_SetNHTable (math_Pow : Q → Q → Q) (recalculate : bool)
    (g : IG) (t0 now : Time) (nh : NextHopTable) (table_hash : list byte)
    (vc vs vr va : list Vertex) :
  (now <= t0 + SuperNodeInfoTimeout g)%Z ∨ recalculate = false
  ∨ StaticMode g = true →
  GetNHTable math_Pow recalculate (SetNHTable g t0 nh table_hash) now vc vs vr
    va
  = (nh, SetNHTable g t0 nh table_hash).
Proof.
  intros H. unfold GetNHTable.
  destruct (recalculate
            && (NhTableExpire (SetNHTable g t0 nh table_hash) <? now)%Z) eqn:E;
    [|reflexivity].
  apply andb_true_iff in E as [-> E]. simpl in E. apply Z.ltb_lt in E.
  destruct H as [H|[H|H]]; [lia|discriminate|].
  unfold RecalculateNhTable. simpl. now rewrite H.
Qed.

(** ** path.ShouldUpdate and path.CheckAnyShouldUpdate without a tolerance *)

(** On a supernode whose jitter tolerance is not above 0.001, or whose
    multiplier is below 1, [ShouldUpdate] holds exactly when the new
    measurement equals the old weight in absolute value; the diagonal
    always does, so [CheckAnyShouldUpdate] holds of every graph that has a
    vertex. *)
Theorem CheckAnyShouldUpdate_supernode_no_tolerance (math_Pow : Q → Q → Q)
    (g : IG) (now : Time) (vs : list Vertex) :
  IsSuperMode g = true →
  ¬ (1 # 1000 < JitterTolerance g ∧ 1 <= JitterToleranceMultiplier g) →
  (∀ u v w, ShouldUpdate math_Pow g u v w = true
            ↔ Qabs (w * 1000) == Qabs (OldWeight g u v * 1000))
  ∧ (CheckAnyShouldUpdate math_Pow g now vs = true ↔ vs ≠ []).
Proof.
  intros Hsuper Hno.
  assert (Qltb (1 # 1000) (JitterTolerance g)
          && Qle_bool 1 (JitterToleranceMultiplier g) = false) as Hcond.
  { apply not_true_is_false. intros H. apply andb_true_iff in H as [Ht Hr].
    apply Hno. split; [now apply Qltb_lt|now apply Qle_bool_iff]. }
  assert (∀ u v w, ShouldUpdate math_Pow g u v w
                   = Qeq_bool (Qabs (OldWeight g u v * 1000)) (Qabs (w * 1000)))
    as HSU.
  { intros u v w. unfold ShouldUpdate. now rewrite Hsuper, Hcond. }
  split.
  - intros u v w. rewrite HSU, Qeq_bool_iff. split; intros H; now symmetry.
  - split.
    + intros H Hnil. subst vs. discriminate.
    + intros Hne. destruct vs as [|u vs']; [contradiction|].
      unfold CheckAnyShouldUpdate. apply existsb_exists. exists u.
      split; [left; reflexivity|]. apply existsb_exists. exists u.
      split; [left; reflexivity|].
      rewrite HSU, Weight_diag. unfold OldWeight.
      rewrite decide_True by reflexivity. reflexivity.
Qed.

(** ** path.RemoveVirt *)

Lemma lookup2_remove_vertex (g : IG) (v a b : Vertex) :
  lookup2 (edges (remove_vertex g v)) a b
  = if decide (a = v ∨ b = v) then None else lookup2 (edges g) a b.
Proof.
  unfold lookup2. simpl. rewrite lookup_fmap.
  destruct (decide (a = v)) as [->|Ha].
  - rewrite lookup_delete_eq. simpl. now rewrite decide_True by now left.
  - rewrite lookup_delete_ne by congruence.
    destruct (edges g !! a) as [row|]; simpl.
    + destruct (decide (b = v)) as [->|Hb].
      * rewrite lookup_delete_eq. now rewrite decide_True by now right.
      * rewrite lookup_delete_ne by congruence.
        now rewrite decide_False by tauto.
    + now destruct (decide _).
Qed.

Lemma Weight_remove_vertex (g : IG) (now : Time) (v a b : Vertex) :
  Weight (remove_vertex g v) now a b
  = if decide (a ≠ b ∧ (a = v ∨ b = v)) then Infinity else Weight g now a b.
Proof.
  rewrite !Weight_lookup2, lookup2_remove_vertex.
  destruct (decide (a = b)) as [->|Hab].
  - now rewrite decide_False by tauto.
  - destruct (decide (a = v ∨ b = v)) as [H|H].
    + now rewrite decide_True by tauto.
    + now rewrite decide_False by tauto.
Qed.

Lemma OldWeight_remove_vertex (g : IG) (v a b : Vertex) :
  OldWeight (remove_vertex g v) a b
  = if decide (a ≠ b ∧ (a = v ∨ b = v)) then Infinity else OldWeight g a b.
Proof.
  rewrite !OldWeight_lookup2, lookup2_remove_vertex.
  destruct (decide (a = b)) as [->|Hab].
  - now rewrite decide_False by tauto.
  - destruct (decide (a = v ∨ b = v)) as [H|H].
    + now rewrite decide_True by tauto.
    + now rewrite decide_False by tauto.
Qed.

Lemma graph_wf_remove_vertex (g : IG) (v : Vertex) :
  graph_wf g → graph_wf (remove_vertex g v).
Proof.
  intros Hwf a b. rewrite lookup2_remove_vertex.
  destruct (decide (a = v ∨ b = v)) as [H|H]; [intros [? ?]; discriminate|].
  intros Hab. destruct (Hwf a b Hab) as [Ha Hb]. simpl.
  rewrite !lookup_delete_ne by (intros ->; tauto). auto.
Qed.

Lemma RemoveVirt_unfold (math_Pow : Q → Q → Q) (g : IG) (v : Vertex)
    (recalculate : bool) (now : Time) (vc vs vr va : list Vertex) :
  RemoveVirt math_Pow g v recalculate now vc vs vr va
  = if recalculate
    then RecalculateNhTable math_Pow (remove_vertex g v) now vc vs vr va
    else remove_vertex g v.
Proof. reflexivity. Qed.

(** Removing a vertex does not by itself bring the routes up to date.  On
    a settled graph (every old weight is the current weight, as after a
    shortest-path computation) of an edge node, or of a supernode with a
    jitter tolerance, [RemoveVirt(v, true, false)] deletes the vertex and
    its edges but finds nothing to recalculate: the next-hop and distance
    tables stay as they were, entries that name [v] included. *)
Theorem RemoveVirt_keeps_tables (math_Pow : Q → Q → Q) (g : IG) (v : Vertex)
    (now : Time) (vc vs vr va : list Vertex) :
  (∀ a b, OldWeight g a b = Weight g now a b) →
  IsSuperMode g = false
  ∨ (1 # 1000 < JitterTolerance g ∧ 1 <= JitterToleranceMultiplier g) →
  let g' := RemoveVirt math_Pow g v true now vc vs vr va in
  Vert g' = delete v (Vert g)
  ∧ (∀ a b, a = v ∨ b = v → lookup2 (edges g') a b = None)
  ∧ nhTable g' = nhTable g ∧ dlTable g' = dlTable g.
Proof.
  intros Hold Hmode g'.
  assert (g' = remove_vertex g v) as ->.
  { unfold g'. rewrite RemoveVirt_unfold. unfold RecalculateNhTable.
    destruct (StaticMode (remove_vertex g v)); [reflexivity|].
    destruct (ShouldCalculate_settled math_Pow (remove_vertex g v) now vc)
      as [-> _]; [|apply (tolerant_mode g Hmode)|reflexivity].
    intros a b. rewrite Weight_remove_vertex, OldWeight_remove_vertex.
    destruct (decide _); [reflexivity|apply Hold]. }
  split; [reflexivity|]. split; [|split; reflexivity].
  intros a b Hab. rewrite lookup2_remove_vertex. now rewrite decide_True.
Qed.

(** Once the routes are computed again they avoid the removed vertex.  On
    a graph none of whose weights is negative, the tables that
    [FloydWarshall] computes after [RemoveVirt(v, false, false)] hold no
    next hop towards [v] or from [v], and no path read off them passes
    through [v]. *)
Theorem RemoveVirt_routes_avoid (math_Pow : Q → Q → Q) (again : bool) (g : IG)
    (v : Vertex) (now : Time) (vc vs' vr' va' vs vr va : list Vertex) :
  graph_wf g → (∀ a b, 0 <= Weight g now a b) →
  let g1 := RemoveVirt math_Pow g v false now vc vs' vr' va' in
  is_range_order vs (Vert g1) →
  ∃ dist next g',
    FloydWarshall again g1 now vs vr va = (dist, next, None, g')
    ∧ (∀ u, next_at next u v = None ∧ next_at next v u = None)
    ∧ ∀ a b p, Path (length vs - 1) a b next = Returns p → v ∉ p.
Proof.
  intros Hwf Hnn g1 Hvs.
  assert (g1 = remove_vertex g v) as E by reflexivity.
  assert (v ∉ vs) as Hv.
  { intros Hin. apply Hvs in Hin. rewrite E in Hin. simpl in Hin.
    rewrite lookup_delete_eq in Hin. now destruct Hin. }
  assert (graph_wf g1) as Hwf1 by (rewrite E; now apply graph_wf_remove_vertex).
  assert (∀ a b, 0 <= Weight g1 now a b) as Hnn1.
  { intros a b. rewrite E, Weight_remove_vertex.
    destruct (decide _); [unfold Infinity; lra|apply Hnn]. }
  destruct (fw_run_nonneg_routes g1 now vs Hvs Hwf1 Hnn1)
    as (dist & next & g' & Hrun & Hneg & Hinv & Hout & Hnone & Hroutes).
  exists dist, next, g'.
  split; [now apply FloydWarshall_of_run|].
  assert (∀ a b, a = v ∨ b = v → next_at next a b = None) as Hnil.
  { intros a b Hab. destruct (next_at next a b) as [m|] eqn:EN; [|reflexivity].
    exfalso. destruct (Hroutes a b) as (Ha & Hb & _); [congruence|].
    destruct Hab as [->| ->]; contradiction. }
  split.
  - intros u. split; apply Hnil; auto.
  - intros a b p HP Hin. unfold Path in HP.
    destruct (next_at next a b) as [m|] eqn:EN.
    + destruct (Hroutes a b) as (Ha & Hb & p' & Hp' & HP'); [congruence|].
      unfold Path in HP'. rewrite EN in HP'. rewrite HP in HP'.
      injection HP' as ->.
      assert (∀ y, y ∈ p' → y ∈ vs) as Hall.
      { clear -Hp' Hinv Ha Hb. induction Hp' as [|x m' p' Hxb HN Hp' IH].
        - intros y Hy. now apply list_elem_of_singleton in Hy as ->.
        - intros y Hy. apply elem_of_cons in Hy as [->|Hy]; [exact Ha|].
          apply IH; [|exact Hy].
          now destruct (inv_some _ _ _ _ _ Hinv x b m' Ha Hb Hxb HN)
            as (_ & ? & _). }
      apply Hv, Hall, Hin.
    + injection HP as <-. inversion Hin.
Qed.

Lemma FloydWarshall_records_weights_witness :
  OldWeight
    (FloydWarshall false graph_line_links 0%Z [1%N; 2%N; 3%N]
       [1%N; 2%N; 3%N] [1%N; 2%N; 3%N]).2 1%N 2%N
  = Weight
      (FloydWarshall false graph_line_links 0%Z [1%N; 2%N; 3%N]
         [1%N; 2%N; 3%N] [1%N; 2%N; 3%N]).2 0%Z 1%N 2%N.
Proof.
  apply (FloydWarshall_records_weights false graph_line_links 0%Z
           [1%N; 2%N; 3%N] [1%N; 2%N; 3%N] [1%N; 2%N; 3%N]
           (FloydWarshall false graph_line_links 0%Z [1%N; 2%N; 3%N]
              [1%N; 2%N; 3%N] [1%N; 2%N; 3%N]).1.1.1
           (FloydWarshall false graph_line_links 0%Z [1%N; 2%N; 3%N]
              [1%N; 2%N; 3%N] [1%N; 2%N; 3%N]).1.1.2
           (FloydWarshall false graph_line_links 0%Z [1%N; 2%N; 3%N]
              [1%N; 2%N; 3%N] [1%N; 2%N; 3%N]).1.2).
  - apply graph_line_links_ok.
  - apply graph_line_links_ok.
  - apply graph_line_links_ok.
  - now destruct (FloydWarshall false graph_line_links 0%Z [1%N; 2%N; 3%N]
                    [1%N; 2%N; 3%N] [1%N; 2%N; 3%N]) as [[[? ?] ?] ?].
Defined.

Lemma RecalculateNhTable_settles_witness :
  recalculateTime
    (RecalculateNhTable pow_exponent_one graph_edge_fresh 0%Z [1%N; 2%N]
       [1%N; 2%N] [1%N; 2%N] [1%N; 2%N]) = 0%Z
  ∧ ShouldCalculate pow_exponent_one
      (RecalculateNhTable pow_exponent_one graph_edge_fresh 0%Z [1%N; 2%N]
         [1%N; 2%N] [1%N; 2%N] [1%N; 2%N]) 0%Z [1%N; 2%N] = false
  ∧ RecalculateNhTable pow_exponent_one
      (RecalculateNhTable pow_exponent_one graph_edge_fresh 0%Z [1%N; 2%N]
         [1%N; 2%N] [1%N; 2%N] [1%N; 2%N]) 0%Z [1%N; 2%N] [1%N; 2%N]
      [1%N; 2%N] [1%N; 2%N]
    = RecalculateNhTable pow_exponent_one graph_edge_fresh 0%Z [1%N; 2%N]
        [1%N; 2%N] [1%N; 2%N] [1%N; 2%N].
Proof.
  apply (RecalculateNhTable_settles pow_exponent_one graph_edge_fresh 0%Z 0%Z
           [1%N; 2%N] [1%N; 2%N] [1%N; 2%N] [1%N; 2%N]
           [1%N; 2%N] [1%N; 2%N] [1%N; 2%N] [1%N; 2%N]).
  - apply is_range_order_dom.
    + refine (bool_decide_unpack _ _). vm_compute. exact I.
    + vm_compute. reflexivity.
  - apply is_range_order_dom.
    + refine (bool_decide_unpack _ _). vm_compute. exact I.
    + vm_compute. reflexivity.
  - unfold graph_edge_fresh. apply graph_wf_UpdateLatency, graph_wf_NewGraph.
  - reflexivity.
  - vm_compute. reflexivity.
  - vm_compute. reflexivity.
  - left. reflexivity.
  - reflexivity.
Defined.

Lemma GetNHTable_SetNHTable_witness :
  GetNHTable pow_exponent_one true
    (SetNHTable graph_line_links 0%Z NhTable_example (repeat x00 32)) 0%Z
    [1%N; 2%N; 3%N] [1%N; 2%N; 3%N] [1%N; 2%N; 3%N] [1%N; 2%N; 3%N]
  = (NhTable_example,
     SetNHTable graph_line_links 0%Z NhTable_example (repeat x00 32)).
Proof.
  apply (GetNHTable_SetNHTable pow_exponent_one true graph_line_links 0%Z 0%Z).
  left. vm_compute. discriminate.
Defined.

Lemma CheckAnyShouldUpdate_supernode_no_tolerance_witness :
  (∀ u v w,
     ShouldUpdate pow_exponent_one
       (NewGraph true (mkGraphRecalculateSetting false 0 1 70 5)) u v w = true
     ↔ Qabs (w * 1000)
       == Qabs (OldWeight
                  (NewGraph true (mkGraphRecalculateSetting false 0 1 70 5))
                  u v * 1000))
  ∧ (CheckAnyShouldUpdate pow_exponent_one
       (NewGraph true (mkGraphRecalculateSetting false 0 1 70 5)) 0%Z [1%N]
     = true ↔ [1%N] ≠ []).
Proof.
  apply (CheckAnyShouldUpdate_supernode_no_tolerance pow_exponent_one
           (NewGraph true (mkGraphRecalculateSetting false 0 1 70 5)) 0%Z
           [1%N]).
  - reflexivity.
  - simpl. intros [H _]. revert H. unfold Qlt. simpl. lia.
Defined.

Lemma graph_line_settled :
  ∀ a b, OldWeight graph_line a b = Weight graph_line 0%Z a b.
Proof.
  unfold graph_line.
  destruct (FloydWarshall false graph_line_links 0%Z [1%N; 2%N; 3%N]
              [1%N; 2%N; 3%N] [1%N; 2%N; 3%N]) as [[[d n] e] g'] eqn:H.
  intros a b. change (OldWeight g' a b = Weight g' 0%Z a b).
  exact (FloydWarshall_records_weights_aux false graph_line_links 0%Z
           [1%N; 2%N; 3%N] [1%N; 2%N; 3%N] [1%N; 2%N; 3%N] d n e g'
           (proj1 graph_line_links_ok) (proj1 graph_line_links_ok)
           (proj1 (proj2 graph_line_links_ok)) H a b).
Qed.

Lemma RemoveVirt_keeps_tables_witness :
  Vert (RemoveVirt pow_exponent_one graph_line 2%N true 0%Z [1%N; 3%N]
          [1%N; 3%N] [1%N; 3%N] [1%N; 3%N])
  = delete 2%N (Vert graph_line)
  ∧ (∀ a b, a = 2%N ∨ b = 2%N →
            lookup2 (edges (RemoveVirt pow_exponent_one graph_line 2%N true 0%Z
                              [1%N; 3%N] [1%N; 3%N] [1%N; 3%N] [1%N; 3%N]))
              a b = None)
  ∧ nhTable (RemoveVirt pow_exponent_one graph_line 2%N true 0%Z [1%N; 3%N]
               [1%N; 3%N] [1%N; 3%N] [1%N; 3%N])
    = nhTable graph_line
  ∧ dlTable (RemoveVirt pow_exponent_one graph_line 2%N true 0%Z [1%N; 3%N]
               [1%N; 3%N] [1%N; 3%N] [1%N; 3%N])
    = dlTable graph_line.
Proof.
  apply (RemoveVirt_keeps_tables pow_exponent_one graph_line 2%N 0%Z
           [1%N; 3%N] [1%N; 3%N] [1%N; 3%N] [1%N; 3%N]).
  - exact graph_line_settled.
  - left. reflexivity.
Defined.

Lemma RemoveVirt_routes_avoid_witness :
  ∃ dist next g',
    FloydWarshall false
      (RemoveVirt pow_exponent_one graph_line_links 2%N false 0%Z [] [] [] [])
      0%Z [1%N; 3%N] [1%N; 3%N] [1%N; 3%N]
    = (dist, next, None, g')
    ∧ (∀ u, next_at next u 2%N = None ∧ next_at next 2%N u = None)
    ∧ ∀ a b p, Path (length [1%N; 3%N] - 1) a b next = Returns p → 2%N ∉ p.
Proof.
  apply (RemoveVirt_routes_avoid pow_exponent_one false graph_line_links 2%N
           0%Z [] [] [] [] [1%N; 3%N] [1%N; 3%N] [1%N; 3%N]).
  - apply graph_line_links_ok.
  - apply graph_line_links_ok.
  - apply is_range_order_dom.
    + refine (bool_decide_unpack _ _). vm_compute. exact I.
    + vm_compute. reflexivity.
Defined.

(** ** The forwarding functions on a computed table *)

Lemma no_nil_insert2 (n : NextHopTable) (u v m : Vertex) :
  no_nil n → no_nil (insert2 u v (Some m) n).
Proof.
  intros H a b. rewrite lookup2_insert2.
  destruct (decide _); [discriminate|apply H].
Qed.

Lemma no_nil_insert_empty (n : NextHopTable) (u : Vertex) :
  no_nil n → no_nil (<[u := ∅]> n).
Proof.
  intros H a b. rewrite lookup2_insert_empty.
  destruct (decide _); [discriminate|apply H].
Qed.

Lemma fw_init_no_nil (g : IG) (now : Time) (vs : list Vertex) :
  no_nil (fw_init g now vs).1.2.
Proof.
  unfold fw_init.
  apply (foldl_invariant (fun st : fw_state => no_nil st.1.2)).
  - intros a b. unfold lookup2. simpl. now rewrite lookup_empty.
  - intros [[d n] g1] u _ H. unfold fw_init_row.
    apply (foldl_invariant (fun st : fw_state => no_nil st.1.2)).
    + simpl. now apply no_nil_insert_empty.
    + intros [[d2 n2] g2] v _ H2. unfold fw_init_edge. simpl in *.
      destruct (Qltb (Weight g2 now u v) Infinity); simpl; [|exact H2].
      now apply no_nil_insert2.
Qed.

Section RoundNoNil.

Variable vs : list Vertex.
Variable st0 : DistTable * NextHopTable.
Variable k : Vertex.
Hypothesis Hkk : dist_at st0.1 k k == 0.
Hypothesis Hcol : ∀ i, i ∈ vs → i ≠ k → dist_at st0.1 i k < Infinity →
                       next_at st0.2 i k ≠ None.

Lemma fw_relax_no_nil (cur : DistTable * NextHopTable) (i j : Vertex) :
  i ∈ vs → round_inv vs st0 k (fun _ _ => False) cur → no_nil cur.2 →
  no_nil (fw_relax k i cur j).2.
Proof.
  intros Hi H Hnn.
  assert (Hik : cell cur i k = cell st0 i k).
  { destruct (H i k) as ([E|E] & _); [exact E|].
    now rewrite E, (round_target_col st0 k Hkk). }
  assert (Hkj : cell cur k j = cell st0 k j).
  { destruct (H k j) as ([E|E] & _); [exact E|].
    now rewrite E, (round_target_row st0 k Hkk). }
  destruct cur as [d n].
  destruct (fw_relax_cases k i j d n) as [->|(H1 & H2 & H3 & ->)];
    [exact Hnn|].
  unfold cell in Hik, Hkj. simpl in *.
  injection Hik as Hik1 Hik2. injection Hkj as Hkj1 Hkj2.
  assert (i ≠ k) as Hne.
  { intros ->. rewrite Hik1 in H3. lra. }
  destruct (next_at n i k) as [m|] eqn:EN.
  - now apply no_nil_insert2.
  - exfalso. apply (Hcol i Hi Hne); [now rewrite <- Hik1|congruence].
Qed.

Lemma fw_round_no_nil :
  no_nil st0.2 → no_nil (fw_round vs st0 k).2.
Proof.
  intros Hnn.
  assert (round_inv vs st0 k (fun _ _ => False) (fw_round vs st0 k)
          ∧ no_nil (fw_round vs st0 k).2) as [_ H]; [|exact H].
  unfold fw_round.
  apply (foldl_invariant
           (fun cur => round_inv vs st0 k (fun _ _ => False) cur
                       ∧ no_nil cur.2)).
  - split; [|exact Hnn]. intros a b. split; [now left|].
    split; [intros []|reflexivity].
  - intros st1 i Hi H1.
    apply (foldl_invariant
             (fun cur => round_inv vs st0 k (fun _ _ => False) cur
                         ∧ no_nil cur.2)); [exact H1|].
    intros st2 j Hj [H2 H3]. split.
    + eapply (round_inv_weaken vs st0 k);
        [|apply (round_inv_relax vs st0 k Hkk _ st2 i j Hi Hj H2)].
      intros a b [].
    + now apply fw_relax_no_nil.
Qed.

End RoundNoNil.

Lemma fw_rounds_no_nil (g : IG) (now : Time) (vs : list Vertex)
    (ks : list Vertex) :
  (∀ a b, 0 <= Weight g now a b) →
  (∀ k, k ∈ ks → k ∈ vs) →
  ∀ K st,
    fw_inv vs (Weight g now) K (dist_at st.1) (next_at st.2) →
    no_nil st.2 →
    no_nil (foldl (fw_round vs) st ks).2.
Proof.
  intros Hnn. induction ks as [|k ks IH]; intros Hks K st Hinv Hnil; simpl.
  - exact Hnil.
  - assert (k ∈ vs) as Hk by (apply Hks; left).
    pose proof (inv_diag _ _ _ _ _ Hinv k Hk) as Hkk.
    destruct (fw_round_spec vs st k Hkk) as [Hrel Hout'].
    apply (IH (fun k' Hk' => Hks k' (list_elem_of_further _ _ _ Hk')) (k :: K)).
    + exact (fw_inv_round vs (Weight g now) Hnn K k _ _ _ _ Hinv Hk Hrel).
    + apply (fw_round_no_nil vs st k Hkk); [|exact Hnil].
      intros i Hi Hik Hlt Hnone.
      pose proof (inv_none _ _ _ _ _ Hinv i k Hi Hk Hik Hnone). lra.
Qed.

Lemma fw_run_no_nil (g : IG) (now : Time) (vs : list Vertex) (d : DistTable)
    (n : NextHopTable) (g' : IG) :
  (∀ a b, 0 <= Weight g now a b) →
  fw_run g now vs = (d, n, g') → no_nil n.
Proof.
  intros Hnn Hrun.
  destruct (fw_run_unfold g now vs) as (d0 & n0 & g0 & Hinit & Hrun').
  rewrite Hrun in Hrun'. inversion Hrun'; subst d n g0. clear Hrun'.
  destruct (fw_init_spec g now vs)
    as (d0' & n0' & g0' & Hinit' & _ & Hd & Hn & _).
  rewrite Hinit in Hinit'. inversion Hinit'; subst d0' n0' g0'. clear Hinit'.
  unfold fw_loop.
  apply (fw_rounds_no_nil g now vs vs Hnn (fun k Hk => Hk) [] (d0, n0)).
  - now apply fw_inv_init.
  - pose proof (fw_init_no_nil g now vs) as H. now rewrite Hinit in H.
Qed.

Lemma broadcast_fold_returns (l : list (option Vertex)) :
  (∀ x, x ∈ l → x ≠ None) →
  ∃ bl : gset Vertex,
    foldr (fun element acc =>
             let! tosend := acc in
             match element with
             | None => NilDereference
             | Some e => Returns ({[e]} ∪ tosend)
             end) (Returns ∅) l = Returns bl.
Proof.
  induction l as [|x l IH]; intros H; simpl.
  - now exists ∅.
  - destruct IH as [s ->]; [intros y Hy; apply H; now right|]. simpl.
    destruct x as [e|]; [eauto|]. exfalso. now apply (H None); [left|].
Qed.

Lemma GetBoardcastList_returns (g : IG) (id : Vertex) :
  no_nil (nhTable g) → ∃ bl, GetBoardcastList g id = Returns bl.
Proof.
  intros Hnn. unfold GetBoardcastList. apply broadcast_fold_returns.
  intros x Hx ->. apply list_elem_of_fmap in Hx as ([v y] & E & Hin).
  simpl in E. subst y. apply elem_of_map_to_list in Hin.
  apply (Hnn id v). unfold lookup2.
  destruct (nhTable g !! id); [exact Hin|].
  simpl in Hin. rewrite lookup_empty in Hin. discriminate.
Qed.

(** The forwarding functions are safe on a table the graph has computed.
    On a graph none of whose weights is negative, with the table of
    [FloydWarshall] installed, [GetBoardcastList] and
    [GetBoardcastThroughList] return: no nil pointer is dereferenced and
    [|V| - 1] iterations suffice for every path.  The broadcast list of a
    vertex holds only vertices to which it has a direct link, and the
    through list is a part of it that leaves out the ingress peer. *)
Theorem GetBoardcastThroughList_on_computed_table (again : bool) (g : IG)
    (now : Time) (vs vr va : list Vertex) :
  is_range_order vs (Vert g) → graph_wf g →
  (∀ a b, 0 <= Weight g now a b) →
  ∃ dist next g',
    FloydWarshall again g now vs vr va = (dist, next, None, g')
    ∧ ∀ g2 self_id in_id src_id,
        nhTable g2 = next →
        ∃ bl s,
          GetBoardcastList g2 self_id = Returns bl
          ∧ (∀ m, m ∈ bl → m ∈ vs ∧ Weight g now self_id m < Infinity)
          ∧ GetBoardcastThroughList (length vs - 1) g2 self_id in_id src_id
            = Returns s
          ∧ s ⊆ bl ∧ in_id ∉ s.
Proof.
  intros Hvs Hwf Hnn.
  destruct (fw_run_nonneg_routes g now vs Hvs Hwf Hnn)
    as (dist & next & g' & Hrun & Hneg & Hinv & Hout & Hnone & Hroutes).
  pose proof (fw_run_no_nil g now vs dist next g' Hnn Hrun) as Hnil.
  exists dist, next, g'.
  split; [now apply FloydWarshall_of_run|].
  intros g2 self_id in_id src_id Hg2.
  destruct (GetBoardcastList_returns g2 self_id) as [bl Hbl];
    [now rewrite Hg2|].
  destruct (through_fold_spec (length vs - 1) (nhTable g2) self_id in_id src_id
              (elements bl)) as (s & Hs & Hspec).
  { intros n _. rewrite Hg2. unfold Path.
    destruct (next_at next src_id n) as [m|] eqn:EN; [|eauto].
    destruct (Hroutes src_id n) as (_ & _ & p & _ & HP); [congruence|].
    unfold Path in HP. rewrite EN in HP. eauto. }
  exists bl, s. split; [exact Hbl|]. split; [|split; [|split]].
  - intros m Hm.
    apply (GetBoardcastList_spec g2 self_id bl Hbl) in Hm as [v Hv].
    rewrite Hg2 in Hv.
    assert (next_at next self_id v = Some m) as EN
      by (unfold next_at; now rewrite Hv).
    destruct (Hroutes self_id v) as (Hself & Hv' & _); [congruence|].
    destruct (decide (self_id = v)) as [->|Hne].
    + destruct (fw_run_diagonal g now vs dist next g' v Hrun Hneg Hv')
        as [_ Ed].
      rewrite EN in Ed. unfold init_next in Ed.
      rewrite decide_True in Ed by reflexivity.
      destruct (decide (is_Some (lookup2 (edges g) v v))); [|discriminate].
      injection Ed as ->. split; [exact Hv'|].
      rewrite Weight_diag. unfold Infinity. lra.
    + destruct (inv_some _ _ _ _ _ Hinv self_id v m Hself Hv' Hne EN)
        as (_ & Hm & _ & _ & HW & _). auto.
  - unfold GetBoardcastThroughList. rewrite Hbl. exact Hs.
  - intros n Hn. apply Hspec in Hn as (Hn & _). now apply elem_of_elements.
  - intros Hin. apply Hspec in Hin as (_ & Hne & _). now apply Hne.
Qed.

Lemma GetBoardcastThroughList_on_computed_table_witness :
  ∃ dist next g',
    FloydWarshall false graph_line_links 0%Z [1%N; 2%N; 3%N] [1%N; 2%N; 3%N]
      [1%N; 2%N; 3%N]
    = (dist, next, None, g')
    ∧ ∀ g2 self_id in_id src_id,
        nhTable g2 = next →
        ∃ bl s,
          GetBoardcastList g2 self_id = Returns bl
          ∧ (∀ m, m ∈ bl →
                  m ∈ [1%N; 2%N; 3%N]
                  ∧ Weight graph_line_links 0%Z self_id m < Infinity)
          ∧ GetBoardcastThroughList (length [1%N; 2%N; 3%N] - 1) g2 self_id
              in_id src_id
            = Returns s
          ∧ s ⊆ bl ∧ in_id ∉ s.
Proof.
  apply (GetBoardcastThroughList_on_computed_table false graph_line_links 0%Z
           [1%N; 2%N; 3%N] [1%N; 2%N; 3%N] [1%N; 2%N; 3%N]);
    apply graph_line_links_ok.
Defined.

(** ** main.checkNhTable *)

Lemma allpeer_lookup (peers : list SuperPeerInfo) (m : gmap Vertex bool)
    (n : Vertex) :
  is_Some (foldl (fun m peer1 => <[NodeID peer1 := true]> m) m peers !! n)
  ↔ is_Some (m !! n) ∨ ∃ p, p ∈ peers ∧ NodeID p = n.
Proof.
  revert m. induction peers as [|q peers IH]; intros m; simpl.
  - split; [auto|]. intros [?|(p & Hp & _)]; [assumption|inversion Hp].
  - rewrite IH, lookup_insert_is_Some. split.
    + intros [[E|[_ H]]|(p & Hp & E)]; [right|now left|right].
      * exists q. split; [left|exact E].
      * exists p. split; [now right|exact E].
    + intros [H|(p & Hp & E)].
      * destruct (decide (NodeID q = n)); [left; now left|left; right; auto].
      * apply elem_of_cons in Hp as [->|Hp]; [left; now left|].
        right. eauto.
Qed.

Lemma first_error_None {A E : Type} (body : A → outcome (option E))
    (l : list A) :
  first_error body l = Returns None ↔ ∀ x, x ∈ l → body x = Returns None.
Proof.
  induction l as [|x l IH]; simpl.
  - split; [intros _ y Hy; inversion Hy|reflexivity].
  - split.
    + intros H y Hy. destruct (body x) as [[e|]| |] eqn:Ex; simpl in H;
        try discriminate.
      apply elem_of_cons in Hy as [->|Hy]; [exact Ex|]. now apply IH.
    + intros H. rewrite (H x) by left. simpl. apply IH.
      intros y Hy. apply H. now right.
Qed.

Lemma first_error_found {A E : Type} (body : A → outcome (option E))
    (l : list A) (r : outcome (option E)) :
  first_error body l = r → r ≠ Returns None →
  ∃ x, x ∈ l ∧ body x = r.
Proof.
  induction l as [|x l IH]; simpl; intros H Hr.
  - congruence.
  - destruct (body x) as [[e|]| |] eqn:Ex; simpl in H.
    + exists x. split; [left|congruence].
    + destruct (IH H Hr) as (y & Hy & Ey). exists y. split; [now right|exact Ey].
    + exists x. split; [left|congruence].
    + exists x. split; [left|congruence].
Qed.

Lemma checkNhTable_pair_None (NhTable : NextHopTable)
    (peers : list SuperPeerInfo) (peer1 peer2 : SuperPeerInfo) :
  checkNhTable_pair NhTable
    (foldl (fun m peer1 => <[NodeID peer1 := true]> m) ∅ peers) peer1 peer2
  = Returns None
  ↔ (NodeID peer1 ≠ NodeID peer2 →
     ∃ n, lookup2 NhTable (NodeID peer1) (NodeID peer2) = Some (Some n)
          ∧ n ∈ peer_ids peers).
Proof.
  unfold checkNhTable_pair, lookup2, peer_ids.
  destruct (decide (NodeID peer1 = NodeID peer2)) as [E|Hne];
    [split; [intros _ ?; contradiction|reflexivity]|].
  destruct (NhTable !! NodeID peer1) as [dst|];
    [|split; [discriminate|intros H; destruct (H Hne) as (? & ? & _); discriminate]].
  destruct (dst !! NodeID peer2) as [[n|]|];
    [|split; [discriminate|intros H; destruct (H Hne) as (? & ? & _); discriminate]..].
  destruct (foldl _ ∅ peers !! n) as [b|] eqn:El.
  - split; [|reflexivity]. intros _ _. exists n. split; [reflexivity|].
    assert (is_Some (foldl (fun m peer1 => <[NodeID peer1 := true]> m)
                       (∅ : gmap Vertex bool) peers !! n)) as Hs by eauto.
    apply allpeer_lookup in Hs as [[? Hs]|(p & Hp & <-)].
    + rewrite lookup_empty in Hs. discriminate.
    + apply list_elem_of_fmap. eauto.
  - split; [discriminate|]. intros H. destruct (H Hne) as (n' & E & Hin).
    injection E as <-. exfalso.
    assert (is_Some (foldl (fun m peer1 => <[NodeID peer1 := true]> m)
                       (∅ : gmap Vertex bool) peers !! n)) as [? Hs];
      [|congruence].
    apply allpeer_lookup. right.
    apply list_elem_of_fmap in Hin as (p & -> & Hp). eauto.
Qed.

Lemma checkNhTable_accepts_aux (NhTable : NextHopTable)
    (peers : list SuperPeerInfo) :
  checkNhTable NhTable peers = Returns None
  ↔ ∀ id1 id2, id1 ∈ peer_ids peers → id2 ∈ peer_ids peers → id1 ≠ id2 →
               ∃ n, lookup2 NhTable id1 id2 = Some (Some n)
                    ∧ n ∈ peer_ids peers.
Proof.
  unfold checkNhTable. rewrite first_error_None. split.
  - intros H id1 id2 H1 H2 Hne.
    apply list_elem_of_fmap in H1 as (p1 & -> & Hp1).
    apply list_elem_of_fmap in H2 as (p2 & -> & Hp2).
    specialize (H p1 Hp1). rewrite first_error_None in H.
    specialize (H p2 Hp2).
    apply checkNhTable_pair_None in H; [exact H|exact Hne].
  - intros H p1 Hp1. apply first_error_None. intros p2 Hp2.
    apply checkNhTable_pair_None. intros Hne. apply H; [| |exact Hne];
      apply list_elem_of_fmap; eauto.
Qed.

(** [checkNhTable] accepts a table exactly when, for every two peers of
    the list with different IDs, the table holds a next hop from the first
    to the second and that next hop is the ID of a peer of the list. *)
Theorem checkNhTable_accepts (NhTable : NextHopTable)
    (peers : list SuperPeerInfo) :
  checkNhTable NhTable peers = Returns None
  ↔ ∀ id1 id2, id1 ∈ peer_ids peers → id2 ∈ peer_ids peers → id1 ≠ id2 →
               ∃ n, lookup2 NhTable id1 id2 = Some (Some n)
                    ∧ n ∈ peer_ids peers.
Proof. apply checkNhTable_accepts_aux. Qed.

Lemma checkNhTable_pair_cases (NhTable : NextHopTable)
    (peers : list SuperPeerInfo) (peer1 peer2 : SuperPeerInfo) :
  peer1 ∈ peers → peer2 ∈ peers →
  match checkNhTable_pair NhTable
          (foldl (fun m peer1 => <[NodeID peer1 := true]> m) ∅ peers)
          peer1 peer2 with
  | Returns None => True
  | Returns (Some (NotInPeerList id1 id2)) =>
      id1 ∈ peer_ids peers ∧ id2 ∈ peer_ids peers ∧ id1 ≠ id2
      ∧ ∃ n, lookup2 NhTable id1 id2 = Some (Some n) ∧ n ∉ peer_ids peers
  | Returns (Some (EntryNotFound id1 id2)) =>
      id1 ∈ peer_ids peers ∧ id2 ∈ peer_ids peers ∧ id1 ≠ id2
      ∧ is_Some (NhTable !! id1) ∧ lookup2 NhTable id1 id2 = None
  | Returns (Some (RowNotFound id1)) =>
      id1 ∈ peer_ids peers ∧ NhTable !! id1 = None
      ∧ ∃ id2, id2 ∈ peer_ids peers ∧ id1 ≠ id2
  | NilDereference =>
      ∃ id1 id2, id1 ∈ peer_ids peers ∧ id2 ∈ peer_ids peers ∧ id1 ≠ id2
                 ∧ lookup2 NhTable id1 id2 = Some None
  | OutOfFuel => False
  end.
Proof.
  intros Hp1 Hp2.
  assert (NodeID peer1 ∈ peer_ids peers) as H1
    by (apply list_elem_of_fmap; eauto).
  assert (NodeID peer2 ∈ peer_ids peers) as H2
    by (apply list_elem_of_fmap; eauto).
  unfold checkNhTable_pair, lookup2.
  destruct (decide (NodeID peer1 = NodeID peer2)) as [E|Hne]; [exact I|].
  destruct (NhTable !! NodeID peer1) as [dst|] eqn:Er; [|eauto 6].
  destruct (dst !! NodeID peer2) as [[n|]|] eqn:Ec.
  - destruct (foldl _ ∅ peers !! n) as [b|] eqn:El; [exact I|].
    split; [exact H1|]. split; [exact H2|]. split; [exact Hne|].
    exists n. rewrite Er. split; [exact Ec|]. intros Hin.
    assert (is_Some (foldl (fun m peer1 => <[NodeID peer1 := true]> m)
                       (∅ : gmap Vertex bool) peers !! n)) as [? Hs];
      [|congruence].
    apply allpeer_lookup. right.
    apply list_elem_of_fmap in Hin as (p & -> & Hp). eauto.
  - exists (NodeID peer1), (NodeID peer2). rewrite Er. auto.
  - rewrite Er. eauto 6.
Qed.

(** What [checkNhTable] reports is there.  Each error names two peers of
    the list with different IDs (for a missing row: a peer whose row is
    missing, there being another peer) and the defect it states holds of
    the table; the call panics only on a nil entry between two such peers. *)
Theorem checkNhTable_errors (NhTable : NextHopTable)
    (peers : list SuperPeerInfo) :
  match checkNhTable NhTable peers with
  | Returns None => True
  | Returns (Some (NotInPeerList id1 id2)) =>
      id1 ∈ peer_ids peers ∧ id2 ∈ peer_ids peers ∧ id1 ≠ id2
      ∧ ∃ n, lookup2 NhTable id1 id2 = Some (Some n) ∧ n ∉ peer_ids peers
  | Returns (Some (EntryNotFound id1 id2)) =>
      id1 ∈ peer_ids peers ∧ id2 ∈ peer_ids peers ∧ id1 ≠ id2
      ∧ is_Some (NhTable !! id1) ∧ lookup2 NhTable id1 id2 = None
  | Returns (Some (RowNotFound id1)) =>
      id1 ∈ peer_ids peers ∧ NhTable !! id1 = None
      ∧ ∃ id2, id2 ∈ peer_ids peers ∧ id1 ≠ id2
  | NilDereference =>
      ∃ id1 id2, id1 ∈ peer_ids peers ∧ id2 ∈ peer_ids peers ∧ id1 ≠ id2
                 ∧ lookup2 NhTable id1 id2 = Some None
  | OutOfFuel => False
  end.
Proof.
  destruct (checkNhTable NhTable peers) as [[e|]| |] eqn:E; [| exact I | |].
  - unfold checkNhTable in E.
    apply first_error_found in E as (p1 & Hp1 & E); [|discriminate].
    apply first_error_found in E as (p2 & Hp2 & E); [|discriminate].
    pose proof (checkNhTable_pair_cases NhTable peers p1 p2 Hp1 Hp2) as H.
    rewrite E in H. exact H.
  - unfold checkNhTable in E.
    apply first_error_found in E as (p1 & Hp1 & E); [|discriminate].
    apply first_error_found in E as (p2 & Hp2 & E); [|discriminate].
    pose proof (checkNhTable_pair_cases NhTable peers p1 p2 Hp1 Hp2) as H.
    rewrite E in H. exact H.
  - unfold checkNhTable in E.
    apply first_error_found in E as (p1 & Hp1 & E); [|discriminate].
    apply first_error_found in E as (p2 & Hp2 & E); [|discriminate].
    pose proof (checkNhTable_pair_cases NhTable peers p1 p2 Hp1 Hp2) as H.
    rewrite E in H. exact H.
Qed.

Lemma Path_loop_checked (NhTable : NextHopTable) (ids : list Vertex)
    (v : Vertex) :
  (∀ id1 id2, id1 ∈ ids → id2 ∈ ids → id1 ≠ id2 →
              ∃ n, next_at NhTable id1 id2 = Some n ∧ n ∈ ids) →
  v ∈ ids →
  ∀ fuel x acc, x ∈ ids → (∀ y, y ∈ acc → y ∈ ids) → last acc = Some x →
    Path_loop fuel NhTable x v acc = OutOfFuel
    ∨ ∃ p, Path_loop fuel NhTable x v acc = Returns p
           ∧ head p = head acc ∧ last p = Some v ∧ ∀ y, y ∈ p → y ∈ ids.
Proof.
  intros Hok Hv. induction fuel as [|fuel IH]; intros x acc Hx Hacc Hlast;
    simpl.
  - destruct (decide (x = v)) as [->|Hne]; [|now left].
    right. exists acc. auto.
  - destruct (decide (x = v)) as [->|Hne].
    + right. exists acc. auto.
    + destruct (Hok x v Hx Hv Hne) as (n & -> & Hn).
      destruct (IH n (acc ++ [n])) as [->|(p & -> & Hh & Hl & Hin)];
        [exact Hn| | |now left|].
      * intros y Hy. apply elem_of_app in Hy as [Hy|Hy]; [auto|].
        now apply list_elem_of_singleton in Hy as ->.
      * apply last_snoc.
      * right. exists p. split; [reflexivity|]. split; [|auto].
        rewrite Hh. destruct acc; [discriminate|reflexivity].
Qed.

(** A table that [checkNhTable] accepts is safe to follow between peers:
    [Path] from one peer of the list to another never dereferences a nil
    pointer; if it returns, the path leads from the first to the second and
    visits only peers of the list. *)
Theorem checkNhTable_Path_safe (NhTable : NextHopTable)
    (peers : list SuperPeerInfo) :
  checkNhTable NhTable peers = Returns None →
  ∀ (fuel : nat) (u v : Vertex),
    u ∈ peer_ids peers → v ∈ peer_ids peers → u ≠ v →
    Path fuel u v NhTable = OutOfFuel
    ∨ ∃ p, Path fuel u v NhTable = Returns p
           ∧ head p = Some u ∧ last p = Some v
           ∧ ∀ y, y ∈ p → y ∈ peer_ids peers.
Proof.
  intros Hok fuel u v Hu Hv Hne.
  assert (Hnext : ∀ id1 id2, id1 ∈ peer_ids peers → id2 ∈ peer_ids peers →
                             id1 ≠ id2 →
                             ∃ n, next_at NhTable id1 id2 = Some n
                                  ∧ n ∈ peer_ids peers).
  { intros id1 id2 H1 H2 H12.
    destruct (proj1 (checkNhTable_accepts_aux NhTable peers) Hok id1 id2 H1 H2 H12)
      as (n & E & Hn).
    exists n. split; [|exact Hn]. unfold next_at. now rewrite E. }
  unfold Path. destruct (Hnext u v Hu Hv Hne) as (n & -> & _).
  destruct (Path_loop_checked NhTable (peer_ids peers) v Hnext Hv fuel u [u])
    as [->|(p & -> & Hh & Hl & Hin)]; [exact Hu| |reflexivity|now left|].
  - intros y Hy. now apply list_elem_of_singleton in Hy as ->.
  - right. exists p. auto.
Qed.

(** The check does not rule out routing loops: it accepts a table on which
    [Path] from peer 1 to peer 3 never ends. *)
Theorem checkNhTable_admits_loops :
  checkNhTable NhTable_loop peers_example = Returns None
  ∧ ∀ fuel, Path fuel 1%N 3%N NhTable_loop = OutOfFuel.
Proof.
  split; [vm_compute; reflexivity|].
  assert (next_at NhTable_loop 1%N 3%N = Some 2%N) as H13
    by (vm_compute; reflexivity).
  assert (next_at NhTable_loop 2%N 3%N = Some 1%N) as H23
    by (vm_compute; reflexivity).
  intros fuel. unfold Path. rewrite H13.
  enough (∀ fuel acc,
            Path_loop fuel NhTable_loop 1%N 3%N acc = OutOfFuel
            ∧ Path_loop fuel NhTable_loop 2%N 3%N acc = OutOfFuel) as H
    by apply H.
  clear fuel. induction fuel as [|fuel IH]; intros acc; cbn [Path_loop];
    rewrite !decide_False by discriminate.
  - split; reflexivity.
  - rewrite H13, H23. split; apply IH.
Qed.

Lemma checkNhTable_Path_safe_witness :
  Path 2 1%N 3%N NhTable_example' = OutOfFuel
  ∨ ∃ p, Path 2 1%N 3%N NhTable_example' = Returns p
         ∧ head p = Some 1%N ∧ last p = Some 3%N
         ∧ ∀ y, y ∈ p → y ∈ peer_ids peers_example.
Proof.
  apply (checkNhTable_Path_safe NhTable_example' peers_example).
  - vm_compute. reflexivity.
  - apply list_elem_of_In. simpl. auto.
  - apply list_elem_of_In. simpl. auto.
  - discriminate.
Defined.

(** ** main.PushPeerinfo *)

Lemma push_info_to_peer_elem (force : bool) (h : list byte) (st : Super)
    (now : Time) (buf : list byte) (pk : string) (ps : PeerState) (m : Sent) :
  m ∈ push_info_to_peer force h st now buf (pk, ps)
  ↔ (now - S2TD (http_NodeReportTimeout st) < LastSeen ps)%Z
    ∧ (force = true ∨ PeerInfoState ps ≠ h)
    ∧ ∃ via, m = mkSent via pk UpdatePeer buf
             ∧ is_Some (device_of st via !! pk).
Proof.
  unfold push_info_to_peer.
  destruct (Z.ltb_spec now (LastSeen ps + S2TD (http_NodeReportTimeout st)))
    as [Halive|Hdead]; simpl.
  - assert (force || negb (bool_decide (PeerInfoState ps = h)) = true
            ↔ force = true ∨ PeerInfoState ps ≠ h) as Hcond.
    { rewrite orb_true_iff, negb_true_iff, bool_decide_eq_false. reflexivity. }
    destruct (force || negb (bool_decide _)) eqn:Ec.
    + rewrite elem_of_app. split.
      * intros Hm. split; [lia|]. split; [now apply Hcond|].
        destruct Hm as [Hm|Hm].
        -- destruct (http_device4 st !! pk) as [peer|] eqn:Ep;
             [|inversion Hm].
           apply list_elem_of_singleton in Hm. exists V4. simpl.
           rewrite Ep. eauto.
        -- destruct (http_device6 st !! pk) as [peer|] eqn:Ep;
             [|inversion Hm].
           apply list_elem_of_singleton in Hm. exists V6. simpl.
           rewrite Ep. eauto.
      * intros (_ & _ & via & -> & [peer Hp]).
        destruct via; simpl in Hp; [left|right]; rewrite Hp;
          apply list_elem_of_here.
    + split; [intros Hm; inversion Hm|].
      intros (_ & Hc & _). apply Hcond in Hc. discriminate.
  - split; [intros Hm; inversion Hm|]. intros (Hlt & _). lia.
Qed.

Lemma push_info_to_peer_NoDup (force : bool) (h : list byte) (st : Super)
    (now : Time) (buf : list byte) (entry : string * PeerState) :
  NoDup (push_info_to_peer force h st now buf entry).
Proof.
  destruct entry as [pk ps]. unfold push_info_to_peer.
  destruct (negb _); [constructor|].
  destruct (force || _); [|constructor].
  destruct (http_device4 st !! pk) as [p4|], (http_device6 st !! pk) as [p6|];
    simpl;
    first [ apply NoDup_nil_2
          | apply NoDup_singleton
          | apply NoDup_cons; split;
            [ intros H; apply list_elem_of_singleton in H; discriminate
            | apply NoDup_singleton ] ].
Qed.

Lemma PushPeerinfo_elem (GetByte_UpdatePeerMsg : list byte → option (list byte))
    (eg_packet : list byte → list byte) (force : bool) (h : list byte)
    (st : Super) (now : Time) (body : list byte) (via : Family) (pk : string) :
  GetByte_UpdatePeerMsg h = Some body →
  mkSent via pk UpdatePeer (eg_packet body)
    ∈ PushPeerinfo GetByte_UpdatePeerMsg eg_packet force h st now
  ↔ ∃ ps,
      http_PeerState st !! pk = Some ps
      ∧ (now - S2TD (http_NodeReportTimeout st) < LastSeen ps)%Z
      ∧ (force = true ∨ PeerInfoState ps ≠ h)
      ∧ is_Some (device_of st via !! pk).
Proof.
  intros Hbody. unfold PushPeerinfo. rewrite Hbody.
  rewrite list_elem_of_In, in_flat_map. split.
  - intros ([pk' ps] & Hin & Hm). apply list_elem_of_In in Hin, Hm.
    apply elem_of_map_to_list in Hin.
    apply push_info_to_peer_elem in Hm as (Halive & Hc & via' & Heq & Hp).
    inversion Heq; subst. exists ps. auto.
  - intros (ps & Hps & Halive & Hc & Hp). exists (pk, ps).
    split; [now apply list_elem_of_In, elem_of_map_to_list|].
    apply list_elem_of_In, push_info_to_peer_elem. eauto 10.
Qed.

(** When the message serialises, [PushPeerinfo(force)] sends the
    [UpdatePeerMsg] packet to peer [pk] on device [via] exactly when [pk]
    is registered in [http_PeerState], its [LastSeen] is newer than [now]
    minus [NodeReportTimeout], [force] holds or its [PeerInfoState] differs
    from [http_PeerInfo_hash], and [pk] is a peer of that device, with or
    without an endpoint.  Nothing else is sent, nothing twice; when the
    message does not serialise nothing is sent. *)
Theorem PushPeerinfo_spec
    (GetByte_UpdatePeerMsg : list byte → option (list byte))
    (eg_packet : list byte → list byte) (force : bool)
    (http_PeerInfo_hash : list byte) (st : Super) (now : Time) :
  match GetByte_UpdatePeerMsg http_PeerInfo_hash with
  | None =>
      PushPeerinfo GetByte_UpdatePeerMsg eg_packet force http_PeerInfo_hash st
        now = []
  | Some body =>
      (∀ via pk,
          mkSent via pk UpdatePeer (eg_packet body)
            ∈ PushPeerinfo GetByte_UpdatePeerMsg eg_packet force
                http_PeerInfo_hash st now
          ↔ ∃ ps,
              http_PeerState st !! pk = Some ps
              ∧ (now - S2TD (http_NodeReportTimeout st) < LastSeen ps)%Z
              ∧ (force = true ∨ PeerInfoState ps ≠ http_PeerInfo_hash)
              ∧ is_Some (device_of st via !! pk))
      ∧ (∀ m, m ∈ PushPeerinfo GetByte_UpdatePeerMsg eg_packet force
                    http_PeerInfo_hash st now →
              sent_usage m = UpdatePeer ∧ sent_buf m = eg_packet body)
      ∧ NoDup (PushPeerinfo GetByte_UpdatePeerMsg eg_packet force
                 http_PeerInfo_hash st now)
  end.
Proof.
  destruct (GetByte_UpdatePeerMsg http_PeerInfo_hash) as [body|] eqn:Hbody.
  - split; [|split].
    + intros via pk. now apply PushPeerinfo_elem.
    + unfold PushPeerinfo. rewrite Hbody. intros m Hm.
      apply list_elem_of_In, in_flat_map in Hm as ([pk ps] & _ & Hm).
      apply list_elem_of_In, push_info_to_peer_elem in Hm
        as (_ & _ & via & -> & _). auto.
    + unfold PushPeerinfo. rewrite Hbody. apply flat_map_NoDup_by_key.
      * apply NoDup_fst_map_to_list.
      * intros [pk ps] m Hm.
        apply push_info_to_peer_elem in Hm as (_ & _ & via & -> & _).
        reflexivity.
      * apply push_info_to_peer_NoDup.
  - unfold PushPeerinfo. now rewrite Hbody.
Qed.

Lemma PushNhTable_elem (GetByte : list byte → option (list byte))
    (eg_packet : list byte → list byte) (force : bool) (st : Super)
    (now : Time) (body : list byte) (via : Family) (pk : string) :
  GetByte (http_NhTable_Hash st) = Some body →
  mkSent via pk UpdateNhTable (eg_packet body)
    ∈ PushNhTable GetByte eg_packet force st now
  ↔ ∃ ps peer,
      http_PeerState st !! pk = Some ps
      ∧ (now - S2TD (http_NodeReportTimeout st) < LastSeen ps)%Z
      ∧ (force = true ∨ NhTableState ps ≠ http_NhTable_Hash st)
      ∧ device_of st via !! pk = Some peer
      ∧ GetEndpointDstStr peer ≠ EmptyString.
Proof.
  intros Hbody. unfold PushNhTable. rewrite Hbody.
  rewrite list_elem_of_In, in_flat_map. split.
  - intros ([pk' ps] & Hin & Hm). apply list_elem_of_In in Hin, Hm.
    apply elem_of_map_to_list in Hin.
    apply push_to_peer_elem in Hm
      as (Halive & Hc & via' & peer & Heq & Hp & He).
    inversion Heq; subst. exists ps, peer. auto.
  - intros (ps & peer & Hps & Halive & Hc & Hp & He). exists (pk, ps).
    split; [now apply list_elem_of_In, elem_of_map_to_list|].
    apply list_elem_of_In, push_to_peer_elem. eauto 10.
Qed.

(** A forced push of the peer list reaches every peer, on every device,
    that a forced push of the next-hop table reaches, and besides those the
    live peers of a device whose endpoint is not known. *)
Theorem PushPeerinfo_covers_PushNhTable
    (GetByte GetByte_UpdatePeerMsg : list byte → option (list byte))
    (eg_packet : list byte → list byte) (http_PeerInfo_hash : list byte)
    (st : Super) (now : Time) (body_nh body_peer : list byte) :
  GetByte (http_NhTable_Hash st) = Some body_nh →
  GetByte_UpdatePeerMsg http_PeerInfo_hash = Some body_peer →
  ∀ via pk,
    mkSent via pk UpdatePeer (eg_packet body_peer)
      ∈ PushPeerinfo GetByte_UpdatePeerMsg eg_packet true http_PeerInfo_hash
          st now
    ↔ mkSent via pk UpdateNhTable (eg_packet body_nh)
        ∈ PushNhTable GetByte eg_packet true st now
      ∨ ∃ ps peer,
          http_PeerState st !! pk = Some ps
          ∧ (now - S2TD (http_NodeReportTimeout st) < LastSeen ps)%Z
          ∧ device_of st via !! pk = Some peer
          ∧ GetEndpointDstStr peer = EmptyString.
Proof.
  intros Hnh Hpeer via pk.
  rewrite (PushPeerinfo_elem _ _ _ _ _ _ _ via pk Hpeer).
  rewrite (PushNhTable_elem _ _ _ _ _ _ via pk Hnh). split.
  - intros (ps & Hps & Halive & _ & [peer Hp]).
    destruct (decide (GetEndpointDstStr peer = EmptyString)) as [He|He].
    + right. eauto 10.
    + left. exists ps, peer. auto 10.
  - intros [(ps & peer & Hps & Halive & _ & Hp & _)
           |(ps & peer & Hps & Halive & Hp & _)];
      exists ps; rewrite Hp; eauto 10.
Qed.

Lemma PushPeerinfo_covers_PushNhTable_witness :
  mkSent V6 "B"%string UpdatePeer (x00 :: repeat "b"%byte 32)
    ∈ PushPeerinfo Some (cons x00) true (repeat "b"%byte 32) super_example
        100000000000%Z
  ↔ mkSent V6 "B"%string UpdateNhTable (x00 :: repeat "a"%byte 32)
      ∈ PushNhTable Some (cons x00) true super_example 100000000000%Z
    ∨ ∃ ps peer,
        http_PeerState super_example !! "B"%string = Some ps
        ∧ (100000000000 - S2TD (http_NodeReportTimeout super_example)
           < LastSeen ps)%Z
        ∧ device_of super_example V6 !! "B"%string = Some peer
        ∧ GetEndpointDstStr peer = EmptyString.
Proof.
  apply (PushPeerinfo_covers_PushNhTable Some Some (cons x00)
           (repeat "b"%byte 32) super_example 100000000000%Z
           (repeat "a"%byte 32) (repeat "b"%byte 32)); reflexivity.
Defined.

(** ** main.Event_server_event_hendler: a registration *)

Lemma go_copy_same_length (dst src : list byte) :
  length dst = length src → go_copy dst src = src.
Proof.
  intros H. unfold go_copy. rewrite H, take_ge, drop_ge by lia.
  apply app_nil_r.
Qed.

(** What a registration leaves.  The block panics exactly when the node is
    below [Special_NodeID] and [http_PeerState] or [http_PeerIPs] has no
    entry for the public key that [http_PeerID2Info] gives for it (the
    empty key for an unknown node).  Otherwise the peer is marked as seen
    now and its two recorded hashes are those of the message;
    [should_push_nh] and [should_push_peer] tell whether the recorded hash
    differed; no other peer is touched. *)
Theorem register_peer_spec (Special_NodeID : Vertex)
    (http_PeerID2Info : gmap Vertex SuperPeerInfo)
    (http_PeerIPs : gmap string HttpPeerLocalIP) (st : Super)
    (reg_msg : RegisterMsg) (now : Time) :
  (Node_id reg_msg < Special_NodeID)%N →
  let pk := default EmptyString
              (PubKey <$> http_PeerID2Info !! Node_id reg_msg) in
  match http_PeerState st !! pk, http_PeerIPs !! pk with
  | Some ps, Some _ =>
      length (NhTableState ps) = length (NhStateHash reg_msg) →
      length (PeerInfoState ps) = length (PeerStateHash reg_msg) →
      ∃ st' ips',
        register_peer Special_NodeID http_PeerID2Info http_PeerIPs st reg_msg
          now
        = Returns
            (st', ips',
             negb (bool_decide (PeerInfoState ps = PeerStateHash reg_msg)),
             negb (bool_decide (NhTableState ps = NhStateHash reg_msg)))
        ∧ http_PeerState st' !! pk
          = Some (mkPeerState (NhStateHash reg_msg) (PeerStateHash reg_msg)
                    now)
        ∧ (∀ pk', pk' ≠ pk → http_PeerState st' !! pk' = http_PeerState st !! pk')
        ∧ ips' !! pk
          = Some (mkHttpPeerLocalIP (LocalV4 reg_msg) (LocalV6 reg_msg))
        ∧ http_NhTable_Hash st' = http_NhTable_Hash st
        ∧ http_device4 st' = http_device4 st
        ∧ http_device6 st' = http_device6 st
  | _, _ =>
      register_peer Special_NodeID http_PeerID2Info http_PeerIPs st reg_msg now
      = NilDereference
  end.
Proof.
  intros Hlt pk. unfold register_peer.
  apply N.ltb_lt in Hlt. rewrite Hlt.
  assert (match http_PeerID2Info !! Node_id reg_msg with
          | Some info => PubKey info
          | None => EmptyString
          end = pk) as ->.
  { unfold pk. now destruct (http_PeerID2Info !! Node_id reg_msg). }
  destruct (http_PeerState st !! pk) as [ps|] eqn:Eps; [|reflexivity].
  destruct (http_PeerIPs !! pk) as [ip|] eqn:Eip; [|reflexivity].
  intros Hl1 Hl2. eexists _, _. split; [reflexivity|]. simpl.
  split; [|split; [|split; [|auto]]].
  - rewrite lookup_insert_eq. f_equal.
    destruct (bool_decide (NhTableState ps = NhStateHash reg_msg)) eqn:E1;
      destruct (bool_decide (PeerInfoState ps = PeerStateHash reg_msg)) eqn:E2;
      simpl; rewrite ?go_copy_same_length by assumption;
      try apply bool_decide_eq_true in E1; try apply bool_decide_eq_true in E2;
      destruct ps; simpl in *; congruence.
  - intros pk' Hne. now rewrite lookup_insert_ne.
  - now rewrite lookup_insert_eq.
Qed.

(** A registration is answered with the next-hop table exactly when it is
    news and out of date.  The branch calls [PushNhTable(false)] when
    [should_push_nh] holds; that call sends the table to the registering
    peer on a device exactly when the hash the peer reports differs from
    the one recorded for it and from the published one, the report timeout
    is positive, and the device knows an endpoint of the peer. *)
Theorem register_then_PushNhTable (Special_NodeID : Vertex)
    (GetByte : list byte → option (list byte))
    (eg_packet : list byte → list byte)
    (http_PeerID2Info : gmap Vertex SuperPeerInfo)
    (http_PeerIPs : gmap string HttpPeerLocalIP) (st : Super)
    (reg_msg : RegisterMsg) (now : Time) (info : SuperPeerInfo)
    (ps : PeerState) (body : list byte) (st' : Super)
    (ips' : gmap string HttpPeerLocalIP)
    (should_push_peer should_push_nh : bool) :
  http_PeerID2Info !! Node_id reg_msg = Some info →
  http_PeerState st !! PubKey info = Some ps →
  length (NhTableState ps) = length (NhStateHash reg_msg) →
  GetByte (http_NhTable_Hash st) = Some body →
  register_peer Special_NodeID http_PeerID2Info http_PeerIPs st reg_msg now
  = Returns (st', ips', should_push_peer, should_push_nh) →
  (Node_id reg_msg < Special_NodeID)%N →
  ∀ via,
    should_push_nh = true
    ∧ mkSent via (PubKey info) UpdateNhTable (eg_packet body)
        ∈ PushNhTable GetByte eg_packet false st' now
    ↔ NhTableState ps ≠ NhStateHash reg_msg
      ∧ NhStateHash reg_msg ≠ http_NhTable_Hash st
      ∧ (0 < S2TD (http_NodeReportTimeout st))%Z
      ∧ ∃ peer, device_of st via !! PubKey info = Some peer
                ∧ GetEndpointDstStr peer ≠ EmptyString.
Proof.
  intros Hinfo Hps Hlen Hbody Hreg Hlt via.
  unfold register_peer in Hreg. apply N.ltb_lt in Hlt.
  rewrite Hlt, Hinfo, Hps in Hreg.
  destruct (http_PeerIPs !! PubKey info) as [ip|]; [|discriminate].
  injection Hreg as <- _ _ <-.
  rewrite (PushNhTable_elem GetByte eg_packet false _ now body via
             (PubKey info)) by exact Hbody.
  simpl. rewrite lookup_insert_eq.
  rewrite negb_true_iff, bool_decide_eq_false.
  assert (device_of
            (set_PeerState st
               (<[PubKey info := mkPeerState
                    (if negb (bool_decide (NhTableState ps = NhStateHash reg_msg))
                     then go_copy (NhTableState ps) (NhStateHash reg_msg)
                     else NhTableState ps)
                    (if negb (bool_decide
                                (PeerInfoState ps = PeerStateHash reg_msg))
                     then go_copy (PeerInfoState ps) (PeerStateHash reg_msg)
                     else PeerInfoState ps) now]> (http_PeerState st))) via
          = device_of st via) as -> by now destruct via.
  split.
  - intros (Hne & ps' & peer & E & Halive & [?|Hh] & Hp & He); [discriminate|].
    injection E as <-. simpl in *.
    apply (bool_decide_eq_false_2 _) in Hne as Hb. rewrite Hb in Hh. simpl in Hh.
    rewrite go_copy_same_length in Hh by exact Hlen.
    split; [exact Hne|]. split; [exact Hh|]. split; [lia|]. eauto.
  - intros (Hne & Hh & Ht & peer & Hp & He). split; [exact Hne|].
    eexists _, peer. split; [reflexivity|]. simpl.
    split; [lia|]. split; [|auto]. right.
    apply (bool_decide_eq_false_2 _) in Hne as Hb. rewrite Hb. simpl.
    now rewrite go_copy_same_length by exact Hlen.
Qed.

Lemma register_peer_spec_witness :
  ∃ st' ips',
    register_peer 65533%N PeerID2Info_example PeerIPs_example super_example
      reg_example 100000000000%Z
    = Returns
        (st', ips',
         negb (bool_decide
                 (PeerInfoState (mkPeerState (repeat x00 32) [] 90000000000%Z)
                  = PeerStateHash reg_example)),
         negb (bool_decide
                 (NhTableState (mkPeerState (repeat x00 32) [] 90000000000%Z)
                  = NhStateHash reg_example)))
    ∧ http_PeerState st' !! "B"%string
      = Some (mkPeerState (NhStateHash reg_example)
                (PeerStateHash reg_example) 100000000000%Z)
    ∧ (∀ pk', pk' ≠ "B"%string →
              http_PeerState st' !! pk' = http_PeerState super_example !! pk')
    ∧ ips' !! "B"%string
      = Some (mkHttpPeerLocalIP (LocalV4 reg_example) (LocalV6 reg_example))
    ∧ http_NhTable_Hash st' = http_NhTable_Hash super_example
    ∧ http_device4 st' = http_device4 super_example
    ∧ http_device6 st' = http_device6 super_example.
Proof.
  refine (register_peer_spec 65533%N PeerID2Info_example PeerIPs_example
            super_example reg_example 100000000000%Z _ _ _).
  - vm_compute. reflexivity.
  - reflexivity.
  - reflexivity.
Defined.

Lemma register_then_PushNhTable_witness :
  true = true
  ∧ mkSent V4 "B"%string UpdateNhTable (x00 :: repeat "a"%byte 32)
      ∈ PushNhTable Some (cons x00) false
          (set_PeerState super_example
             (<["B"%string := mkPeerState (repeat "c"%byte 32) []
                                100000000000%Z]>
                (http_PeerState super_example)))
          100000000000%Z
  ↔ repeat x00 32 ≠ NhStateHash reg_example
    ∧ NhStateHash reg_example ≠ http_NhTable_Hash super_example
    ∧ (0 < S2TD (http_NodeReportTimeout super_example))%Z
    ∧ ∃ peer, device_of super_example V4 !! "B"%string = Some peer
              ∧ GetEndpointDstStr peer ≠ EmptyString.
Proof.
  apply (register_then_PushNhTable 65533%N Some (cons x00) PeerID2Info_example
           PeerIPs_example super_example reg_example 100000000000%Z
           (mkSuperPeerInfo 2%N "Node_02" "B" EmptyString 0)
           (mkPeerState (repeat x00 32) [] 90000000000%Z)
           (repeat "a"%byte 32)
           (set_PeerState super_example
              (<["B"%string := mkPeerState (repeat "c"%byte 32) []
                                 100000000000%Z]>
                 (http_PeerState super_example)))
           (<["B"%string := mkHttpPeerLocalIP "192.0.2.2:3001" EmptyString]>
              PeerIPs_example)
           false true); [| | | | |vm_compute; reflexivity].
  - reflexivity.
  - reflexivity.
  - reflexivity.
  - reflexivity.
  - vm_compute. reflexivity.
Defined.

(** ** path.UpdateLatency *)

(** A measurement is read back until it times out.  After
    [UpdateLatency(u, v, dt)] the weight of the pair (u,v), for [u ≠ v], is
    [dt] in seconds at every instant up to [NodeReportTimeout] after the
    measurement and [Infinity] later; no other weight and no old weight
    changes, and [u] and [v] are vertices of the graph. *)
Theorem UpdateLatency_Weight (g : IG) (now : Time) (u v : Vertex)
    (dt : Duration) (now' : Time) :
  (∀ a b,
     Weight (UpdateLatency g now u v dt) now' a b
     = if decide (a = u ∧ b = v ∧ u ≠ v)
       then if (now + NodeReportTimeout g <? now')%Z then Infinity
            else inject_Z dt / 1000000000
       else Weight g now' a b)
  ∧ (∀ a b, OldWeight (UpdateLatency g now u v dt) a b = OldWeight g a b)
  ∧ is_Some (Vert (UpdateLatency g now u v dt) !! u)
  ∧ is_Some (Vert (UpdateLatency g now u v dt) !! v).
Proof.
  split; [|split; [|split]].
  - intros a b. rewrite !Weight_lookup2, lookup2_UpdateLatency. unfold stale.
    rewrite NodeReportTimeout_UpdateLatency.
    destruct (decide (a = b)) as [->|Hab].
    + destruct (decide (b = u ∧ b = v ∧ u ≠ v)) as [(-> & -> & ?)|_];
        [contradiction|reflexivity].
    + destruct (decide (a = u ∧ b = v)) as [[-> ->]|Hno].
      * now rewrite decide_True by auto.
      * now rewrite decide_False by tauto.
  - intros a b. rewrite !OldWeight_lookup2, lookup2_UpdateLatency.
    destruct (decide (a = b)); [reflexivity|].
    destruct (decide (a = u ∧ b = v)) as [[-> ->]|Hno]; [|reflexivity].
    simpl. now destruct (lookup2 (edges g) u v).
  - rewrite Vert_UpdateLatency, !lookup_insert_is_Some.
    destruct (decide (v = u)); [now left|right; split; [assumption|now left]].
  - rewrite Vert_UpdateLatency, lookup_insert_is_Some. now left.
Qed.

(** ** conn.LookupIP *)

Lemma LookupIP_dial_cases (net_Dial : string → string → string + string)
    (order : list string) (host_port : string)
    (st : string * option string * option string) :
  (∃ pre af post addr,
      order = pre ++ af :: post
      ∧ (∀ x, x ∈ pre → ∃ e, net_Dial x host_port = inr e)
      ∧ net_Dial af host_port = inl addr
      ∧ LookupIP_dial net_Dial order host_port st = (af, Some addr, None))
  ∨ ((∀ x, x ∈ order → ∃ e, net_Dial x host_port = inr e)
     ∧ match last order with
       | Some af =>
           ∃ e, net_Dial af host_port = inr e
                ∧ LookupIP_dial net_Dial order host_port st
                  = (st.1.1, None, Some e)
       | None => LookupIP_dial net_Dial order host_port st = st
       end).
Proof.
  revert st. induction order as [|af order IH]; intros st; simpl.
  - right. split; [intros x Hx; inversion Hx|reflexivity].
  - destruct (net_Dial af host_port) as [addr|e] eqn:Ed.
    + left. exists [], af, order, addr. simpl. repeat split; auto.
      intros x Hx. inversion Hx.
    + destruct (IH (st.1.1, None, Some e))
        as [(pre & af' & post & addr & -> & Hpre & Haf & ->)|[Hall Hlast]].
      * left. exists (af :: pre), af', post, addr. repeat split; auto.
        intros x Hx. apply elem_of_cons in Hx as [->|Hx]; eauto.
      * right. split.
        { intros x Hx. apply elem_of_cons in Hx as [->|Hx]; eauto. }
        destruct order as [|af2 order'].
        -- exists e. split; [exact Ed|reflexivity].
        -- change (last (af :: af2 :: order')) with (last (af2 :: order')).
           destruct (last (af2 :: order')) eqn:El; [exact Hlast|].
           apply last_None in El. discriminate.
Qed.

(** [LookupIP] refuses an empty address and an unknown address family
    before it dials.  Otherwise it dials the networks of the family in the
    order of the preference and returns the first that connects, with the
    remote address; when none connects, the error is that of the last
    attempt. *)
Theorem LookupIP_spec (net_Dial : string → string → string + string)
    (host_port : string) (Af AfPrefer : Z) :
  LookupIP net_Dial EmptyString Af AfPrefer
  = Returns (EmptyString, EmptyString,
             Some "error lookup ip from empty string"%string)
  ∧ (host_port ≠ EmptyString →
     match af_try_order Af AfPrefer with
     | inr err =>
         LookupIP net_Dial host_port Af AfPrefer
         = Returns (EmptyString, EmptyString, Some err)
     | inl order =>
         (∃ pre af post addr,
             order = pre ++ af :: post
             ∧ (∀ x, x ∈ pre → ∃ e, net_Dial x host_port = inr e)
             ∧ net_Dial af host_port = inl addr
             ∧ LookupIP net_Dial host_port Af AfPrefer
               = Returns (af, addr, None))
         ∨ ((∀ x, x ∈ order → ∃ e, net_Dial x host_port = inr e)
            ∧ ∃ af e, last order = Some af
                      ∧ net_Dial af host_port = inr e
                      ∧ LookupIP net_Dial host_port Af AfPrefer
                        = Returns (EmptyString, EmptyString, Some e))
     end).
Proof.
  split; [reflexivity|]. intros Hne. unfold LookupIP.
  rewrite decide_False by exact Hne.
  destruct (af_try_order Af AfPrefer) as [order|err] eqn:Eo; [|reflexivity].
  assert (order ≠ []) as Hnil.
  { unfold af_try_order in Eo.
    repeat (destruct (decide _) in Eo); inversion Eo; discriminate. }
  destruct (LookupIP_dial_cases net_Dial order host_port
              (EmptyString, None, None))
    as [(pre & af & post & addr & -> & Hpre & Haf & ->)|[Hall Hlast]].
  - left. exists pre, af, post, addr. auto.
  - right. split; [exact Hall|].
    destruct (last order) as [af|] eqn:El.
    + destruct Hlast as (e & He & ->). exists af, e. auto.
    + exfalso. apply Hnil. now apply last_None.
Qed.

Lemma LookupIP_spec_witness :
  (∃ pre af post addr,
      ["udp4"; "udp6"; "udp"]%string = pre ++ af :: post
      ∧ (∀ x, x ∈ pre → ∃ e, dial_v6_only x "example.org:3000" = inr e)
      ∧ dial_v6_only af "example.org:3000" = inl addr
      ∧ LookupIP dial_v6_only "example.org:3000" 0 4
        = Returns (af, addr, None))
  ∨ ((∀ x, x ∈ ["udp4"; "udp6"; "udp"]%string →
           ∃ e, dial_v6_only x "example.org:3000" = inr e)
     ∧ ∃ af e, last ["udp4"; "udp6"; "udp"]%string = Some af
               ∧ dial_v6_only af "example.org:3000" = inr e
               ∧ LookupIP dial_v6_only "example.org:3000" 0 4
                 = Returns (EmptyString, EmptyString, Some e)).
Proof.
  apply (LookupIP_spec dial_v6_only "example.org:3000" 0 4).
  discriminate.
Defined.

(** ** main.RoutinePushSettings *)

Lemma RoutinePushSettings_from_spacing (interval : Duration) (nows : list Time) :
  (0 <= interval)%Z →
  ∀ lastforce,
    let flags := RoutinePushSettings_from interval lastforce nows in
    length flags = length nows
    ∧ (∀ j nj, flags !! j = Some true → nows !! j = Some nj →
               (lastforce + interval < nj)%Z)
    ∧ (∀ i j ni nj, (i < j)%nat →
         flags !! i = Some true → flags !! j = Some true →
         nows !! i = Some ni → nows !! j = Some nj →
         (ni + interval < nj)%Z)
    ∧ (∀ j nj, flags !! j = Some false → nows !! j = Some nj →
         (nj <= lastforce + interval)%Z
         ∨ ∃ i ni, (i < j)%nat ∧ flags !! i = Some true
                   ∧ nows !! i = Some ni ∧ (nj <= ni + interval)%Z).
Proof.
  intros Hint. induction nows as [|now nows IH]; intros lastforce flags.
  - subst flags. simpl. split; [reflexivity|].
    repeat split; intros; discriminate.
  - subst flags. simpl. unfold RoutinePushSettings_iter.
    destruct (Z.ltb_spec (lastforce + interval) now) as [Hlt|Hge].
    + destruct (IH now) as (Hlen & Hfirst & Hpairs & Hfalse).
      split; [simpl; now rewrite Hlen|]. split; [|split].
      * intros [|j] nj Hf Hn; simpl in *.
        -- injection Hn as <-. exact Hlt.
        -- specialize (Hfirst j nj Hf Hn). lia.
      * intros [|i] [|j] ni nj Hij Hfi Hfj Hni Hnj; simpl in *; try lia.
        -- injection Hni as <-. exact (Hfirst j nj Hfj Hnj).
        -- apply (Hpairs i j ni nj); auto. lia.
      * intros [|j] nj Hf Hn; simpl in *; [discriminate|].
        right. destruct (Hfalse j nj Hf Hn) as [Hle|(i & ni & Hij & Hfi & Hni & Hle)].
        -- exists 0%nat, now. simpl. repeat split; auto. lia.
        -- exists (S i), ni. simpl. repeat split; auto. lia.
    + destruct (IH lastforce) as (Hlen & Hfirst & Hpairs & Hfalse).
      split; [simpl; now rewrite Hlen|]. split; [|split].
      * intros [|j] nj Hf Hn; simpl in *; [discriminate|].
        exact (Hfirst j nj Hf Hn).
      * intros [|i] [|j] ni nj Hij Hfi Hfj Hni Hnj; simpl in *; try lia;
          try discriminate.
        apply (Hpairs i j ni nj); auto. lia.
      * intros [|j] nj Hf Hn; simpl in *.
        -- injection Hn as <-. now left.
        -- destruct (Hfalse j nj Hf Hn) as [Hle|(i & ni & Hij & Hfi & Hni & Hle)];
             [now left|].
           right. exists (S i), ni. simpl. repeat split; auto. lia.
Qed.

(** Forced pushes are spaced, and none is overdue.  With an interval that
    is not negative, two iterations of [RoutinePushSettings] that force the
    push start more than [interval] apart, and an iteration that does not
    force starts at most [interval] after one that did (or after the zero
    time). *)
Theorem RoutinePushSettings_spacing (interval : Duration) (nows : list Time) :
  (0 <= interval)%Z →
  (∀ i j ni nj, (i < j)%nat →
     RoutinePushSettings interval nows !! i = Some true →
     RoutinePushSettings interval nows !! j = Some true →
     nows !! i = Some ni → nows !! j = Some nj →
     (ni + interval < nj)%Z)
  ∧ (∀ j nj,
       RoutinePushSettings interval nows !! j = Some false →
       nows !! j = Some nj →
       (nj <= zero_time + interval)%Z
       ∨ ∃ i ni, (i < j)%nat
                 ∧ RoutinePushSettings interval nows !! i = Some true
                 ∧ nows !! i = Some ni ∧ (nj <= ni + interval)%Z).
Proof.
  intros Hint.
  destruct (RoutinePushSettings_from_spacing interval nows Hint zero_time)
    as (_ & _ & Hpairs & Hfalse).
  split; [exact Hpairs|exact Hfalse].
Qed.

Lemma RoutinePushSettings_spacing_witness :
  (∀ i j ni nj, (i < j)%nat →
     RoutinePushSettings 30000000000%Z [0; 1000000000; 31000000000]%Z !! i
     = Some true →
     RoutinePushSettings 30000000000%Z [0; 1000000000; 31000000000]%Z !! j
     = Some true →
     [0; 1000000000; 31000000000]%Z !! i = Some ni →
     [0; 1000000000; 31000000000]%Z !! j = Some nj →
     (ni + 30000000000 < nj)%Z)
  ∧ (∀ j nj,
       RoutinePushSettings 30000000000%Z [0; 1000000000; 31000000000]%Z !! j
       = Some false →
       [0; 1000000000; 31000000000]%Z !! j = Some nj →
       (nj <= zero_time + 30000000000)%Z
       ∨ ∃ i ni, (i < j)%nat
                 ∧ RoutinePushSettings 30000000000%Z
                     [0; 1000000000; 31000000000]%Z !! i = Some true
                 ∧ [0; 1000000000; 31000000000]%Z !! i = Some ni
                 ∧ (nj <= ni + 30000000000)%Z).
Proof.
  apply (RoutinePushSettings_spacing 30000000000%Z
           [0; 1000000000; 31000000000]%Z).
  lia.
Defined.

(** ** path.FloydWarshall with pointers *)

Lemma lookup2_values (t : PtrTable) (u v : Vertex) :
  lookup2 (values t) u v = option_map value (lookup2 t u v).
Proof.
  unfold lookup2, values. rewrite lookup_fmap.
  destruct (t !! u) as [row|]; simpl; [|reflexivity].
  rewrite lookup_fmap. now destruct (row !! v).
Qed.

Lemma next_at_values (t : PtrTable) (u v : Vertex) :
  next_at (values t) u v = value (ptr_at t u v).
Proof.
  unfold next_at, ptr_at. rewrite lookup2_values.
  now destruct (lookup2 t u v).
Qed.

Lemma values_insert2 (t : PtrTable) (u v : Vertex) (p : option Ptr) :
  values (insert2 u v p t) = insert2 u v (value p) (values t).
Proof.
  unfold values, insert2. rewrite fmap_insert, lookup_fmap. f_equal.
  rewrite fmap_insert. f_equal. now destruct (t !! u).
Qed.

Lemma values_insert_empty (t : PtrTable) (u : Vertex) :
  values (<[u := ∅]> t) = <[u := ∅]> (values t).
Proof. unfold values. now rewrite fmap_insert, fmap_empty. Qed.

Lemma values_empty : values ∅ = ∅.
Proof. apply fmap_empty. Qed.

(** The state of a run with the pointers forgotten. *)
Lemma foldl_simulation {A B C : Type} (e : A → C) (f : A → B → A)
    (f' : C → B → C) :
  (∀ a b, e (f a b) = f' (e a) b) →
  ∀ l a, e (foldl f a l) = foldl f' (e a) l.
Proof.
  intros H l. induction l as [|x l IH]; intros a; simpl; [reflexivity|].
  now rewrite IH, H.
Qed.

Lemma fw_init_edge_values (now : Time) (u v : Vertex) (st : fw_state_ptr) :
  values_state
    (fw_init_edge_ptr now u st v)
  = fw_init_edge now u (values_state st) v.
Proof.
  destruct st as [[[d n] g] fresh].
  unfold values_state, fw_init_edge_ptr, fw_init_edge.
  simpl. destruct (Qltb (Weight g now u v) Infinity); simpl; [|reflexivity].
  now rewrite values_insert2.
Qed.

Lemma fw_init_row_values (now : Time) (vs : list Vertex) (st : fw_state_ptr)
    (u : Vertex) :
  values_state
    (fw_init_row_ptr now vs st u)
  = fw_init_row now vs (values_state st) u.
Proof.
  destruct st as [[[d n] g] fresh]. unfold fw_init_row_ptr, fw_init_row.
  rewrite (foldl_simulation values_state (fw_init_edge_ptr now u)
             (fw_init_edge now u) (fun a b => fw_init_edge_values now u b a)).
  unfold values_state. simpl. now rewrite values_insert_empty.
Qed.

Lemma fw_init_values (g : IG) (now : Time) (vs : list Vertex)
    (fresh : positive) :
  values_state
    (fw_init_ptr g now vs fresh)
  = fw_init g now vs.
Proof.
  unfold fw_init_ptr, fw_init.
  rewrite (foldl_simulation values_state (fw_init_row_ptr now vs)
             (fw_init_row now vs) (fun a b => fw_init_row_values now vs a b)).
  unfold values_state. simpl. now rewrite values_empty.
Qed.

Lemma fw_relax_values (k i j : Vertex) (st : DistTable * PtrTable) :
  values_tables (fw_relax_ptr k i st j)
  = fw_relax k i (values_tables st) j.
Proof.
  destruct st as [d n]. unfold values_tables, fw_relax_ptr, fw_relax. simpl.
  destruct (Qltb (dist_at d i k) Infinity && Qltb (dist_at d k j) Infinity);
    [|reflexivity].
  destruct (Qltb (dist_at d i k + dist_at d k j) (dist_at d i j));
    [|reflexivity].
  simpl. now rewrite values_insert2, next_at_values.
Qed.

Lemma fw_loop_values (vs : list Vertex) (st : DistTable * PtrTable) :
  values_tables (fw_loop_ptr vs st) = fw_loop vs (values_tables st).
Proof.
  unfold fw_loop_ptr, fw_loop. apply (foldl_simulation values_tables).
  intros st1 k. unfold fw_round_ptr, fw_round.
  apply (foldl_simulation values_tables).
  intros st2 i. apply (foldl_simulation values_tables).
  intros st3 j. apply fw_relax_values.
Qed.

Lemma fw_run_values (g : IG) (now : Time) (vs : list Vertex)
    (fresh : positive) :
  values_state
    (fw_run_ptr g now vs fresh)
  = fw_run g now vs.
Proof.
  unfold fw_run_ptr, fw_run. rewrite <- (fw_init_values g now vs fresh).
  destruct (fw_init_ptr g now vs fresh) as [[[d n] g1] fresh1].
  unfold values_state at 2. simpl.
  change (d, values n) with (values_tables (d, n)).
  rewrite <- (fw_loop_values vs (d, n)).
  now destruct (fw_loop_ptr vs (d, n)).
Qed.

Lemma FloydWarshall_again_values (g : IG) (now : Time) (vs : list Vertex)
    (fresh : positive) :
  values_result
    (FloydWarshall_again_ptr g now vs fresh)
  = FloydWarshall_again g now vs.
Proof.
  unfold FloydWarshall_again_ptr, FloydWarshall_again.
  rewrite <- (fw_run_values g now vs fresh).
  destruct (fw_run_ptr g now vs fresh) as [[[d n] g1] fresh1].
  unfold values_state, values_result. simpl.
  destruct (negative_cycle d); simpl; [|reflexivity].
  now rewrite values_empty.
Qed.

(** The run with pointers computes the tables of the run without: the
    distances and the graph are the same, and the vertices that the
    pointers point to are the next hops. *)
Lemma FloydWarshall_values (again : bool) (g : IG) (now : Time)
    (vs vr va : list Vertex) (fresh : positive) :
  values_result
    (FloydWarshall_ptr again g now vs vr va fresh)
  = FloydWarshall again g now vs vr va.
Proof.
  unfold FloydWarshall_ptr, FloydWarshall. destruct again.
  - apply FloydWarshall_again_values.
  - rewrite <- (fw_run_values g now vs fresh).
    destruct (fw_run_ptr g now vs fresh) as [[[d n] g1] fresh1].
    unfold values_state. simpl.
    destruct (negative_cycle d); [|reflexivity].
    rewrite <- (FloydWarshall_again_values (RemoveAllNegativeValue g1 now vr)
                  now va fresh1).
    now destruct (FloydWarshall_again_ptr _ now va fresh1)
      as [[[[d2 n2] e2] g2] fresh2].
Qed.

(** *** The addresses of the pointers of a computed table *)

Lemma addrs_within_weaken (lo lo' hi hi' : positive) (t : PtrTable) :
  (lo' <= lo)%positive → (hi <= hi')%positive →
  addrs_within lo hi t → addrs_within lo' hi' t.
Proof.
  intros Hlo Hhi H u v p Hp. destruct (H u v p Hp). split; lia.
Qed.

Lemma addrs_within_empty (lo hi : positive) : addrs_within lo hi ∅.
Proof.
  intros u v p H. unfold lookup2 in H. rewrite lookup_empty in H.
  discriminate.
Qed.

Lemma fw_init_edge_addrs (lo : positive) (now : Time) (u v : Vertex)
    (st : fw_state_ptr) :
  (lo <= st.2)%positive ∧ addrs_within lo st.2 st.1.1.2 →
  (lo <= (fw_init_edge_ptr now u st v).2)%positive
  ∧ addrs_within lo (fw_init_edge_ptr now u st v).2
      (fw_init_edge_ptr now u st v).1.1.2.
Proof.
  destruct st as [[[d n] g] fresh]. unfold fw_init_edge_ptr. simpl.
  intros [Hlo H]. destruct (Qltb (Weight g now u v) Infinity); simpl;
    [|auto].
  split; [lia|]. intros a b p. rewrite lookup2_insert2.
  destruct (decide _).
  - intros E. injection E as <-. simpl. lia.
  - intros Hp. destruct (H a b p Hp). lia.
Qed.

Lemma fw_init_addrs (g : IG) (now : Time) (vs : list Vertex) (fresh : positive) :
  (fresh <= (fw_init_ptr g now vs fresh).2)%positive
  ∧ addrs_within fresh (fw_init_ptr g now vs fresh).2
      (fw_init_ptr g now vs fresh).1.1.2.
Proof.
  unfold fw_init_ptr.
  apply (foldl_invariant
           (fun st : fw_state_ptr =>
              (fresh <= st.2)%positive ∧ addrs_within fresh st.2 st.1.1.2)).
  - simpl. split; [lia|apply addrs_within_empty].
  - intros [[[d n] g1] f1] u _ [Hlo H]. unfold fw_init_row_ptr.
    apply (foldl_invariant
             (fun st : fw_state_ptr =>
                (fresh <= st.2)%positive ∧ addrs_within fresh st.2 st.1.1.2)).
    + simpl in *. split; [exact Hlo|]. intros a b p.
      rewrite lookup2_insert_empty. destruct (decide _); [discriminate|].
      apply H.
    + intros st v _ Hst. now apply fw_init_edge_addrs.
Qed.

Lemma fw_relax_addrs (lo hi : positive) (k i j : Vertex)
    (st : DistTable * PtrTable) :
  addrs_within lo hi st.2 → addrs_within lo hi (fw_relax_ptr k i st j).2.
Proof.
  destruct st as [d n]. unfold fw_relax_ptr. simpl. intros H.
  destruct (_ && _); [|exact H]. destruct (Qltb _ _); [|exact H]. simpl.
  intros a b p. rewrite lookup2_insert2. destruct (decide _); [|apply H].
  intros E. injection E as E. unfold ptr_at in E.
  destruct (lookup2 n i k) as [x|] eqn:El; simpl in E; [|discriminate].
  subst x. exact (H i k p El).
Qed.

Lemma fw_run_addrs (g : IG) (now : Time) (vs : list Vertex) (fresh : positive) :
  (fresh <= (fw_run_ptr g now vs fresh).2)%positive
  ∧ addrs_within fresh (fw_run_ptr g now vs fresh).2
      (fw_run_ptr g now vs fresh).1.1.2.
Proof.
  unfold fw_run_ptr. pose proof (fw_init_addrs g now vs fresh) as [Hlo H].
  destruct (fw_init_ptr g now vs fresh) as [[[d n] g1] f1]. simpl in *.
  assert (addrs_within fresh f1 (fw_loop_ptr vs (d, n)).2) as Hloop.
  { unfold fw_loop_ptr.
    apply (foldl_invariant
             (fun st : DistTable * PtrTable => addrs_within fresh f1 st.2));
      [exact H|].
    intros st1 k _ H1. unfold fw_round_ptr.
    apply (foldl_invariant
             (fun st : DistTable * PtrTable => addrs_within fresh f1 st.2));
      [exact H1|].
    intros st2 i _ H2.
    apply (foldl_invariant
             (fun st : DistTable * PtrTable => addrs_within fresh f1 st.2));
      [exact H2|].
    intros st3 j _ H3. now apply fw_relax_addrs. }
  destruct (fw_loop_ptr vs (d, n)) as [d2 n2]. simpl in *. auto.
Qed.

(** Every pointer of the table that [FloydWarshall] returns has been
    allocated by the call. *)
Lemma FloydWarshall_addrs (again : bool) (g : IG) (now : Time)
    (vs vr va : list Vertex) (fresh : positive) :
  (fresh <= (FloydWarshall_ptr again g now vs vr va fresh).2)%positive
  ∧ addrs_within fresh (FloydWarshall_ptr again g now vs vr va fresh).2
      (FloydWarshall_ptr again g now vs vr va fresh).1.1.1.2.
Proof.
  assert (Hagain : ∀ g fresh vs,
            (fresh <= (FloydWarshall_again_ptr g now vs fresh).2)%positive
            ∧ addrs_within fresh (FloydWarshall_again_ptr g now vs fresh).2
                (FloydWarshall_again_ptr g now vs fresh).1.1.1.2).
  { intros g0 f0 vs0. unfold FloydWarshall_again_ptr.
    pose proof (fw_run_addrs g0 now vs0 f0) as [Hlo H].
    destruct (fw_run_ptr g0 now vs0 f0) as [[[d n] g1] f1]. simpl in *.
    destruct (negative_cycle d); simpl; [|auto].
    split; [exact Hlo|apply addrs_within_empty]. }
  unfold FloydWarshall_ptr. destruct again; [apply Hagain|].
  pose proof (fw_run_addrs g now vs fresh) as [Hlo H].
  destruct (fw_run_ptr g now vs fresh) as [[[d n] g1] f1]. simpl in *.
  destruct (negative_cycle d); simpl; [|auto].
  pose proof (Hagain (RemoveAllNegativeValue g1 now vr) f1 va) as [Hlo2 H2].
  destruct (FloydWarshall_again_ptr (RemoveAllNegativeValue g1 now vr) now va f1)
    as [[[[d2 n2] e2] g2] f2]. simpl in *.
  split; [lia|]. eapply addrs_within_weaken; [| |exact H2]; lia.
Qed.

(** ** path.RecalculateNhTable, whole *)

Lemma Next_ptr_at (gp : IGp) (u v : Vertex) :
  Next gp u v = ptr_at (nhTable_ptr gp) u v.
Proof.
  unfold Next, ptr_at, lookup2. destruct (nhTable_ptr gp !! u) as [row|];
    [|reflexivity].
  now destruct (row !! v).
Qed.

Lemma check_loop_spec (next : PtrTable) (gp : IGp) :
  existsb
    (fun row : Vertex * gmap Vertex (option Ptr) =>
       existsb
         (fun cell : Vertex * option Ptr =>
            negb (ptr_eqb cell.2 (Next gp row.1 cell.1)))
         (map_to_list row.2))
    (map_to_list next) = true
  ↔ ∃ src dst p, lookup2 next src dst = Some p
                 ∧ ptr_eqb p (Next gp src dst) = false.
Proof.
  rewrite existsb_exists. split.
  - intros ([src row] & Hrow & H). apply existsb_exists in H
      as ([dst p] & Hcell & H). simpl in *.
    apply list_elem_of_In, elem_of_map_to_list in Hrow, Hcell.
    exists src, dst, p. split; [|now apply negb_true_iff].
    unfold lookup2. now rewrite Hrow.
  - intros (src & dst & p & Hl & H). unfold lookup2 in Hl.
    destruct (next !! src) as [row|] eqn:Hrow; [|discriminate].
    exists (src, row). split; [now apply list_elem_of_In, elem_of_map_to_list|].
    apply existsb_exists. exists (dst, p).
    split; [now apply list_elem_of_In, elem_of_map_to_list|].
    simpl. now apply negb_true_iff.
Qed.

(** The model with pointers and the one without agree.  On every path of
    [RecalculateNhTable] the graph that the call leaves is the one of the
    model above, its table is the table of the vertices pointed to, and
    with [checkchange] false the result is false. *)
Theorem RecalculateNhTable_ptr_refines (math_Pow : Q → Q → Q)
    (checkchange : bool) (gp : IGp) (now : Time) (vc vs vr va : list Vertex) :
  IGp_wf gp →
  ig (RecalculateNhTable_ptr math_Pow checkchange gp now vc vs vr va).2
  = RecalculateNhTable math_Pow (ig gp) now vc vs vr va
  ∧ IGp_wf (RecalculateNhTable_ptr math_Pow checkchange gp now vc vs vr va).2
  ∧ (checkchange = false →
     (RecalculateNhTable_ptr math_Pow checkchange gp now vc vs vr va).1
     = false).
Proof.
  intros Hwf. unfold RecalculateNhTable_ptr, RecalculateNhTable.
  destruct (StaticMode (ig gp)).
  { simpl. split; [reflexivity|]. split; [exact Hwf|].
    intros ->. now destruct (bool_decide _). }
  destruct (negb (ShouldCalculate math_Pow (ig gp) now vc)); [simpl; auto|].
  destruct (_ <? _)%Z; [|simpl; auto].
  pose proof (FloydWarshall_values false (ig gp) now vs vr va (next_addr gp))
    as Hval.
  pose proof (FloydWarshall_addrs false (ig gp) now vs vr va (next_addr gp))
    as [Hlo Haddr].
  destruct (FloydWarshall_ptr false (ig gp) now vs vr va (next_addr gp))
    as [[[[d n] e] g'] fresh].
  unfold values_result in Hval. cbn [fst snd] in *. rewrite <- Hval.
  split; [reflexivity|]. split.
  - split; [reflexivity|]. simpl. intros u v p Hp.
    now destruct (Haddr u v p Hp).
  - intros ->. reflexivity.
Qed.

(** [changed] does not tell whether the routes changed.  When
    [RecalculateNhTable(true)] recomputes the table (dynamic mode,
    [ShouldCalculate], cool-down over) of a graph without negative weights,
    its result is true exactly when the new table holds at least one next
    hop: every pointer of the new table has just been allocated, so it
    differs from the pointer that [g.Next] finds in the old table whatever
    vertex that one points to. *)
Theorem RecalculateNhTable_ptr_changed (math_Pow : Q → Q → Q) (gp : IGp)
    (now : Time) (vc vs vr va : list Vertex) :
  IGp_wf gp → is_range_order vs (Vert (ig gp)) → graph_wf (ig gp) →
  (∀ a b, 0 <= Weight (ig gp) now a b) →
  StaticMode (ig gp) = false →
  ShouldCalculate math_Pow (ig gp) now vc = true →
  (recalculateTime (ig gp) + RecalculateCoolDown (ig gp) < now)%Z →
  (RecalculateNhTable_ptr math_Pow true gp now vc vs vr va).1 = true
  ↔ ∃ u v,
      next_at
        (nhTable (ig (RecalculateNhTable_ptr math_Pow true gp now vc vs vr va).2))
        u v ≠ None.
Proof.
  intros [_ Hold] Hvs Hwf Hnn Hstatic Hcalc Hcool.
  unfold RecalculateNhTable_ptr. rewrite Hstatic, Hcalc. cbn [negb].
  apply Z.ltb_lt in Hcool. rewrite Hcool.
  pose proof (FloydWarshall_values false (ig gp) now vs vr va (next_addr gp))
    as Hval.
  pose proof (FloydWarshall_addrs false (ig gp) now vs vr va (next_addr gp))
    as [Hlo Haddr].
  destruct (fw_run_nonneg_routes (ig gp) now vs Hvs Hwf Hnn)
    as (dist & next & g1 & Hrun & Hneg & _).
  pose proof (fw_run_no_nil (ig gp) now vs dist next g1 Hnn Hrun) as Hnil.
  pose proof (FloydWarshall_of_run false (ig gp) now vs vr va dist next g1 Hrun
                Hneg) as HFW.
  destruct (FloydWarshall_ptr false (ig gp) now vs vr va (next_addr gp))
    as [[[[d n] e] g'] fresh].
  unfold values_result in Hval. cbn [fst snd] in Hval, Hlo, Haddr.
  rewrite HFW in Hval. injection Hval as -> Hn -> ->.
  cbn [fst snd ig andb]. change (nhTable (set_tables g1 dist (values n) now))
    with (values n).
  rewrite check_loop_spec. split.
  - intros (src & dst & p & Hl & _). exists src, dst.
    rewrite next_at_values. unfold ptr_at. rewrite Hl.
    destruct p as [q|]; [discriminate|]. exfalso.
    apply (Hnil src dst). rewrite <- Hn, lookup2_values, Hl. reflexivity.
  - intros (u & v & Hne). rewrite next_at_values in Hne. unfold ptr_at in Hne.
    destruct (lookup2 n u v) as [[q|]|] eqn:Hl; try (now exfalso).
    exists u, v, (Some q). split; [exact Hl|].
    apply bool_decide_eq_false. rewrite Next_ptr_at. unfold ptr_at.
    destruct (Haddr u v q Hl) as [Hge _].
    destruct (lookup2 (nhTable_ptr gp) u v) as [[q'|]|] eqn:Hq; simpl;
      try discriminate.
    intros E. injection E as E. pose proof (Hold u v q' Hq). lia.
Qed.

Lemma elem_of_cells {A : Type} (m : gmap Vertex (gmap Vertex A))
    (u v : Vertex) (x : A) :
  (u, v, x) ∈ cells m ↔ lookup2 m u v = Some x.
Proof.
  unfold cells, lookup2. rewrite list_elem_of_In, in_flat_map. split.
  - intros ([u' row] & Hrow & Hc). apply in_map_iff in Hc
      as ([v' x'] & E & Hc). simpl in E. injection E as -> -> ->.
    apply list_elem_of_In, elem_of_map_to_list in Hrow, Hc.
    now rewrite Hrow.
  - intros H. destruct (m !! u) as [row|] eqn:Hrow; [|discriminate].
    exists (u, row). split; [now apply list_elem_of_In, elem_of_map_to_list|].
    apply in_map_iff. exists (v, x). split; [reflexivity|].
    now apply list_elem_of_In, elem_of_map_to_list.
Qed.

Lemma graph_wfb_correct (g : IG) : graph_wfb g = true → graph_wf g.
Proof.
  unfold graph_wfb. rewrite forallb_forall. intros H u v [l Hl].
  apply elem_of_cells, list_elem_of_In, H in Hl. simpl in Hl.
  apply andb_true_iff in Hl as [H1 H2].
  split; [now apply bool_decide_eq_true in H1|
          now apply bool_decide_eq_true in H2].
Qed.

Lemma weights_nonnegb_correct (g : IG) (now : Time) :
  weights_nonnegb g now = true → ∀ a b, 0 <= Weight g now a b.
Proof.
  unfold weights_nonnegb. rewrite forallb_forall. intros H a b.
  destruct (lookup2 (edges g) a b) as [l|] eqn:Hl.
  - apply elem_of_cells, list_elem_of_In, H in Hl. simpl in Hl.
    now apply Qle_bool_iff in Hl.
  - rewrite Weight_lookup2, Hl. destruct (decide (a = b)); unfold Infinity; lra.
Qed.

Lemma IGp_wfb_correct (gp : IGp) : IGp_wfb gp = true → IGp_wf gp.
Proof.
  unfold IGp_wfb. rewrite andb_true_iff, forallb_forall. intros [H1 H2].
  split; [now apply bool_decide_eq_true in H1|].
  intros u v p Hp. apply elem_of_cells, list_elem_of_In, H2 in Hp.
  simpl in Hp. now apply bool_decide_eq_true in Hp.
Qed.

Lemma RecalculateNhTable_ptr_changed_witness :
  (RecalculateNhTable_ptr pow_exponent_one true gp_measured_again
     10000000000%Z [1%N; 2%N] [1%N; 2%N] [1%N; 2%N] [1%N; 2%N]).1 = true
  ↔ ∃ u v,
      next_at
        (nhTable
           (ig (RecalculateNhTable_ptr pow_exponent_one true gp_measured_again
                  10000000000%Z [1%N; 2%N] [1%N; 2%N] [1%N; 2%N] [1%N; 2%N]).2))
        u v ≠ None.
Proof.
  apply (RecalculateNhTable_ptr_changed pow_exponent_one gp_measured_again
           10000000000%Z [1%N; 2%N] [1%N; 2%N] [1%N; 2%N] [1%N; 2%N]).
  - apply IGp_wfb_correct. vm_compute. reflexivity.
  - apply is_range_order_dom.
    + refine (bool_decide_unpack _ _). vm_compute. exact I.
    + vm_compute. reflexivity.
  - apply graph_wfb_correct. vm_compute. reflexivity.
  - apply weights_nonnegb_correct. vm_compute. reflexivity.
  - reflexivity.
  - vm_compute. reflexivity.
  - vm_compute. reflexivity.
Defined.

(** On the example the link 1 -> 2 has gone from 21 ms to 30 ms: the route
    is the same and [changed] is true. *)
Example RecalculateNhTable_ptr_same_routes :
  (RecalculateNhTable_ptr pow_exponent_one true gp_measured_again
     10000000000%Z [1%N; 2%N] [1%N; 2%N] [1%N; 2%N] [1%N; 2%N]).1 = true
  ∧ nhTable
      (ig (RecalculateNhTable_ptr pow_exponent_one true gp_measured_again
             10000000000%Z [1%N; 2%N] [1%N; 2%N] [1%N; 2%N] [1%N; 2%N]).2)
    = nhTable (ig gp_measured_again).
Proof. vm_compute. split; reflexivity. Qed.

Lemma RecalculateNhTable_ptr_refines_witness :
  ig (RecalculateNhTable_ptr pow_exponent_one false gp_measured_again
        10000000000%Z [1%N; 2%N] [1%N; 2%N] [1%N; 2%N] [1%N; 2%N]).2
  = RecalculateNhTable pow_exponent_one (ig gp_measured_again) 10000000000%Z
      [1%N; 2%N] [1%N; 2%N] [1%N; 2%N] [1%N; 2%N]
  ∧ IGp_wf (RecalculateNhTable_ptr pow_exponent_one false gp_measured_again
              10000000000%Z [1%N; 2%N] [1%N; 2%N] [1%N; 2%N] [1%N; 2%N]).2
  ∧ (false = false →
     (RecalculateNhTable_ptr pow_exponent_one false gp_measured_again
        10000000000%Z [1%N; 2%N] [1%N; 2%N] [1%N; 2%N] [1%N; 2%N]).1
     = false).
Proof.
  apply (RecalculateNhTable_ptr_refines pow_exponent_one false
           gp_measured_again 10000000000%Z [1%N; 2%N] [1%N; 2%N] [1%N; 2%N]
           [1%N; 2%N]).
  apply IGp_wfb_correct. vm_compute. reflexivity.
Defined.

(** ** main.Event_server_event_hendler: the hash is one table behind *)

Lemma le_bytes_length (k : nat) (x : Z) : length (MD5.le_bytes k x) = k.
Proof. unfold MD5.le_bytes. now rewrite length_map, length_seq. Qed.

Lemma MD5_sum_length (msg : list byte) : length (MD5.sum msg) = 16%nat.
Proof.
  unfold MD5.sum.
  destruct (MD5.blocks _ _ _) as [[[a b] c] d].
  rewrite length_map, !length_app, !le_bytes_length. reflexivity.
Qed.

Lemma hex_EncodeToString_length (bs : list byte) :
  length (hex_EncodeToString bs) = (2 * length bs)%nat.
Proof.
  unfold hex_EncodeToString. induction bs as [|b bs IH]; simpl; [reflexivity|].
  rewrite IH. lia.
Qed.

Lemma hex_digit_not_zero (n : N) : (n < 16)%N → hex_digit n ≠ x00.
Proof.
  intros Hn. unfold hex_digit.
  assert (n ∈ [0; 1; 2; 3; 4; 5; 6; 7; 8; 9; 10; 11; 12; 13; 14; 15]%N) as Hin.
  { apply list_elem_of_In.
    assert (n = N.of_nat (N.to_nat n)) as -> by lia.
    assert (N.to_nat n < 16)%nat as Hlt by lia. revert Hlt.
    generalize (N.to_nat n). intros m Hm.
    do 16 (destruct m as [|m]; [simpl; tauto|]). lia. }
  repeat (apply elem_of_cons in Hin as [->|Hin]; [vm_compute; discriminate|]).
  inversion Hin.
Qed.

Lemma hex_EncodeToString_head (b : byte) (bs : list byte) :
  ∃ c rest, hex_EncodeToString (b :: bs) = c :: rest ∧ c ≠ x00.
Proof.
  unfold hex_EncodeToString. simpl. eexists _, _. split; [reflexivity|].
  apply hex_digit_not_zero. apply N.Div0.div_lt_upper_bound.
  pose proof (Byte.to_N_bounded b). lia.
Qed.

Lemma digest_not_zero (msg : list byte) :
  hex_EncodeToString (MD5.sum msg) ≠ repeat x00 32.
Proof.
  pose proof (MD5_sum_length msg) as Hlen.
  destruct (MD5.sum msg) as [|b bs]; [discriminate|].
  destruct (hex_EncodeToString_head b bs) as (c & rest & -> & Hc).
  simpl. intros E. injection E as E _. contradiction.
Qed.

Lemma digest_length (msg : list byte) :
  length (hex_EncodeToString (MD5.sum msg)) = 32%nat.
Proof. now rewrite hex_EncodeToString_length, MD5_sum_length. Qed.

(** The published hash is one table behind.  Of two consecutive
    publications, the hash that the second one publishes (in
    [http_NhTable_Hash] and in [graph.NhTableHash], both entirely
    overwritten) is the digest of the table of the first. *)
Theorem publish_NhTable_one_behind (GetByte : list byte → option (list byte))
    (eg_packet : list byte → list byte)
    (json_Marshal : NextHopTable → list byte) (st : Super) (now1 now2 : Time)
    (NhTable1 NhTable2 : NextHopTable) :
  length (http_NhTable_Hash st) = 32%nat →
  length (NhTableHash (http_graph st)) = 32%nat →
  let st1 :=
    (publish_NhTable GetByte eg_packet MD5.sum json_Marshal st now1
       NhTable1).1 in
  let st2 :=
    (publish_NhTable GetByte eg_packet MD5.sum json_Marshal st1 now2
       NhTable2).1 in
  http_NhTable_Hash st1
  = hex_EncodeToString (MD5.sum (http_NhTableStr st ++ http_HashSalt st))
  ∧ http_NhTable_Hash st2
    = hex_EncodeToString (MD5.sum (json_Marshal NhTable1 ++ http_HashSalt st))
  ∧ NhTableHash (http_graph st2) = http_NhTable_Hash st2
  ∧ http_NhTableStr st2 = json_Marshal NhTable2.
Proof.
  intros H1 H2 st1 st2. unfold st2, st1, publish_NhTable. simpl.
  set (d0 := hex_EncodeToString
               (MD5.sum (http_NhTableStr st ++ http_HashSalt st))).
  set (d1 := hex_EncodeToString
               (MD5.sum (json_Marshal NhTable1 ++ http_HashSalt st))).
  assert (go_copy (http_NhTable_Hash st) d0 = d0) as ->
    by (apply go_copy_same_length; unfold d0; now rewrite digest_length).
  assert (go_copy (NhTableHash (http_graph st)) d0 = d0) as ->
    by (apply go_copy_same_length; unfold d0; now rewrite digest_length).
  assert (go_copy d0 d1 = d1) as ->
    by (apply go_copy_same_length; unfold d0, d1; now rewrite !digest_length).
  auto.
Qed.

Lemma publish_NhTable_one_behind_witness :
  http_NhTable_Hash
    (publish_NhTable Some (cons x00) MD5.sum json_Marshal_NextHopTable
       super_example 100000000000%Z NhTable_example).1
  = hex_EncodeToString
      (MD5.sum (http_NhTableStr super_example ++ http_HashSalt super_example))
  ∧ http_NhTable_Hash
      (publish_NhTable Some (cons x00) MD5.sum json_Marshal_NextHopTable
         (publish_NhTable Some (cons x00) MD5.sum json_Marshal_NextHopTable
            super_example 100000000000%Z NhTable_example).1
         101000000000%Z NhTable_example').1
    = hex_EncodeToString
        (MD5.sum (json_Marshal_NextHopTable NhTable_example
                  ++ http_HashSalt super_example))
  ∧ NhTableHash
      (http_graph
         (publish_NhTable Some (cons x00) MD5.sum json_Marshal_NextHopTable
            (publish_NhTable Some (cons x00) MD5.sum json_Marshal_NextHopTable
               super_example 100000000000%Z NhTable_example).1
            101000000000%Z NhTable_example').1)
    = http_NhTable_Hash
        (publish_NhTable Some (cons x00) MD5.sum json_Marshal_NextHopTable
           (publish_NhTable Some (cons x00) MD5.sum json_Marshal_NextHopTable
              super_example 100000000000%Z NhTable_example).1
           101000000000%Z NhTable_example').1
  ∧ http_NhTableStr
      (publish_NhTable Some (cons x00) MD5.sum json_Marshal_NextHopTable
         (publish_NhTable Some (cons x00) MD5.sum json_Marshal_NextHopTable
            super_example 100000000000%Z NhTable_example).1
         101000000000%Z NhTable_example').1
    = json_Marshal_NextHopTable NhTable_example'.
Proof.
  apply (publish_NhTable_one_behind Some (cons x00) json_Marshal_NextHopTable
           super_example 100000000000%Z 101000000000%Z NhTable_example
           NhTable_example'); reflexivity.
Defined.

(** In static mode a change is reported until the table has been published
    once.  [RecalculateNhTable(true)] returns true while [NhTableHash] is
    all zero, as [NewGraph] and [SetNHTable(..., [32]byte{})] leave it; the
    publication writes a digest there, which is never all zero, and from
    then on the result is false.  The graph is not touched. *)
Theorem RecalculateNhTable_static_once (math_Pow : Q → Q → Q)
    (GetByte : list byte → option (list byte))
    (eg_packet : list byte → list byte)
    (json_Marshal : NextHopTable → list byte) (st : Super) (now now' : Time)
    (NhTable : NextHopTable) (nh : PtrTable) (fresh : positive)
    (vc vs vr va : list Vertex) :
  StaticMode (http_graph st) = true →
  length (NhTableHash (http_graph st)) = 32%nat →
  let st' :=
    (publish_NhTable GetByte eg_packet MD5.sum json_Marshal st now NhTable).1 in
  (NhTableHash (http_graph st) = repeat x00 32 →
   RecalculateNhTable_ptr math_Pow true (mkIGp (http_graph st) nh fresh) now
     vc vs vr va
   = (true, mkIGp (http_graph st) nh fresh))
  ∧ RecalculateNhTable_ptr math_Pow true (mkIGp (http_graph st') nh fresh)
      now' vc vs vr va
    = (false, mkIGp (http_graph st') nh fresh).
Proof.
  intros Hstatic Hlen st'. split.
  - intros Hzero. unfold RecalculateNhTable_ptr. simpl.
    rewrite Hstatic, Hzero. now rewrite bool_decide_eq_true_2.
  - unfold RecalculateNhTable_ptr, st', publish_NhTable. simpl.
    rewrite Hstatic. rewrite go_copy_same_length
      by now rewrite digest_length.
    rewrite bool_decide_eq_false_2 by apply digest_not_zero.
    reflexivity.
Qed.

Lemma RecalculateNhTable_static_once_witness :
  (NhTableHash (http_graph super_static) = repeat x00 32 →
   RecalculateNhTable_ptr pow_exponent_one true
     (mkIGp (http_graph super_static) ∅ 1) 100000000000%Z [] [] [] []
   = (true, mkIGp (http_graph super_static) ∅ 1))
  ∧ RecalculateNhTable_ptr pow_exponent_one true
      (mkIGp
         (http_graph
            (publish_NhTable Some (cons x00) MD5.sum json_Marshal_NextHopTable
               super_static 100000000000%Z NhTable_example).1) ∅ 1)
      101000000000%Z [] [] [] []
    = (false,
       mkIGp
         (http_graph
            (publish_NhTable Some (cons x00) MD5.sum json_Marshal_NextHopTable
               super_static 100000000000%Z NhTable_example).1) ∅ 1).
Proof.
  apply (RecalculateNhTable_static_once pow_exponent_one Some (cons x00)
           json_Marshal_NextHopTable super_static 100000000000%Z
           101000000000%Z NhTable_example ∅ 1 [] [] [] []); reflexivity.
Defined.

(** ** path.Path on any table *)

Lemma Path_loop_follows (next : NextHopTable) (v : Vertex) :
  ∀ fuel x acc p,
    Path_loop fuel next x v acc = Returns p →
    ∃ q, follows (next_at next) v x q ∧ p = acc ++ tail q
         ∧ (length q <= S fuel)%nat.
Proof.
  induction fuel as [|fuel IH]; intros x acc p H; simpl in H.
  - destruct (decide (x = v)) as [->|Hne]; [|discriminate].
    injection H as <-. exists [v]. split; [apply follows_here|].
    split; [now rewrite app_nil_r|simpl; lia].
  - destruct (decide (x = v)) as [->|Hne].
    + injection H as <-. exists [v]. split; [apply follows_here|].
      split; [now rewrite app_nil_r|simpl; lia].
    + destruct (next_at next x v) as [m|] eqn:EN; [|discriminate].
      destruct (IH m (acc ++ [m]) p H) as (q & Hq & -> & Hlen).
      exists (x :: q). split; [now apply (follows_step _ v x m)|].
      split; [|simpl; lia].
      pose proof (follows_head _ _ _ _ Hq) as Hh.
      destruct q as [|y q]; [discriminate|]. injection Hh as ->.
      simpl. now rewrite <- app_assoc.
Qed.

(** [Path] returns the chain of the next hops.  On any table, [Path u v]
    returns the empty list exactly when [next[u][v]] is nil; otherwise, if
    it returns, the list starts at [u], ends at [v], and each of its
    vertices but the last, which is the only occurrence of [v], is followed
    by the next hop that the table gives from it towards [v]. *)
Theorem Path_spec (fuel : nat) (u v : Vertex) (next : NextHopTable)
    (p : list Vertex) :
  Path fuel u v next = Returns p
  ↔ (next_at next u v = None ∧ p = [])
    ∨ (next_at next u v ≠ None ∧ follows (next_at next) v u p
       ∧ (length p <= S fuel)%nat).
Proof.
  unfold Path. split.
  - destruct (next_at next u v) as [m|] eqn:EN.
    + intros H. right. split; [discriminate|].
      destruct (Path_loop_follows next v fuel u [u] p H) as (q & Hq & -> & Hlen).
      pose proof (follows_head _ _ _ _ Hq) as Hh.
      destruct q as [|y q]; [discriminate|]. injection Hh as ->. auto.
    + intros H. injection H as <-. now left.
  - intros [[-> ->]|(Hne & Hp & Hlen)]; [reflexivity|].
    destruct (next_at next u v) as [m|]; [|contradiction].
    rewrite (follows_Path_loop next v u p Hp) by exact Hlen.
    pose proof (follows_head _ _ _ _ Hp) as Hh.
    destruct p as [|y p]; [discriminate|]. injection Hh as ->. reflexivity.
Qed.

(** ** path.GetEdges *)

Lemma GetEdges_row (f : Vertex → Vertex → Q) (src : Vertex)
    (vs : list Vertex) :
  ∀ (done : list Vertex) (e : DistTable),
    (∀ a b, lookup2 e a b
            = if decide (a = src)
              then if decide (b ∈ done ∧ b ≠ src) then Some (f src b) else None
              else lookup2 e a b) →
    is_Some (e !! src) →
    let e' := foldl (fun edges dst =>
                       if decide (src = dst) then edges
                       else insert2 src dst (f src dst) edges) e vs in
    (∀ a b, lookup2 e' a b
            = if decide (a = src)
              then if decide (b ∈ done ++ vs ∧ b ≠ src) then Some (f src b)
                   else None
              else lookup2 e a b)
    ∧ (∀ a, is_Some (e' !! a) ↔ is_Some (e !! a)).
Proof.
  induction vs as [|x vs IH]; intros done e He Hrow; simpl.
  - rewrite app_nil_r. split; [exact He|reflexivity].
  - destruct (decide (src = x)) as [<-|Hne].
    + destruct (IH (done ++ [src]) e) as [H1 H2]; [|exact Hrow|].
      { intros a b. rewrite He. destruct (decide (a = src)); [|reflexivity].
        destruct (decide (b ∈ done ∧ b ≠ src)) as [[Hb Hbs]|Hno].
        - rewrite decide_True; [reflexivity|].
          split; [apply elem_of_app; now left|exact Hbs].
        - rewrite decide_False; [reflexivity|]. intros [Hb Hbs].
          apply elem_of_app in Hb as [Hb|Hb]; [tauto|].
          apply list_elem_of_singleton in Hb. contradiction. }
      split; [|exact H2]. intros a b. rewrite H1.
      now rewrite <- app_assoc.
    + destruct (IH (done ++ [x]) (insert2 src x (f src x) e)) as [H1 H2].
      { intros a b. rewrite lookup2_insert2.
        destruct (decide (a = src)) as [->|Ha].
        - destruct (decide (src = src ∧ b = x)) as [[_ ->]|Hno].
          + rewrite decide_True; [reflexivity|].
            split; [apply elem_of_app; right; now left|congruence].
          + rewrite He, decide_True by reflexivity.
            destruct (decide (b ∈ done ∧ b ≠ src)) as [[Hb Hbs]|Hno'].
            * rewrite decide_True; [reflexivity|].
              split; [apply elem_of_app; now left|exact Hbs].
            * rewrite decide_False; [reflexivity|]. intros [Hb Hbs].
              apply elem_of_app in Hb as [Hb|Hb]; [tauto|].
              apply list_elem_of_singleton in Hb. tauto.
        - now rewrite decide_False by tauto. }
      { now apply insert2_row_is_Some. }
      split.
      * intros a b. rewrite H1, <- app_assoc. simpl.
        destruct (decide (a = src)) as [->|Ha]; [reflexivity|].
        rewrite lookup2_insert2. now rewrite decide_False by tauto.
      * intros a. rewrite H2. unfold insert2.
        rewrite lookup_insert_is_Some. split.
        -- intros [<-|[_ ?]]; [exact Hrow|assumption].
        -- intros Ha. destruct (decide (src = a)); [now left|now right].
Qed.

Lemma GetEdges_rows (f : Vertex → Vertex → Q) (V : Vertex → Prop)
    (vd : Vertex → list Vertex) :
  (∀ s b, b ∈ vd s ↔ V b) →
  ∀ (vs done : list Vertex) (e : gmap Vertex (gmap Vertex Q)),
    (∀ a b, lookup2 e a b
            = if decide (a ∈ done ∧ b ∈ vd a ∧ a ≠ b) then Some (f a b)
              else None) →
    (∀ a, is_Some (e !! a) ↔ a ∈ done) →
    let e' := foldl (fun edges src =>
                       foldl (fun edges dst =>
                                if decide (src = dst) then edges
                                else insert2 src dst (f src dst) edges)
                             (<[src := ∅]> edges) (vd src)) e vs in
    (∀ a b, lookup2 e' a b
            = if decide (a ∈ done ++ vs ∧ b ∈ vd a ∧ a ≠ b) then Some (f a b)
              else None)
    ∧ (∀ a, is_Some (e' !! a) ↔ a ∈ done ++ vs).
Proof.
  intros HV. induction vs as [|x vs IH]; intros done e He Hrows; simpl.
  - rewrite app_nil_r. split; [exact He|exact Hrows].
  - destruct (GetEdges_row f x (vd x) [] (<[x := ∅]> e)) as [H1 H2].
    { intros a b. destruct (decide (a = x)) as [->|Ha]; [|reflexivity].
      unfold lookup2. rewrite lookup_insert_eq, lookup_empty.
      rewrite decide_False; [reflexivity|].
      intros [Hb _]. now apply not_elem_of_nil in Hb. }
    { rewrite lookup_insert_eq. eauto. }
    cbn zeta in H1, H2. simpl in H1.
    destruct (IH (done ++ [x])
                (foldl (fun edges dst =>
                          if decide (x = dst) then edges
                          else insert2 x dst (f x dst) edges)
                       (<[x := ∅]> e) (vd x))) as [H3 H4]; cycle 2.
    { rewrite <- app_assoc in H3, H4. simpl in H3, H4. split; assumption. }
    + intros a b. rewrite H1.
      destruct (decide (a = x)) as [->|Ha].
      * destruct (decide (b ∈ vd x ∧ b ≠ x)) as [[Hb Hbx]|Hno].
        -- rewrite decide_True; [reflexivity|].
           split; [apply elem_of_app; right; now left|].
           split; [exact Hb|congruence].
        -- rewrite decide_False; [reflexivity|].
           intros (_ & Hb & Hbx). apply Hno. split; [exact Hb|congruence].
      * unfold lookup2. rewrite lookup_insert_ne by congruence.
        fold (lookup2 e a b). rewrite He.
        destruct (decide (a ∈ done ∧ b ∈ vd a ∧ a ≠ b)) as [(Hd & Hb & Hab)|Hno].
        -- rewrite decide_True; [reflexivity|].
           split; [apply elem_of_app; now left|tauto].
        -- rewrite decide_False; [reflexivity|].
           intros (Hd & Hb & Hab). apply Hno.
           apply elem_of_app in Hd as [Hd|Hd]; [tauto|].
           apply list_elem_of_singleton in Hd. contradiction.
    + intros a. rewrite H2, lookup_insert_is_Some, elem_of_app,
        list_elem_of_singleton, Hrows. split.
      * intros [<-|[_ ?]]; [now right|now left].
      * intros [Hd|Hd]; [|now left].
        destruct (decide (x = a)); [now left|now right].
Qed.

(** The matrix of weights that [GetEdges] returns has one row for each
    vertex of the graph and, in the row of [a], one entry for each vertex
    [b] other than [a]: the recorded weight with [isOld], the current
    weight otherwise.  The diagonal is left out, and the result does not
    depend on the orders in which the vertices are ranged. *)
Theorem GetEdges_spec (isOld : bool) (g : IG) (now : Time)
    (vs : list Vertex) (vd : Vertex → list Vertex) (a b : Vertex) :
  is_range_order vs (Vert g) → (∀ s, is_range_order (vd s) (Vert g)) →
  (is_Some (GetEdges isOld g now vs vd !! a) ↔ is_Some (Vert g !! a))
  ∧ lookup2 (GetEdges isOld g now vs vd) a b
    = if decide (is_Some (Vert g !! a) ∧ is_Some (Vert g !! b) ∧ a ≠ b)
      then Some (if isOld then OldWeight g a b else Weight g now a b)
      else None.
Proof.
  intros [_ Hvs] Hvd.
  destruct (GetEdges_rows
              (fun s d => if isOld then OldWeight g s d else Weight g now s d)
              (fun v => is_Some (Vert g !! v)) vd (fun s => proj2 (Hvd s))
              vs [] ∅) as [H1 H2].
  { intros x y. unfold lookup2. rewrite lookup_empty.
    rewrite decide_False; [reflexivity|].
    intros [Hx _]. now apply not_elem_of_nil in Hx. }
  { intros x. rewrite lookup_empty. split.
    - intros [? ?]; discriminate.
    - intros Hx. now apply not_elem_of_nil in Hx. }
  simpl in H1, H2. fold (GetEdges isOld g now vs vd) in H1, H2. split.
  - now rewrite H2, Hvs.
  - rewrite H1. pose proof (proj2 (Hvd a) b) as Hb.
    destruct (decide (a ∈ vs ∧ b ∈ vd a ∧ a ≠ b)) as [(Ha & Hb' & Hab)|Hno].
    + rewrite decide_True; [reflexivity|]. rewrite <- Hvs, <- Hb. tauto.
    + rewrite decide_False; [reflexivity|]. rewrite <- Hvs, <- Hb. exact Hno.
Qed.

(** On the line 1 -> 2 -> 3. *)
Lemma GetEdges_spec_witness :
  (is_Some (GetEdges false graph_line 0%Z [1%N; 2%N; 3%N]
              (fun _ => [3%N; 1%N; 2%N]) !! 1%N)
   ↔ is_Some (Vert graph_line !! 1%N))
  ∧ lookup2 (GetEdges false graph_line 0%Z [1%N; 2%N; 3%N]
               (fun _ => [3%N; 1%N; 2%N])) 1%N 3%N
    = if decide (is_Some (Vert graph_line !! 1%N)
                 ∧ is_Some (Vert graph_line !! 3%N) ∧ 1%N ≠ 3%N)
      then Some (Weight graph_line 0%Z 1%N 3%N)
      else None.
Proof.
  apply (GetEdges_spec false graph_line 0%Z [1%N; 2%N; 3%N]
           (fun _ => [3%N; 1%N; 2%N]) 1%N 3%N).
  - apply is_range_order_dom.
    + refine (bool_decide_unpack _ _). vm_compute. exact I.
    + vm_compute. reflexivity.
  - intros _. apply is_range_order_dom.
    + refine (bool_decide_unpack _ _). vm_compute. exact I.
    + vm_compute. reflexivity.
Defined.

(** ** conn.PrettyName *)

Lemma strings_HasSuffix_spec (s suf : list ascii) :
  strings_HasSuffix s suf = true ↔ suf `suffix_of` s.
Proof.
  unfold strings_HasSuffix. rewrite andb_true_iff, Nat.leb_le,
    bool_decide_eq_true. split.
  - intros [Hlen Hd]. exists (take (length s - length suf) s).
    pose proof (take_drop (length s - length suf) s) as E.
    rewrite Hd in E. now symmetry.
  - intros [p ->]. rewrite length_app. split; [lia|].
    replace (length p + length suf - length suf)%nat with (length p) by lia.
    now rewrite drop_app_length.
Qed.

Lemma strings_TrimSuffix_app (p suf : list ascii) :
  strings_TrimSuffix (p ++ suf) suf = p.
Proof.
  unfold strings_TrimSuffix.
  rewrite (proj2 (strings_HasSuffix_spec (p ++ suf) suf))
    by (now exists p).
  rewrite length_app.
  replace (length p + length suf - length suf)%nat with (length p) by lia.
  now rewrite take_app_length.
Qed.

Lemma strings_TrimSuffix_prefix (s suf : list ascii) :
  strings_TrimSuffix s suf `prefix_of` s.
Proof.
  unfold strings_TrimSuffix. destruct (strings_HasSuffix s suf).
  - apply prefix_take.
  - reflexivity.
Qed.

Lemma LastIndexByte_from_spec (s : list ascii) (c : ascii) :
  ∀ n, (n <= length s)%nat →
    match LastIndexByte_from s c n with
    | Some i => (i < n)%nat ∧ s !! i = Some c ∧ c ∉ drop (S i) (take n s)
    | None => c ∉ take n s
    end.
Proof.
  induction n as [|n IH]; intros Hn; simpl.
  - rewrite take_0. apply not_elem_of_nil.
  - destruct (lookup_lt_is_Some_2 s n ltac:(lia)) as [x Hx].
    rewrite (take_S_r _ _ _ Hx).
    destruct (bool_decide (s !! n = Some c)) eqn:E.
    + apply bool_decide_eq_true in E. split; [lia|]. split; [exact E|].
      rewrite drop_ge; [apply not_elem_of_nil|].
      rewrite length_app, length_take. simpl. lia.
    + apply bool_decide_eq_false in E. specialize (IH ltac:(lia)).
      assert (x ≠ c) as Hxc by congruence.
      destruct (LastIndexByte_from s c n) as [i|].
      * destruct IH as (Hi & Hs & Hno). split; [lia|]. split; [exact Hs|].
        rewrite drop_app_le by (rewrite length_take; lia).
        rewrite not_elem_of_app. split; [exact Hno|].
        rewrite list_elem_of_singleton. congruence.
      * rewrite not_elem_of_app. split; [exact IH|].
        rewrite list_elem_of_singleton. congruence.
Qed.

Lemma strings_LastIndexByte_spec (s : list ascii) (c : ascii) :
  match strings_LastIndexByte s c with
  | Some i => (i < length s)%nat ∧ s !! i = Some c ∧ c ∉ drop (S i) s
  | None => c ∉ s
  end.
Proof.
  pose proof (LastIndexByte_from_spec s c (length s) ltac:(lia)) as H.
  unfold strings_LastIndexByte. now rewrite firstn_all in H.
Qed.

Lemma cut_after_spec (c : ascii) (s : list ascii) :
  (c ∉ cut_after c s) ∧ (cut_after c s `suffix_of` s).
Proof.
  unfold cut_after. pose proof (strings_LastIndexByte_spec s c) as H.
  destruct (strings_LastIndexByte s c) as [i|].
  - split; [tauto|apply suffix_drop].
  - split; [exact H|reflexivity].
Qed.

Lemma cut_after_app (c : ascii) (p q : list ascii) :
  c ∉ q → ∃ p', cut_after c (p ++ q) = p' ++ q.
Proof.
  intros Hq. unfold cut_after.
  pose proof (strings_LastIndexByte_spec (p ++ q) c) as H.
  destruct (strings_LastIndexByte (p ++ q) c) as [i|]; [|now exists p].
  destruct H as (Hi & Hs & _).
  destruct (decide (i < length p)%nat) as [Hlt|Hge].
  - exists (drop (S i) p). apply drop_app_le. lia.
  - exfalso. apply Hq. rewrite lookup_app_r in Hs by lia.
    now apply list_elem_of_lookup_2 in Hs.
Qed.

Lemma scan_digits_le (name : list ascii) (n : nat) :
  (scan_digits name n <= n)%nat.
Proof.
  induction n as [|n IH]; simpl; [lia|].
  destruct (name !! n) as [c|]; [|lia]. destruct (not_digit c); lia.
Qed.

Lemma scan_digits_app (p q : list ascii) (n : nat) :
  (n <= length p)%nat → scan_digits (p ++ q) n = scan_digits p n.
Proof.
  induction n as [|n IH]; intros Hn; simpl; [reflexivity|].
  rewrite lookup_app_l by lia. rewrite IH by lia. reflexivity.
Qed.

Lemma scan_digits_digits (p d : list ascii) :
  Forall (fun c => not_digit c = false) d →
  scan_digits (p ++ d) (length (p ++ d)) = scan_digits p (length p).
Proof.
  induction d as [|c d IH] using rev_ind; intros Hd.
  - now rewrite app_nil_r.
  - apply Forall_app in Hd as [Hd Hc]. apply (proj1 (Forall_singleton _ _)) in Hc.
    cbv beta in Hc.
    rewrite app_assoc, length_app. simpl.
    rewrite Nat.add_1_r. simpl.
    rewrite lookup_app_r, Nat.sub_diag by lia. simpl. rewrite Hc.
    rewrite scan_digits_app by lia. now apply IH.
Qed.

Lemma scan_digits_stop (p : list ascii) (c : ascii) :
  not_digit c = true →
  scan_digits (p ++ [c]) (length (p ++ [c])) = length (p ++ [c]).
Proof.
  intros Hc. rewrite length_app. simpl. rewrite Nat.add_1_r. simpl.
  rewrite lookup_app_r, Nat.sub_diag by lia. simpl. now rewrite Hc.
Qed.

(** The loop takes off one closure suffix. *)
Lemma PrettyName_loop_step (fuel : nat) (p d : list ascii) :
  number d →
  PrettyName_loop (S fuel) (p ++ dotFunc ++ d) = PrettyName_loop fuel p.
Proof.
  intros [Hne Hd].
  assert (scan_digits (p ++ dotFunc ++ d) (length (p ++ dotFunc ++ d))
          = length (p ++ dotFunc)) as Hscan.
  { rewrite app_assoc, scan_digits_digits by exact Hd.
    unfold dotFunc, bytes_of. simpl list_ascii_of_string.
    change (p ++ [".";"f";"u";"n";"c"]%char)
      with (p ++ [".";"f";"u";"n"]%char ++ ["c"%char]).
    rewrite app_assoc. now apply scan_digits_stop. }
  cbn [PrettyName_loop]. rewrite Hscan.
  assert (length (p ++ dotFunc) ≠ length (p ++ dotFunc ++ d)) as Hlen.
  { rewrite !length_app. destruct d; [contradiction|simpl; lia]. }
  apply Nat.eqb_neq in Hlen. rewrite Hlen.
  rewrite (app_assoc p dotFunc d), take_app_length.
  rewrite (proj2 (strings_HasSuffix_spec (p ++ dotFunc) dotFunc))
    by (now exists p).
  cbn [negb]. rewrite length_app, Nat.add_sub.
  now rewrite <- app_assoc, take_app_length.
Qed.

Lemma closures_snoc (ds : list (list ascii)) (d : list ascii) :
  closures (ds ++ [d]) = closures ds ++ dotFunc ++ d.
Proof.
  unfold closures. rewrite map_app, concat_app. simpl.
  now rewrite app_nil_r.
Qed.

Lemma PrettyName_loop_closures (p : list ascii) (ds : list (list ascii)) :
  Forall number ds →
  ∀ fuel, (length ds <= fuel)%nat →
    PrettyName_loop fuel (p ++ closures ds)
    = PrettyName_loop (fuel - length ds) p.
Proof.
  induction ds as [|d ds IH] using rev_ind; intros Hds fuel Hfuel.
  - unfold closures. simpl. now rewrite app_nil_r, Nat.sub_0_r.
  - apply Forall_app in Hds as [Hds Hd]. apply (proj1 (Forall_singleton _ _)) in Hd.
    rewrite length_app in *. simpl in *.
    destruct fuel as [|fuel]; [lia|].
    rewrite closures_snoc, app_assoc, PrettyName_loop_step by exact Hd.
    rewrite IH by (assumption || lia). f_equal. lia.
Qed.

Lemma closures_elem (c : ascii) (ds : list (list ascii)) :
  c ∈ closures ds → c ∈ dotFunc ∨ ∃ d, d ∈ ds ∧ c ∈ d.
Proof.
  induction ds as [|d ds IH].
  - intros H. now apply not_elem_of_nil in H.
  - change (closures (d :: ds)) with ((dotFunc ++ d) ++ closures ds).
    rewrite !elem_of_app. intros [[H|H]|H].
    + now left.
    + right. exists d. split; [left|exact H].
    + destruct (IH H) as [?|(d' & Hd' & ?)]; [now left|].
      right. exists d'. split; [now right|assumption].
Qed.

(** A name that ends in a letter and one digit is left as it is. *)
Lemma PrettyName_loop_family (fuel : nat) (q : list ascii) (c d : ascii) :
  not_digit c = true → not_digit d = false → c ≠ "c"%char →
  PrettyName_loop fuel (q ++ [c; d]) = Returns (q ++ [c; d]).
Proof.
  intros Hc Hd Hcc.
  assert (scan_digits (q ++ [c; d]) (length (q ++ [c; d]))
          = length (q ++ [c])) as Hscan.
  { change (q ++ [c; d]) with (q ++ [c] ++ [d]).
    rewrite app_assoc, scan_digits_digits
      by (now apply Forall_singleton).
    now apply scan_digits_stop. }
  destruct fuel; cbn [PrettyName_loop]; rewrite Hscan;
    (replace (length (q ++ [c]) =? length (q ++ [c; d]))%nat with false
       by (symmetry; apply Nat.eqb_neq; rewrite !length_app; simpl; lia));
    change (q ++ [c; d]) with (q ++ [c] ++ [d]);
    rewrite app_assoc, take_app_length;
    (destruct (strings_HasSuffix (q ++ [c]) dotFunc) eqn:E;
     [|reflexivity]);
    apply strings_HasSuffix_spec in E;
    change dotFunc with ([".";"f";"u";"n"]%char ++ ["c"%char]) in E;
    apply suffix_snoc_inv_1 in E; congruence.
Qed.

(** After the closures of a receive function are taken off, a name that
    ends in [IPv4] is shown as [v4] and one that ends in [IPv6] as [v6].
    For every name made of any prefix, [IPv] and the digit [4] or [6], the
    suffix [.funcN] of any number of closures, and with or without the
    suffix [-fm] of a method value, [PrettyName] returns [v] and the digit,
    as soon as the loop may run once for each closure. *)
Theorem PrettyName_family (fuel : nat) (pre addr : list ascii) (d : ascii)
    (ds : list (list ascii)) (fm : bool) :
  d = "4"%char ∨ d = "6"%char → Forall number ds →
  (length ds <= fuel)%nat →
  PrettyName fuel
    (pre ++ bytes_of "IPv" ++ [d] ++ closures ds
       ++ (if fm then bytes_of "-fm" else []))
    addr
  = Returns ("v"%char :: [d]).
Proof.
  intros Hd Hds Hfuel. unfold PrettyName.
  set (body := pre ++ bytes_of "IPv" ++ [d] ++ closures ds).
  assert (strings_TrimSuffix
            (pre ++ bytes_of "IPv" ++ [d] ++ closures ds
               ++ (if fm then bytes_of "-fm" else []))
            (bytes_of "-fm") = body) as ->.
  { destruct fm.
    - replace (pre ++ bytes_of "IPv" ++ [d] ++ closures ds ++ bytes_of "-fm")
        with (body ++ bytes_of "-fm")
        by (unfold body; now rewrite <- !app_assoc).
      apply strings_TrimSuffix_app.
    - rewrite app_nil_r. fold body. unfold strings_TrimSuffix.
      destruct (strings_HasSuffix body (bytes_of "-fm")) eqn:E;
        [|reflexivity].
      exfalso. apply strings_HasSuffix_spec in E.
      change (bytes_of "-fm") with (["-";"f"]%char ++ ["m"%char]) in E.
      unfold body in E.
      destruct ds as [|d0 ds0 _] using rev_ind.
      + change (closures []) with (@nil ascii) in E.
        rewrite app_nil_r, !app_assoc in E. apply suffix_snoc_inv_1 in E.
        destruct Hd; subst; discriminate.
      + apply Forall_app in Hds as [_ Hd0]. apply (proj1 (Forall_singleton _ _)) in Hd0.
        destruct Hd0 as [Hne Hdig]. rewrite closures_snoc in E.
        destruct d0 as [|x d0 _] using rev_ind; [contradiction|].
        apply Forall_app in Hdig as [_ Hx]. apply (proj1 (Forall_singleton _ _)) in Hx.
        cbv beta in Hx.
        rewrite !app_assoc in E. apply suffix_snoc_inv_1 in E.
        subst x. discriminate. }
  assert ("/"%char ∉ bytes_of "IPv" ++ [d] ++ closures ds) as Hslash.
  { rewrite !not_elem_of_app. split; [|split].
    - unfold bytes_of. simpl. rewrite !not_elem_of_cons.
      repeat split; try discriminate. apply not_elem_of_nil.
    - rewrite list_elem_of_singleton. destruct Hd; subst; discriminate.
    - intros Hin. apply closures_elem in Hin as [Hin|(d0 & Hd0 & Hin)].
      + unfold dotFunc, bytes_of in Hin. simpl in Hin.
        rewrite !elem_of_cons in Hin.
        destruct Hin as [?|[?|[?|[?|[?|Hin]]]]]; try discriminate.
        now apply not_elem_of_nil in Hin.
      + rewrite Forall_forall in Hds. destruct (Hds d0 Hd0) as [_ Hdig].
        rewrite Forall_forall in Hdig. specialize (Hdig _ Hin).
        discriminate. }
  destruct (cut_after_app "/"%char pre _ Hslash) as [pre' Hcut].
  unfold cut_after in Hcut. fold body in Hcut. rewrite Hcut. clear Hcut.
  replace (pre' ++ bytes_of "IPv" ++ [d] ++ closures ds)
    with ((pre' ++ bytes_of "IP" ++ ["v"%char; d]) ++ closures ds)
    by (now rewrite <- !app_assoc).
  rewrite PrettyName_loop_closures by assumption.
  rewrite app_assoc, PrettyName_loop_family;
    [|reflexivity|destruct Hd; subst; reflexivity|discriminate].
  cbn [obind]. rewrite <- app_assoc.
  assert ("."%char ∉ bytes_of "IP" ++ ["v"%char; d]) as Hdot.
  { unfold bytes_of. simpl. rewrite !not_elem_of_cons.
    repeat split; try discriminate; [|apply not_elem_of_nil].
    destruct Hd; subst; discriminate. }
  destruct (cut_after_app "."%char pre' _ Hdot) as [pre2 Hcut].
  unfold cut_after in Hcut. rewrite Hcut. clear Hcut.
  rewrite bool_decide_eq_false_2 by (now destruct pre2).
  destruct Hd as [-> | ->].
  - rewrite (proj2 (strings_HasSuffix_spec _ (bytes_of "IPv4")))
      by (now exists pre2).
    reflexivity.
  - destruct (strings_HasSuffix (pre2 ++ bytes_of "IP" ++ ["v"; "6"]%char)
                (bytes_of "IPv4")) eqn:E.
    + apply strings_HasSuffix_spec in E.
      change (pre2 ++ bytes_of "IP" ++ ["v"; "6"]%char)
        with (pre2 ++ bytes_of "IPv" ++ ["6"%char]) in E.
      change (bytes_of "IPv4") with (bytes_of "IPv" ++ ["4"%char]) in E.
      rewrite app_assoc in E. apply suffix_snoc_inv_1 in E. discriminate.
    + rewrite (proj2 (strings_HasSuffix_spec _ (bytes_of "IPv6")))
        by (now exists pre2).
      reflexivity.
Qed.

(** The name from the comment in the source. *)
Lemma PrettyName_family_witness :
  PrettyName 2 (bytes_of "cheese/taco.beansIPv6.func12.func21218-fm")
    (bytes_of "0xc000012345")
  = Returns (bytes_of "v6").
Proof.
  apply (PrettyName_family 2 (bytes_of "cheese/taco.beans")
           (bytes_of "0xc000012345") "6"%char
           [bytes_of "12"; bytes_of "21218"] true).
  - now right.
  - repeat constructor; discriminate.
  - simpl. lia.
Defined.

Lemma PrettyName_loop_returns :
  ∀ fuel name, (length name <= fuel)%nat →
    ∃ r, PrettyName_loop fuel name = Returns r ∧ r `prefix_of` name.
Proof.
  induction fuel as [|fuel IH]; intros name Hlen; cbn [PrettyName_loop];
    pose proof (scan_digits_le name (length name)) as Hle;
    destruct (scan_digits name (length name) =? length name)%nat eqn:E;
    try (exists name; split; reflexivity);
    destruct (strings_HasSuffix
                (take (scan_digits name (length name)) name) dotFunc);
    cbn [negb]; try (exists name; split; reflexivity);
    apply Nat.eqb_neq in E.
  - lia.
  - destruct (IH (take (scan_digits name (length name) - length dotFunc)
                    name)) as (r & Hr & Hpre).
    { rewrite length_take. lia. }
    exists r. split; [exact Hr|].
    etransitivity; [exact Hpre|apply prefix_take].
Qed.

Lemma not_elem_of_prefix (c : ascii) (l k : list ascii) :
  l `prefix_of` k → c ∉ k → c ∉ l.
Proof. intros [q ->] H Hin. apply H, elem_of_app. now left. Qed.

Lemma not_elem_of_suffix (c : ascii) (l k : list ascii) :
  l `suffix_of` k → c ∉ k → c ∉ l.
Proof. intros [q ->] H Hin. apply H, elem_of_app. now right. Qed.

(** [PrettyName] returns, with fuel for the length of the name, and what
    it returns is the formatted pointer or a label that is not empty and
    holds neither a slash nor a dot. *)
Theorem PrettyName_returns (fuel : nat) (name addr : list ascii) :
  (length name <= fuel)%nat →
  ∃ r, PrettyName fuel name addr = Returns r
       ∧ (r = addr ∨ (r ≠ [] ∧ ("/"%char ∉ r) ∧ ("."%char ∉ r))).
Proof.
  intros Hlen. unfold PrettyName.
  set (n1 := strings_TrimSuffix name (bytes_of "-fm")).
  fold (cut_after "/"%char n1).
  destruct (cut_after_spec "/"%char n1) as [Hslash Hsuf].
  destruct (PrettyName_loop_returns fuel (cut_after "/"%char n1))
    as (n3 & -> & Hpre).
  { apply suffix_length in Hsuf.
    pose proof (prefix_length _ _ (strings_TrimSuffix_prefix name
                                      (bytes_of "-fm"))).
    fold n1 in H. lia. }
  cbn [obind]. fold (cut_after "."%char n3).
  destruct (cut_after_spec "."%char n3) as [Hdot Hsuf3].
  assert ("/"%char ∉ cut_after "."%char n3) as Hslash3.
  { eapply not_elem_of_suffix; [exact Hsuf3|].
    eapply not_elem_of_prefix; [exact Hpre|exact Hslash]. }
  destruct (bool_decide (cut_after "."%char n3 = [])) eqn:E.
  { exists addr. split; [reflexivity|now left]. }
  apply bool_decide_eq_false in E.
  destruct (strings_HasSuffix (cut_after "."%char n3) (bytes_of "IPv4")).
  { exists (bytes_of "v4"). split; [reflexivity|]. right.
    split; [discriminate|]. unfold bytes_of. simpl.
    rewrite !not_elem_of_cons.
    repeat split; try discriminate; apply not_elem_of_nil. }
  destruct (strings_HasSuffix (cut_after "."%char n3) (bytes_of "IPv6")).
  { exists (bytes_of "v6"). split; [reflexivity|]. right.
    split; [discriminate|]. unfold bytes_of. simpl.
    rewrite !not_elem_of_cons.
    repeat split; try discriminate; apply not_elem_of_nil. }
  exists (cut_after "."%char n3). split; [reflexivity|]. right. tauto.
Qed.

(** A receive function of another package. *)
Lemma PrettyName_returns_witness :
  ∃ r, PrettyName 24 (bytes_of "net/conn.recvLoop.func1")
         (bytes_of "0xc000012345") = Returns r
       ∧ (r = bytes_of "0xc000012345"
          ∨ (r ≠ [] ∧ ("/"%char ∉ r) ∧ ("."%char ∉ r))).
Proof.
  apply (PrettyName_returns 24 (bytes_of "net/conn.recvLoop.func1")
           (bytes_of "0xc000012345")).
  simpl. lia.
Defined.

(** ** path.ShouldUpdate in binary64 *)



Example ShouldUpdate_rounds_at_the_threshold :
  Float64.ShouldUpdate (fun x _ => x) (fun x => x) graph64_threshold 1%N 2%N
    (Float64.seconds 292%Z) = true
  ∧ Qabs ((292 # 1000000000) * 1000 - (5050800 # 1000000000) * 1000)
    == 5 + Qmax ((5050800 # 1000000000) * 1000) ((292 # 1000000000) * 1000)
           * ((101 # 100) - 1).
Proof. split; [vm_compute; reflexivity|vm_compute; reflexivity]. Qed.

(** ** path.FloydWarshall with rounded sums *)

(** With the exact sum the model is the one above. *)
Lemma FloydWarshall_fl_exact (again : bool) (g : IG) (now : Time)
    (vs vr va : list Vertex) :
  FloydWarshall_fl Qplus again g now vs vr va
  = FloydWarshall again g now vs vr va.
Proof. reflexivity. Qed.

Lemma float_addition_exact : float_addition (fun _ => True) Qplus.
Proof.
  split; try (intros; exact I).
  - intros a a' b b' _ _ _ _ _ Ha _ _ Hb _. lra.
  - intros a _. lra.
  - intros b _. lra.
Qed.

Lemma fw_relax_fl_cases (fadd : Q → Q → Q) (k i j : Vertex) (d : DistTable)
    (n : NextHopTable) :
  fw_relax_fl fadd k i (d, n) j = (d, n)
  ∨ (dist_at d i k < Infinity ∧ dist_at d k j < Infinity
     ∧ fadd (dist_at d i k) (dist_at d k j) < dist_at d i j
     ∧ fw_relax_fl fadd k i (d, n) j
       = (insert2 i j (fadd (dist_at d i k) (dist_at d k j)) d,
          insert2 i j (next_at n i k) n)).
Proof.
  unfold fw_relax_fl.
  destruct (Qltb (dist_at d i k) Infinity) eqn:E1; [|now left].
  destruct (Qltb (dist_at d k j) Infinity) eqn:E2; [|now left]. simpl.
  destruct (Qltb (fadd (dist_at d i k) (dist_at d k j)) (dist_at d i j)) eqn:E3;
    [|now left].
  right. apply Qltb_lt in E1, E2, E3. auto.
Qed.

Lemma fw_loop_fl_invariant (fadd : Q → Q → Q)
    (P : DistTable * NextHopTable → Prop)
    (vs : list Vertex) (st : DistTable * NextHopTable) :
  P st →
  (∀ k i j st, k ∈ vs → i ∈ vs → j ∈ vs → P st →
               P (fw_relax_fl fadd k i st j)) →
  P (fw_loop_fl fadd vs st).
Proof.
  intros Hst Hstep. unfold fw_loop_fl.
  apply foldl_invariant; [exact Hst|]. intros st1 k Hk H1. unfold fw_round_fl.
  apply foldl_invariant; [exact H1|]. intros st2 i Hi H2.
  apply foldl_invariant; [exact H2|]. intros st3 j Hj H3. now apply Hstep.
Qed.

Section CellsOk.

Variables (is_float : Q → Prop) (fadd : Q → Q → Q).
Hypothesis Hfa : float_addition is_float fadd.
Variables (g : IG) (now : Time) (vs : list Vertex).
Hypothesis W_float : ∀ a b, is_float (Weight g now a b).
Hypothesis W_nonneg : ∀ a b, 0 <= Weight g now a b.

Lemma fadd_zero_l' (a b : Q) :
  is_float a → is_float b → a == 0 → 0 <= b < Infinity → fadd a b == b.
Proof.
  intros Ha Hb E [Hb0 HbI]. pose proof (fa_zero _ _ Hfa) as H0.
  pose proof (fa_zero_l _ _ Hfa b Hb) as E0.
  assert (0 < Infinity) as Hpos by reflexivity.
  pose proof (fa_mono _ _ Hfa a 0 b b Ha H0 Hb Hb ltac:(lra) ltac:(lra) Hpos
                Hb0 ltac:(lra) HbI).
  pose proof (fa_mono _ _ Hfa 0 a b b H0 Ha Hb Hb ltac:(lra) ltac:(lra)
                ltac:(lra) Hb0 ltac:(lra) HbI).
  lra.
Qed.

Lemma fadd_ge_l (a b : Q) :
  is_float a → is_float b → 0 <= a < Infinity → 0 <= b < Infinity →
  a <= fadd a b.
Proof.
  intros Ha Hb [Ha0 HaI] [Hb0 HbI]. pose proof (fa_zero _ _ Hfa) as H0.
  pose proof (fa_zero_r _ _ Hfa a Ha) as E0.
  pose proof (fa_mono _ _ Hfa a a 0 b Ha Ha H0 Hb Ha0 ltac:(lra) HaI
                ltac:(lra) Hb0 HbI).
  lra.
Qed.

(** The tables of the initialisation. *)
Lemma cells_ok_init (d : DistTable) (n : NextHopTable) :
  (∀ a b, a ∈ vs → dist_at d a b = init_dist g now vs a b) →
  (∀ a b, a ∈ vs → next_at n a b = init_next g now a b) →
  (∀ a, is_Some (d !! a) ↔ a ∈ vs) →
  cells_ok is_float g now vs (d, n).
Proof.
  intros Hd Hn Hrows. split; [intros a Ha; now apply Hrows|].
  intros i j Hi Hj. unfold cell_ok. cbn [fst snd].
  rewrite (Hd i j Hi), (Hn i j Hi). unfold init_dist, init_next.
  pose proof (fa_zero _ _ Hfa) as H0. pose proof (fa_Infinity _ _ Hfa) as HI.
  assert (0 < Infinity) as Hpos by reflexivity.
  destruct (decide (i = j)) as [->|Hne].
  - rewrite Weight_diag. split_and!.
    + exact H0.
    + lra.
    + lra.
    + lra.
    + intros _. reflexivity.
    + intros _. apply rtc_refl.
    + destruct (decide (is_Some (lookup2 (edges g) j j))).
      * rewrite Weight_diag. split_and!; [exact Hj|lra|lra|lra].
      * intros Hc. contradiction.
  - destruct (Qltb (Weight g now i j) Infinity) eqn:E.
    + apply Qltb_lt in E. pose proof (W_nonneg i j). split_and!.
      * apply W_float.
      * lra.
      * lra.
      * lra.
      * intros Hc. contradiction.
      * intros _. apply rtc_once. exact E.
      * exact Hj.
      * exact E.
      * lra.
      * exact E.
    + apply Qltb_ge in E. rewrite decide_True by exact Hj. split_and!.
      * exact HI.
      * lra.
      * lra.
      * exact E.
      * intros Hc. contradiction.
      * intros Hc. lra.
      * intros _. reflexivity.
Qed.

(** One step of the innermost loop keeps them. *)
Lemma cells_ok_relax (k i j : Vertex) (st : DistTable * NextHopTable) :
  k ∈ vs → i ∈ vs → j ∈ vs →
  cells_ok is_float g now vs st →
  cells_ok is_float g now vs (fw_relax_fl fadd k i st j).
Proof.
  intros Hk Hi Hj [Hrows Hcells]. destruct st as [d n].
  destruct (fw_relax_fl_cases fadd k i j d n)
    as [->|(Hik & Hkj & Hlt & ->)]; [now split|].
  destruct (Hcells i k Hi Hk) as (Fik & Pik & _ & _ & _ & Cik & Nik).
  destruct (Hcells k j Hk Hj) as (Fkj & Pkj & _ & _ & Zkj & Ckj & _).
  destruct (Hcells i j Hi Hj) as (Fij & Pij & Iij & Wij & Zij & _ & _).
  cbn [fst snd] in *.
  set (s := fadd (dist_at d i k) (dist_at d k j)) in *.
  assert (is_float s) as Fs by (apply (fa_closed _ _ Hfa); auto).
  assert (dist_at d i k <= s) as Hge by (apply fadd_ge_l; auto).
  split.
  { intros a [row Ha]. cbn [fst] in Ha. unfold insert2 in Ha.
    destruct (decide (a = i)) as [->|Hai]; [exact Hi|].
    rewrite lookup_insert_ne in Ha by congruence. apply Hrows. eauto. }
  intros a b Ha Hb. unfold cell_ok. cbn [fst snd].
  rewrite dist_at_insert2, next_at_insert2.
  destruct (decide (a = i ∧ b = j)) as [[-> ->]|Hne];
    [|exact (Hcells a b Ha Hb)].
  assert (i ≠ j) as Hij.
  { intros ->. specialize (Zij eq_refl). lra. }
  assert (i ≠ k) as Hik'.
  { intros ->. specialize (Hcells k k Hk Hk) as (_ & _ & _ & _ & Zkk & _).
    cbn [fst] in Zkk. specialize (Zkk eq_refl).
    pose proof (fadd_zero_l' _ _ Fik Fkj Zkk (conj Pkj Hkj)) as E.
    fold s in E. lra. }
  split_and!.
  - exact Fs.
  - lra.
  - lra.
  - lra.
  - intros Hc. contradiction.
  - intros _. etransitivity; [now apply Cik|now apply Ckj].
  - destruct (next_at n i k) as [m|].
    + destruct Nik as (Hm & Wm & Wd & _). split_and!; [exact Hm|lra|lra|lra].
    + specialize (Nik Hik'). lra.
Qed.

Lemma cells_ok_loop (st : DistTable * NextHopTable) :
  cells_ok is_float g now vs st →
  cells_ok is_float g now vs (fw_loop_fl fadd vs st).
Proof.
  intros H. apply fw_loop_fl_invariant; [exact H|].
  intros k i j st' Hk Hi Hj. now apply cells_ok_relax.
Qed.

(** A call on a graph without negative weights: no negative cycle is found,
    and the cells of the returned tables are as above. *)
Lemma FloydWarshall_fl_cells (again : bool) (vr va : list Vertex) :
  ∃ dist next g',
    FloydWarshall_fl fadd again g now vs vr va = (dist, next, None, g')
    ∧ cells_ok is_float g now vs (dist, next).
Proof.
  destruct (fw_init_spec g now vs) as (d0 & n0 & g0 & Hinit & _ & Hd & Hn & _ & Hrows).
  pose proof (cells_ok_loop (d0, n0) (cells_ok_init d0 n0 Hd Hn Hrows)) as Hok.
  destruct (fw_loop_fl fadd vs (d0, n0)) as [d n] eqn:Hloop.
  assert (fw_run_fl fadd g now vs = (d, n, g0)) as Hrun.
  { unfold fw_run_fl. now rewrite Hinit, Hloop. }
  assert (negative_cycle d = false) as Hneg.
  { destruct (negative_cycle d) eqn:E; [|reflexivity]. exfalso.
    apply negative_cycle_true in E as (a & Ha & Hlt).
    destruct Hok as [Hr Hc]. specialize (Hr a Ha).
    destruct (Hc a a Hr Hr) as (_ & Hnn & _). cbn [fst] in Hnn. lra. }
  exists d, n, g0. split; [|exact Hok].
  unfold FloydWarshall_fl, FloydWarshall_again_fl. rewrite Hrun, Hneg.
  now destruct again.
Qed.

End CellsOk.

(** Whatever the rounding, the first hop of a route is a live link that
    costs no more than the whole route.  For every addition that rounds as
    [float_addition] says (the one of [float64] and the exact one do), on a
    graph whose weights are not negative [FloydWarshall] reports no error,
    and whenever the returned table gives [m] as the next hop from [u]
    towards [v], [m] is a vertex, the link from [u] to [m] has a weight
    below [Infinity], and that weight is at most [dist[u][v]], which is
    below [Infinity] as well. *)
Theorem FloydWarshall_first_hop (is_float : Q → Prop) (fadd : Q → Q → Q)
    (again : bool) (g : IG) (now : Time) (vs vr va : list Vertex) :
  float_addition is_float fadd →
  is_range_order vs (Vert g) →
  (∀ a b, is_float (Weight g now a b)) →
  (∀ a b, 0 <= Weight g now a b) →
  ∃ dist next g',
    FloydWarshall_fl fadd again g now vs vr va = (dist, next, None, g')
    ∧ ∀ u v m, is_Some (Vert g !! u) → is_Some (Vert g !! v) →
        next_at next u v = Some m →
        is_Some (Vert g !! m)
        ∧ Weight g now u m < Infinity
        ∧ Weight g now u m <= dist_at dist u v
        ∧ dist_at dist u v < Infinity.
Proof.
  intros Hfa [_ Hvs] Hfl Hnn.
  destruct (FloydWarshall_fl_cells is_float fadd Hfa g now vs Hfl Hnn again
              vr va) as (dist & next & g' & HFW & _ & Hcells).
  exists dist, next, g'. split; [exact HFW|].
  intros u v m Hu Hv Hm. apply Hvs in Hu, Hv.
  destruct (Hcells u v Hu Hv) as (_ & _ & _ & _ & _ & _ & Hnext).
  cbn [fst snd] in Hnext. rewrite Hm in Hnext.
  destruct Hnext as (Hin & H1 & H2 & H3). apply Hvs in Hin. auto.
Qed.

(** Whatever the rounding, a distance is never worse than the direct
    measurement.  Under the same conditions, for all vertices [u] and [v],
    [dist[u][v]] lies between 0 and [Infinity] and is at most
    [Weight(u,v)]; [dist[u][u]] is 0; and two different vertices with a
    direct link of weight below [Infinity] always get a route. *)
Theorem FloydWarshall_dist_bounds (is_float : Q → Prop) (fadd : Q → Q → Q)
    (again : bool) (g : IG) (now : Time) (vs vr va : list Vertex) :
  float_addition is_float fadd →
  is_range_order vs (Vert g) →
  (∀ a b, is_float (Weight g now a b)) →
  (∀ a b, 0 <= Weight g now a b) →
  ∃ dist next g',
    FloydWarshall_fl fadd again g now vs vr va = (dist, next, None, g')
    ∧ ∀ u v, is_Some (Vert g !! u) → is_Some (Vert g !! v) →
        0 <= dist_at dist u v
        ∧ dist_at dist u v <= Infinity
        ∧ dist_at dist u v <= Weight g now u v
        ∧ dist_at dist u u == 0
        ∧ (u ≠ v → Weight g now u v < Infinity → next_at next u v ≠ None).
Proof.
  intros Hfa [_ Hvs] Hfl Hnn.
  destruct (FloydWarshall_fl_cells is_float fadd Hfa g now vs Hfl Hnn again
              vr va) as (dist & next & g' & HFW & _ & Hcells).
  exists dist, next, g'. split; [exact HFW|].
  intros u v Hu Hv. apply Hvs in Hu, Hv.
  destruct (Hcells u v Hu Hv) as (_ & H1 & H2 & H3 & _ & _ & Hnext).
  destruct (Hcells u u Hu Hu) as (_ & _ & _ & _ & Hd & _).
  cbn [fst snd] in *. split_and!; try assumption.
  - now apply Hd.
  - intros Hne Hlt Hnil. rewrite Hnil in Hnext. specialize (Hnext Hne). lra.
Qed.

(** Whatever the rounding, nil means [Infinity], and neither is given to
    vertices that no chain of links joins.  Under the same conditions, for
    two different vertices, [next[u][v]] is nil exactly when [dist[u][v]]
    is [Infinity]; a distance below [Infinity] is only given to vertices
    joined by a chain of links of weight below [Infinity], so two vertices
    that no such chain joins have no route and the distance [Infinity]. *)
Theorem FloydWarshall_nil_iff_Infinity (is_float : Q → Prop)
    (fadd : Q → Q → Q) (again : bool) (g : IG) (now : Time)
    (vs vr va : list Vertex) :
  float_addition is_float fadd →
  is_range_order vs (Vert g) →
  (∀ a b, is_float (Weight g now a b)) →
  (∀ a b, 0 <= Weight g now a b) →
  ∃ dist next g',
    FloydWarshall_fl fadd again g now vs vr va = (dist, next, None, g')
    ∧ ∀ u v, is_Some (Vert g !! u) → is_Some (Vert g !! v) → u ≠ v →
        (next_at next u v = None ↔ dist_at dist u v == Infinity)
        ∧ (dist_at dist u v < Infinity → connected g now u v)
        ∧ (¬ connected g now u v →
           next_at next u v = None ∧ dist_at dist u v == Infinity).
Proof.
  intros Hfa [_ Hvs] Hfl Hnn.
  destruct (FloydWarshall_fl_cells is_float fadd Hfa g now vs Hfl Hnn again
              vr va) as (dist & next & g' & HFW & _ & Hcells).
  exists dist, next, g'. split; [exact HFW|].
  intros u v Hu Hv Hne. apply Hvs in Hu, Hv.
  destruct (Hcells u v Hu Hv) as (_ & _ & H2 & _ & _ & Hconn & Hnext).
  cbn [fst snd] in *.
  assert (next_at next u v = None ↔ dist_at dist u v == Infinity) as Hiff.
  { destruct (next_at next u v) as [m|].
    - split; [discriminate|]. intros E. destruct Hnext as (_ & _ & _ & Hlt).
      lra.
    - split; [intros _; now apply Hnext|reflexivity]. }
  split; [exact Hiff|]. split; [exact Hconn|].
  intros Hno.
  assert (dist_at dist u v == Infinity) as E.
  { destruct (Qlt_le_dec (dist_at dist u v) Infinity) as [Hlt|Hge].
    - exfalso. now apply Hno, Hconn.
    - lra. }
  split; [now apply Hiff|exact E].
Qed.

(** With the addition of [float64] the tables depend on the order in which
    the vertices are ranged.  On the line with 0.1 s, 0.2 s and 0.3 s the
    distance from 1 to 4 is 0.6000000000000001 when vertex 2 has its round
    before vertex 3 and 0.6 when it has it after. *)
Example FloydWarshall_fl_range_order :
  dist_at
    (FloydWarshall_fl fadd64 false
       (graph64_line 100000000%Z 200000000%Z 300000000%Z) 0%Z
       [2%N; 3%N; 1%N; 4%N] [] []).1.1.1 1%N 4%N
  == Float64.to_Q (S754_finite false 5404319552844596 (-53))
  ∧ dist_at
      (FloydWarshall_fl fadd64 false
         (graph64_line 100000000%Z 200000000%Z 300000000%Z) 0%Z
         [3%N; 2%N; 1%N; 4%N] [] []).1.1.1 1%N 4%N
    == Float64.to_Q (S754_finite false 5404319552844595 (-53)).
Proof. split; vm_compute; reflexivity. Qed.

(** Close to [Infinity] the order decides whether there is a route: the
    three links add up to 99998.99999999999 one way and to 99999 the
    other. *)
Example FloydWarshall_fl_route_by_order :
  next_at
    (FloydWarshall_fl fadd64 false
       (graph64_line 48029352822007%Z 47610485709718%Z 4359161468275%Z) 0%Z
       [2%N; 3%N; 1%N; 4%N] [] []).1.1.2 1%N 4%N = Some 2%N
  ∧ next_at
      (FloydWarshall_fl fadd64 false
         (graph64_line 48029352822007%Z 47610485709718%Z 4359161468275%Z) 0%Z
         [3%N; 2%N; 1%N; 4%N] [] []).1.1.2 1%N 4%N = None.
Proof. split; vm_compute; reflexivity. Qed.

(** ** Rounding to 53 bits is an addition of floats *)

Lemma pow2_pos (z : Z) : 0 < 2 ^ z.
Proof. now apply Qpower_0_lt. Qed.

Lemma pow2_plus (a b : Z) : 2 ^ (a + b) == 2 ^ a * 2 ^ b.
Proof. now apply Qpower_plus. Qed.

Lemma pow2_le (a b : Z) : (a <= b)%Z → 2 ^ a <= 2 ^ b.
Proof. intros H. apply Qpower_le_compat_l; [exact H|discriminate]. Qed.

Lemma pow2_lt (a b : Z) : (a < b)%Z → 2 ^ a < 2 ^ b.
Proof. intros H. apply Qpower_lt_compat_l; [exact H|reflexivity]. Qed.

Lemma pow2_Z (n : Z) : (0 <= n)%Z → inject_Z (2 ^ n) == 2 ^ n.
Proof. intros H. now rewrite Zpower_Qpower. Qed.

Lemma pow2_cancel (z : Z) : 2 ^ (- z) * 2 ^ z == 1.
Proof. rewrite <- pow2_plus. now replace (- z + z)%Z with 0%Z by lia. Qed.

(** *** The exponent *)

Lemma ilog2_spec (q : Q) :
  0 < q → 2 ^ ilog2 q <= q ∧ q < 2 ^ (ilog2 q + 1).
Proof.
  intros Hq. unfold ilog2.
  set (c := (Z.log2 (Qnum q) - Z.log2 (Z.pos (Qden q)))%Z).
  assert (2 ^ (c - 1) <= q ∧ q < 2 ^ (c + 1)) as [Hlo Hhi].
  { destruct q as [n d]. cbn [Qnum Qden] in c.
    assert (0 < n)%Z as Hn.
    { unfold Qlt in Hq. simpl in Hq. lia. }
    destruct (Z.log2_spec n Hn) as [Hn1 Hn2].
    destruct (Z.log2_spec (Z.pos d) ltac:(lia)) as [Hd1 Hd2].
    pose proof (Z.log2_nonneg n) as Hln.
    pose proof (Z.log2_nonneg (Z.pos d)) as Hld.
    set (ln := Z.log2 n) in *. set (ld := Z.log2 (Z.pos d)) in *.
    assert (2 ^ ln <= inject_Z n) as Qn1.
    { rewrite <- pow2_Z by lia. now rewrite <- Zle_Qle. }
    assert (inject_Z n < 2 ^ (ln + 1)) as Qn2.
    { rewrite <- pow2_Z by lia. rewrite <- Zlt_Qlt.
      now replace (ln + 1)%Z with (Z.succ ln) by lia. }
    assert (2 ^ ld <= inject_Z (Z.pos d)) as Qd1.
    { rewrite <- pow2_Z by lia. now rewrite <- Zle_Qle. }
    assert (inject_Z (Z.pos d) < 2 ^ (ld + 1)) as Qd2.
    { rewrite <- pow2_Z by lia. rewrite <- Zlt_Qlt.
      now replace (ld + 1)%Z with (Z.succ ld) by lia. }
    assert ((n # d) * inject_Z (Z.pos d) == inject_Z n) as Eq.
    { unfold Qeq, Qmult, inject_Z. simpl. rewrite Pos.mul_1_r. ring. }
    assert (0 < inject_Z (Z.pos d)) as Dpos.
    { unfold Qlt, inject_Z. simpl. lia. }
    pose proof (pow2_pos (c - 1)) as P1. pose proof (pow2_pos (c + 1)) as P2.
    pose proof (pow2_pos ld) as P3.
    assert (2 ^ ln == 2 ^ (c - 1) * 2 ^ (ld + 1)) as E1.
    { rewrite <- pow2_plus. now replace (c - 1 + (ld + 1))%Z with ln by (unfold c, ln, ld; lia). }
    assert (2 ^ (ln + 1) == 2 ^ (c + 1) * 2 ^ ld) as E2.
    { rewrite <- pow2_plus. now replace (c + 1 + ld)%Z with (ln + 1)%Z by (unfold c, ln, ld; lia). }
    split.
    - apply Qnot_lt_le. intros Hc.
      assert ((n # d) * inject_Z (Z.pos d)
              < 2 ^ (c - 1) * 2 ^ (ld + 1)) as Hx; [|lra].
      apply Qle_lt_trans with (2 ^ (c - 1) * inject_Z (Z.pos d)).
      + apply Qmult_le_compat_r; lra.
      + apply Qmult_lt_l; lra.
    - apply Qnot_le_lt. intros Hc.
      assert (2 ^ (c + 1) * 2 ^ ld
              <= (n # d) * inject_Z (Z.pos d)) as Hx; [|lra].
      apply Qle_trans with (2 ^ (c + 1) * inject_Z (Z.pos d)).
      + apply Qmult_le_l; lra.
      + apply Qmult_le_compat_r; lra. }
  destruct (Qle_bool (2 ^ c) q) eqn:E.
  - apply Qle_bool_iff in E. split; [exact E|exact Hhi].
  - split; [exact Hlo|]. replace (c - 1 + 1)%Z with c by lia.
    apply Qnot_le_lt. intros Hc. apply Qle_bool_iff in Hc. congruence.
Qed.

Lemma ilog2_unique (q : Q) (e : Z) :
  2 ^ e <= q → q < 2 ^ (e + 1) → ilog2 q = e.
Proof.
  intros H1 H2.
  assert (0 < q) as Hq by (pose proof (pow2_pos e); lra).
  destruct (ilog2_spec q Hq) as [H3 H4].
  destruct (Z.lt_trichotomy (ilog2 q) e) as [Hlt|[Heq|Hgt]]; [|exact Heq|].
  - pose proof (pow2_le (ilog2 q + 1) e ltac:(lia)). lra.
  - pose proof (pow2_le (e + 1) (ilog2 q) ltac:(lia)). lra.
Qed.

Lemma ilog2_comp (q q' : Q) : 0 < q → q == q' → ilog2 q = ilog2 q'.
Proof.
  intros Hq E. destruct (ilog2_spec q Hq) as [H1 H2].
  symmetry. apply ilog2_unique; lra.
Qed.

Lemma ilog2_mono (q q' : Q) : 0 < q → q <= q' → (ilog2 q <= ilog2 q')%Z.
Proof.
  intros Hq Hle. destruct (ilog2_spec q Hq) as [H1 _].
  destruct (ilog2_spec q' ltac:(lra)) as [_ H2].
  destruct (Z_le_gt_dec (ilog2 q) (ilog2 q')) as [?|Hgt]; [assumption|].
  pose proof (pow2_le (ilog2 q' + 1) (ilog2 q) ltac:(lia)). lra.
Qed.

(** *** The nearest integer *)

Lemma rne_cases (m : Q) : rne m = Qfloor m ∨ rne m = (Qfloor m + 1)%Z.
Proof.
  unfold rne. destruct (Qcompare _ _); [|now left|now right].
  destruct (Z.even _); [now left|now right].
Qed.

Lemma rne_comp (m m' : Q) : m == m' → rne m = rne m'.
Proof.
  intros E. unfold rne. rewrite (Qfloor_comp _ _ E).
  assert (m - inject_Z (Qfloor m') == m' - inject_Z (Qfloor m')) as E'
    by (now rewrite E).
  now rewrite (Qcompare_comp _ _ E' (1 # 2) (1 # 2) (Qeq_refl _)).
Qed.

Lemma rne_Z (z : Z) : rne (inject_Z z) = z.
Proof.
  unfold rne. rewrite Qfloor_Z.
  assert (Qcompare (inject_Z z - inject_Z z) (1 # 2) = Lt) as ->;
    [|reflexivity].
  apply (proj1 (Qlt_alt _ _)). lra.
Qed.

Lemma rne_ge (m : Q) (a : Z) : inject_Z a <= m → (a <= rne m)%Z.
Proof.
  intros H. pose proof (Qfloor_resp_le _ _ H) as Hf. rewrite Qfloor_Z in Hf.
  destruct (rne_cases m) as [-> | ->]; lia.
Qed.

Lemma rne_le (m : Q) (b : Z) : m <= inject_Z b → (rne m <= b)%Z.
Proof.
  intros H. pose proof (Qfloor_resp_le _ _ H) as Hf. rewrite Qfloor_Z in Hf.
  destruct (Z.eq_dec (Qfloor m) b) as [E|Hne].
  - pose proof (Qfloor_le m) as Hlo. rewrite E in Hlo.
    assert (m == inject_Z b) as Em by lra.
    rewrite (rne_comp _ _ Em), rne_Z. lia.
  - destruct (rne_cases m) as [-> | ->]; lia.
Qed.

Lemma rne_mono (m m' : Q) : m <= m' → (rne m <= rne m')%Z.
Proof.
  intros H. pose proof (Qfloor_resp_le _ _ H) as Hf.
  destruct (Z.eq_dec (Qfloor m) (Qfloor m')) as [E|Hne].
  - unfold rne. rewrite E.
    destruct (Qcompare_spec (m' - inject_Z (Qfloor m')) (1 # 2));
      destruct (Qcompare_spec (m - inject_Z (Qfloor m')) (1 # 2));
      try (destruct (Z.even (Qfloor m'))); first [lia | exfalso; lra].
  - pose proof (rne_cases m). pose proof (rne_cases m'). lia.
Qed.

(** *** Rounding *)

Lemma round53_pos_bounds (q : Q) :
  0 < q →
  2 ^ ilog2 q <= round53_pos q ∧ round53_pos q <= 2 ^ (ilog2 q + 1).
Proof.
  intros Hq. destruct (ilog2_spec q Hq) as [H1 H2]. unfold round53_pos.
  set (e := ilog2 q) in *. set (s := (e - 52)%Z).
  pose proof (pow2_pos s) as Ps. pose proof (pow2_pos (- s)) as Pms.
  pose proof (pow2_cancel s) as Ec.
  assert (2 ^ e == 2 ^ 52 * 2 ^ s) as E1.
  { rewrite <- pow2_plus. now replace (52 + s)%Z with e by (unfold s; lia). }
  assert (2 ^ (e + 1) == 2 ^ 53 * 2 ^ s) as E2.
  { rewrite <- pow2_plus.
    now replace (53 + s)%Z with (e + 1)%Z by (unfold s; lia). }
  assert (inject_Z (2 ^ 52) <= q * 2 ^ (- s)) as Hlo.
  { rewrite pow2_Z by lia.
    apply Qle_trans with (2 ^ e * 2 ^ (- s)).
    - rewrite E1. rewrite <- Qmult_assoc, (Qmult_comm (2 ^ s)), Ec. lra.
    - apply Qmult_le_compat_r; lra. }
  assert (q * 2 ^ (- s) <= inject_Z (2 ^ 53)) as Hhi.
  { rewrite pow2_Z by lia.
    apply Qle_trans with (2 ^ (e + 1) * 2 ^ (- s)).
    - apply Qmult_le_compat_r; lra.
    - rewrite E2. rewrite <- Qmult_assoc, (Qmult_comm (2 ^ s)), Ec. lra. }
  apply rne_ge in Hlo. apply rne_le in Hhi.
  rewrite Zle_Qle in Hlo, Hhi. rewrite pow2_Z in Hlo, Hhi by lia.
  rewrite E1, E2. split; apply Qmult_le_compat_r; lra.
Qed.

Lemma round53_pos_comp (q q' : Q) :
  0 < q → q == q' → round53_pos q == round53_pos q'.
Proof.
  intros Hq E. unfold round53_pos. rewrite <- (ilog2_comp q q' Hq E).
  assert (q * 2 ^ (- (ilog2 q - 52)) == q' * 2 ^ (- (ilog2 q - 52))) as Em
    by (apply Qmult_comp; [exact E|reflexivity]).
  now rewrite (rne_comp _ _ Em).
Qed.

Lemma round53_pos_mono (q q' : Q) :
  0 < q → q <= q' → round53_pos q <= round53_pos q'.
Proof.
  intros Hq Hle. assert (0 < q') as Hq' by lra.
  pose proof (ilog2_mono q q' Hq Hle) as He.
  destruct (Z.eq_dec (ilog2 q) (ilog2 q')) as [E|Hne].
  - unfold round53_pos. rewrite <- E.
    pose proof (pow2_pos (ilog2 q - 52)). pose proof (pow2_pos (- (ilog2 q - 52))).
    apply Qmult_le_compat_r; [|lra]. rewrite <- Zle_Qle.
    apply rne_mono. apply Qmult_le_compat_r; lra.
  - destruct (round53_pos_bounds q Hq) as [_ H1].
    destruct (round53_pos_bounds q' Hq') as [H2 _].
    pose proof (pow2_le (ilog2 q + 1) (ilog2 q') ltac:(lia)). lra.
Qed.

Lemma round53_pos_idem (q : Q) :
  0 < q → round53_pos (round53_pos q) == round53_pos q.
Proof.
  intros Hq. destruct (round53_pos_bounds q Hq) as [H1 H2].
  set (e := ilog2 q) in *.
  destruct (Qlt_le_dec (round53_pos q) (2 ^ (e + 1))) as [Hlt|Hge].
  - pose proof (ilog2_unique _ _ H1 Hlt) as He.
    unfold round53_pos at 1. rewrite He. unfold round53_pos. fold e.
    set (s := (e - 52)%Z). set (n := rne (q * 2 ^ (- s))).
    assert (inject_Z n * 2 ^ s * 2 ^ (- s) == inject_Z n) as Em.
    { rewrite <- Qmult_assoc, (Qmult_comm (2 ^ s)), pow2_cancel. lra. }
    now rewrite (rne_comp _ _ Em), rne_Z.
  - assert (round53_pos q == 2 ^ (e + 1)) as Er by lra.
    assert (ilog2 (round53_pos q) = (e + 1)%Z) as He.
    { apply ilog2_unique; [lra|]. rewrite Er. apply pow2_lt. lia. }
    rewrite Er at 2. unfold round53_pos at 1. rewrite He.
    set (s := (e + 1 - 52)%Z).
    assert (round53_pos q * 2 ^ (- s) == inject_Z (2 ^ 52)) as Em.
    { rewrite Er, pow2_Z by lia. rewrite <- pow2_plus.
      now replace (e + 1 + - s)%Z with 52%Z by (unfold s; lia). }
    rewrite (rne_comp _ _ Em), rne_Z, pow2_Z by lia.
    rewrite <- pow2_plus.
    now replace (52 + s)%Z with (e + 1)%Z by (unfold s; lia).
Qed.

Lemma round53_nonneg (q : Q) : 0 <= q → 0 <= round53 q.
Proof.
  intros Hq. unfold round53. destruct (Qcompare_spec q 0) as [E|Hlt|Hgt].
  - lra.
  - lra.
  - destruct (round53_pos_bounds q Hgt) as [H _].
    pose proof (pow2_pos (ilog2 q)). lra.
Qed.

Lemma round53_comp (q q' : Q) : q == q' → round53 q == round53 q'.
Proof.
  intros E. unfold round53.
  rewrite (Qcompare_comp _ _ E 0 0 (Qeq_refl 0)).
  destruct (Qcompare_spec q' 0) as [E0|Hlt|Hgt].
  - reflexivity.
  - apply Qopp_comp. apply round53_pos_comp; lra.
  - apply round53_pos_comp; lra.
Qed.

Lemma round53_mono (q q' : Q) :
  0 <= q → q <= q' → round53 q <= round53 q'.
Proof.
  intros Hq Hle. pose proof (round53_nonneg q' ltac:(lra)) as Hn'.
  unfold round53 in *. destruct (Qcompare_spec q 0) as [E|Hlt|Hgt].
  - exact Hn'.
  - lra.
  - destruct (Qcompare_spec q' 0) as [E'|Hlt'|Hgt'].
    + lra.
    + lra.
    + now apply round53_pos_mono.
Qed.

Lemma round53_idem (q : Q) : 0 <= q → round53 (round53 q) == round53 q.
Proof.
  intros Hq. unfold round53 at 2 3.
  destruct (Qcompare_spec q 0) as [E|Hlt|Hgt].
  - reflexivity.
  - lra.
  - destruct (round53_pos_bounds q Hgt) as [H _].
    pose proof (pow2_pos (ilog2 q)) as Hp.
    unfold round53. destruct (Qcompare_spec (round53_pos q) 0) as [E'|Hlt'|Hgt'].
    + lra.
    + lra.
    + now apply round53_pos_idem.
Qed.

Lemma is_float53b_correct (q : Q) : is_float53b q = true → is_float53 q.
Proof.
  unfold is_float53b. rewrite andb_true_iff. intros [H1 H2].
  split; [now apply Qle_bool_iff|now apply Qeq_bool_iff].
Qed.

(** The rounded sum has all that [float_addition] asks for. *)
Lemma float_addition_round53 : float_addition is_float53 fadd53.
Proof.
  split.
  - apply is_float53b_correct. vm_compute. reflexivity.
  - apply is_float53b_correct. vm_compute. reflexivity.
  - intros a b _ _ [Ha _] [Hb _]. unfold fadd53. split.
    + apply round53_nonneg. lra.
    + apply round53_idem. lra.
  - intros a a' b b' _ _ _ _ Ha Haa _ Hb Hbb _. unfold fadd53.
    apply round53_mono; lra.
  - intros a [_ Ha]. unfold fadd53.
    rewrite (round53_comp (a + 0) a) by lra. exact Ha.
  - intros b [_ Hb]. unfold fadd53.
    rewrite (round53_comp (0 + b) b) by lra. exact Hb.
Qed.

Lemma weights_float53b_correct (g : IG) (now : Time) :
  weights_float53b g now = true → ∀ a b, is_float53 (Weight g now a b).
Proof.
  unfold weights_float53b. rewrite forallb_forall. intros H a b.
  destruct (lookup2 (edges g) a b) as [l|] eqn:Hl.
  - apply elem_of_cells, list_elem_of_In, H in Hl. simpl in Hl.
    now apply is_float53b_correct.
  - rewrite Weight_lookup2, Hl.
    destruct (decide (a = b)); apply is_float53b_correct;
      vm_compute; reflexivity.
Qed.

(** On these operands the rounded sum is the sum of binary64. *)
Definition sample_durations : list Duration :=
  [0; 1; 3; 292; 2000; 5050800; 100000000; 200000000; 300000000;
   4359161468275; 47610485709718; 48029352822007; 99998999999999]%Z.

Example fadd53_is_binary64 :
  forallb
    (fun a =>
       forallb
         (fun b =>
            Qeq_bool
              (fadd53 (Float64.to_Q (Float64.seconds a))
                 (Float64.to_Q (Float64.seconds b)))
              (fadd64 (Float64.to_Q (Float64.seconds a))
                 (Float64.to_Q (Float64.seconds b))))
         sample_durations)
    sample_durations
  = true.
Proof. vm_compute. reflexivity. Qed.

Lemma graph64_line_ok (d12 d23 d34 : Duration) :
  bool_decide (NoDup [2%N; 3%N; 1%N; 4%N]) = true →
  dom (Vert (graph64_line d12 d23 d34)) = list_to_set [2%N; 3%N; 1%N; 4%N] →
  weights_float53b (graph64_line d12 d23 d34) 0%Z = true →
  weights_nonnegb (graph64_line d12 d23 d34) 0%Z = true →
  is_range_order [2%N; 3%N; 1%N; 4%N] (Vert (graph64_line d12 d23 d34))
  ∧ (∀ a b, is_float53 (Weight (graph64_line d12 d23 d34) 0%Z a b))
  ∧ (∀ a b, 0 <= Weight (graph64_line d12 d23 d34) 0%Z a b).
Proof.
  intros Hnd Hdom Hfl Hnn. split; [|split].
  - apply is_range_order_dom; [now apply bool_decide_eq_true in Hnd|].
    now symmetry.
  - now apply weights_float53b_correct.
  - now apply weights_nonnegb_correct.
Qed.

(** The line with 0.1 s, 0.2 s and 0.3 s, the sums rounded as binary64
    rounds them. *)
Lemma FloydWarshall_first_hop_witness :
  ∃ dist next g',
    FloydWarshall_fl fadd53 false
      (graph64_line 100000000%Z 200000000%Z 300000000%Z) 0%Z
      [2%N; 3%N; 1%N; 4%N] [] []
    = (dist, next, None, g')
    ∧ ∀ u v m,
        is_Some (Vert (graph64_line 100000000%Z 200000000%Z 300000000%Z)
                   !! u) →
        is_Some (Vert (graph64_line 100000000%Z 200000000%Z 300000000%Z)
                   !! v) →
        next_at next u v = Some m →
        is_Some (Vert (graph64_line 100000000%Z 200000000%Z 300000000%Z)
                   !! m)
        ∧ Weight (graph64_line 100000000%Z 200000000%Z 300000000%Z) 0%Z u m
          < Infinity
        ∧ Weight (graph64_line 100000000%Z 200000000%Z 300000000%Z) 0%Z u m
          <= dist_at dist u v
        ∧ dist_at dist u v < Infinity.
Proof.
  apply (FloydWarshall_first_hop is_float53 fadd53 false
           (graph64_line 100000000%Z 200000000%Z 300000000%Z) 0%Z
           [2%N; 3%N; 1%N; 4%N] [] []).
  - exact float_addition_round53.
  - apply graph64_line_ok; vm_compute; reflexivity.
  - apply graph64_line_ok; vm_compute; reflexivity.
  - apply graph64_line_ok; vm_compute; reflexivity.
Defined.

Lemma FloydWarshall_dist_bounds_witness :
  ∃ dist next g',
    FloydWarshall_fl fadd53 false
      (graph64_line 100000000%Z 200000000%Z 300000000%Z) 0%Z
      [2%N; 3%N; 1%N; 4%N] [] []
    = (dist, next, None, g')
    ∧ ∀ u v,
        is_Some (Vert (graph64_line 100000000%Z 200000000%Z 300000000%Z)
                   !! u) →
        is_Some (Vert (graph64_line 100000000%Z 200000000%Z 300000000%Z)
                   !! v) →
        0 <= dist_at dist u v
        ∧ dist_at dist u v <= Infinity
        ∧ dist_at dist u v
          <= Weight (graph64_line 100000000%Z 200000000%Z 300000000%Z) 0%Z
               u v
        ∧ dist_at dist u u == 0
        ∧ (u ≠ v →
           Weight (graph64_line 100000000%Z 200000000%Z 300000000%Z) 0%Z u v
           < Infinity →
           next_at next u v ≠ None).
Proof.
  apply (FloydWarshall_dist_bounds is_float53 fadd53 false
           (graph64_line 100000000%Z 200000000%Z 300000000%Z) 0%Z
           [2%N; 3%N; 1%N; 4%N] [] []).
  - exact float_addition_round53.
  - apply graph64_line_ok; vm_compute; reflexivity.
  - apply graph64_line_ok; vm_compute; reflexivity.
  - apply graph64_line_ok; vm_compute; reflexivity.
Defined.

(** The line whose three links add up to [Infinity] or to just below it,
    by the order of the rounds. *)
Lemma FloydWarshall_nil_iff_Infinity_witness :
  ∃ dist next g',
    FloydWarshall_fl fadd53 false
      (graph64_line 48029352822007%Z 47610485709718%Z 4359161468275%Z) 0%Z
      [2%N; 3%N; 1%N; 4%N] [] []
    = (dist, next, None, g')
    ∧ ∀ u v,
        is_Some
          (Vert (graph64_line 48029352822007%Z 47610485709718%Z
                   4359161468275%Z) !! u) →
        is_Some
          (Vert (graph64_line 48029352822007%Z 47610485709718%Z
                   4359161468275%Z) !! v) →
        u ≠ v →
        (next_at next u v = None ↔ dist_at dist u v == Infinity)
        ∧ (dist_at dist u v < Infinity →
           connected
             (graph64_line 48029352822007%Z 47610485709718%Z 4359161468275%Z)
             0%Z u v)
        ∧ (¬ connected
               (graph64_line 48029352822007%Z 47610485709718%Z
                  4359161468275%Z) 0%Z u v →
           next_at next u v = None ∧ dist_at dist u v == Infinity).
Proof.
  apply (FloydWarshall_nil_iff_Infinity is_float53 fadd53 false
           (graph64_line 48029352822007%Z 47610485709718%Z 4359161468275%Z)
           0%Z [2%N; 3%N; 1%N; 4%N] [] []).
  - exact float_addition_round53.
  - apply graph64_line_ok; vm_compute; reflexivity.
  - apply graph64_line_ok; vm_compute; reflexivity.
  - apply graph64_line_ok; vm_compute; reflexivity.
Defined.
